(** * estee: task graphs, the simulation kernel and the scheduler mirror

    A shallow embedding of
      - [schedsim/common/task.py] and [schedsim/common/taskgraph.py]
        (module [TaskModel]),
      - [schedtk/simulator.py] (module [SchedTk]),
      - [estee/schedulers/scheduler.py] (module [Mirror]),
      - [schedsim/schedulers/genetic.py] (module [Genetic]) and
        [schedsim/common/imode.py] (module [Imode]),
    together with the properties of these programs that the specification
    states and further properties that the code shows.

    Python objects are compared by identity, and the programs mutate them
    in place.  Objects therefore live in arenas (lists indexed by
    reference), methods are computations in a state-and-exception monad,
    and an exception leaves the mutations done so far in place. *)

From Stdlib Require Import ZArith Lia.
From stdpp Require Import gmap strings list sorting.

Open Scope Z_scope.

#[global] Set Warnings "-clear-no-such-hyp".

(** ** Python exceptions and the state-and-exception monad *)

Module Py.

Inductive exn : Type :=
  | Exception (msg : string)
  | AssertionError
  | AttributeError (attr : string)
  | TypeError
  | IndexError
  | KeyError
  | ValueError
  | NotImplementedError
  | DanglingReference   (* a reference to no object: not a state of Python *)
  | OutOfFuel.          (* a loop cut short: not an exception of Python *)

Inductive outcome (A : Type) : Type :=
  | Ok (a : A)
  | Raise (e : exn).
Global Arguments Ok {A} a.
Global Arguments Raise {A} e.

Definition is_ok {A} (r : outcome A) : bool :=
  match r with Ok _ => true | Raise _ => false end.

Definition M (S A : Type) : Type := S → outcome A * S.

Definition ret {S A} (a : A) : M S A := λ s, (Ok a, s).

Definition bind {S A B} (m : M S A) (k : A → M S B) : M S B :=
  λ s, match m s with
       | (Ok a, s') => k a s'
       | (Raise e, s') => (Raise e, s')
       end.

Definition raise {S A} (e : exn) : M S A := λ s, (Raise e, s).
Definition get {S} : M S S := λ s, (Ok s, s).
Definition put {S} (s : S) : M S unit := λ _, (Ok tt, s).
Definition modify {S} (f : S → S) : M S unit := λ s, (Ok tt, f s).

(** A computation that reads the state, as a step of one that changes it. *)
Definition read {S A} (f : S → outcome A) : M S A := λ s, (f s, s).

(** [assert b] *)
Definition assert {S} (b : bool) : M S unit :=
  if b then ret tt else raise AssertionError.

(** [for x in l: body(x)] *)
Fixpoint for_each {S A} (l : list A) (body : A → M S unit) : M S unit :=
  match l with
  | [] => ret tt
  | x :: l' => bind (body x) (λ _, for_each l' body)
  end.

(** [[f(x) for x in l]] *)
Fixpoint map_m {S A B} (f : A → M S B) (l : list A) : M S (list B) :=
  match l with
  | [] => ret []
  | x :: l' => bind (f x) (λ y, bind (map_m f l') (λ ys, ret (y :: ys)))
  end.

End Py.

Import Py.

Declare Scope py_scope.
Delimit Scope py_scope with py.
Notation "x <- m ;; k" := (Py.bind m (λ x, k))
  (at level 100, m at next level, right associativity) : py_scope.
Notation "m ;;; k" := (Py.bind m (λ _, k))
  (at level 100, right associativity) : py_scope.
Open Scope py_scope.

(** Exceptions also propagate through code that only reads the heap;
    such code is written in the monad of outcomes. *)
#[global] Instance outcome_ret : MRet outcome := λ A a, Ok a.
#[global] Instance outcome_bind : MBind outcome := λ A B k r,
  match r with Ok a => k a | Raise e => Raise e end.

#[global] Instance outcome_fmap : FMap outcome := λ A B f r,
  match r with Ok a => Ok (f a) | Raise e => Raise e end.

Definition check (b : bool) : outcome unit :=
  if b then Ok tt else Raise AssertionError.

(** [for x in l: body(x)] for a body that only reads. *)
Fixpoint check_each {A} (l : list A) (body : A → outcome unit) : outcome unit :=
  match l with
  | [] => Ok tt
  | x :: l' => body x ;; check_each l' body
  end.

(** [x is None or x >= 0] *)
Definition none_or_nonneg (x : option Z) : bool :=
  match x with None => true | Some v => bool_decide (0 ≤ v) end.

(** ** Tasks, data objects and task graphs
    ([schedsim/common/task.py], [schedsim/common/taskgraph.py]) *)

Module TaskModel.

(** References to [Task], [TaskOutput] and [TaskGraph] objects: the index
    of the object in its arena. *)
Abbreviation tref := nat (only parsing).
Abbreviation oref := nat (only parsing).
Abbreviation gref := nat (only parsing).

(** Durations and sizes are Python numbers; the programs only copy them
    and compare them with zero, and they are taken to be integers. *)

Module TaskOutput.
Record t : Type := mk {
  parent : option tref;
  id : option nat;
  size : Z;
  consumers : gset tref;
  expected_size : option Z }.
Definition set_parent (p : option tref) (o : t) : t :=
  mk p (id o) (size o) (consumers o) (expected_size o).
Definition set_id (i : option nat) (o : t) : t :=
  mk (parent o) i (size o) (consumers o) (expected_size o).
Definition set_consumers (c : gset tref) (o : t) : t :=
  mk (parent o) (id o) (size o) c (expected_size o).
Definition set_expected_size (e : option Z) (o : t) : t :=
  mk (parent o) (id o) (size o) (consumers o) e.
End TaskOutput.

Module Task.
Record t : Type := mk {
  inputs : list oref;
  outputs : list oref;
  duration : Z;
  expected_duration : option Z;
  name : option string;
  id : option nat;
  cpus : Z }.
Definition set_inputs (l : list oref) (x : t) : t :=
  mk l (outputs x) (duration x) (expected_duration x) (name x) (id x) (cpus x).
Definition set_outputs (l : list oref) (x : t) : t :=
  mk (inputs x) l (duration x) (expected_duration x) (name x) (id x) (cpus x).
Definition set_id (i : option nat) (x : t) : t :=
  mk (inputs x) (outputs x) (duration x) (expected_duration x) (name x) i (cpus x).
Definition set_expected_duration (e : option Z) (x : t) : t :=
  mk (inputs x) (outputs x) (duration x) e (name x) (id x) (cpus x).
End Task.

Module TaskGraph.
Record t : Type := mk {
  tasks : list tref;
  outputs : list oref }.
End TaskGraph.

Record Heap : Type := mkHeap {
  task_objs : list Task.t;
  output_objs : list TaskOutput.t;
  graph_objs : list TaskGraph.t }.

Definition empty_heap : Heap := mkHeap [] [] [].

(** *** Reading, writing and allocating objects *)

Definition get_task (h : Heap) (r : tref) : outcome Task.t :=
  match task_objs h !! r with Some t => Ok t | None => Raise DanglingReference end.
Definition get_output (h : Heap) (r : oref) : outcome TaskOutput.t :=
  match output_objs h !! r with Some o => Ok o | None => Raise DanglingReference end.
Definition get_graph (h : Heap) (r : gref) : outcome TaskGraph.t :=
  match graph_objs h !! r with Some g => Ok g | None => Raise DanglingReference end.

Definition upd_task (r : tref) (f : Task.t → Task.t) : M Heap unit :=
  t <- read (λ h, get_task h r) ;;
  modify (λ h, mkHeap (<[r := f t]> (task_objs h)) (output_objs h) (graph_objs h)).
Definition upd_output (r : oref) (f : TaskOutput.t → TaskOutput.t) : M Heap unit :=
  o <- read (λ h, get_output h r) ;;
  modify (λ h, mkHeap (task_objs h) (<[r := f o]> (output_objs h)) (graph_objs h)).
Definition upd_graph (r : gref) (f : TaskGraph.t → TaskGraph.t) : M Heap unit :=
  g <- read (λ h, get_graph h r) ;;
  modify (λ h, mkHeap (task_objs h) (output_objs h) (<[r := f g]> (graph_objs h))).

Definition alloc_task (t : Task.t) : M Heap tref :=
  λ h, (Ok (length (task_objs h)),
        mkHeap (task_objs h ++ [t]) (output_objs h) (graph_objs h)).
Definition alloc_output (o : TaskOutput.t) : M Heap oref :=
  λ h, (Ok (length (output_objs h)),
        mkHeap (task_objs h) (output_objs h ++ [o]) (graph_objs h)).
Definition alloc_graph (g : TaskGraph.t) : M Heap gref :=
  λ h, (Ok (length (graph_objs h)),
        mkHeap (task_objs h) (output_objs h) (graph_objs h ++ [g])).

(** *** class TaskOutput *)

(** [TaskOutput.__init__(self, size, expected_size=None)] *)
Definition TaskOutput_init (size : Z) (expected_size : option Z) : M Heap oref :=
  assert (bool_decide (0 ≤ size)) ;;;
  assert (none_or_nonneg expected_size) ;;;
  alloc_output (TaskOutput.mk None None size ∅ expected_size).

(** *** class Task *)

(** An element of the [outputs] argument of [Task.__init__]: a number,
    interpreted as a size, or a [TaskOutput] instance. *)
Inductive output_arg : Type :=
  | OutSize (s : Z)
  | OutObject (o : oref).

(** [Task.__init__(self, name, outputs, duration, cpus, output_size,
    expected_duration)] *)
Definition Task_init (name : option string) (outputs : list output_arg)
    (duration cpus : Z) (output_size expected_duration : option Z) : M Heap tref :=
  assert (bool_decide (0 ≤ cpus)) ;;;
  assert (bool_decide (0 ≤ duration)) ;;;
  assert (none_or_nonneg expected_duration) ;;;
  self <- alloc_task (Task.mk [] [] duration expected_duration name None cpus) ;;
  outs <- match output_size with
          | Some s =>
              match outputs with
              | _ :: _ => raise (Exception "Cannot set 'output_size' and 'outputs' at once")
              | [] => o <- TaskOutput_init s (Some s) ;; ret [o]
              end
          | None =>
              map_m (λ a, match a with
                          | OutSize s => TaskOutput_init s (Some s)
                          | OutObject o => ret o
                          end) outputs
          end ;;
  upd_task self (Task.set_outputs outs) ;;;
  for_each outs (λ output,
    o <- read (λ h, get_output h output) ;;
    assert (bool_decide (TaskOutput.parent o = None)) ;;;
    upd_output output (TaskOutput.set_parent (Some self))) ;;;
  ret self.

(** [Task.simple_copy(self)] *)
Definition Task_simple_copy (self : tref) : M Heap tref :=
  s <- read (λ h, get_task h self) ;;
  t <- Task_init (Task.name s) [] (Task.duration s) (Task.cpus s) None
         (Task.expected_duration s) ;;
  outs <- map_m (λ o,
            x <- read (λ h, get_output h o) ;;
            TaskOutput_init (TaskOutput.size x) (TaskOutput.expected_size x))
          (Task.outputs s) ;;
  upd_task t (Task.set_outputs outs) ;;;
  for_each outs (λ o, upd_output o (TaskOutput.set_parent (Some t))) ;;;
  ret t.

(** [Task.output] (a property) *)
Definition Task_output (h : Heap) (self : tref) : outcome oref :=
  t ← get_task h self;
  match Task.outputs t with
  | [] => Raise (Exception "Task {} has no output")
  | [o] => Ok o
  | _ :: _ :: _ => Raise (Exception "Task {} has no unique output")
  end.

(** [Task.consumers(self)] *)
Definition Task_consumers (h : Heap) (self : tref) : outcome (gset tref) :=
  t ← get_task h self;
  match Task.outputs t with
  | [] => Ok ∅
  | outs => cs ← mapM (λ o, TaskOutput.consumers <$> get_output h o) outs;
            Ok (⋃ cs)
  end.

(** The argument of [Task.add_input]: a [Task] or a [TaskOutput].  (The
    third branch of the source, for arguments of any other class, has no
    counterpart.) *)
Inductive input_arg : Type :=
  | InTask (t : tref)
  | InObject (o : oref).

(** [Task.add_input(self, output)] *)
Definition Task_add_input (self : tref) (output : input_arg) : M Heap unit :=
  output <- match output with
            | InTask t => read (λ h, Task_output h t)
            | InObject o => ret o
            end ;;
  upd_task self (λ t, Task.set_inputs (Task.inputs t ++ [output]) t) ;;;
  upd_output output (λ o, TaskOutput.set_consumers (TaskOutput.consumers o ∪ {[self]}) o).

(** [Task.add_inputs(self, tasks)] *)
Definition Task_add_inputs (self : tref) (tasks : list input_arg) : M Heap unit :=
  for_each tasks (Task_add_input self).

(** [Task.is_predecessor_of(self, task)]: the innermost loop, over the
    consumers [ds] of one output.  The state is [descendants] and [new];
    the Boolean tells that [return True] was reached. *)
Fixpoint scan_consumers (task : tref) (ds : list tref)
    (st : gset tref * list tref) : bool * (gset tref * list tref) :=
  match ds with
  | [] => (false, st)
  | d :: ds' =>
      if decide (d ∈ st.1) then scan_consumers task ds' st
      else if decide (d = task) then (true, st)
      else scan_consumers task ds' ({[d]} ∪ st.1, st.2 ++ [d])
  end.

(** The loop over the outputs of one explored task. *)
Fixpoint scan_outputs (h : Heap) (task : tref) (os : list oref)
    (st : gset tref * list tref) : outcome (bool * (gset tref * list tref)) :=
  match os with
  | [] => Ok (false, st)
  | o :: os' =>
      x ← get_output h o;
      match scan_consumers task (elements (TaskOutput.consumers x)) st with
      | (true, st') => Ok (true, st')
      | (false, st') => scan_outputs h task os' st'
      end
  end.

(** The loop over [explore]. *)
Fixpoint scan_explore (h : Heap) (task : tref) (ts : list tref)
    (st : gset tref * list tref) : outcome (bool * (gset tref * list tref)) :=
  match ts with
  | [] => Ok (false, st)
  | t :: ts' =>
      x ← get_task h t;
      r ← scan_outputs h task (Task.outputs x) st;
      match r with
      | (true, _) => Ok r
      | (false, st') => scan_explore h task ts' st'
      end
  end.

(** The [while explore:] loop, with a bound on the number of rounds. *)
Fixpoint explore_loop (fuel : nat) (h : Heap) (task : tref)
    (explore : list tref) (descendants : gset tref) : outcome bool :=
  match explore with
  | [] => Ok false
  | _ :: _ =>
      match fuel with
      | O => Raise OutOfFuel
      | S fuel' =>
          r ← scan_explore h task explore (descendants, []);
          match r with
          | (true, _) => Ok true
          | (false, (descendants', new)) => explore_loop fuel' h task new descendants'
          end
      end
  end.

Definition Task_is_predecessor_of (h : Heap) (self task : tref) : outcome bool :=
  explore_loop (S (length (task_objs h))) h task [self] ∅.

(** [Task.validate(self)] *)
Definition Task_validate (h : Heap) (self : tref) : outcome unit :=
  t ← get_task h self;
  check (bool_decide (0 ≤ Task.duration t));;
  check (none_or_nonneg (Task.expected_duration t));;
  p ← Task_is_predecessor_of h self self;
  check (negb p);;
  check (bool_decide (length (Task.outputs t) = length (remove_dups (Task.outputs t))));;
  check_each (Task.outputs t) (λ o,
    x ← get_output h o;
    check (bool_decide (TaskOutput.parent x = Some self));;
    check (bool_decide (0 ≤ TaskOutput.size x));;
    check (none_or_nonneg (TaskOutput.expected_size x))).

(** [list.sort(key=...)] on a list of objects paired with their keys:
    a stable sort.  The keys are object ids; comparing [None] with
    anything raises [TypeError], and every element of a list of two or
    more elements is compared at least once. *)
Fixpoint insert_by_key (x : nat * oref) (l : list (nat * oref)) : list (nat * oref) :=
  match l with
  | [] => [x]
  | y :: l' => if decide (x.1 < y.1)%nat then x :: y :: l' else y :: insert_by_key x l'
  end.

Definition sort_by_key (l : list (nat * oref)) : list (nat * oref) :=
  foldl (λ acc x, insert_by_key x acc) [] l.

Definition list_sort_by_id (l : list (option nat * oref)) : outcome (list oref) :=
  match l with
  | [] | [_] => Ok (l.*2)
  | _ :: _ :: _ =>
      match mapM (λ x, (λ k, (k, x.2)) <$> x.1) l with
      | Some kl => Ok ((sort_by_key kl).*2)
      | None => Raise TypeError
      end
  end.

Section Normalize.

(** The order in which [list(set(l))] lists the distinct elements of
    [l] is not fixed by the language. *)
Variable list_of_set : list oref → list oref.

(** [Task.normalize(self)] *)
Definition Task_normalize (self : tref) : M Heap unit :=
  t <- read (λ h, get_task h self) ;;
  let inputs := list_of_set (Task.inputs t) in
  keyed <- map_m (λ o, read (λ h, x ← get_output h o; Ok (TaskOutput.id x, o))) inputs ;;
  inputs <- read (λ _, list_sort_by_id keyed) ;;
  upd_task self (Task.set_inputs inputs).

(** [TaskGraph.normalize(self)] *)
Definition TaskGraph_normalize (self : gref) : M Heap unit :=
  g <- read (λ h, get_graph h self) ;;
  for_each (TaskGraph.tasks g) Task_normalize.

End Normalize.

(** *** class TaskGraph *)

(** Modelled from the spec: [utils.flat_list] ([schedsim/common/utils.py]
    is not among the sources), the concatenation of a list of lists. *)
Definition flat_list {A} (ls : list (list A)) : list A := concat ls.

(** [enumerate(l)], counting from [i] *)
Fixpoint enumerate_from {A} (i : nat) (l : list A) : list (nat * A) :=
  match l with
  | [] => []
  | x :: l' => (i, x) :: enumerate_from (S i) l'
  end.

(** [TaskGraph.__init__(self, tasks)] with a list of tasks: the ids of
    the tasks and of their outputs are assigned here. *)
Fixpoint TaskGraph_init_loop (ts : list (nat * tref)) (outputs : list oref)
    : M Heap (list oref) :=
  match ts with
  | [] => ret outputs
  | (i, task) :: ts' =>
      upd_task task (Task.set_id (Some i)) ;;;
      t <- read (λ h, get_task h task) ;;
      outputs <- (fix inner (os : list oref) (outputs : list oref) : M Heap (list oref) :=
                    match os with
                    | [] => ret outputs
                    | output :: os' =>
                        upd_output output (TaskOutput.set_id (Some (length outputs))) ;;;
                        inner os' (outputs ++ [output])
                    end) (Task.outputs t) outputs ;;
      TaskGraph_init_loop ts' outputs
  end.

Definition TaskGraph_init (tasks : option (list tref)) : M Heap gref :=
  match tasks with
  | None => alloc_graph (TaskGraph.mk [] [])
  | Some tasks =>
      outputs <- TaskGraph_init_loop (enumerate_from 0 tasks) [] ;;
      alloc_graph (TaskGraph.mk tasks outputs)
  end.

(** [TaskGraph.new_task(self, name, outputs, duration, expected_duration,
    cpus, output_size)] *)
Definition TaskGraph_new_task (self : gref) (name : option string)
    (outputs : list output_arg) (duration : Z) (expected_duration : option Z)
    (cpus : Z) (output_size : option Z) : M Heap tref :=
  task <- Task_init name outputs duration cpus output_size expected_duration ;;
  g <- read (λ h, get_graph h self) ;;
  upd_task task (Task.set_id (Some (length (TaskGraph.tasks g)))) ;;;
  t <- read (λ h, get_task h task) ;;
  for_each (enumerate_from (length (TaskGraph.outputs g)) (Task.outputs t))
    (λ '(output_id, o), upd_output o (TaskOutput.set_id (Some output_id))) ;;;
  upd_graph self (λ g, TaskGraph.mk (TaskGraph.tasks g ++ [task]) (TaskGraph.outputs g)) ;;;
  upd_graph self (λ g, TaskGraph.mk (TaskGraph.tasks g) (TaskGraph.outputs g ++ Task.outputs t)) ;;;
  ret task.

(** [l.remove(x)]: the first occurrence is removed. *)
Fixpoint list_remove_first (x : nat) (l : list nat) : option (list nat) :=
  match l with
  | [] => None
  | y :: l' => if decide (x = y) then Some l' else (y ::.) <$> list_remove_first x l'
  end.

(** [TaskGraph.remove_task(self, task)] *)
Definition TaskGraph_remove_task (self : gref) (task : tref) : M Heap unit :=
  t <- read (λ h, get_task h task) ;;
  for_each (Task.outputs t) (λ o,
    g <- read (λ h, get_graph h self) ;;
    match list_remove_first o (TaskGraph.outputs g) with
    | None => raise ValueError
    | Some l => upd_graph self (λ g, TaskGraph.mk (TaskGraph.tasks g) l)
    end ;;;
    x <- read (λ h, get_output h o) ;;
    for_each (elements (TaskOutput.consumers x)) (λ c,
      tc <- read (λ h, get_task h c) ;;
      match list_remove_first o (Task.inputs tc) with
      | None => raise ValueError
      | Some l => upd_task c (Task.set_inputs l)
      end)) ;;;
  g <- read (λ h, get_graph h self) ;;
  match list_remove_first task (TaskGraph.tasks g) with
  | None => raise ValueError
  | Some l => upd_graph self (λ g, TaskGraph.mk l (TaskGraph.outputs g))
  end ;;;
  t <- read (λ h, get_task h task) ;;
  for_each (Task.inputs t) (λ o,
    x <- read (λ h, get_output h o) ;;
    if decide (task ∈ TaskOutput.consumers x)
    then upd_output o (TaskOutput.set_consumers (TaskOutput.consumers x ∖ {[task]}))
    else raise KeyError).

(** [TaskGraph.validate(self)] *)
Definition TaskGraph_validate (h : Heap) (self : gref) : outcome unit :=
  g ← get_graph h self;
  let tasks := TaskGraph.tasks g in
  let outputs := TaskGraph.outputs g in
  check_each (enumerate_from 0 (TaskGraph.tasks g)) (λ '(i, task),
    t ← get_task h task;
    check (bool_decide (Task.id t = Some i));;
    Task_validate h task;;
    check_each (Task.inputs t) (λ o,
      check (bool_decide (o ∈ outputs));;
      x ← get_output h o;
      check (match TaskOutput.parent x with
             | Some p => bool_decide (p ∈ tasks)
             | None => false
             end));;
    check_each (Task.outputs t) (λ o,
      check (bool_decide (o ∈ outputs));;
      x ← get_output h o;
      check (bool_decide (TaskOutput.parent x = Some task));;
      check_each (elements (TaskOutput.consumers x)) (λ c,
        check (bool_decide (c ∈ tasks))))).

(** [TaskGraph._copy_tasks(self)] *)
Definition TaskGraph_copy_tasks (self : gref) : M Heap (list tref) :=
  g <- read (λ h, get_graph h self) ;;
  tasks <- map_m Task_simple_copy (TaskGraph.tasks g) ;;
  outputs <- map_m (λ task, t <- read (λ h, get_task h task) ;; ret (Task.outputs t)) tasks ;;
  let outputs := flat_list outputs in
  for_each (zip (TaskGraph.tasks g) tasks) (λ '(old_task, task),
    old <- read (λ h, get_task h old_task) ;;
    for_each (Task.inputs old) (λ inp,
      x <- read (λ h, get_output h inp) ;;
      match TaskOutput.id x with
      | None => raise TypeError
      | Some i =>
          match outputs !! i with
          | None => raise IndexError
          | Some o => Task_add_input task (InObject o)
          end
      end)) ;;;
  ret tasks.

(** [TaskGraph.copy(self)] *)
Definition TaskGraph_copy (self : gref) : M Heap gref :=
  tasks <- TaskGraph_copy_tasks self ;;
  TaskGraph_init (Some tasks).

(** [Task.is_leaf] (a property): [all(not o.consumers for o in
    self.outputs)], which stops at the first output that has a consumer. *)
Fixpoint all_unconsumed (h : Heap) (os : list oref) : outcome bool :=
  match os with
  | [] => Ok true
  | o :: os' =>
      x ← get_output h o;
      if bool_decide (TaskOutput.consumers x = ∅) then all_unconsumed h os' else Ok false
  end.

Definition Task_is_leaf (h : Heap) (self : tref) : outcome bool :=
  t ← get_task h self;
  all_unconsumed h (Task.outputs t).

(** [[t for t in tasks if cond(t)]] *)
Fixpoint tasks_where (cond : tref → outcome bool) (tasks : list tref)
    : outcome (list tref) :=
  match tasks with
  | [] => Ok []
  | t :: tasks' =>
      b ← cond t;
      r ← tasks_where cond tasks';
      Ok (if b : bool then t :: r else r)
  end.

(** [TaskGraph.source_tasks(self)] *)
Definition TaskGraph_source_tasks (h : Heap) (self : gref) : outcome (list tref) :=
  g ← get_graph h self;
  tasks_where (λ t, x ← get_task h t; Ok (bool_decide (Task.inputs x = [])))
    (TaskGraph.tasks g).

(** [TaskGraph.leaf_tasks(self)] *)
Definition TaskGraph_leaf_tasks (h : Heap) (self : gref) : outcome (list tref) :=
  g ← get_graph h self;
  tasks_where (Task_is_leaf h) (TaskGraph.tasks g).

End TaskModel.

(** ** The simulation kernel ([schedtk/simulator.py]) *)

Module SchedTk.

Import TaskModel.

(** Workers are objects too; a worker is named by its reference. *)
Abbreviation wref := nat (only parsing).

(** [class TaskState(Enum)] *)
Inductive TaskState : Type :=
  | Waiting
  | Ready
  | Assigned
  | Finished.

#[global] Instance TaskState_eq_dec : EqDecision TaskState.
Proof. solve_decision. Defined.

(** The value of a member of the enumeration. *)
Definition TaskState_value (s : TaskState) : Z :=
  match s with
  | Waiting => 1
  | Ready => 2
  | Assigned => 3
  | Finished => 4
  end.

(** [TaskState.<name>]: looking up a member of the class by its name.
    A name that the class does not define raises [AttributeError]. *)
Definition TaskState_member (name : string) : outcome TaskState :=
  if decide (name = "Waiting") then Ok Waiting
  else if decide (name = "Ready") then Ok Ready
  else if decide (name = "Assigned") then Ok Assigned
  else if decide (name = "Finished") then Ok Finished
  else Raise (AttributeError name).

(** [class TaskRuntimeInfo] *)
Record TaskRuntimeInfo : Type := mkInfo {
  state : TaskState;
  assign_time : option Z;
  end_time : option Z;
  assigned_workers : list wref;
  unfinished_inputs : Z }.

Definition set_state (s : TaskState) (i : TaskRuntimeInfo) : TaskRuntimeInfo :=
  mkInfo s (assign_time i) (end_time i) (assigned_workers i) (unfinished_inputs i).
Definition set_assigned_workers (l : list wref) (i : TaskRuntimeInfo) : TaskRuntimeInfo :=
  mkInfo (state i) (assign_time i) (end_time i) l (unfinished_inputs i).
Definition set_unfinished_inputs (n : Z) (i : TaskRuntimeInfo) : TaskRuntimeInfo :=
  mkInfo (state i) (assign_time i) (end_time i) (assigned_workers i) n.

(** Modelled from the spec: the class [Task] that the simulator works on
    (the module of schedtk that defines it is not among the sources).
    The simulator reads two of its fields: [task.inputs], the list of
    input objects of the task, and [task.consumers], the set of tasks
    that depend on the task; both are taken as [task.py] of schedsim
    defines them. *)

(** [TaskRuntimeInfo.__init__(self, task)] *)
Definition TaskRuntimeInfo_init (task : Task.t) : TaskRuntimeInfo :=
  {| state := Waiting;
     assign_time := None;
     end_time := None;
     assigned_workers := [];
     unfinished_inputs := Z.of_nat (length (Task.inputs task)) |}.

(** The four properties of [TaskRuntimeInfo]. *)
Definition is_running (self : TaskRuntimeInfo) : outcome bool :=
  s ← TaskState_member "Running"; Ok (bool_decide (state self = s)).
Definition is_ready (self : TaskRuntimeInfo) : outcome bool :=
  s ← TaskState_member "Ready"; Ok (bool_decide (state self = s)).
Definition is_finished (self : TaskRuntimeInfo) : outcome bool :=
  s ← TaskState_member "Finished"; Ok (bool_decide (state self = s)).
Definition is_waiting (self : TaskRuntimeInfo) : outcome bool :=
  s ← TaskState_member "Waiting"; Ok (bool_decide (state self = s)).

(** [class Simulator]: the fields that the kernel changes during a run.
    [info] holds the attribute [task.info] of every task that has one;
    [queue] holds, for every worker, the tasks handed to it;
    [wakeup_event] is [None] or an event, triggered or not. *)
Record Simulator : Type := mkSim {
  info : gmap tref TaskRuntimeInfo;
  queue : gmap wref (list tref);
  new_finished : list tref;
  new_ready : list tref;
  unprocessed_tasks : Z;
  wakeup_event : option bool }.

Definition set_info (f : gmap tref TaskRuntimeInfo) (s : Simulator) : Simulator :=
  mkSim f (queue s) (new_finished s) (new_ready s) (unprocessed_tasks s) (wakeup_event s).
Definition set_queue (q : gmap wref (list tref)) (s : Simulator) : Simulator :=
  mkSim (info s) q (new_finished s) (new_ready s) (unprocessed_tasks s) (wakeup_event s).
Definition set_new_finished (l : list tref) (s : Simulator) : Simulator :=
  mkSim (info s) (queue s) l (new_ready s) (unprocessed_tasks s) (wakeup_event s).
Definition set_new_ready (l : list tref) (s : Simulator) : Simulator :=
  mkSim (info s) (queue s) (new_finished s) l (unprocessed_tasks s) (wakeup_event s).
Definition set_unprocessed_tasks (n : Z) (s : Simulator) : Simulator :=
  mkSim (info s) (queue s) (new_finished s) (new_ready s) n (wakeup_event s).
Definition set_wakeup_event (e : option bool) (s : Simulator) : Simulator :=
  mkSim (info s) (queue s) (new_finished s) (new_ready s) (unprocessed_tasks s) e.

(** [task.info] *)
Definition task_info (task : tref) : M Simulator TaskRuntimeInfo :=
  read (λ s, match info s !! task with
             | Some i => Ok i
             | None => Raise (AttributeError "info")
             end).

(** An assignment to a field of [task.info]. *)
Definition upd_info (task : tref) (f : TaskRuntimeInfo → TaskRuntimeInfo)
    : M Simulator unit :=
  i <- task_info task ;;
  modify (λ s, set_info (<[task := f i]> (info s)) s).

(** Modelled from the spec: [Worker.assign_task] (the module of schedtk
    that defines [Worker] is not among the sources).  A worker keeps a
    queue of the tasks that are assigned to it and have not started; the
    task is added to this queue. *)
Definition Worker_assign_task (worker : wref) (task : tref) : M Simulator unit :=
  modify (λ s, set_queue (<[worker := queue s !!! worker ++ [task]]> (queue s)) s).

(** The body of the loop of [Simulator.schedule], for one pair
    [(worker, task)] that the scheduler returned. *)
Definition schedule_assignment (a : wref * tref) : M Simulator unit :=
  let '(worker, task) := a in
  i <- task_info task ;;
  if decide (state i = Finished)
  then raise (Exception "Scheduler tries to assign a finished task ({})")
  else
    upd_info task (set_state Assigned) ;;;
    upd_info task (λ i, set_assigned_workers (assigned_workers i ++ [worker]) i) ;;;
    Worker_assign_task worker task.

(** [Simulator.schedule(self, ready_tasks, finished_tasks)], where
    [assignments] is what [self.scheduler.schedule(ready_tasks,
    finished_tasks)] returned. *)
Definition schedule (assignments : list (wref * tref)) : M Simulator unit :=
  for_each assignments schedule_assignment.

(** The body of the loop of [Simulator.on_task_finished], for one
    consumer [t] of the finished task. *)
Definition consumer_input_finished (t : tref) : M Simulator unit :=
  upd_info t (λ i, set_unfinished_inputs (unfinished_inputs i - 1) i) ;;;
  t_info <- task_info t ;;
  if bool_decide (unfinished_inputs t_info ≤ 0) then
    (if bool_decide (unfinished_inputs t_info < 0)
     then raise (Exception "Invalid number of unfinished inputs: {}, task {}")
     else ret tt) ;;;
    assert (bool_decide (unfinished_inputs t_info = 0)) ;;;
    assert (bool_decide (state t_info = Waiting)) ;;;
    upd_info t (set_state Ready) ;;;
    modify (λ s, set_new_ready (new_ready s ++ [t]) s)
  else ret tt.

(** [Simulator.on_task_finished(self, worker, task)], on the task graph
    held in [h]. *)
Definition on_task_finished (h : Heap) (worker : wref) (task : tref) : M Simulator unit :=
  i <- task_info task ;;
  assert (bool_decide (state i = Assigned)) ;;;
  assert (bool_decide (worker ∈ assigned_workers i)) ;;;
  upd_info task (set_state Finished) ;;;
  modify (λ s, set_new_finished (new_finished s ++ [task]) s) ;;;
  modify (λ s, set_unprocessed_tasks (unprocessed_tasks s - 1) s) ;;;
  consumers <- read (λ _, Task_consumers h task) ;;
  for_each (elements consumers) consumer_input_finished ;;;
  triggered <- read (λ s, match wakeup_event s with
                          | Some b => Ok b
                          | None => Raise (AttributeError "triggered")
                          end) ;;
  if triggered then ret tt else modify (set_wakeup_event (Some true)).

(** The first lines of [Simulator.run]: every task of the graph gets its
    [info], and all tasks are unprocessed.  [sim] is the simulator that
    [Simulator.__init__] made. *)
Definition Simulator_init : Simulator :=
  {| info := ∅; queue := ∅; new_finished := []; new_ready := [];
     unprocessed_tasks := 0; wakeup_event := None |}.

Definition run_init (h : Heap) (task_graph : gref) : M Simulator unit :=
  g <- read (λ _, get_graph h task_graph) ;;
  for_each (TaskGraph.tasks g) (λ task,
    t <- read (λ _, get_task h task) ;;
    modify (λ s, set_info (<[task := TaskRuntimeInfo_init t]> (info s)) s)) ;;;
  modify (set_unprocessed_tasks (Z.of_nat (length (TaskGraph.tasks g)))).

(** The pass of [_master_process] through its loop when the master is
    woken up: a fresh event is made before the master waits, and when it
    is woken it schedules and empties the two lists.  [assignments] is
    what the scheduler returns for [new_ready] and [new_finished]. *)
Definition master_wait : M Simulator unit :=
  modify (set_wakeup_event (Some false)).

Definition master_wakeup (assignments : list (wref * tref)) : M Simulator unit :=
  schedule assignments ;;;
  modify (set_new_finished []) ;;;
  modify (set_new_ready []).

(** What happens to a simulator between two looks at it. *)
Inductive event : Type :=
  | Schedule (assignments : list (wref * tref))
  | TaskFinished (worker : wref) (task : tref)
  | MasterWait
  | MasterWakeup (assignments : list (wref * tref)).

Definition step (h : Heap) (e : event) : M Simulator unit :=
  match e with
  | Schedule l => schedule l
  | TaskFinished w t => on_task_finished h w t
  | MasterWait => master_wait
  | MasterWakeup l => master_wakeup l
  end.

(** The number of input objects of task [t] whose parent is not
    [Finished]. *)
Definition parent_finished (h : Heap) (s : Simulator) (o : oref) : bool :=
  match output_objs h !! o with
  | Some x =>
      match TaskOutput.parent x with
      | Some p =>
          match info s !! p with
          | Some i => bool_decide (state i = Finished)
          | None => false
          end
      | None => false
      end
  | None => false
  end.

Definition inputs_with_unfinished_parent (h : Heap) (s : Simulator) (t : tref) : Z :=
  match task_objs h !! t with
  | Some x => Z.of_nat (length (filter (λ o, parent_finished h s o = false) (Task.inputs x)))
  | None => 0
  end.

End SchedTk.

(** ** The scheduler side ([estee/schedulers/scheduler.py]) *)

Module Mirror.

(** References to [SchedulerTask] and [SchedulerDataObject] instances. *)
Abbreviation tref := nat (only parsing).
Abbreviation oref := nat (only parsing).

(** Modelled from the spec: [TaskState] of [estee.simulator.runtimeinfo]
    (not among the sources): the closed set of the states of a task. *)
Inductive TaskState : Type :=
  | Waiting
  | Ready
  | Assigned
  | Running
  | Finished.

#[global] Instance TaskState_eq_dec : EqDecision TaskState.
Proof. solve_decision. Defined.

(** [class SchedulerWorker].  A worker is made once for an id and never
    changed, so the object is taken for its value. *)
Record SchedulerWorker : Type := mkWorker {
  worker_id : nat;
  cpus : Z }.

#[global] Instance SchedulerWorker_eq_dec : EqDecision SchedulerWorker.
Proof. solve_decision. Defined.

#[global] Instance SchedulerWorker_countable : Countable SchedulerWorker.
Proof.
  apply (inj_countable' (λ w, (worker_id w, cpus w)) (λ p, mkWorker p.1 p.2)).
  by intros [].
Defined.

(** Modelled from the spec: the classes [SchedulerDataObject] and
    [SchedulerTask] of [estee.schedulers.tasks] (not among the sources).
    The mirror keeps for an object its expected size, size, parent,
    consumers, placing, availability and the set [scheduled]; for a task
    its inputs, outputs, expected duration, cpus, state, scheduled
    worker, the worker it was computed by, and the counter
    [unfinished_inputs], which starts at [len(inputs)].  A new object has
    no parent, no consumers and is nowhere; a new task is [Waiting]. *)
Module SchedulerDataObject.
Record t : Type := mk {
  id : nat;
  expected_size : option Z;
  size : option Z;
  parent : option tref;
  consumers : gset tref;
  placing : list SchedulerWorker;
  availability : list SchedulerWorker;
  scheduled : gset (option SchedulerWorker) }.
Definition init (id : nat) (expected_size size : option Z) : t :=
  mk id expected_size size None ∅ [] [] ∅.
Definition set_size (x : option Z) (o : t) : t :=
  mk (id o) (expected_size o) x (parent o) (consumers o) (placing o)
     (availability o) (scheduled o).
Definition set_parent (x : option tref) (o : t) : t :=
  mk (id o) (expected_size o) (size o) x (consumers o) (placing o)
     (availability o) (scheduled o).
Definition set_consumers (x : gset tref) (o : t) : t :=
  mk (id o) (expected_size o) (size o) (parent o) x (placing o)
     (availability o) (scheduled o).
Definition set_placing (x : list SchedulerWorker) (o : t) : t :=
  mk (id o) (expected_size o) (size o) (parent o) (consumers o) x
     (availability o) (scheduled o).
Definition set_availability (x : list SchedulerWorker) (o : t) : t :=
  mk (id o) (expected_size o) (size o) (parent o) (consumers o) (placing o)
     x (scheduled o).
Definition set_scheduled (x : gset (option SchedulerWorker)) (o : t) : t :=
  mk (id o) (expected_size o) (size o) (parent o) (consumers o) (placing o)
     (availability o) x.
End SchedulerDataObject.

Module SchedulerTask.
Record t : Type := mk {
  id : nat;
  inputs : list oref;
  outputs : list oref;
  expected_duration : option Z;
  cpus : Z;
  state : TaskState;
  scheduled_worker : option SchedulerWorker;
  computed_by : option SchedulerWorker;
  unfinished_inputs : Z }.
Definition init (id : nat) (inputs outputs : list oref)
    (expected_duration : option Z) (cpus : Z) : t :=
  mk id inputs outputs expected_duration cpus Waiting None None
     (Z.of_nat (length inputs)).
Definition set_state (x : TaskState) (a : t) : t :=
  mk (id a) (inputs a) (outputs a) (expected_duration a) (cpus a) x
     (scheduled_worker a) (computed_by a) (unfinished_inputs a).
Definition set_scheduled_worker (x : option SchedulerWorker) (a : t) : t :=
  mk (id a) (inputs a) (outputs a) (expected_duration a) (cpus a) (state a)
     x (computed_by a) (unfinished_inputs a).
Definition set_computed_by (x : option SchedulerWorker) (a : t) : t :=
  mk (id a) (inputs a) (outputs a) (expected_duration a) (cpus a) (state a)
     (scheduled_worker a) x (unfinished_inputs a).
Definition set_unfinished_inputs (x : Z) (a : t) : t :=
  mk (id a) (inputs a) (outputs a) (expected_duration a) (cpus a) (state a)
     (scheduled_worker a) (computed_by a) x.
End SchedulerTask.

(** [class Update] *)
Record Update : Type := mkUpdate {
  new_workers : list SchedulerWorker;
  network_update : bool;
  new_objects : list oref;
  new_tasks : list tref;
  new_ready_tasks : list tref;
  new_finished_tasks : list tref }.

(** [Update.graph_changed], [Update.cluster_changed] *)
Definition graph_changed (u : Update) : bool :=
  bool_decide (new_objects u ≠ []) || bool_decide (new_tasks u ≠ []).
Definition cluster_changed (u : Update) : bool :=
  bool_decide (new_workers u ≠ []) || network_update u.

(** The record that [assign] puts in the reply: a dictionary with the
    keys ["worker"] and ["task"] and, when they are given, ["priority"]
    and ["blocking"]. *)
Record Assignment : Type := mkAssignment {
  a_worker : option nat;
  a_task : nat;
  a_priority : option Z;
  a_blocking : option Z }.

(** The messages.  A message is a dictionary; a key that may be missing
    is an optional field. *)
Record WorkerMsg : Type := mkWorkerMsg {
  wm_id : nat;
  wm_cpus : Z }.
Record ObjectMsg : Type := mkObjectMsg {
  om_id : nat;
  om_expected_size : option Z;
  om_size : option Z }.
Record TaskMsg : Type := mkTaskMsg {
  tm_id : nat;
  tm_inputs : list nat;
  tm_outputs : list nat;
  tm_expected_duration : option Z;
  tm_cpus : Z }.
Record TaskUpdateMsg : Type := mkTaskUpdateMsg {
  tu_id : nat;
  tu_state : TaskState;
  tu_worker : nat }.
Record ObjectUpdateMsg : Type := mkObjectUpdateMsg {
  ou_id : nat;
  ou_placing : list nat;
  ou_availability : list nat;
  ou_size : option Z }.
Record Message : Type := mkMessage {
  msg_type : string;
  msg_new_workers : option (list WorkerMsg);
  msg_network_bandwidth : option Z;
  msg_new_objects : option (list ObjectMsg);
  msg_new_tasks : option (list TaskMsg);
  msg_tasks_update : option (list TaskUpdateMsg);
  msg_objects_update : option (list ObjectUpdateMsg) }.

(** [class SchedulerBase]: [workers], the two dictionaries of
    [task_graph], the instances they refer to, [network_bandwidth] and
    [assignments].  [assignments] is a dictionary from tasks to records;
    a dictionary lists its keys in the order in which they were first
    inserted. *)
Record Scheduler : Type := mkScheduler {
  workers : gmap nat SchedulerWorker;
  tasks : gmap nat tref;
  objects : gmap nat oref;
  task_objs : list SchedulerTask.t;
  data_objs : list SchedulerDataObject.t;
  network_bandwidth : option Z;
  assignments : option (list (tref * Assignment));
  reassigning : bool }.

(** [SchedulerBase.__init__(self, name, version, reassigning=False)] *)
Definition SchedulerBase_init (reassigning : bool) : Scheduler :=
  mkScheduler ∅ ∅ ∅ [] [] None None reassigning.

Definition set_workers (x : gmap nat SchedulerWorker) (s : Scheduler) : Scheduler :=
  mkScheduler x (tasks s) (objects s) (task_objs s) (data_objs s)
    (network_bandwidth s) (assignments s) (reassigning s).
Definition set_tasks (x : gmap nat tref) (s : Scheduler) : Scheduler :=
  mkScheduler (workers s) x (objects s) (task_objs s) (data_objs s)
    (network_bandwidth s) (assignments s) (reassigning s).
Definition set_objects (x : gmap nat oref) (s : Scheduler) : Scheduler :=
  mkScheduler (workers s) (tasks s) x (task_objs s) (data_objs s)
    (network_bandwidth s) (assignments s) (reassigning s).
Definition set_task_objs (x : list SchedulerTask.t) (s : Scheduler) : Scheduler :=
  mkScheduler (workers s) (tasks s) (objects s) x (data_objs s)
    (network_bandwidth s) (assignments s) (reassigning s).
Definition set_data_objs (x : list SchedulerDataObject.t) (s : Scheduler) : Scheduler :=
  mkScheduler (workers s) (tasks s) (objects s) (task_objs s) x
    (network_bandwidth s) (assignments s) (reassigning s).
Definition set_network_bandwidth (x : option Z) (s : Scheduler) : Scheduler :=
  mkScheduler (workers s) (tasks s) (objects s) (task_objs s) (data_objs s)
    x (assignments s) (reassigning s).
Definition set_assignments (x : option (list (tref * Assignment))) (s : Scheduler)
    : Scheduler :=
  mkScheduler (workers s) (tasks s) (objects s) (task_objs s) (data_objs s)
    (network_bandwidth s) x (reassigning s).

(** *** Reading, writing and making instances *)

Definition get_task (s : Scheduler) (r : tref) : outcome SchedulerTask.t :=
  match task_objs s !! r with Some t => Ok t | None => Raise DanglingReference end.
Definition get_object (s : Scheduler) (r : oref) : outcome SchedulerDataObject.t :=
  match data_objs s !! r with Some o => Ok o | None => Raise DanglingReference end.

Definition upd_task (r : tref) (f : SchedulerTask.t → SchedulerTask.t) : M Scheduler unit :=
  t <- read (λ s, get_task s r) ;;
  modify (λ s, set_task_objs (<[r := f t]> (task_objs s)) s).
Definition upd_object (r : oref) (f : SchedulerDataObject.t → SchedulerDataObject.t)
    : M Scheduler unit :=
  o <- read (λ s, get_object s r) ;;
  modify (λ s, set_data_objs (<[r := f o]> (data_objs s)) s).

Definition new_task (t : SchedulerTask.t) : M Scheduler tref :=
  λ s, (Ok (length (task_objs s)), set_task_objs (task_objs s ++ [t]) s).
Definition new_object (o : SchedulerDataObject.t) : M Scheduler oref :=
  λ s, (Ok (length (data_objs s)), set_data_objs (data_objs s ++ [o]) s).

(** [d[k]] on a dictionary: [KeyError] when the key is missing. *)
Definition item {V} (d : gmap nat V) (k : nat) : outcome V :=
  match d !! k with Some v => Ok v | None => Raise KeyError end.

(** [d[k] = v] on the dictionary [assignments]: the value of an old key
    is replaced where it stands, a new key goes to the end. *)
Fixpoint dict_set (k : tref) (v : Assignment) (d : list (tref * Assignment))
    : list (tref * Assignment) :=
  match d with
  | [] => [(k, v)]
  | (k', v') :: d' => if decide (k' = k) then (k, v) :: d' else (k', v') :: dict_set k v d'
  end.

(** *** [SchedulerBase._process_update], piece by piece *)

(** [message.get(key)] is taken for false when the key is missing and
    when its value is an empty list. *)
Definition nonempty {A} (x : option (list A)) : list A := default [] x.

(** The loop over [message["new_workers"]]. *)
Definition register_worker (w : WorkerMsg) : M Scheduler SchedulerWorker :=
  known <- read (λ s, Ok (bool_decide (is_Some (workers s !! wm_id w)))) ;;
  if (known : bool)
  then raise (Exception "Registering already registered worker '{}'")
  else
    let worker := mkWorker (wm_id w) (wm_cpus w) in
    modify (λ s, set_workers (<[wm_id w := worker]> (workers s)) s) ;;;
    ret worker.

(** The lines on [network_bandwidth]. *)
Definition update_bandwidth (msg : Message) : M Scheduler bool :=
  match msg_network_bandwidth msg with
  | Some bandwidth =>
      changed <- read (λ s, Ok (bool_decide (Some bandwidth ≠ network_bandwidth s))) ;;
      if (changed : bool)
      then modify (set_network_bandwidth (Some bandwidth)) ;;; ret true
      else ret false
  | None => ret false
  end.

(** The loop over [message["new_objects"]]. *)
Definition register_object (o : ObjectMsg) : M Scheduler oref :=
  obj <- new_object (SchedulerDataObject.init (om_id o) (om_expected_size o) (om_size o)) ;;
  modify (λ s, set_objects (<[om_id o := obj]> (objects s)) s) ;;;
  ret obj.

(** The loop over [message["new_tasks"]]; the task is returned with the
    flag that tells whether it went to [ready_tasks]. *)
Definition register_task (t : TaskMsg) : M Scheduler (tref * bool) :=
  inputs <- map_m (λ o, read (λ s, item (objects s) o)) (tm_inputs t) ;;
  outputs <- map_m (λ o, read (λ s, item (objects s) o)) (tm_outputs t) ;;
  task <- new_task (SchedulerTask.init (tm_id t) inputs outputs
                      (tm_expected_duration t) (tm_cpus t)) ;;
  for_each outputs (λ o, upd_object o (SchedulerDataObject.set_parent (Some task))) ;;;
  for_each inputs (λ o, upd_object o (λ x,
    SchedulerDataObject.set_consumers (SchedulerDataObject.consumers x ∪ {[task]}) x)) ;;;
  x <- read (λ s, get_task s task) ;;
  modify (λ s, set_tasks (<[tm_id t := task]> (tasks s)) s) ;;;
  ret (task, bool_decide (SchedulerTask.unfinished_inputs x = 0)).

(** The innermost loop over [message["tasks_update"]], for one consumer
    [t] of an output of the finished task: the result tells whether [t]
    went to [ready_tasks]. *)
Definition input_finished (t : tref) : M Scheduler bool :=
  upd_task t (λ x, SchedulerTask.set_unfinished_inputs
                     (SchedulerTask.unfinished_inputs x - 1) x) ;;;
  x <- read (λ s, get_task s t) ;;
  if bool_decide (SchedulerTask.unfinished_inputs x ≤ 0) then
    assert (bool_decide (SchedulerTask.unfinished_inputs x = 0)) ;;;
    ret true
  else ret false.

(** The loop over [message["tasks_update"]]: the finished task and the
    tasks that became ready, in order. *)
Definition update_task (tu : TaskUpdateMsg) : M Scheduler (tref * list tref) :=
  assert (bool_decide (tu_state tu = Finished)) ;;;
  task <- read (λ s, item (tasks s) (tu_id tu)) ;;
  upd_task task (SchedulerTask.set_state Finished) ;;;
  worker <- read (λ s, item (workers s) (tu_worker tu)) ;;
  upd_task task (SchedulerTask.set_computed_by (Some worker)) ;;;
  x <- read (λ s, get_task s task) ;;
  ready <- map_m (λ o,
             y <- read (λ s, get_object s o) ;;
             map_m (λ t, b <- input_finished t ;; ret (t, b))
               (elements (SchedulerDataObject.consumers y)))
           (SchedulerTask.outputs x) ;;
  ret (task, (filter (λ p, p.2 = true) (concat ready)).*1).

(** The loop over [message["objects_update"]]. *)
Definition update_object (ou : ObjectUpdateMsg) : M Scheduler unit :=
  o <- read (λ s, item (objects s) (ou_id ou)) ;;
  placing <- map_m (λ w, read (λ s, item (workers s) w)) (ou_placing ou) ;;
  upd_object o (SchedulerDataObject.set_placing placing) ;;;
  availability <- map_m (λ w, read (λ s, item (workers s) w)) (ou_availability ou) ;;
  upd_object o (SchedulerDataObject.set_availability availability) ;;;
  match ou_size ou with
  | Some size => upd_object o (SchedulerDataObject.set_size (Some size))
  | None => ret tt
  end.

(** [_process_update] up to the call of [self.schedule]: the mirror is
    brought up to date and the [Update] for the policy is made. *)
Definition apply_update (message : Message) : M Scheduler Update :=
  new_workers <- map_m register_worker (nonempty (msg_new_workers message)) ;;
  network_update <- update_bandwidth message ;;
  new_objects <- map_m register_object (nonempty (msg_new_objects message)) ;;
  new_tasks <- map_m register_task (nonempty (msg_new_tasks message)) ;;
  finished <- map_m update_task (nonempty (msg_tasks_update message)) ;;
  for_each (nonempty (msg_objects_update message)) update_object ;;;
  modify (set_assignments (Some [])) ;;;
  ret (mkUpdate new_workers network_update new_objects new_tasks.*1
         ((filter (λ p, p.2 = true) new_tasks).*1 ++ concat finished.*2)
         finished.*1).

(** [SchedulerBase.assign(self, worker, task, priority=None,
    blocking=None)] *)
Definition assign (worker : option SchedulerWorker) (task : tref)
    (priority blocking : option Z) : M Scheduler unit :=
  upd_task task (SchedulerTask.set_state Assigned) ;;;
  upd_task task (SchedulerTask.set_scheduled_worker worker) ;;;
  t <- read (λ s, get_task s task) ;;
  for_each (SchedulerTask.inputs t) (λ o, upd_object o (λ x,
    SchedulerDataObject.set_scheduled (SchedulerDataObject.scheduled x ∪ {[worker]}) x)) ;;;
  for_each (SchedulerTask.outputs t) (λ o, upd_object o (λ x,
    SchedulerDataObject.set_scheduled (SchedulerDataObject.scheduled x ∪ {[worker]}) x)) ;;;
  let result := mkAssignment (worker_id <$> worker) (SchedulerTask.id t) priority blocking in
  d <- read (λ s, match assignments s with
                  | Some d => Ok d
                  | None => Raise TypeError
                  end) ;;
  modify (set_assignments (Some (dict_set task result d))).

(** [SchedulerBase.stop(self)]; [disable_cleanup] is the value of
    [self._disable_cleanup]. *)
Definition stop (disable_cleanup : bool) : M Scheduler unit :=
  if disable_cleanup then ret tt
  else
    modify (set_workers ∅) ;;;
    modify (set_tasks ∅) ;;;
    modify (set_objects ∅) ;;;
    modify (set_network_bandwidth None).

(** *** What a scheduler sees and does

    [schedule] is the method that a scheduler overrides; in
    [SchedulerBase] it raises [NotImplementedError].  A scheduler looks
    at the mirror and at the update and calls [assign].  It names a
    worker and a task by their ids and takes them from [self.workers]
    and [self.task_graph.tasks], as the schedulers of the tests do.  A
    scheduler may keep state of its own (a counter of its calls, the
    tasks it has seen), so that what it does at one call of [schedule]
    need not be what it does at the next: every call of [send_message]
    is given the policy that the scheduler follows at this call. *)

(** What is seen of a task and of an object: the fields, with the ids
    of the instances in place of the references. *)
Record TaskView : Type := mkTaskView {
  tv_id : nat;
  tv_inputs : list (option nat);
  tv_outputs : list (option nat);
  tv_expected_duration : option Z;
  tv_cpus : Z;
  tv_state : TaskState;
  tv_scheduled_worker : option SchedulerWorker;
  tv_computed_by : option SchedulerWorker;
  tv_unfinished_inputs : Z }.

Record ObjectView : Type := mkObjectView {
  ov_id : nat;
  ov_expected_size : option Z;
  ov_size : option Z;
  ov_parent : option (option nat);
  ov_consumers : gset (option nat);
  ov_placing : list SchedulerWorker;
  ov_availability : list SchedulerWorker;
  ov_scheduled : gset (option SchedulerWorker) }.

Definition task_id_of (s : Scheduler) (r : tref) : option nat :=
  SchedulerTask.id <$> task_objs s !! r.
Definition object_id_of (s : Scheduler) (r : oref) : option nat :=
  SchedulerDataObject.id <$> data_objs s !! r.

Definition view_task (s : Scheduler) (t : SchedulerTask.t) : TaskView :=
  mkTaskView (SchedulerTask.id t)
    (object_id_of s <$> SchedulerTask.inputs t)
    (object_id_of s <$> SchedulerTask.outputs t)
    (SchedulerTask.expected_duration t) (SchedulerTask.cpus t)
    (SchedulerTask.state t) (SchedulerTask.scheduled_worker t)
    (SchedulerTask.computed_by t) (SchedulerTask.unfinished_inputs t).

Definition view_object (s : Scheduler) (o : SchedulerDataObject.t) : ObjectView :=
  mkObjectView (SchedulerDataObject.id o)
    (SchedulerDataObject.expected_size o) (SchedulerDataObject.size o)
    (task_id_of s <$> SchedulerDataObject.parent o)
    (set_map (task_id_of s) (SchedulerDataObject.consumers o))
    (SchedulerDataObject.placing o) (SchedulerDataObject.availability o)
    (SchedulerDataObject.scheduled o).

(** What is seen of the mirror: the workers, the bandwidth, and the
    tasks and objects of the two dictionaries of the task graph. *)
Record MirrorView : Type := mkMirrorView {
  mv_workers : gmap nat SchedulerWorker;
  mv_network_bandwidth : option Z;
  mv_tasks : gmap nat (option TaskView);
  mv_objects : gmap nat (option ObjectView) }.

Definition view (s : Scheduler) : MirrorView :=
  mkMirrorView (workers s) (network_bandwidth s)
    ((λ r, view_task s <$> task_objs s !! r) <$> tasks s)
    ((λ r, view_object s <$> data_objs s !! r) <$> objects s).

Record UpdateView : Type := mkUpdateView {
  uv_new_workers : list SchedulerWorker;
  uv_network_update : bool;
  uv_new_objects : list (option nat);
  uv_new_tasks : list (option nat);
  uv_new_ready_tasks : list (option nat);
  uv_new_finished_tasks : list (option nat) }.

Definition view_update (s : Scheduler) (u : Update) : UpdateView :=
  mkUpdateView (new_workers u) (network_update u)
    (object_id_of s <$> new_objects u) (task_id_of s <$> new_tasks u)
    (task_id_of s <$> new_ready_tasks u) (task_id_of s <$> new_finished_tasks u).

(** A call of [assign] that a policy makes. *)
Record AssignCall : Type := mkAssignCall {
  call_worker : option nat;
  call_task : nat;
  call_priority : option Z;
  call_blocking : option Z }.

(** What a call of [schedule] does, as a function of what the
    scheduler sees: the calls of [assign] that it makes, in order, and
    the exception that ends it, if one does. *)
Definition Policy : Type := MirrorView → UpdateView → list AssignCall * option exn.

(** [SchedulerBase.schedule(self, update)] *)
Definition SchedulerBase_schedule : Policy := λ _ _, ([], Some NotImplementedError).

(** One call [self.assign(self.workers[w], self.task_graph.tasks[t],
    priority, blocking)] of a scheduler. *)
Definition make_call (c : AssignCall) : M Scheduler unit :=
  worker <- match call_worker c with
            | None => ret None
            | Some w => w <- read (λ s, item (workers s) w) ;; ret (Some w)
            end ;;
  task <- read (λ s, item (tasks s) (call_task c)) ;;
  assign worker task (call_priority c) (call_blocking c).

Section WithPolicy.

Variable policy : Policy.

(** [self.schedule(update)] for the policy. *)
Definition schedule (update : Update) : M Scheduler unit :=
  d <- read (λ s, Ok (policy (view s) (view_update s update))) ;;
  for_each d.1 make_call ;;;
  match d.2 with
  | Some e => raise e
  | None => ret tt
  end.

(** [SchedulerBase._process_update(self, message)] *)
Definition process_update (message : Message) : M Scheduler (list Assignment) :=
  update <- apply_update message ;;
  schedule update ;;;
  read (λ s, match assignments s with
             | Some d => Ok (d.*2)
             | None => Raise (AttributeError "values")
             end).

(** [SchedulerBase.send_message(self, message)] *)
Definition send_message (message : Message) : M Scheduler (list Assignment) :=
  if decide (msg_type message = "update")
  then process_update message
  else raise (Exception "Unkown message type: '{}'").

End WithPolicy.

End Mirror.

(** ** The genetic scheduler ([schedsim/schedulers/genetic.py]) *)

Module Genetic.

Import TaskModel.

(** Modelled from the spec: the class [Worker] of [schedsim.worker] (not
    among the sources).  Of a worker only [cpus] is read, and no worker
    is changed here, so the object is taken for its value. *)
Record Worker : Type := mkWorker { worker_cpus : Z }.

(** [TaskAssignment(worker, task)] *)
Record TaskAssignment : Type := mkTaskAssignment {
  ta_worker : Worker;
  ta_task : tref }.

(** [l[i]] on a list, for an integer [i]: a negative index counts from
    the end, and an index out of range raises [IndexError]. *)
Definition list_item {A} (l : list A) (i : Z) : outcome A :=
  let n := Z.of_nat (length l) in
  let j := if decide (i < 0) then i + n else i in
  if decide (0 ≤ j < n) then
    match l !! Z.to_nat j with
    | Some x => Ok x
    | None => Raise IndexError
    end
  else Raise IndexError.

(** An individual is a list of integers: the worker of every task, by
    task id, and then the task ids in the order of the schedule. *)

(** [GeneticScheduler.split_individual(self, individual, count)], for
    the count of the tasks of a graph. *)
Definition split_individual (individual : list Z) (count : nat) : list Z * list Z :=
  (take count individual, drop count individual).

(** [GeneticScheduler.is_schedule_valid(self, schedule, graph, workers)],
    where [graph_tasks] is [graph.tasks]: the loop, and the method. *)
Fixpoint is_schedule_valid_loop (h : Heap) (mapping : list Z) (graph_tasks : list tref)
    (workers : list Worker) (tasks : list Z) : outcome bool :=
  match tasks with
  | [] => Ok true
  | t :: tasks' =>
      m ← list_item mapping t;
      w ← list_item workers m;
      task ← list_item graph_tasks t;
      x ← get_task h task;
      if decide (worker_cpus w < Task.cpus x) then Ok false
      else is_schedule_valid_loop h mapping graph_tasks workers tasks'
  end.

Definition is_schedule_valid (h : Heap) (schedule : list Z) (graph_tasks : list tref)
    (workers : list Worker) : outcome bool :=
  let '(mapping, tasks) := split_individual schedule (length graph_tasks) in
  is_schedule_valid_loop h mapping graph_tasks workers tasks.

(** [GeneticScheduler.create_schedule(self, individual, graph_tasks,
    workers)] *)
Fixpoint create_schedule_loop (h : Heap) (mapping : list Z) (graph_tasks : list tref)
    (workers : list Worker) (tasks : list Z) (schedule : list TaskAssignment)
    : outcome (list TaskAssignment) :=
  match tasks with
  | [] => Ok schedule
  | tid :: tasks' =>
      task ← list_item graph_tasks tid;
      m ← list_item mapping tid;
      worker ← list_item workers m;
      x ← get_task h task;
      check (bool_decide (Task.cpus x ≤ worker_cpus worker));;
      create_schedule_loop h mapping graph_tasks workers tasks'
        (schedule ++ [mkTaskAssignment worker task])
  end.

Definition create_schedule (h : Heap) (individual : list Z) (graph_tasks : list tref)
    (workers : list Worker) : outcome (list TaskAssignment) :=
  let '(mapping, tasks) := split_individual individual (length graph_tasks) in
  create_schedule_loop h mapping graph_tasks workers tasks [].

(** [GeneticScheduler.static_schedule(self)], where [best_individual]
    is what [init] found. *)
Definition static_schedule (h : Heap) (best_individual : list Z) (graph_tasks : list tref)
    (workers : list Worker) : outcome (list TaskAssignment) :=
  create_schedule h best_individual graph_tasks workers.

(** [order_crossover(tasks1, tasks2)] of [GeneticScheduler.init];
    [task_count] is [graph.task_count] and [point] is the number that
    [random.randint(0, graph.task_count - 1)] returned; the call raises
    [ValueError] when the range is empty. *)
Definition order_crossover (task_count : nat) (point : nat) (tasks1 tasks2 : list Z)
    : outcome (list Z) :=
  if decide (task_count = 0)%nat then Raise ValueError
  else
    let tasks := take point tasks1 in
    let visited : gset Z := list_to_set tasks in
    let tasks := foldl (λ tasks t, if decide (t ∈ visited) then tasks else tasks ++ [t])
                   tasks tasks2 in
    check (bool_decide (length tasks = length tasks1));;
    Ok tasks.

End Genetic.

(** ** The information modes ([schedsim/common/imode.py]) *)

Module Imode.

Import TaskModel.

(** [process_imode_exact(graph)] *)
Definition process_imode_exact (graph : gref) : M Heap unit :=
  g <- read (λ h, get_graph h graph) ;;
  for_each (TaskGraph.tasks g) (λ t,
    upd_task t (λ x, Task.set_expected_duration (Some (Task.duration x)) x)) ;;;
  for_each (TaskGraph.outputs g) (λ o,
    upd_output o (λ y, TaskOutput.set_expected_size (Some (TaskOutput.size y)) y)).

(** [_set_consts(graph, duration, size)] *)
Definition set_consts (graph : gref) (duration size : option Z) : M Heap unit :=
  g <- read (λ h, get_graph h graph) ;;
  for_each (TaskGraph.tasks g) (λ t, upd_task t (Task.set_expected_duration duration)) ;;;
  for_each (TaskGraph.outputs g) (λ o, upd_output o (TaskOutput.set_expected_size size)).

(** [process_imode_blind(graph)] *)
Definition process_imode_blind (graph : gref) : M Heap unit :=
  set_consts graph None None.

(** [process_imode_user(graph)] *)
Definition process_imode_user (graph : gref) : M Heap unit := ret tt.

End Imode.

(** ** Definitions used to state the properties *)

(** The state of a computation after it has run, whether it returned or
    raised, and its outcome. *)
Definition state_after {S A} (m : M S A) (s : S) : S := (m s).2.
Definition result_of {S A} (m : M S A) (s : S) : outcome A := (m s).1.

(** A computation keeps the relation [P] between the state it starts in
    and every state it can end in, by returning or by raising. *)
Definition preserves {S A} (P : S → S → Prop) (m : M S A) : Prop :=
  ∀ s, P s (state_after m s).

(** Computation [m'] follows computation [m]: from related states, when
    [m] returns, [m'] returns a related result in a related state. *)
Definition simulates {S A A'} (Rpre Rpost : S → S → Prop) (Rres : A → A' → Prop)
    (m : M S A) (m' : M S A') : Prop :=
  ∀ s s' a t, Rpre s s' → m s = (Ok a, t) →
    ∃ a' t', m' s' = (Ok a', t') ∧ Rpost t t' ∧ Rres a a'.

(** Computation [m], started in a state that satisfies [P], returns, and
    its result and final state satisfy [Q]. *)
Definition hoare {S A} (P : S → Prop) (m : M S A) (Q : A → S → Prop) : Prop :=
  ∀ s, P s → ∃ a t, m s = (Ok a, t) ∧ Q a t.

Module Runs.

Import TaskModel SchedTk.

(** The outcome of each of the events of a run and the simulator after
    it, in order. *)
Fixpoint run_events (h : Heap) (es : list event) (s : Simulator)
    : list (outcome unit * Simulator) :=
  match es with
  | [] => []
  | e :: es' => let r := step h e s in r :: run_events h es' r.2
  end.

(** The state of [task] in a simulator. *)
Definition state_of (task : tref) (s : Simulator) : option TaskState :=
  state <$> info s !! task.

(** The tasks of a list of assignments that go to [worker], in order. *)
Definition assigned_to (worker : wref) (l : list (wref * tref)) : list tref :=
  (filter (λ a, a.1 = worker) l).*2.

(** The workers that a list of assignments gives to [task], in order. *)
Definition workers_for (task : tref) (l : list (wref * tref)) : list wref :=
  (filter (λ a, a.2 = task) l).*1.

(** The history of assignments only grows. *)
Definition grows (s s' : Simulator) : Prop :=
  ∀ t i, info s !! t = Some i →
    ∃ i', info s' !! t = Some i' ∧ assigned_workers i `prefix_of` assigned_workers i'.

(** A computation keeps the history when every state it can end in,
    by returning or by raising, has a longer history. *)
Definition keeps_history {A} (m : M Simulator A) : Prop :=
  ∀ s, grows s (state_after m s).

(** A graph of one task of duration zero, [A], built by
    [g = TaskGraph(); g.new_task("A", duration=0)]. *)
Definition zero_duration_graph : Heap :=
  state_after (g <- TaskGraph_init None ;;
               TaskGraph_new_task g (Some "A") [] 0 None 1 None) empty_heap.

(** A graph of two tasks: [p] with two outputs, and [t] that reads both,
    built by
    [g = TaskGraph(); p = g.new_task("p", outputs=[1, 1]);
     t = g.new_task("t"); t.add_inputs(p.outputs)]. *)
Definition two_inputs_one_parent : Heap :=
  state_after (g <- TaskGraph_init None ;;
               p <- TaskGraph_new_task g (Some "p") [OutSize 1; OutSize 1] 1 None 1 None ;;
               t <- TaskGraph_new_task g (Some "t") [] 1 None 1 None ;;
               outs <- read (λ h, Task.outputs <$> get_task h p) ;;
               Task_add_inputs t (InObject <$> outs)) empty_heap.

(** A task that is [Finished] in [s] is [Finished] in [s']. *)
Definition finished_stay (s s' : Simulator) : Prop :=
  ∀ t i, info s !! t = Some i → state i = Finished →
    ∃ i', info s' !! t = Some i' ∧ state i' = Finished.

(** The number of tasks that are [Finished]. *)
Definition finished_count (s : Simulator) : Z :=
  Z.of_nat (size (filter (λ p : tref * TaskRuntimeInfo, state p.2 = Finished) (info s))).

(** [unprocessed_tasks] and the number of finished tasks add up to the
    same in [s] and in [s']. *)
Definition accounted (s s' : Simulator) : Prop :=
  unprocessed_tasks s' + finished_count s' = unprocessed_tasks s + finished_count s.

Definition kernel_inv (s s' : Simulator) : Prop := finished_stay s s' ∧ accounted s s'.

End Runs.

Module GraphProps.

Import TaskModel.

(** The id of the object behind a reference. *)
Definition id_of (h : Heap) (o : oref) : option nat :=
  output_objs h !! o ≫= TaskOutput.id.

(** Object [a] has a smaller id than object [b]. *)
Definition lt_id (h : Heap) (a b : oref) : Prop :=
  match id_of h a, id_of h b with
  | Some i, Some j => (i < j)%nat
  | _, _ => False
  end.


(** [x is None or x >= 0], as a proposition. *)
Definition nonneg_or_none (x : option Z) : Prop :=
  match x with None => True | Some v => 0 ≤ v end.

(** The order of the keys of [list.sort]. *)
Definition key_le (p q : nat * oref) : Prop := (p.1 ≤ q.1)%nat.

(** A check returns or raises [AssertionError]. *)
Definition asserts (r : outcome unit) : Prop := r = Ok tt ∨ r = Raise AssertionError.

(** Every reference in the heap is a reference to an object of the
    heap, as in every state of a Python program. *)
Record heap_closed (h : Heap) : Prop := mk_heap_closed {
  closed_task_refs : ∀ r t o,
    task_objs h !! r = Some t → o ∈ Task.inputs t ++ Task.outputs t →
    is_Some (output_objs h !! o);
  closed_parent : ∀ r x p,
    output_objs h !! r = Some x → TaskOutput.parent x = Some p →
    is_Some (task_objs h !! p);
  closed_consumers : ∀ r x c,
    output_objs h !! r = Some x → c ∈ TaskOutput.consumers x →
    is_Some (task_objs h !! c);
  closed_graph_tasks : ∀ r G t,
    graph_objs h !! r = Some G → t ∈ TaskGraph.tasks G → is_Some (task_objs h !! t);
  closed_graph_outputs : ∀ r G o,
    graph_objs h !! r = Some G → o ∈ TaskGraph.outputs G → is_Some (output_objs h !! o) }.

(** The same, as a test. *)
Definition heap_closedb (h : Heap) : bool :=
  let is_task (r : tref) := bool_decide (r < length (task_objs h))%nat in
  let is_output (r : oref) := bool_decide (r < length (output_objs h))%nat in
  forallb (λ t, forallb is_output (Task.inputs t ++ Task.outputs t)) (task_objs h) &&
  forallb (λ x, match TaskOutput.parent x with Some p => is_task p | None => true end &&
                forallb is_task (elements (TaskOutput.consumers x))) (output_objs h) &&
  forallb (λ G, forallb is_task (TaskGraph.tasks G) &&
                forallb is_output (TaskGraph.outputs G)) (graph_objs h).

(** Task [b] consumes an output of task [a]. *)
Definition consumes (h : Heap) (a b : tref) : Prop :=
  ∃ ta o x, task_objs h !! a = Some ta ∧ o ∈ Task.outputs ta ∧
            output_objs h !! o = Some x ∧ b ∈ TaskOutput.consumers x.

(** Task [a] is a predecessor of task [b]: there is a path of one or
    more steps from [a] to [b]. *)
Definition predecessor (h : Heap) (a b : tref) : Prop := tc (consumes h) a b.

(** What [Task.validate] checks of task [t], whose fields are [x]. *)
Definition task_checks (h : Heap) (t : tref) (x : Task.t) : Prop :=
  0 ≤ Task.duration x ∧
  nonneg_or_none (Task.expected_duration x) ∧
  ¬ predecessor h t t ∧
  NoDup (Task.outputs x) ∧
  ∀ o, o ∈ Task.outputs x →
    ∃ y, output_objs h !! o = Some y ∧
      TaskOutput.parent y = Some t ∧
      0 ≤ TaskOutput.size y ∧
      nonneg_or_none (TaskOutput.expected_size y).

(** What [TaskGraph.validate] checks of an output of task [t]. *)
Definition valid_output (h : Heap) (G : TaskGraph.t) (t : tref) (o : oref) : Prop :=
  ∃ y, output_objs h !! o = Some y ∧
    TaskOutput.parent y = Some t ∧
    0 ≤ TaskOutput.size y ∧
    nonneg_or_none (TaskOutput.expected_size y) ∧
    o ∈ TaskGraph.outputs G ∧
    ∀ c, c ∈ TaskOutput.consumers y → c ∈ TaskGraph.tasks G.

(** What it checks of an input. *)
Definition valid_input (h : Heap) (G : TaskGraph.t) (o : oref) : Prop :=
  o ∈ TaskGraph.outputs G ∧
  ∃ y p, output_objs h !! o = Some y ∧ TaskOutput.parent y = Some p ∧
         p ∈ TaskGraph.tasks G.

(** What it checks of the task at position [i]. *)
Definition valid_task (h : Heap) (G : TaskGraph.t) (i : nat) (t : tref) : Prop :=
  ∃ x, task_objs h !! t = Some x ∧
    Task.id x = Some i ∧
    0 ≤ Task.duration x ∧
    nonneg_or_none (Task.expected_duration x) ∧
    ¬ predecessor h t t ∧
    NoDup (Task.outputs x) ∧
    (∀ o, o ∈ Task.outputs x → valid_output h G t o) ∧
    (∀ o, o ∈ Task.inputs x → valid_input h G o).

(** All that [TaskGraph.validate] checks. *)
Definition valid (h : Heap) (G : TaskGraph.t) : Prop :=
  ∀ i t, TaskGraph.tasks G !! i = Some t → valid_task h G i t.

(** The three conditions of the specification: no cycle, no negative
    duration or size, no dangling input. *)
Definition acyclic (h : Heap) (G : TaskGraph.t) : Prop :=
  ∀ t, t ∈ TaskGraph.tasks G → ¬ predecessor h t t.

Definition nonnegative (h : Heap) (G : TaskGraph.t) : Prop :=
  ∀ t x, t ∈ TaskGraph.tasks G → task_objs h !! t = Some x →
    0 ≤ Task.duration x ∧
    ∀ o y, o ∈ Task.outputs x → output_objs h !! o = Some y → 0 ≤ TaskOutput.size y.

Definition no_dangling_input (h : Heap) (G : TaskGraph.t) : Prop :=
  ∀ t x o, t ∈ TaskGraph.tasks G → task_objs h !! t = Some x → o ∈ Task.inputs x →
    valid_input h G o.

Definition acyclic_nonnegative_connected (h : Heap) (G : TaskGraph.t) : Prop :=
  acyclic h G ∧ nonnegative h G ∧ no_dangling_input h G.

(** The result of one round of [is_predecessor_of] that started in
    state [st] and looked at the tasks that satisfy [cands]. *)
Definition scanned (task : tref) (cands : tref → Prop)
    (st : gset tref * list tref) (r : bool * (gset tref * list tref)) : Prop :=
  if r.1 then cands task
  else st.1 ⊆ r.2.1 ∧
       (∀ d, cands d → d ∈ r.2.1) ∧
       (∀ d, d ∈ r.2.1 → d ∈ st.1 ∨ (cands d ∧ d ≠ task)) ∧
       (∀ d, d ∈ r.2.2 ↔ d ∈ st.2 ∨ (d ∈ r.2.1 ∧ d ∉ st.1)).

(** The outputs of the tasks of a graph, in the order of the tasks. *)
Definition flat_outputs (h : Heap) (G : TaskGraph.t) : list oref :=
  concat ((λ r, default [] (Task.outputs <$> task_objs h !! r)) <$> TaskGraph.tasks G).

(** The graph is as the graph builder keeps it: no task asks for a
    negative number of cpus; the id of every input object is its
    position among the outputs of the graph; and a task is a consumer of
    each of its inputs. *)
Definition well_built (h : Heap) (G : TaskGraph.t) : Prop :=
  ∀ r x, r ∈ TaskGraph.tasks G → task_objs h !! r = Some x →
    0 ≤ Task.cpus x ∧
    ∀ o, o ∈ Task.inputs x →
      ∃ y k, output_objs h !! o = Some y ∧ TaskOutput.id y = Some k ∧
             flat_outputs h G !! k = Some o ∧ r ∈ TaskOutput.consumers y.

(** The same, as a test. *)
Definition well_builtb (h : Heap) (G : TaskGraph.t) : bool :=
  forallb (λ r,
    match task_objs h !! r with
    | Some x =>
        bool_decide (0 ≤ Task.cpus x) &&
        forallb (λ o,
          match output_objs h !! o with
          | Some y =>
              match TaskOutput.id y with
              | Some k => bool_decide (flat_outputs h G !! k = Some o) &&
                          bool_decide (r ∈ TaskOutput.consumers y)
              | None => false
              end
          | None => false
          end) (Task.inputs x)
    | None => true
    end) (TaskGraph.tasks G).

(** The copy of task [x] at position [i] of graph [G] keeps the name,
    the duration, the expected duration and the cpus, has as many
    outputs, of the same sizes, and as many inputs, with the same ids. *)
Definition is_copy (h h' : Heap) (x x' : Task.t) : Prop :=
  Task.name x' = Task.name x ∧
  Task.duration x' = Task.duration x ∧
  Task.expected_duration x' = Task.expected_duration x ∧
  Task.cpus x' = Task.cpus x ∧
  Forall2 (λ o o', ∃ y y', output_objs h !! o = Some y ∧ output_objs h' !! o' = Some y' ∧
                     TaskOutput.size y' = TaskOutput.size y ∧
                     TaskOutput.expected_size y' = TaskOutput.expected_size y)
    (Task.outputs x) (Task.outputs x') ∧
  Forall2 (λ o o', ∃ y y', output_objs h !! o = Some y ∧ output_objs h' !! o' = Some y' ∧
                     TaskOutput.id y' = TaskOutput.id y)
    (Task.inputs x) (Task.inputs x').

(** *** The heap that [copy] builds

    [xs] are the tasks of the graph; their copies come behind the tasks
    and the objects of the heap. *)

(** The elements of the lists [f x], each with the position of [x]. *)
Definition tagged {A B} (f : A → list B) (xs : list A) : list (nat * B) :=
  concat (imap (λ a x, (λ b, (a, b)) <$> f x) xs).

(** The outputs of the tasks, each with the position of its task. *)
Definition owned (xs : list Task.t) : list (nat * oref) := tagged Task.outputs xs.

(** The number of outputs of the tasks before position [a]. *)
Definition off (xs : list Task.t) (a : nat) : nat := length (owned (take a xs)).

(** The object behind a reference and its id, for a reference that has
    them. *)
Definition out_rec (h : Heap) (o : oref) : TaskOutput.t :=
  default (TaskOutput.mk None None 0 ∅ None) (output_objs h !! o).
Definition idk (h : Heap) (o : oref) : nat := default 0%nat (id_of h o).

(** The inputs, as pairs of the position of the task and the id of the
    input. *)
Definition edges_of (h : Heap) (xs : list Task.t) : list (nat * nat) :=
  tagged (λ x, idk h <$> Task.inputs x) xs.

(** The copy of task [x] at position [a], with the inputs [E] added so
    far and the id [i a]; the copy of the output at position [k]. *)
Definition clone_task (O0 : nat) (xs : list Task.t) (E : list (nat * nat))
    (i : nat → option nat) (a : nat) (x : Task.t) : Task.t :=
  Task.mk ((λ k, (O0 + k)%nat) <$> (filter (λ e, e.1 = a) E).*2)
    (seq (O0 + off xs a) (length (Task.outputs x)))
    (Task.duration x) (Task.expected_duration x) (Task.name x) (i a) (Task.cpus x).

Definition clone_output (h : Heap) (E : list (nat * nat))
    (i : nat → option nat) (k : nat) (p : nat * oref) : TaskOutput.t :=
  TaskOutput.mk (Some (length (task_objs h) + p.1)%nat) (i k)
    (TaskOutput.size (out_rec h p.2))
    (list_to_set ((λ e, (length (task_objs h) + e.1)%nat) <$> filter (λ e, e.2 = k) E))
    (TaskOutput.expected_size (out_rec h p.2)).

(** The heap with the copies of the tasks [cs], the first of the tasks
    [xs]. *)
Definition copy_heap (h : Heap) (xs cs : list Task.t) (E : list (nat * nat))
    (ti oi : nat → option nat) : Heap :=
  mkHeap
    (task_objs h ++ imap (clone_task (length (output_objs h)) xs E ti) cs)
    (output_objs h ++ imap (clone_output h E oi) (owned cs))
    (graph_objs h).

(** No id is set; the ids below [n] are set. *)
Definition no_id (k : nat) : option nat := None.
Definition id_below (n : nat) (k : nat) : option nat :=
  if decide (k < n)%nat then Some k else None.

(** *** The heap that [new_task] builds *)

(** The task that [new_task] adds to graph [G] of heap [h], with
    outputs of the given sizes, and its output at position [j]. *)
Definition new_task_rec (h : Heap) (G : TaskGraph.t) (name : option string)
    (sizes : list Z) (duration : Z) (expected_duration : option Z) (cpus : Z) : Task.t :=
  Task.mk [] (seq (length (output_objs h)) (length sizes)) duration expected_duration
    name (Some (length (TaskGraph.tasks G))) cpus.

Definition new_output_rec (h : Heap) (G : TaskGraph.t) (j : nat) (size : Z) : TaskOutput.t :=
  TaskOutput.mk (Some (length (task_objs h)))
    (Some (length (TaskGraph.outputs G) + j)%nat) size ∅ (Some size).

Definition graph_with_new_task (h : Heap) (G : TaskGraph.t) (sizes : list Z) : TaskGraph.t :=
  TaskGraph.mk (TaskGraph.tasks G ++ [length (task_objs h)])
    (TaskGraph.outputs G ++ seq (length (output_objs h)) (length sizes)).

Definition with_new_task (h : Heap) (g : gref) (G : TaskGraph.t) (name : option string)
    (sizes : list Z) (duration : Z) (expected_duration : option Z) (cpus : Z) : Heap :=
  mkHeap
    (task_objs h ++ [new_task_rec h G name sizes duration expected_duration cpus])
    (output_objs h ++ imap (new_output_rec h G) sizes)
    (<[g := graph_with_new_task h G sizes]> (graph_objs h)).

(** The graph is as [new_task] and [add_input] keep it: its outputs are
    the outputs of its tasks, in order; the id of an output is its
    position; no task asks for a negative number of cpus; every input
    of a task is an output of the graph and has the task among its
    consumers. *)
Definition built (h : Heap) (G : TaskGraph.t) : Prop :=
  TaskGraph.outputs G = flat_outputs h G ∧
  (∀ k o, TaskGraph.outputs G !! k = Some o → id_of h o = Some k) ∧
  ∀ r x, r ∈ TaskGraph.tasks G → task_objs h !! r = Some x →
    0 ≤ Task.cpus x ∧
    ∀ o, o ∈ Task.inputs x →
      o ∈ TaskGraph.outputs G ∧
      ∃ y, output_objs h !! o = Some y ∧ r ∈ TaskOutput.consumers y.

(** The same, as a test. *)
Definition builtb (h : Heap) (G : TaskGraph.t) : bool :=
  bool_decide (TaskGraph.outputs G = flat_outputs h G) &&
  forallb (λ k, bool_decide (TaskGraph.outputs G !! k ≫= id_of h = Some k))
    (seq 0 (length (TaskGraph.outputs G))) &&
  forallb (λ r,
    match task_objs h !! r with
    | Some x =>
        bool_decide (0 ≤ Task.cpus x) &&
        forallb (λ o,
          bool_decide (o ∈ TaskGraph.outputs G) &&
          match output_objs h !! o with
          | Some y => bool_decide (r ∈ TaskOutput.consumers y)
          | None => false
          end) (Task.inputs x)
    | None => true
    end) (TaskGraph.tasks G).

(** A graph of two tasks from which the first task was removed, built by
    [g = TaskGraph(); a = g.new_task("a"); g.new_task("b");
     g.remove_task(a)]. *)
Definition first_task_removed : Heap :=
  state_after (g <- TaskGraph_init None ;;
               a <- TaskGraph_new_task g (Some "a") [] 1 None 1 None ;;
               TaskGraph_new_task g (Some "b") [] 1 None 1 None ;;;
               TaskGraph_remove_task g a) empty_heap.

End GraphProps.

Module MirrorProps.

Import Mirror.

(** The graph of [test_simulator_local_reassign]: tasks [A0], [A1] and
    [A2], each with one output; [A2] reads the outputs of [A1] and [A0].
    The first update announces three workers, the three objects and the
    three tasks. *)
Definition local_reassign_message : Message :=
  {| msg_type := "update";
     msg_new_workers := Some [mkWorkerMsg 0 1; mkWorkerMsg 1 1; mkWorkerMsg 2 1];
     msg_network_bandwidth := Some 1;
     msg_new_objects := Some [mkObjectMsg 0 (Some 1) None; mkObjectMsg 1 (Some 1) None;
                              mkObjectMsg 2 (Some 10) None];
     msg_new_tasks := Some [mkTaskMsg 0 [] [0%nat] None 1; mkTaskMsg 1 [] [1%nat] None 1;
                            mkTaskMsg 2 [1%nat; 0%nat] [2%nat] None 1];
     msg_tasks_update := None;
     msg_objects_update := None |}.

(** The policy of that test, up to its second call of [assign]: task
    [A2] is assigned to worker 1 and then to worker 2. *)
Definition local_reassign_policy : Policy := λ m u,
  ([mkAssignCall (Some 1%nat) 2 None None; mkAssignCall (Some 2%nat) 2 None None], None).

(** The set [scheduled] of the object with the given id. *)
Definition scheduled_of (s : Scheduler) (object_id : nat)
    : option (gset (option SchedulerWorker)) :=
  r ← objects s !! object_id;
  SchedulerDataObject.scheduled <$> data_objs s !! r.

(** The task with the given id. *)
Definition task_of (s : Scheduler) (task_id : nat) : option SchedulerTask.t :=
  r ← tasks s !! task_id; task_objs s !! r.

(** An update that announces the graph, two objects and two tasks, and
    no worker and no bandwidth; and the policy that withdraws every task
    that the update makes ready. *)
Definition graph_only_message : Message :=
  {| msg_type := "update";
     msg_new_workers := None;
     msg_network_bandwidth := None;
     msg_new_objects := Some [mkObjectMsg 0 (Some 1) None; mkObjectMsg 1 (Some 1) (Some 2)];
     msg_new_tasks := Some [mkTaskMsg 0 [] [0%nat] (Some 1) 1;
                            mkTaskMsg 1 [0%nat] [1%nat] None 1];
     msg_tasks_update := None;
     msg_objects_update := Some [mkObjectUpdateMsg 1 [] [] (Some 3)] |}.

Definition withdraw_ready : Policy := λ m u,
  (omap (λ i, (λ t, mkAssignCall None t None None) <$> i) (uv_new_ready_tasks u), None).

(** The policy that never assigns. *)
Definition do_nothing : Policy := λ m u, ([], None).

(** A second run of the same update makes new instances.  With [dt] task
    instances and [dx] object instances made before, the instances of the
    second run are those of the first with every reference moved: *)
Definition move_task (dx : nat) (t : SchedulerTask.t) : SchedulerTask.t :=
  SchedulerTask.mk (SchedulerTask.id t)
    ((Nat.add dx) <$> SchedulerTask.inputs t) ((Nat.add dx) <$> SchedulerTask.outputs t)
    (SchedulerTask.expected_duration t) (SchedulerTask.cpus t)
    (SchedulerTask.state t) (SchedulerTask.scheduled_worker t)
    (SchedulerTask.computed_by t) (SchedulerTask.unfinished_inputs t).

Definition move_object (dt : nat) (o : SchedulerDataObject.t) : SchedulerDataObject.t :=
  SchedulerDataObject.mk (SchedulerDataObject.id o)
    (SchedulerDataObject.expected_size o) (SchedulerDataObject.size o)
    ((Nat.add dt) <$> SchedulerDataObject.parent o)
    (set_map (Nat.add dt) (SchedulerDataObject.consumers o))
    (SchedulerDataObject.placing o) (SchedulerDataObject.availability o)
    (SchedulerDataObject.scheduled o).

(** Mirror [s'] is mirror [s] moved, behind [dt] and [dx] older
    instances; the dictionaries of [s'] may hold, under keys that [s]
    does not have, the older instances [old_tasks] and [old_objects].
    With [assigning], the dictionary [assignments] is moved too. *)
Record moved (dt dx : nat) (old_tasks old_objects : gmap nat nat) (assigning : bool)
    (s s' : Scheduler) : Prop := mk_moved {
  moved_workers : workers s' = workers s;
  moved_bandwidth : network_bandwidth s' = network_bandwidth s;
  moved_task_objs : ∃ older, length older = dt ∧
    task_objs s' = older ++ (move_task dx <$> task_objs s);
  moved_data_objs : ∃ older, length older = dx ∧
    data_objs s' = older ++ (move_object dt <$> data_objs s);
  moved_tasks : tasks s' = (Nat.add dt <$> tasks s) ∪ old_tasks;
  moved_objects : objects s' = (Nat.add dx <$> objects s) ∪ old_objects;
  moved_assignments : assigning = true →
    assignments s' =
      (λ d : list (tref * Assignment), (λ p, (dt + p.1, p.2)%nat) <$> d) <$> assignments s }.

(** Two states agree on a field. *)
Definition same {X} (f : Scheduler → X) (s t : Scheduler) : Prop := f t = f s.

(** The workers of [s] are workers of [t]. *)
Definition workers_stay (s t : Scheduler) : Prop :=
  ∀ k, is_Some (workers s !! k) → is_Some (workers t !! k).

(** Update [u'] is update [u] moved. *)
Definition moved_update (dt dx : nat) (u u' : Update) : Prop :=
  new_workers u' = new_workers u ∧
  network_update u' = network_update u ∧
  new_objects u' = Nat.add dx <$> new_objects u ∧
  new_tasks u' = Nat.add dt <$> new_tasks u ∧
  new_ready_tasks u' = Nat.add dt <$> new_ready_tasks u ∧
  new_finished_tasks u' = Nat.add dt <$> new_finished_tasks u.

(** The instances of the objects stay, and their sets [scheduled] only
    grow. *)
Definition scheduled_grow (s s' : Scheduler) : Prop :=
  ∀ o y, data_objs s !! o = Some y →
    ∃ y', data_objs s' !! o = Some y' ∧
          SchedulerDataObject.scheduled y ⊆ SchedulerDataObject.scheduled y'.

(** The object ids that are not in [K] name in [s'] the instances that
    they name in [s]. *)
Definition objects_kept (K : list nat) (s s' : Scheduler) : Prop :=
  ∀ k r, k ∉ K → objects s !! k = Some r → objects s' !! k = Some r.

(** The worker that a message describes. *)
Definition worker_of (w : WorkerMsg) : SchedulerWorker := mkWorker (wm_id w) (wm_cpus w).

(** The workers of a message can be registered: no id is repeated and
    none is known. *)
Definition registrable (ws : list WorkerMsg) (s : Scheduler) : Prop :=
  NoDup (wm_id <$> ws) ∧ ∀ w, w ∈ ws → workers s !! wm_id w = None.

End MirrorProps.

(** * Properties *)

Import TaskModel SchedTk Runs.

(** ** The state-and-exception monad *)

Section Monad.

Context {S A B : Type}.

Lemma bind_ok (m : M S A) (k : A → M S B) s a s' :
  m s = (Ok a, s') → Py.bind m k s = k a s'.
Proof. unfold Py.bind. by intros ->. Qed.

Lemma bind_raise (m : M S A) (k : A → M S B) s e s' :
  m s = (Raise e, s') → Py.bind m k s = (Raise e, s').
Proof. unfold Py.bind. by intros ->. Qed.

Lemma bind_inv_ok (m : M S A) (k : A → M S B) s b s2 :
  Py.bind m k s = (Ok b, s2) → ∃ a s1, m s = (Ok a, s1) ∧ k a s1 = (Ok b, s2).
Proof.
  unfold Py.bind. destruct (m s) as [[a|e] s1]; [eauto | discriminate].
Qed.

End Monad.

Lemma for_each_app {S A} (l1 l2 : list A) (f : A → M S unit) s :
  for_each (l1 ++ l2) f s =
  match for_each l1 f s with
  | (Ok _, s') => for_each l2 f s'
  | (Raise e, s') => (Raise e, s')
  end.
Proof.
  revert s. induction l1 as [|x l1 IH]; intros s; [done|].
  simpl. unfold Py.bind. destruct (f x s) as [[[]|e] s1]; [apply IH | done].
Qed.

Lemma map_m_read {S A B} (f : A → S → outcome B) (l : list A) (s : S) (bs : list B) :
  Forall2 (λ a b, f a s = Ok b) l bs →
  map_m (λ a, read (f a)) l s = (Ok bs, s).
Proof.
  induction 1 as [|a b l bs Hab _ IH]; simpl; [done|].
  unfold Py.bind, read in *. by rewrite Hab, IH.
Qed.

(** *** Relations that a computation keeps *)

Section Preserves.

Context {S : Type} (P : S → S → Prop) `{!PreOrder P}.

Lemma preserves_ret {A} (a : A) : preserves P (ret a).
Proof. intros s. unfold state_after. simpl. reflexivity. Qed.

Lemma preserves_raise {A} e : preserves P (raise e : M S A).
Proof. intros s. unfold state_after. simpl. reflexivity. Qed.

Lemma preserves_read {A} (f : S → outcome A) : preserves P (read f).
Proof. intros s. unfold state_after. simpl. reflexivity. Qed.

Lemma preserves_assert b : preserves P (assert b).
Proof. destruct b; [apply preserves_ret | apply preserves_raise]. Qed.

Lemma preserves_modify (f : S → S) : (∀ s, P s (f s)) → preserves P (modify f).
Proof. intros Hf s. apply Hf. Qed.

Lemma preserves_bind {A B} (m : M S A) (k : A → M S B) :
  preserves P m → (∀ a, preserves P (k a)) → preserves P (Py.bind m k).
Proof.
  intros Hm Hk s. unfold state_after, Py.bind. specialize (Hm s).
  unfold state_after in Hm. destruct (m s) as [[a|e] s1]; simpl in *; [|done].
  etrans; [done|]. apply Hk.
Qed.

Lemma preserves_for_each {A} (l : list A) (f : A → M S unit) :
  (∀ a, preserves P (f a)) → preserves P (for_each l f).
Proof.
  intros Hf. induction l as [|x l IH]; simpl; [apply preserves_ret|].
  by apply preserves_bind.
Qed.

Lemma preserves_map_m {A B} (l : list A) (f : A → M S B) :
  (∀ a, preserves P (f a)) → preserves P (map_m f l).
Proof.
  intros Hf. induction l as [|x l IH]; simpl; [apply preserves_ret|].
  apply preserves_bind; [done|]. intros b.
  apply preserves_bind; [done|]. intros bs. apply preserves_ret.
Qed.

Lemma preserves_ok {A} (m : M S A) s a t : preserves P m → m s = (Ok a, t) → P s t.
Proof. intros Hm Hrun. specialize (Hm s). unfold state_after in Hm. by rewrite Hrun in Hm. Qed.

End Preserves.

(** [pres l] applies lemma [l] on kept relations and finds the
    preorder. *)
Tactic Notation "pres" uconstr(l) := apply l; try (solve [apply _]).

(** *** Computations that follow one another *)

Section Simulates.

Context {S : Type}.
Implicit Types R : S → S → Prop.

Lemma simulates_ret {A A'} R (Rres : A → A' → Prop) a a' :
  Rres a a' → simulates R R Rres (ret a) (ret a').
Proof. intros Ha s s' b t Hs [= <- <-]. by exists a', s'. Qed.

Lemma simulates_raise {A A'} R R' (Rres : A → A' → Prop) e (m' : M S A') :
  simulates R R' Rres (raise e) m'.
Proof. intros s s' b t _ [=]. Qed.

Lemma simulates_assert R b : simulates R R (λ _ _, True) (assert b) (assert b).
Proof. destruct b; [by apply simulates_ret | apply simulates_raise]. Qed.

Lemma simulates_read {A A'} R (Rres : A → A' → Prop) (f : S → outcome A) (f' : S → outcome A') :
  (∀ s s' a, R s s' → f s = Ok a → ∃ a', f' s' = Ok a' ∧ Rres a a') →
  simulates R R Rres (read f) (read f').
Proof.
  intros Hf s s' a t Hs. unfold read. intros [= Ha <-].
  destruct (Hf s s' a Hs Ha) as (a' & Ha' & Hr). exists a', s'. by rewrite Ha'.
Qed.

Lemma simulates_modify R R' (f f' : S → S) :
  (∀ s s', R s s' → R' (f s) (f' s')) →
  simulates R R' (λ _ _, True) (modify f) (modify f').
Proof. intros Hf s s' a t Hs [= <- <-]. exists tt, (f' s'). auto. Qed.

Lemma simulates_bind {A A' B B'} R1 R2 R3 (Ra : A → A' → Prop) (Rb : B → B' → Prop)
    (m : M S A) (m' : M S A') (k : A → M S B) (k' : A' → M S B') :
  simulates R1 R2 Ra m m' →
  (∀ a a', Ra a a' → simulates R2 R3 Rb (k a) (k' a')) →
  simulates R1 R3 Rb (Py.bind m k) (Py.bind m' k').
Proof.
  intros Hm Hk s s' b t Hs Hrun.
  apply bind_inv_ok in Hrun as (a & s1 & Hrun1 & Hrun2).
  destruct (Hm s s' a s1 Hs Hrun1) as (a' & s1' & Hrun1' & Hs1 & Ha).
  destruct (Hk a a' Ha s1 s1' b t Hs1 Hrun2) as (b' & t' & Hrun2' & Ht & Hb).
  exists b', t'. split; [|done]. by rewrite (bind_ok _ _ _ _ _ Hrun1').
Qed.

Lemma simulates_for_each {A A'} R (Ra : A → A' → Prop) (l : list A) (l' : list A')
    (f : A → M S unit) (f' : A' → M S unit) :
  Forall2 Ra l l' →
  (∀ a a', Ra a a' → simulates R R (λ _ _, True) (f a) (f' a')) →
  simulates R R (λ _ _, True) (for_each l f) (for_each l' f').
Proof.
  intros Hl Hf. induction Hl as [|a a' l l' Ha _ IH]; simpl.
  - by apply simulates_ret.
  - eapply simulates_bind; [by apply Hf|]. intros _ _ _. apply IH.
Qed.

Lemma simulates_map_m {A A' B B'} R (Ra : A → A' → Prop) (Rb : B → B' → Prop)
    (l : list A) (l' : list A') (f : A → M S B) (f' : A' → M S B') :
  Forall2 Ra l l' →
  (∀ a a', Ra a a' → simulates R R Rb (f a) (f' a')) →
  simulates R R (Forall2 Rb) (map_m f l) (map_m f' l').
Proof.
  intros Hl Hf. induction Hl as [|a a' l l' Ha _ IH]; simpl.
  - apply simulates_ret. constructor.
  - eapply simulates_bind; [by apply Hf|]. intros b b' Hb.
    eapply simulates_bind; [apply IH|]. intros bs bs' Hbs.
    apply simulates_ret. by constructor.
Qed.

Lemma simulates_weaken {A A'} R1 R2 (Rres Rres' : A → A' → Prop) (m : M S A) (m' : M S A') :
  (∀ a a', Rres a a' → Rres' a a') →
  simulates R1 R2 Rres m m' → simulates R1 R2 Rres' m m'.
Proof.
  intros Himp Hm s s' a t Hs Hrun.
  destruct (Hm s s' a t Hs Hrun) as (a' & t' & ? & ? & ?). exists a', t'. auto.
Qed.

End Simulates.

(** *** Computations that return *)

Section Hoare.

Context {S : Type}.
Implicit Types P : S → Prop.

Lemma hoare_ret {A} P (Q : A → S → Prop) a :
  (∀ s, P s → Q a s) → hoare P (ret a) Q.
Proof. intros HQ s Hs. exists a, s. auto. Qed.

Lemma hoare_read {A} P (Q : A → S → Prop) (f : S → outcome A) :
  (∀ s, P s → ∃ a, f s = Ok a ∧ Q a s) → hoare P (read f) Q.
Proof.
  intros Hf s Hs. destruct (Hf s Hs) as (a & Ha & HQ). exists a, s.
  unfold read. by rewrite Ha.
Qed.

Lemma hoare_modify P (Q : unit → S → Prop) (f : S → S) :
  (∀ s, P s → Q tt (f s)) → hoare P (modify f) Q.
Proof. intros Hf s Hs. exists tt, (f s). auto. Qed.

Lemma hoare_assert P (Q : unit → S → Prop) b :
  b = true → (∀ s, P s → Q tt s) → hoare P (assert b) Q.
Proof. intros -> HQ. by apply hoare_ret. Qed.

Lemma hoare_bind {A B} P (Q1 : A → S → Prop) (Q : B → S → Prop)
    (m : M S A) (k : A → M S B) :
  hoare P m Q1 → (∀ a, hoare (Q1 a) (k a) Q) → hoare P (Py.bind m k) Q.
Proof.
  intros Hm Hk s Hs. destruct (Hm s Hs) as (a & s1 & Hrun & H1).
  destruct (Hk a s1 H1) as (b & t & Hrun2 & HQ). exists b, t.
  by rewrite (bind_ok _ _ _ _ _ Hrun).
Qed.

Lemma hoare_conseq {A} P P' (Q Q' : A → S → Prop) (m : M S A) :
  (∀ s, P' s → P s) → (∀ a s, Q a s → Q' a s) → hoare P m Q → hoare P' m Q'.
Proof.
  intros HP HQ Hm s Hs. destruct (Hm s (HP s Hs)) as (a & t & Hrun & Ht).
  exists a, t. auto.
Qed.

(** A loop with an invariant on the elements that were gone through. *)
Lemma hoare_for_each {A} (I : list A → S → Prop) (l : list A) (f : A → M S unit) :
  (∀ l1 x l2, l = l1 ++ x :: l2 → hoare (I l1) (f x) (λ _, I (l1 ++ [x]))) →
  hoare (I []) (for_each l f) (λ _, I l).
Proof.
  intros Hf. assert (∀ l1 l2, l = l1 ++ l2 →
    hoare (I l1) (for_each l2 f) (λ _, I l)) as Hgen; [|by apply (Hgen [] l)].
  intros l1 l2. revert l1. induction l2 as [|x l2 IH]; intros l1 Hl; simpl.
  - rewrite app_nil_r in Hl. subst l1. by apply hoare_ret.
  - eapply hoare_bind; [by eapply Hf|]. intros []. apply IH.
    by rewrite <- app_assoc.
Qed.

Lemma hoare_map_m {A B} (I : list A → list B → S → Prop) (l : list A) (f : A → M S B) :
  (∀ l1 x l2 bs, l = l1 ++ x :: l2 →
     hoare (I l1 bs) (f x) (λ b, I (l1 ++ [x]) (bs ++ [b]))) →
  hoare (I [] []) (map_m f l) (λ bs, I l bs).
Proof.
  intros Hf. assert (∀ l1 l2 bs, l = l1 ++ l2 →
    hoare (I l1 bs) (map_m f l2) (λ bs2, I l (bs ++ bs2))) as Hgen; [|by apply (Hgen [] l [])].
  intros l1 l2. revert l1. induction l2 as [|x l2 IH]; intros l1 bs Hl; simpl.
  - rewrite app_nil_r in Hl. subst l1. apply hoare_ret. intros s. by rewrite app_nil_r.
  - eapply hoare_bind; [by eapply Hf|]. intros b.
    eapply hoare_bind; [apply (IH (l1 ++ [x]) (bs ++ [b])); by rewrite <- app_assoc|].
    intros bs2. apply hoare_ret. intros s. by rewrite <- app_assoc.
Qed.

End Hoare.

(** ** The kernel: [schedule] and [on_task_finished] *)

Section Kernel.

Implicit Types (s : Simulator) (i : TaskRuntimeInfo) (w : wref) (t : tref).

(** What an accepted assignment does to the simulator. *)
Lemma schedule_assignment_accepted s w t i :
  info s !! t = Some i → state i ≠ Finished →
  schedule_assignment (w, t) s =
    (Ok tt,
     set_queue (<[w := queue s !!! w ++ [t]]> (queue s))
       (set_info (<[t := set_assigned_workers (assigned_workers i ++ [w])
                            (set_state Assigned i)]> (info s)) s)).
Proof.
  intros Hi Hs. unfold schedule_assignment, upd_info, task_info, Worker_assign_task.
  unfold Py.bind, read, modify, ret. simpl. rewrite Hi.
  destruct (decide (state i = Finished)) as [|_]; [done|].
  simpl. rewrite Hi. simpl. rewrite ?lookup_insert_eq. simpl.
  rewrite ?lookup_insert_eq. unfold set_queue, set_info. simpl.
  by rewrite insert_insert_eq.
Qed.

(** What a refused assignment does: nothing. *)
Lemma schedule_assignment_finished s w t i :
  info s !! t = Some i → state i = Finished →
  schedule_assignment (w, t) s =
    (Raise (Exception "Scheduler tries to assign a finished task ({})"), s).
Proof.
  intros Hi Hs. unfold schedule_assignment, task_info, Py.bind, read, ret.
  rewrite Hi. by destruct (decide (state i = Finished)).
Qed.

Lemma schedule_assignment_inv s s' w t :
  schedule_assignment (w, t) s = (Ok tt, s') →
  ∃ i, info s !! t = Some i ∧ state i ≠ Finished.
Proof.
  unfold schedule_assignment, task_info, Py.bind, read, ret.
  destruct (info s !! t) as [i|] eqn:Hi; [|discriminate].
  destruct (decide (state i = Finished)); [discriminate | eauto].
Qed.

(** A batch of assignments none of which names a finished task is
    accepted as a whole; it leaves the finished tasks alone and adds to
    the queue of each worker the tasks assigned to it. *)
Lemma schedule_accepted s pre :
  (∀ a, a ∈ pre → ∃ j, info s !! a.2 = Some j ∧ state j ≠ Finished) →
  ∃ s', schedule pre s = (Ok tt, s') ∧
    (∀ t i, info s !! t = Some i → state i = Finished → info s' !! t = Some i) ∧
    (∀ w, queue s' !!! w = queue s !!! w ++ assigned_to w pre).
Proof.
  revert s. induction pre as [|[w0 t0] pre IH]; intros s Hpre.
  { exists s. split; [done|]. split; [done|]. intros w. by rewrite app_nil_r. }
  destruct (Hpre (w0, t0)) as (j & Hj & Hjs); [left|]. simpl in Hj.
  pose proof (schedule_assignment_accepted s w0 t0 j Hj Hjs) as Hstep.
  set (s1 := set_queue _ _) in Hstep.
  destruct (IH s1) as (s' & Hrun & Hfin & Hq).
  { intros a Ha. destruct (decide (a.2 = t0)) as [->|Hne].
    - eexists. split; [apply lookup_insert_eq|]. done.
    - destruct (Hpre a) as (k & Hk & Hks); [by right|].
      exists k. split; [|done]. simpl. by rewrite lookup_insert_ne. }
  exists s'. split; [|split].
  - unfold schedule. simpl. by rewrite (bind_ok _ _ _ _ _ Hstep).
  - intros t i Hi Hs. apply Hfin; [|done].
    simpl. rewrite lookup_insert_ne; [done|]. intros ->. congruence.
  - intros w. rewrite Hq. unfold assigned_to. rewrite filter_cons. simpl.
    destruct (decide (w0 = w)) as [->|Hne].
    + rewrite lookup_total_insert_eq. by rewrite <- app_assoc.
    + by rewrite lookup_total_insert_ne.
Qed.

(** C4: an assignment of a task that is already [Finished] makes
    [Simulator.schedule] raise "Scheduler tries to assign a finished
    task", and the exception leaves [_master_process], which aborts the
    run.  It is raised before anything is changed for this assignment:
    the simulator is as the earlier assignments of the batch left it; the
    state and the [assigned_workers] of the finished task are those it
    had before the batch, and the queue of the worker has gained the
    tasks of the earlier assignments only. *)
Theorem schedule_finished_task_is_fatal s pre post w t i :
  info s !! t = Some i →
  state i = Finished →
  (∀ a, a ∈ pre → ∃ j, info s !! a.2 = Some j ∧ state j ≠ Finished) →
  ∃ s', schedule pre s = (Ok tt, s') ∧
    schedule (pre ++ (w, t) :: post) s =
      (Raise (Exception "Scheduler tries to assign a finished task ({})"), s') ∧
    master_wakeup (pre ++ (w, t) :: post) s =
      (Raise (Exception "Scheduler tries to assign a finished task ({})"), s') ∧
    info s' !! t = Some i ∧
    queue s' !!! w = queue s !!! w ++ assigned_to w pre.
Proof.
  intros Hi Hs Hpre.
  destruct (schedule_accepted s pre Hpre) as (s' & Hrun & Hfin & Hq).
  assert (schedule (pre ++ (w, t) :: post) s =
    (Raise (Exception "Scheduler tries to assign a finished task ({})"), s')) as Hraise.
  { unfold schedule in *. rewrite for_each_app, Hrun. simpl.
    apply bind_raise, (schedule_assignment_finished _ _ _ i); auto. }
  exists s'. repeat split; auto.
  unfold master_wakeup. by apply bind_raise.
Qed.


Lemma grows_refl s : grows s s.
Proof. intros t i Hi. by exists i. Qed.

Lemma grows_trans s1 s2 s3 : grows s1 s2 → grows s2 s3 → grows s1 s3.
Proof.
  intros H12 H23 t i Hi. destruct (H12 t i Hi) as (i2 & Hi2 & Hp2).
  destruct (H23 t i2 Hi2) as (i3 & Hi3 & Hp3). exists i3. split; [done|].
  by etrans.
Qed.


Lemma keeps_bind {A B} (m : M Simulator A) (k : A → M Simulator B) :
  keeps_history m → (∀ a, keeps_history (k a)) → keeps_history (Py.bind m k).
Proof.
  intros Hm Hk s. unfold state_after, Py.bind. specialize (Hm s).
  unfold state_after in Hm. destruct (m s) as [[a|e] s1]; simpl in *; [|done].
  eapply grows_trans; [done|]. apply Hk.
Qed.

Lemma keeps_for_each {A} (l : list A) (f : A → M Simulator unit) :
  (∀ a, keeps_history (f a)) → keeps_history (for_each l f).
Proof.
  intros Hf. induction l as [|x l IH]; simpl.
  - intros s. apply grows_refl.
  - apply keeps_bind; auto.
Qed.

Lemma keeps_ret {A} (a : A) : keeps_history (ret a).
Proof. intros s. apply grows_refl. Qed.

Lemma keeps_raise {A} e : keeps_history (raise e : M Simulator A).
Proof. intros s. apply grows_refl. Qed.

Lemma keeps_assert b : keeps_history (assert b).
Proof. destruct b; [apply keeps_ret | apply keeps_raise]. Qed.

Lemma keeps_read {A} (f : Simulator → outcome A) : keeps_history (read f).
Proof. intros s. apply grows_refl. Qed.

Lemma keeps_task_info t : keeps_history (task_info t).
Proof. apply keeps_read. Qed.

Lemma keeps_modify (f : Simulator → Simulator) :
  (∀ s, info (f s) = info s) → keeps_history (modify f).
Proof.
  intros Hf s t i Hi. exists i. unfold state_after, modify. simpl.
  by rewrite Hf.
Qed.

Lemma keeps_upd_info t (f : TaskRuntimeInfo → TaskRuntimeInfo) :
  (∀ i, assigned_workers i `prefix_of` assigned_workers (f i)) →
  keeps_history (upd_info t f).
Proof.
  intros Hf s t' i' Hi'. unfold state_after, upd_info, task_info, Py.bind, read, modify.
  destruct (info s !! t) as [i|] eqn:Hi; simpl; [|eauto].
  destruct (decide (t = t')) as [->|Hne].
  - rewrite lookup_insert_eq. exists (f i). split; [done|].
    replace i' with i by congruence. apply Hf.
  - rewrite lookup_insert_ne by done. eauto.
Qed.

Create HintDb history.
#[local] Hint Resolve keeps_ret keeps_raise keeps_assert keeps_task_info
  keeps_read : history.

Lemma keeps_schedule_assignment a : keeps_history (schedule_assignment a).
Proof.
  destruct a as [w t]. unfold schedule_assignment.
  apply keeps_bind; [auto with history|]. intros i.
  destruct (decide (state i = Finished)); [auto with history|].
  apply keeps_bind; [by apply keeps_upd_info|]. intros _.
  apply keeps_bind; [apply keeps_upd_info; intros j; by apply prefix_app_r|].
  intros _. by apply keeps_modify.
Qed.

Lemma keeps_schedule l : keeps_history (schedule l).
Proof. apply keeps_for_each, keeps_schedule_assignment. Qed.

Lemma keeps_consumer_input_finished t : keeps_history (consumer_input_finished t).
Proof.
  unfold consumer_input_finished.
  apply keeps_bind; [by apply keeps_upd_info|]. intros _.
  apply keeps_bind; [auto with history|]. intros i.
  case_bool_decide; [|auto with history].
  apply keeps_bind. { case_bool_decide; auto with history. }
  intros _. apply keeps_bind; [auto with history|]. intros _.
  apply keeps_bind; [auto with history|]. intros _.
  apply keeps_bind; [by apply keeps_upd_info|]. intros _.
  by apply keeps_modify.
Qed.

Lemma keeps_on_task_finished h w t : keeps_history (on_task_finished h w t).
Proof.
  unfold on_task_finished.
  apply keeps_bind; [auto with history|]. intros i.
  apply keeps_bind; [auto with history|]. intros _.
  apply keeps_bind; [auto with history|]. intros _.
  apply keeps_bind; [by apply keeps_upd_info|]. intros _.
  apply keeps_bind; [by apply keeps_modify|]. intros _.
  apply keeps_bind; [by apply keeps_modify|]. intros _.
  apply keeps_bind; [auto with history|]. intros cs.
  apply keeps_bind; [apply keeps_for_each, keeps_consumer_input_finished|].
  intros _. apply keeps_bind; [auto with history|]. intros [].
  - auto with history.
  - by apply keeps_modify.
Qed.

Lemma keeps_step h e : keeps_history (step h e).
Proof.
  destruct e as [l|w t| |l]; simpl.
  - apply keeps_schedule.
  - apply keeps_on_task_finished.
  - by apply keeps_modify.
  - unfold master_wakeup. apply keeps_bind; [apply keeps_schedule|]. intros _.
    apply keeps_bind; [by apply keeps_modify|]. intros _. by apply keeps_modify.
Qed.

(** A batch that is accepted appends to the history of a task the
    workers that the batch gives to it, in order, and puts the task in
    the queue of each of them. *)
Lemma schedule_history l s s' t i :
  schedule l s = (Ok tt, s') → info s !! t = Some i →
  ∃ i', info s' !! t = Some i' ∧
    assigned_workers i' = assigned_workers i ++ workers_for t l ∧
    ∀ w, w ∈ workers_for t l → t ∈ queue s' !!! w.
Proof.
  revert s i. induction l as [|[w0 t0] l IH]; intros s i Hrun Hi.
  { injection Hrun as <-. exists i. rewrite app_nil_r. split; [done|].
    split; [done|]. intros w Hw. by apply elem_of_nil in Hw. }
  unfold schedule in Hrun. cbn [for_each] in Hrun.
  apply bind_inv_ok in Hrun as ([] & s1 & Hstep & Hrun).
  destruct (schedule_assignment_inv _ _ _ _ Hstep) as (j & Hj & Hjs).
  rewrite (schedule_assignment_accepted s w0 t0 j Hj Hjs) in Hstep.
  injection Hstep as <-.
  unfold workers_for. rewrite filter_cons. simpl.
  destruct (decide (t0 = t)) as [->|Hne].
  - replace j with i in * by congruence.
    edestruct (λ i0, IH _ i0 Hrun) as (i' & Hi' & Hw' & Hq'); [apply lookup_insert_eq|].
    exists i'. split; [done|]. simpl in Hw'. split.
    + rewrite Hw'. simpl. by rewrite <- app_assoc.
    + intros w [->|Hw]%elem_of_cons; [|by apply Hq'].
      assert (∀ l' s2 s3, schedule l' s2 = (Ok tt, s3) →
                t ∈ queue s2 !!! w0 → t ∈ queue s3 !!! w0) as Hkeep.
      { clear. induction l' as [|[w1 t1] l' IH']; intros s2 s3 Hrun Hin.
        - by injection Hrun as <-.
        - unfold schedule in Hrun. cbn [for_each] in Hrun.
          apply bind_inv_ok in Hrun as ([] & s4 & Hstep & Hrun).
          destruct (schedule_assignment_inv _ _ _ _ Hstep) as (j & Hj & Hjs).
          rewrite (schedule_assignment_accepted s2 w1 t1 j Hj Hjs) in Hstep.
          injection Hstep as <-. apply (IH' _ _ Hrun). simpl.
          destruct (decide (w1 = w0)) as [->|Hne].
          + rewrite lookup_total_insert_eq. apply elem_of_app. by left.
          + by rewrite lookup_total_insert_ne. }
      apply (Hkeep _ _ _ Hrun). simpl. rewrite lookup_total_insert_eq.
      apply elem_of_app. right. by left.
  - edestruct (IH _ i Hrun) as (i' & Hi' & Hw' & Hq').
    { simpl. by rewrite lookup_insert_ne. }
    exists i'. by repeat split.
Qed.

(** A batch is accepted only if every task of it has its [info] and
    none is [Finished]. *)
Lemma schedule_accepts_only l : ∀ s s',
  schedule l s = (Ok tt, s') →
  ∀ a, a ∈ l → ∃ j, info s !! a.2 = Some j ∧ state j ≠ Finished.
Proof.
  induction l as [|[w0 t0] l IH]; intros s s' Hrun a Ha.
  { by apply elem_of_nil in Ha. }
  unfold schedule in Hrun. cbn [for_each] in Hrun.
  apply bind_inv_ok in Hrun as ([] & s1 & Hstep & Hrun).
  destruct (schedule_assignment_inv _ _ _ _ Hstep) as (j & Hj & Hjs).
  rewrite (schedule_assignment_accepted s w0 t0 j Hj Hjs) in Hstep.
  injection Hstep as <-.
  apply elem_of_cons in Ha as [->|Ha]; [by exists j|].
  destruct (IH _ _ Hrun a Ha) as (j' & Hj' & Hjs'). cbn in Hj'.
  destruct (decide (a.2 = t0)) as [->|Hne]; [by exists j|].
  rewrite lookup_insert_ne in Hj' by done. by exists j'.
Qed.

(** C5: [assigned_workers] is an append-only history.  Whatever happens
    to the simulator (a call of [schedule], of [on_task_finished], a
    pass of the master process), returning or raising, the list that a
    task had is a prefix of the list that it has afterwards.  A batch of
    assignments of tasks none of which is [Finished] is accepted, and
    only such a batch is: [schedule] returns, and it has appended, for
    each assignment of the task, exactly the worker of that assignment,
    in order; the last entry is the worker of the last assignment of the
    task, and this worker holds the task in its queue. *)
Theorem assigned_workers_append_only h s t i l :
  info s !! t = Some i →
  (∀ a, a ∈ l → ∃ j, info s !! a.2 = Some j ∧ state j ≠ Finished) →
  (∀ e, ∃ i', info (state_after (step h e) s) !! t = Some i' ∧
          assigned_workers i `prefix_of` assigned_workers i') ∧
  (∃ s' i', schedule l s = (Ok tt, s') ∧
     info s' !! t = Some i' ∧
     assigned_workers i' = assigned_workers i ++ workers_for t l ∧
     length (assigned_workers i') =
       (length (assigned_workers i) + length (filter (λ a, a.2 = t) l))%nat ∧
     ∀ w, last (workers_for t l) = Some w →
       last (assigned_workers i') = Some w ∧ t ∈ queue s' !!! w) ∧
  (∀ l' s', schedule l' s = (Ok tt, s') →
     ∀ a, a ∈ l' → ∃ j, info s !! a.2 = Some j ∧ state j ≠ Finished).
Proof.
  intros Hi Hl. split_and!.
  - intros e. by apply (keeps_step h e s).
  - destruct (schedule_accepted s l Hl) as (s' & Hrun & _).
    destruct (schedule_history l s s' t i Hrun Hi) as (i' & Hi' & Hw & Hq).
    exists s', i'. split; [done|]. split; [done|]. split; [done|]. split.
    { rewrite Hw, length_app. unfold workers_for. by rewrite length_fmap. }
    intros w Hlast. split.
    + rewrite Hw. rewrite last_app, Hlast. done.
    + apply Hq. apply last_Some in Hlast as [l' ->].
      apply elem_of_app. right. by left.
  - intros l' s'. apply schedule_accepts_only.
Qed.

End Kernel.

Lemma schedule_finished_task_is_fatal_witness :
  let s := {| info := {[ 0%nat := mkInfo Finished None None [5%nat] 0;
                         1%nat := mkInfo Ready None None [] 0 ]};
              queue := ∅; new_finished := []; new_ready := [];
              unprocessed_tasks := 1; wakeup_event := Some true |} in
  ∃ s', schedule [(7%nat, 1%nat)] s = (Ok tt, s') ∧
    schedule ([(7%nat, 1%nat)] ++ (7%nat, 0%nat) :: []) s =
      (Raise (Exception "Scheduler tries to assign a finished task ({})"), s') ∧
    master_wakeup ([(7%nat, 1%nat)] ++ (7%nat, 0%nat) :: []) s =
      (Raise (Exception "Scheduler tries to assign a finished task ({})"), s') ∧
    info s' !! 0%nat = Some (mkInfo Finished None None [5%nat] 0) ∧
    queue s' !!! 7%nat = queue s !!! 7%nat ++ assigned_to 7%nat [(7%nat, 1%nat)].
Proof.
  intros s.
  apply (schedule_finished_task_is_fatal s [(7%nat, 1%nat)] [] 7%nat 0%nat
           (mkInfo Finished None None [5%nat] 0)).
  - reflexivity.
  - reflexivity.
  - intros a Ha. apply list_elem_of_singleton in Ha. subst a.
    exists (mkInfo Ready None None [] 0). split; [reflexivity | discriminate].
Defined.

Lemma assigned_workers_append_only_witness :
  let s := {| info := {[ 0%nat := mkInfo Assigned None None [5%nat] 0 ]};
              queue := {[ 5%nat := [0%nat] ]}; new_finished := []; new_ready := [];
              unprocessed_tasks := 1; wakeup_event := Some false |} in
  let i := mkInfo Assigned None None [5%nat] 0 in
  let l := [(7%nat, 0%nat); (9%nat, 0%nat)] in
  (∀ e, ∃ i', info (state_after (step empty_heap e) s) !! 0%nat = Some i' ∧
          assigned_workers i `prefix_of` assigned_workers i') ∧
  (∃ s' i', schedule l s = (Ok tt, s') ∧
     info s' !! 0%nat = Some i' ∧
     assigned_workers i' = [5%nat; 7%nat; 9%nat] ∧
     length (assigned_workers i') = 3%nat ∧
     ∀ w, last [7%nat; 9%nat] = Some w →
       last (assigned_workers i') = Some w ∧ 0%nat ∈ queue s' !!! w) ∧
  (∀ l' s', schedule l' s = (Ok tt, s') →
     ∀ a, a ∈ l' → ∃ j, info s !! a.2 = Some j ∧ state j ≠ Finished).
Proof.
  intros s i l. apply (assigned_workers_append_only empty_heap s 0%nat i l).
  - reflexivity.
  - intros a Ha. exists i. split; [|discriminate].
    apply elem_of_cons in Ha as [->|Ha]; [reflexivity|].
    apply list_elem_of_singleton in Ha. subst a. reflexivity.
Defined.

(** ** Runs of the kernel on two small graphs *)

(** C1 (the code against the claim): the enumeration [TaskState] has
    the four members [Waiting], [Ready], [Assigned] and [Finished] and no
    member [Running], so the property [is_running] raises
    [AttributeError] in every state.  In the run of a graph of one task
    of duration zero (the task is assigned to worker 0 and finishes
    there) the task is [Waiting], then [Assigned], then [Finished]: it
    never is in a state [Running]. *)
Theorem task_state_lacks_running :
  (∀ i, is_running i = Raise (AttributeError "Running")) ∧
  (∀ st : TaskState, st ∈ [Waiting; Ready; Assigned; Finished]) ∧
  let h := zero_duration_graph in
  let s0 := state_after (run_init h 0%nat) Simulator_init in
  let run := run_events h [Schedule [(0%nat, 0%nat)]; MasterWait;
                           TaskFinished 0%nat 0%nat; MasterWakeup []] s0 in
  Task.duration <$> task_objs h !! 0%nat = Some 0 ∧
  state_of 0%nat s0 = Some Waiting ∧
  run.*1 = [Ok tt; Ok tt; Ok tt; Ok tt] ∧
  state_of 0%nat <$> run.*2 =
    [Some Assigned; Some Assigned; Some Finished; Some Finished].
Proof.
  split; [done|]. split.
  { intros []; set_solver. }
  vm_compute. done.
Qed.

(** C2 (the code against the claim): task [t] reads the two outputs of
    task [p].  [TaskRuntimeInfo.__init__] counts two unfinished inputs;
    when [p] finishes, [on_task_finished] goes through the set of the
    consumers of [p], in which [t] is once, and decrements the counter
    once.  The counter of [t] is then 1, no input object of [t] has an
    unfinished parent, and [t] stays [Waiting]. *)
Theorem unfinished_inputs_of_two_inputs_one_parent :
  let h := two_inputs_one_parent in
  let s0 := state_after (run_init h 0%nat) Simulator_init in
  let run := run_events h [Schedule [(0%nat, 0%nat)]; MasterWait;
                           TaskFinished 0%nat 0%nat] s0 in
  Task.inputs <$> task_objs h !! 1%nat = Some [0%nat; 1%nat] ∧
  TaskOutput.parent <$> output_objs h = [Some 0%nat; Some 0%nat] ∧
  unfinished_inputs <$> info s0 !! 1%nat = Some 2 ∧
  inputs_with_unfinished_parent h s0 1%nat = 2 ∧
  run.*1 = [Ok tt; Ok tt; Ok tt] ∧
  ∃ s1, last run.*2 = Some s1 ∧
    state_of 0%nat s1 = Some Finished ∧
    unfinished_inputs <$> info s1 !! 1%nat = Some 1 ∧
    inputs_with_unfinished_parent h s1 1%nat = 0 ∧
    state_of 1%nat s1 = Some Waiting ∧
    new_ready s1 = [].
Proof.
  vm_compute. repeat split; try done. eexists. repeat split; done.
Qed.

(** ** The kernel: what every event keeps *)

Section KernelInvariants.

Implicit Types (s : Simulator) (i j : TaskRuntimeInfo) (w : wref) (t : tref).

#[local] Instance kernel_inv_preorder : PreOrder kernel_inv.
Proof.
  split.
  - intros s. split; [|done]. intros t i Hi Hf. eauto.
  - intros s1 s2 s3 [H12 A12] [H23 A23]. split.
    + intros t i Hi Hf. destruct (H12 t i Hi Hf) as (i2 & Hi2 & Hf2). eauto.
    + unfold accounted in *. lia.
Qed.

(** A change of the fields of a task that keeps it finished or
    unfinished. *)
Lemma info_update_inv s t i j :
  info s !! t = Some i → (state j = Finished ↔ state i = Finished) →
  kernel_inv s (set_info (<[t := j]> (info s)) s).
Proof.
  intros Hi Hij. split.
  - intros t' i' Hi' Hf. cbn. destruct (decide (t' = t)) as [->|Hne].
    + rewrite lookup_insert_eq. exists j. split; [done|]. apply Hij. congruence.
    + rewrite lookup_insert_ne by done. eauto.
  - unfold accounted, finished_count. cbn. do 2 f_equal.
    destruct (decide (state j = Finished)) as [Hj|Hj].
    + rewrite map_filter_insert_True by done. apply map_size_insert_Some.
      exists i. apply map_lookup_filter_Some. split; [done|]. by apply Hij.
    + rewrite map_filter_insert_not'; [done..|].
      intros y Hy Hf. cbn in Hf. apply Hj, Hij. congruence.
Qed.

(** A change of the other fields of the simulator. *)
Lemma frame_inv s (f : Simulator → Simulator) :
  info (f s) = info s → unprocessed_tasks (f s) = unprocessed_tasks s →
  kernel_inv s (f s).
Proof.
  intros Hinfo Hun. split.
  - intros t i Hi Hf. rewrite Hinfo. eauto.
  - unfold accounted, finished_count. by rewrite Hinfo, Hun.
Qed.

Lemma upd_info_inv t (f : TaskRuntimeInfo → TaskRuntimeInfo) :
  (∀ i, state (f i) = Finished ↔ state i = Finished) →
  preserves kernel_inv (upd_info t f).
Proof.
  intros Hf s. unfold state_after, upd_info, task_info, Py.bind, read, modify.
  destruct (info s !! t) as [i|] eqn:Hi; cbn; [|reflexivity].
  by apply (info_update_inv s t i).
Qed.

Lemma schedule_assignment_kernel_inv a : preserves kernel_inv (schedule_assignment a).
Proof.
  destruct a as [w t]. intros s. unfold state_after.
  destruct (info s !! t) as [i|] eqn:Hi.
  - destruct (decide (state i = Finished)) as [Hf|Hf].
    + rewrite (schedule_assignment_finished s w t i Hi Hf). reflexivity.
    + rewrite (schedule_assignment_accepted s w t i Hi Hf). cbn [snd].
      etrans; [by apply (info_update_inv s t i
        (set_assigned_workers (assigned_workers i ++ [w]) (set_state Assigned i)))|].
      by apply (frame_inv _ (set_queue _)).
  - unfold schedule_assignment, task_info, Py.bind, read. rewrite Hi. reflexivity.
Qed.

Lemma consumer_input_finished_kernel_inv t :
  preserves kernel_inv (consumer_input_finished t).
Proof.
  unfold consumer_input_finished. pres preserves_bind; [by apply upd_info_inv|].
  intros _ s. unfold state_after, Py.bind at 1. unfold task_info at 1, read at 1.
  destruct (info s !! t) as [i|] eqn:Hi; cbn [snd]; [|reflexivity].
  case_bool_decide; [|reflexivity].
  unfold Py.bind at 1. case_bool_decide; cbn [raise ret snd]; [reflexivity|].
  unfold Py.bind at 1. case_bool_decide; cbn [assert raise ret snd]; [|reflexivity].
  unfold Py.bind at 1. case_bool_decide; cbn [assert raise ret snd]; [|reflexivity].
  unfold upd_info, task_info, Py.bind, read, modify. rewrite Hi. cbn.
  etrans; [apply (info_update_inv s t i (set_state Ready i)); [done|]|].
  - cbn. split; congruence.
  - by apply (frame_inv _ (set_new_ready _)).
Qed.

(** What [on_task_finished] does after it has marked the task. *)
#[local] Abbreviation after_marking h task :=
  (consumers <- read (λ _ : Simulator, Task_consumers h task) ;;
   for_each (elements consumers) consumer_input_finished ;;;
   triggered <- read (λ s, match wakeup_event s with
                           | Some b => Ok b
                           | None => Raise (AttributeError "triggered")
                           end) ;;
   if triggered then ret tt else modify (set_wakeup_event (Some true))).

(** The simulator when the task has been marked. *)
Definition marked (task : tref) (i : TaskRuntimeInfo) (s : Simulator) : Simulator :=
  set_unprocessed_tasks (unprocessed_tasks s - 1)
    (set_new_finished (new_finished s ++ [task])
       (set_info (<[task := set_state Finished i]> (info s)) s)).

Lemma on_task_finished_marks h w t s i :
  info s !! t = Some i → state i = Assigned → w ∈ assigned_workers i →
  on_task_finished h w t s = after_marking h t (marked t i s).
Proof.
  intros Hi Hs Hw. unfold on_task_finished.
  unfold Py.bind at 1. unfold task_info at 1, read at 1. rewrite Hi.
  rewrite !bool_decide_true by done. cbn [assert]. unfold Py.bind at 1 2. cbn [ret].
  unfold Py.bind at 1. unfold upd_info, task_info, Py.bind at 1, read at 1. rewrite Hi.
  cbn [modify]. unfold Py.bind at 1 2. by cbn [modify].
Qed.

Lemma on_task_finished_refused h w t s :
  (∀ i, info s !! t = Some i → state i = Assigned → w ∈ assigned_workers i → False) →
  ∃ e, on_task_finished h w t s = (Raise e, s) ∧
       (is_Some (info s !! t) → e = AssertionError).
Proof.
  intros Hno. unfold on_task_finished.
  unfold Py.bind at 1. unfold task_info, read.
  destruct (info s !! t) as [i|] eqn:Hi; [|eexists; split; [done|by intros []]].
  unfold Py.bind at 1. case_bool_decide as Hs; cbn [assert ret raise]; [|eauto].
  unfold Py.bind at 1. case_bool_decide as Hw; cbn [assert ret raise]; [|eauto].
  destruct (Hno i); done.
Qed.

Lemma after_marking_kernel_inv h t : preserves kernel_inv (after_marking h t).
Proof.
  pres preserves_bind; [pres preserves_read|]. intros cs.
  pres preserves_bind.
  { pres preserves_for_each. apply consumer_input_finished_kernel_inv. }
  intros _. pres preserves_bind; [pres preserves_read|]. intros [].
  - pres preserves_ret.
  - pres preserves_modify. intros s. by apply (frame_inv _ (set_wakeup_event _)).
Qed.

Lemma marked_kernel_inv t i s :
  info s !! t = Some i → state i = Assigned → kernel_inv s (marked t i s).
Proof.
  intros Hi Hs. split.
  - intros t' i' Hi' Hf. cbn. destruct (decide (t' = t)) as [->|Hne].
    + rewrite lookup_insert_eq. eauto.
    + rewrite lookup_insert_ne by done. eauto.
  - unfold accounted, finished_count. cbn.
    rewrite map_filter_insert_True by done.
    rewrite map_size_insert_None; [lia|].
    apply eq_None_not_Some. intros [y [Hy Hp]%map_lookup_filter_Some].
    cbn in Hp. congruence.
Qed.

Lemma on_task_finished_kernel_inv h w t : preserves kernel_inv (on_task_finished h w t).
Proof.
  intros s. destruct (info s !! t) as [i|] eqn:Hi.
  - destruct (decide (state i = Assigned ∧ w ∈ assigned_workers i)) as [[Hs Hw]|Hno].
    + unfold state_after. rewrite (on_task_finished_marks h w t s i) by done.
      etrans; [by apply marked_kernel_inv|]. apply after_marking_kernel_inv.
    + destruct (on_task_finished_refused h w t s) as (e & Hrun & _).
      { intros i' Hi' ? ?. apply Hno. by replace i with i' by congruence. }
      unfold state_after. rewrite Hrun. reflexivity.
  - destruct (on_task_finished_refused h w t s) as (e & Hrun & _).
    { intros i' Hi'. congruence. }
    unfold state_after. rewrite Hrun. reflexivity.
Qed.

Lemma step_kernel_inv h e : preserves kernel_inv (step h e).
Proof.
  destruct e as [l|w t| |l]; cbn [step].
  - pres preserves_for_each. apply schedule_assignment_kernel_inv.
  - apply on_task_finished_kernel_inv.
  - pres preserves_modify. intros s. by apply (frame_inv _ (set_wakeup_event _)).
  - unfold master_wakeup. pres preserves_bind.
    { pres preserves_for_each. apply schedule_assignment_kernel_inv. }
    intros _. pres preserves_bind.
    { pres preserves_modify. intros s. by apply (frame_inv _ (set_new_finished _)). }
    intros _. pres preserves_modify. intros s. by apply (frame_inv _ (set_new_ready _)).
Qed.

Lemma run_events_kernel_inv h es : ∀ s,
  Forall (λ r, kernel_inv s r.2) (run_events h es s).
Proof.
  induction es as [|e es IH]; intros s; [constructor|].
  cbn [run_events]. pose proof (step_kernel_inv h e s) as Hstep.
  unfold state_after in Hstep. constructor; [done|].
  eapply Forall_impl; [apply IH|]. intros r Hr. cbn in Hr. by etrans.
Qed.

End KernelInvariants.

(** X1: a finished task stays finished.  Whatever events follow
    (calls of [schedule], of [on_task_finished], passes of the master
    process), returning or raising, a task that is [Finished] is
    [Finished] in every later state of the run. *)
Theorem finished_task_stays_finished h es s t i :
  info s !! t = Some i → state i = Finished →
  Forall (λ r, state_of t r.2 = Some Finished) (run_events h es s).
Proof.
  intros Hi Hf. eapply Forall_impl; [apply run_events_kernel_inv|].
  intros r [Hstay _]. destruct (Hstay t i Hi Hf) as (i' & Hi' & Hf').
  unfold state_of. by rewrite Hi'; cbn; rewrite Hf'.
Qed.

Lemma finished_task_stays_finished_witness :
  let s := {| info := {[ 0%nat := mkInfo Finished None None [5%nat] 0;
                         1%nat := mkInfo Assigned None None [5%nat] 1 ]};
              queue := ∅; new_finished := []; new_ready := [];
              unprocessed_tasks := 1; wakeup_event := Some false |} in
  Forall (λ r, state_of 0%nat r.2 = Some Finished)
    (run_events empty_heap
       [Schedule [(7%nat, 0%nat)]; TaskFinished 5%nat 0%nat; TaskFinished 5%nat 1%nat;
        MasterWakeup [(7%nat, 1%nat)]] s).
Proof.
  intros s.
  apply (finished_task_stays_finished empty_heap _ s 0%nat
           (mkInfo Finished None None [5%nat] 0)); reflexivity.
Defined.

(** The first lines of [run]: every task of the graph gets a fresh
    [info]. *)
Lemma run_init_run h g G :
  graph_objs h !! g = Some G →
  (∀ t, t ∈ TaskGraph.tasks G → is_Some (task_objs h !! t)) →
  ∃ s0, run_init h g Simulator_init = (Ok tt, s0) ∧
    unprocessed_tasks s0 = Z.of_nat (length (TaskGraph.tasks G)) ∧
    (∀ t i, info s0 !! t = Some i →
       ∃ x, task_objs h !! t = Some x ∧ i = TaskRuntimeInfo_init x) ∧
    (∀ t x, t ∈ TaskGraph.tasks G → task_objs h !! t = Some x →
       info s0 !! t = Some (TaskRuntimeInfo_init x)).
Proof.
  intros Hg Htasks. unfold run_init.
  unfold Py.bind at 1. unfold read at 1, get_graph. rewrite Hg.
  pose proof (hoare_for_each
    (λ l1 (s : Simulator),
       (∀ t i, info s !! t = Some i →
          ∃ x, task_objs h !! t = Some x ∧ i = TaskRuntimeInfo_init x) ∧
       (∀ t x, t ∈ l1 → task_objs h !! t = Some x →
          info s !! t = Some (TaskRuntimeInfo_init x)))
    (TaskGraph.tasks G)
    (λ task, t <- read (λ _, get_task h task) ;;
             modify (λ s, set_info (<[task := TaskRuntimeInfo_init t]> (info s)) s))) as Hloop.
  destruct Hloop with (s := Simulator_init) as ([] & s1 & Hrun & Hinv1 & Hinv2).
  - intros l1 t l2 Hl s [H1 H2].
    destruct (Htasks t) as [x Hx]; [rewrite Hl; apply elem_of_app; right; left|].
    eexists tt, _. split.
    { unfold Py.bind, read, get_task, modify. by rewrite Hx. }
    cbn. split.
    + intros t' i'. destruct (decide (t' = t)) as [->|Hne].
      * rewrite lookup_insert_eq. intros [= <-]. eauto.
      * rewrite lookup_insert_ne by done. apply H1.
    + intros t' x' Ht' Hx'. destruct (decide (t' = t)) as [->|Hne].
      * rewrite lookup_insert_eq. congruence.
      * rewrite lookup_insert_ne by done. apply H2; [|done].
        apply elem_of_app in Ht' as [?|Ht']; [done|].
        by apply list_elem_of_singleton in Ht'.
  - split; [by intros t i|]. by intros t x Ht%elem_of_nil.
  - eexists. unfold Py.bind at 1. rewrite Hrun. cbn. split; [done|]. by split.
Qed.

(** X2: [unprocessed_tasks] counts the tasks that are not finished.
    [run] gives every task of the graph a fresh [info] ([Waiting], no
    worker, as many unfinished inputs as the task has inputs) and sets
    [unprocessed_tasks] to the number of tasks; in every later state of
    the run, whether the events return or raise, [unprocessed_tasks]
    and the number of [Finished] tasks add up to the number of tasks. *)
Theorem unprocessed_tasks_counts_unfinished h g G es :
  graph_objs h !! g = Some G →
  (∀ t, t ∈ TaskGraph.tasks G → is_Some (task_objs h !! t)) →
  ∃ s0, run_init h g Simulator_init = (Ok tt, s0) ∧
    (∀ t x, t ∈ TaskGraph.tasks G → task_objs h !! t = Some x →
       info s0 !! t = Some (TaskRuntimeInfo_init x)) ∧
    Forall (λ r, unprocessed_tasks r.2 + finished_count r.2 =
                 Z.of_nat (length (TaskGraph.tasks G)))
      ((Ok tt, s0) :: run_events h es s0).
Proof.
  intros Hg Htasks.
  destruct (run_init_run h g G Hg Htasks) as (s0 & Hrun & Hun & Hfresh & Hall).
  exists s0. split; [done|]. split; [done|].
  assert (unprocessed_tasks s0 + finished_count s0 =
          Z.of_nat (length (TaskGraph.tasks G))) as H0.
  { rewrite Hun. unfold finished_count.
    rewrite (proj2 (map_empty_filter _ (info s0))); [rewrite map_size_empty; lia|].
    intros t i Hi. destruct (Hfresh t i Hi) as (x & _ & ->). by cbn. }
  constructor; [done|].
  eapply Forall_impl; [apply run_events_kernel_inv|].
  intros r [_ Hacc]. unfold accounted in Hacc. lia.
Qed.

Lemma unprocessed_tasks_counts_unfinished_witness :
  let h := two_inputs_one_parent in
  let G := TaskGraph.mk [0%nat; 1%nat] [0%nat; 1%nat] in
  ∃ s0, run_init h 0%nat Simulator_init = (Ok tt, s0) ∧
    (∀ t x, t ∈ TaskGraph.tasks G → task_objs h !! t = Some x →
       info s0 !! t = Some (TaskRuntimeInfo_init x)) ∧
    Forall (λ r, unprocessed_tasks r.2 + finished_count r.2 =
                 Z.of_nat (length (TaskGraph.tasks G)))
      ((Ok tt, s0) ::
       run_events h [Schedule [(0%nat, 0%nat)]; MasterWait; TaskFinished 0%nat 0%nat;
                     MasterWakeup [(0%nat, 1%nat)]; TaskFinished 0%nat 1%nat] s0).
Proof.
  intros h G. apply (unprocessed_tasks_counts_unfinished h 0%nat G).
  - vm_compute. reflexivity.
  - intros t Ht. apply lookup_lt_is_Some. cbn in Ht.
    apply elem_of_cons in Ht as [->|Ht%list_elem_of_singleton]; [|subst t];
      vm_compute; lia.
Defined.

(** The loop over the consumers leaves [new_finished] and
    [unprocessed_tasks] alone. *)
Definition finish_log_kept (s s' : Simulator) : Prop :=
  new_finished s' = new_finished s ∧ unprocessed_tasks s' = unprocessed_tasks s.

#[local] Instance finish_log_kept_preorder : PreOrder finish_log_kept.
Proof.
  split; [done|]. intros s1 s2 s3 [H1 H2] [H3 H4]. split; congruence.
Qed.

Lemma upd_info_finish_log t f : preserves finish_log_kept (upd_info t f).
Proof.
  intros s. unfold state_after, upd_info, task_info, Py.bind, read, modify.
  by destruct (info s !! t).
Qed.

Lemma consumer_input_finished_finish_log t :
  preserves finish_log_kept (consumer_input_finished t).
Proof.
  unfold consumer_input_finished.
  pres preserves_bind; [apply upd_info_finish_log|]. intros _.
  pres preserves_bind; [pres preserves_read|]. intros i.
  case_bool_decide; [|pres preserves_ret].
  pres preserves_bind.
  { case_bool_decide; [pres preserves_raise | pres preserves_ret]. }
  intros _. pres preserves_bind; [pres preserves_assert|]. intros _.
  pres preserves_bind; [pres preserves_assert|]. intros _.
  pres preserves_bind; [apply upd_info_finish_log|]. intros _.
  by pres preserves_modify.
Qed.

Lemma after_marking_finish_log h t (s : Simulator) :
  finish_log_kept s (state_after (consumers <- read (λ _ : Simulator, Task_consumers h t) ;;
     for_each (elements consumers) consumer_input_finished ;;;
     triggered <- read (λ s, match wakeup_event s with
                             | Some b => Ok b
                             | None => Raise (AttributeError "triggered")
                             end) ;;
     if triggered then ret tt else modify (set_wakeup_event (Some true))) s).
Proof.
  revert s. change (preserves finish_log_kept
    (consumers <- read (λ _ : Simulator, Task_consumers h t) ;;
     for_each (elements consumers) consumer_input_finished ;;;
     triggered <- read (λ s, match wakeup_event s with
                             | Some b => Ok b
                             | None => Raise (AttributeError "triggered")
                             end) ;;
     if triggered then ret tt else modify (set_wakeup_event (Some true)))).
  pres preserves_bind; [pres preserves_read|]. intros cs.
  pres preserves_bind.
  { pres preserves_for_each. apply consumer_input_finished_finish_log. }
  intros _. pres preserves_bind; [pres preserves_read|]. intros [].
  - pres preserves_ret.
  - by pres preserves_modify.
Qed.

(** X3: a task finishes once.  When [on_task_finished] is called for
    a task that is [Assigned] and a worker that the task was assigned
    to, the task is [Finished] afterwards, it has been appended to
    [new_finished] and [unprocessed_tasks] has gone down by one, even if
    the loop over the consumers raises; and a second call for the same
    task, by any worker, raises [AssertionError] and changes nothing. *)
Theorem task_finishes_once h w w' t s i :
  info s !! t = Some i → state i = Assigned → w ∈ assigned_workers i →
  let s1 := state_after (on_task_finished h w t) s in
  state_of t s1 = Some Finished ∧
  new_finished s1 = new_finished s ++ [t] ∧
  unprocessed_tasks s1 = unprocessed_tasks s - 1 ∧
  on_task_finished h w' t s1 = (Raise AssertionError, s1).
Proof.
  intros Hi Hs Hw s1.
  assert (∃ i1, info s1 !! t = Some i1 ∧ state i1 = Finished) as (i1 & Hi1 & Hf1).
  { unfold s1, state_after. rewrite (on_task_finished_marks h w t s i) by done.
    destruct (after_marking_kernel_inv h t (marked t i s)) as [Hstay _].
    apply (Hstay t (set_state Finished i)); [|done]. cbn. apply lookup_insert_eq. }
  assert (finish_log_kept (marked t i s) s1) as [Hnf Hun].
  { unfold s1, state_after. rewrite (on_task_finished_marks h w t s i) by done.
    apply after_marking_finish_log. }
  split_and!.
  - unfold state_of. by rewrite Hi1; cbn; rewrite Hf1.
  - by rewrite Hnf.
  - by rewrite Hun.
  - destruct (on_task_finished_refused h w' t s1) as (e & Hrun & He).
    { intros i' Hi' Hs' _. congruence. }
    rewrite Hrun, He; [done|]. by exists i1.
Qed.

Lemma task_finishes_once_witness :
  let h := two_inputs_one_parent in
  let s := state_after (schedule [(4%nat, 0%nat)])
             (state_after (run_init h 0%nat) Simulator_init) in
  let s1 := state_after (on_task_finished h 4%nat 0%nat) s in
  state_of 0%nat s1 = Some Finished ∧
  new_finished s1 = new_finished s ++ [0%nat] ∧
  unprocessed_tasks s1 = unprocessed_tasks s - 1 ∧
  on_task_finished h 9%nat 0%nat s1 = (Raise AssertionError, s1).
Proof.
  intros h s.
  apply (task_finishes_once h 4%nat 9%nat 0%nat s (mkInfo Assigned None None [4%nat] 0)).
  - vm_compute. reflexivity.
  - reflexivity.
  - apply list_elem_of_singleton. reflexivity.
Defined.

(** X4: a consumer becomes ready when its counter reaches zero, and
    only then.  For a consumer [t] of the finished task, with counter
    [n]: if [n > 1] the counter goes to [n - 1] and nothing else
    changes; if [n = 1] and [t] is [Waiting], [t] becomes [Ready] with
    counter 0 and is appended to [new_ready]; if [n = 1] and [t] is not
    [Waiting], [AssertionError] is raised; if [n < 1], the exception
    "Invalid number of unfinished inputs" is raised.  The decrement
    stays when an exception is raised. *)
Theorem consumer_ready_at_zero t s i :
  info s !! t = Some i →
  let i' := set_unfinished_inputs (unfinished_inputs i - 1) i in
  let s' := set_info (<[t := i']> (info s)) s in
  (1 < unfinished_inputs i → consumer_input_finished t s = (Ok tt, s')) ∧
  (unfinished_inputs i = 1 → state i = Waiting →
   consumer_input_finished t s =
     (Ok tt, set_new_ready (new_ready s ++ [t])
               (set_info (<[t := set_state Ready i']> (info s)) s))) ∧
  (unfinished_inputs i = 1 → state i ≠ Waiting →
   consumer_input_finished t s = (Raise AssertionError, s')) ∧
  (unfinished_inputs i < 1 →
   consumer_input_finished t s =
     (Raise (Exception "Invalid number of unfinished inputs: {}, task {}"), s')).
Proof.
  intros Hi i' s'.
  assert (∀ b1 b2 b3 b4 : bool,
    bool_decide (unfinished_inputs i - 1 ≤ 0) = b1 →
    bool_decide (unfinished_inputs i - 1 < 0) = b2 →
    bool_decide (unfinished_inputs i - 1 = 0) = b3 →
    bool_decide (state i = Waiting) = b4 →
    consumer_input_finished t s =
      if b1 then
        if b2 then (Raise (Exception "Invalid number of unfinished inputs: {}, task {}"), s')
        else if b3 then
          if b4 then (Ok tt, set_new_ready (new_ready s ++ [t])
                               (set_info (<[t := set_state Ready i']> (info s)) s))
          else (Raise AssertionError, s')
        else (Raise AssertionError, s')
      else (Ok tt, s')) as Hcases.
  { intros b1 b2 b3 b4 H1 H2 H3 H4.
    unfold consumer_input_finished, upd_info, task_info, Py.bind, read, modify.
    rewrite Hi. cbn. rewrite lookup_insert_eq. cbn. rewrite H1, H2, H3, H4.
    destruct b1, b2, b3, b4; cbn; try done.
    all: rewrite lookup_insert_eq; cbn; by rewrite insert_insert_eq. }
  split_and!; intros Hn.
  - rewrite (Hcases false _ _ _ ltac:(by apply bool_decide_false; lia)
               eq_refl eq_refl eq_refl). done.
  - intros Hw.
    rewrite (Hcases true false true true); [done|apply bool_decide_true; lia|
      apply bool_decide_false; lia|apply bool_decide_true; lia|by apply bool_decide_true].
  - intros Hw.
    rewrite (Hcases true false true false); [done|apply bool_decide_true; lia|
      apply bool_decide_false; lia|apply bool_decide_true; lia|by apply bool_decide_false].
  - rewrite (Hcases true true _ _ ltac:(by apply bool_decide_true; lia)
               ltac:(by apply bool_decide_true; lia) eq_refl eq_refl). done.
Qed.

Lemma consumer_ready_at_zero_witness :
  let s := {| info := {[ 3%nat := mkInfo Waiting None None [] 1 ]};
              queue := ∅; new_finished := []; new_ready := [];
              unprocessed_tasks := 1; wakeup_event := Some false |} in
  let i := mkInfo Waiting None None [] 1 in
  let i' := set_unfinished_inputs (unfinished_inputs i - 1) i in
  let s' := set_info (<[3%nat := i']> (info s)) s in
  (1 < unfinished_inputs i → consumer_input_finished 3%nat s = (Ok tt, s')) ∧
  (unfinished_inputs i = 1 → state i = Waiting →
   consumer_input_finished 3%nat s =
     (Ok tt, set_new_ready (new_ready s ++ [3%nat])
               (set_info (<[3%nat := set_state Ready i']> (info s)) s))) ∧
  (unfinished_inputs i = 1 → state i ≠ Waiting →
   consumer_input_finished 3%nat s = (Raise AssertionError, s')) ∧
  (unfinished_inputs i < 1 →
   consumer_input_finished 3%nat s =
     (Raise (Exception "Invalid number of unfinished inputs: {}, task {}"), s')).
Proof.
  intros s i. apply (consumer_ready_at_zero 3%nat s i). reflexivity.
Defined.

(** ** Tasks: [output] and [normalize] *)

Import GraphProps.

(** C9: [t.output] is the only element of [t.outputs] when there is
    exactly one, and raises an exception when [t] has no output and when
    it has two or more; reading it changes nothing. *)
Theorem Task_output_unique_or_raises (h : Heap) (self : tref) (t : Task.t) :
  task_objs h !! self = Some t →
  let r := read (λ h, Task_output h self) h in
  r.2 = h ∧
  (∀ o, r.1 = Ok o ↔ Task.outputs t = [o]) ∧
  (length (Task.outputs t) = 1%nat → ∃ o, r.1 = Ok o ∧ ∀ o', o' ∈ Task.outputs t → o' = o) ∧
  (length (Task.outputs t) = 0%nat → r.1 = Raise (Exception "Task {} has no output")) ∧
  ((2 ≤ length (Task.outputs t))%nat →
     r.1 = Raise (Exception "Task {} has no unique output")).
Proof.
  intros Ht. unfold read, Task_output, get_task. simpl. rewrite Ht. simpl.
  split; [done|].
  destruct (Task.outputs t) as [|o [|o2 l]]; simpl.
  - repeat split; try done; lia.
  - split; [intros o'; split; congruence|].
    split; [|split; [done | lia]].
    intros _. exists o. split; [done|]. by intros o' ->%list_elem_of_singleton.
  - repeat split; try done; lia.
Qed.

Lemma Task_output_unique_or_raises_witness :
  let h := mkHeap [Task.mk [] [4%nat] 1 None None None 1] [] [] in
  let r := read (λ h, Task_output h 0%nat) h in
  r.2 = h ∧
  (∀ o, r.1 = Ok o ↔ [4%nat] = [o]) ∧
  (length [4%nat] = 1%nat → ∃ o, r.1 = Ok o ∧ ∀ o', o' ∈ [4%nat] → o' = o) ∧
  (length [4%nat] = 0%nat → r.1 = Raise (Exception "Task {} has no output")) ∧
  ((2 ≤ length [4%nat])%nat → r.1 = Raise (Exception "Task {} has no unique output")).
Proof.
  intros h.
  apply (Task_output_unique_or_raises h 0%nat (Task.mk [] [4%nat] 1 None None None 1)).
  reflexivity.
Defined.

(** *** Sorting by key *)

Lemma insert_by_key_perm x l : insert_by_key x l ≡ₚ x :: l.
Proof.
  induction l as [|y l IH]; simpl; [done|].
  case_decide; [done|]. rewrite IH. apply Permutation_swap.
Qed.

Lemma sort_by_key_acc_perm l acc :
  foldl (λ acc x, insert_by_key x acc) acc l ≡ₚ acc ++ l.
Proof.
  revert acc. induction l as [|x l IH]; intros acc; simpl.
  - by rewrite app_nil_r.
  - rewrite IH, insert_by_key_perm. simpl. apply Permutation_middle.
Qed.

Lemma sort_by_key_perm l : sort_by_key l ≡ₚ l.
Proof. apply sort_by_key_acc_perm. Qed.

Lemma insert_by_key_sorted x l :
  StronglySorted key_le l → StronglySorted key_le (insert_by_key x l).
Proof.
  induction 1 as [|y l Hl IH Hy]; simpl.
  - repeat constructor.
  - case_decide as Hlt.
    + constructor; [by constructor|]. constructor; [unfold key_le; lia|].
      eapply Forall_impl; [exact Hy|]. unfold key_le. intros z Hz. lia.
    + constructor; [done|]. rewrite insert_by_key_perm.
      constructor; [unfold key_le; lia | done].
Qed.

Lemma sort_by_key_sorted l : StronglySorted key_le (sort_by_key l).
Proof.
  unfold sort_by_key. generalize (@nil (nat * oref)) (SSorted_nil key_le).
  induction l as [|x l IH]; intros acc Hacc; simpl; [done|].
  apply IH. by apply insert_by_key_sorted.
Qed.

(** With keys given by a function on the objects, the sorted list is
    a permutation of the objects in the order of their keys. *)
Lemma sort_by_key_objects (kf : oref → nat) (l : list oref) :
  let r := (sort_by_key ((λ o, (kf o, o)) <$> l)).*2 in
  r ≡ₚ l ∧ StronglySorted (λ a b, (kf a ≤ kf b)%nat) r.
Proof.
  intros r. subst r. set (kl := (λ o, (kf o, o)) <$> l).
  pose proof (sort_by_key_perm kl) as Hperm.
  pose proof (sort_by_key_sorted kl) as Hsorted.
  assert (Forall (λ p, p.1 = kf p.2) kl) as Hkl.
  { unfold kl. apply Forall_fmap, Forall_forall. done. }
  rewrite <- Hperm in Hkl. split.
  - rewrite Hperm. unfold kl. rewrite <- list_fmap_compose.
    by rewrite list_fmap_id.
  - clear Hperm. revert Hkl.
    induction Hsorted as [|p sl Hsl IH Hp]; intros Hkl; csimpl.
    + constructor.
    + apply Forall_cons in Hkl as [Hpk Hkl]. constructor; [by apply IH|].
      apply Forall_fmap. rewrite Forall_forall in Hp, Hkl |- *.
      intros q Hq. simpl. specialize (Hp q Hq). specialize (Hkl q Hq).
      unfold key_le in Hp. lia.
Qed.

Lemma list_sort_by_id_keys (kf : oref → nat) (l : list oref) :
  list_sort_by_id ((λ o, (Some (kf o), o)) <$> l) =
    Ok ((sort_by_key ((λ o, (kf o, o)) <$> l)).*2).
Proof.
  assert (mapM (λ x : option nat * oref, (λ k, (k, x.2)) <$> x.1)
            ((λ o, (Some (kf o), o)) <$> l) = Some ((λ o, (kf o, o)) <$> l)) as Hm.
  { apply mapM_Some_2. induction l; csimpl; by constructor. }
  destruct l as [|a [|b l]]; [done | done |].
  unfold list_sort_by_id. change ((λ o, (Some (kf o), o)) <$> a :: b :: l)
    with ((Some (kf a), a) :: (Some (kf b), b) :: ((λ o, (Some (kf o), o)) <$> l)) in *.
  by rewrite Hm.
Qed.

Section NormalizeProps.

Variable list_of_set : list oref → list oref.
Hypothesis list_of_set_NoDup : ∀ l, NoDup (list_of_set l).
Hypothesis list_of_set_elem : ∀ l x, x ∈ list_of_set l ↔ x ∈ l.

(** The list that [normalize] computes from the list [l] of inputs. *)
Let normalized (h : Heap) (l : list oref) : list oref :=
  (sort_by_key ((λ o, (default 0%nat (id_of h o), o)) <$> list_of_set l)).*2.

Lemma Task_normalize_run (h : Heap) (self : tref) (t : Task.t) :
  task_objs h !! self = Some t →
  (∀ o, o ∈ Task.inputs t → is_Some (id_of h o)) →
  Task_normalize list_of_set self h =
    (Ok tt, mkHeap (<[self := Task.set_inputs (normalized h (Task.inputs t)) t]> (task_objs h))
              (output_objs h) (graph_objs h)).
Proof.
  intros Ht Hid. unfold Task_normalize.
  rewrite (bind_ok _ _ h t h); [|by unfold read, get_task; rewrite Ht].
  erewrite bind_ok; cycle 1.
  { apply (map_m_read _ _ _
      ((λ o, (Some (default 0%nat (id_of h o)), o)) <$> list_of_set (Task.inputs t))).
    apply Forall2_fmap_r, Forall_Forall2_diag, Forall_forall. intros o Ho.
    apply list_of_set_elem, Hid in Ho as [k Hk].
    unfold compose, get_output. rewrite Hk. simpl. unfold id_of in Hk.
    destruct (output_objs h !! o) as [x|]; simpl in *; [|done]. by rewrite Hk. }
  erewrite bind_ok; cycle 1.
  { unfold read. by rewrite list_sort_by_id_keys. }
  unfold upd_task. erewrite bind_ok; cycle 1.
  { unfold read, get_task. by rewrite Ht. }
  done.
Qed.


End NormalizeProps.



(** ** Task graphs: [is_predecessor_of] and [validate] *)

Section Predecessor.

Implicit Types (h : Heap) (st : gset tref * list tref)
  (r : bool * (gset tref * list tref)).

Lemma scanned_ext task (c c' : tref → Prop) st r :
  (∀ d, c d ↔ c' d) → scanned task c st r → scanned task c' st r.
Proof.
  intros Hc. unfold scanned. destruct r as [[] [D N]]; simpl.
  - apply Hc.
  - intros (H1 & H2 & H3 & H4). repeat split; try done.
    + intros d Hd. by apply H2, Hc.
    + intros d Hd. destruct (H3 d Hd) as [|[? ?]]; [by left|]. right. split; [by apply Hc|done].
    + by apply H4.
    + by apply H4.
Qed.

Lemma scanned_none task (c : tref → Prop) st :
  (∀ d, ¬ c d) → scanned task c st (false, st).
Proof.
  intros Hc. unfold scanned. simpl. repeat split; try done.
  - intros d Hd. by destruct (Hc d).
  - by left.
  - by left.
  - intros [|[? ?]]; done.
Qed.

Lemma scanned_found task (c1 c2 : tref → Prop) st r :
  r.1 = true → scanned task c1 st r → scanned task (λ d, c1 d ∨ c2 d) st r.
Proof. unfold scanned. intros ->. by left. Qed.

Lemma scanned_seq task (c1 c2 : tref → Prop) st r1 r2 :
  r1.1 = false → scanned task c1 st r1 → scanned task c2 r1.2 r2 →
  scanned task (λ d, c1 d ∨ c2 d) st r2.
Proof.
  unfold scanned. intros -> (H1 & H2 & H3 & H4).
  destruct r2 as [[] [D2 N2]]; simpl; [by right|].
  intros (G1 & G2 & G3 & G4). repeat split.
  - set_solver.
  - intros d [Hd|Hd]; [apply G1, H2, Hd | apply G2, Hd].
  - intros d Hd. destruct (G3 d Hd) as [Hd1|[? ?]]; [|by right; split; [right|]].
    destruct (H3 d Hd1) as [|[? ?]]; [by left|]. right. split; [by left|done].
  - intros Hd. apply G4 in Hd as [Hd|[Hd Hn]].
    + apply H4 in Hd as [Hd|[Hd Hn]]; [by left|]. right. split; [by apply G1|done].
    + right. split; [done|]. intros Hs. by apply Hn, H1.
  - intros [Hd|[Hd Hn]]; apply G4.
    + left. apply H4. by left.
    + destruct (decide (d ∈ r1.2.1)) as [Hin|Hout].
      * left. apply H4. by right.
      * by right.
Qed.

Lemma scan_consumers_spec task ds st :
  scanned task (λ d, d ∈ ds) st (scan_consumers task ds st).
Proof.
  revert st. induction ds as [|d ds IH]; intros st; simpl.
  { apply scanned_none. intros d. apply not_elem_of_nil. }
  destruct (decide (d ∈ st.1)) as [Hin|Hout].
  { specialize (IH st). unfold scanned in *.
    destruct (scan_consumers task ds st) as [[] [D N]]; simpl in *.
    - by right.
    - destruct IH as (H1 & H2 & H3 & H4). repeat split; try done.
      + intros d' [->|Hd']%elem_of_cons; [by apply H1|by apply H2].
      + intros d' Hd'. destruct (H3 d' Hd') as [|[? ?]]; [by left|].
        right. split; [by right|done].
      + by apply H4.
      + by apply H4. }
  destruct (decide (d = task)) as [->|Hne].
  { unfold scanned. simpl. by left. }
  specialize (IH ({[d]} ∪ st.1, st.2 ++ [d])). unfold scanned in *.
  destruct (scan_consumers task ds _) as [[] [D N]]; simpl in *.
  - by right.
  - destruct IH as (H1 & H2 & H3 & H4). repeat split.
    + set_solver.
    + intros d' [->|Hd']%elem_of_cons; [set_solver|by apply H2].
    + intros d' Hd'. destruct (H3 d' Hd') as [[->%elem_of_singleton|Hd'']%elem_of_union|[? ?]].
      * right. split; [by left|done].
      * by left.
      * right. split; [by right|done].
    + intros Hd'. apply H4 in Hd' as [[Hd'| ->%list_elem_of_singleton]%elem_of_app|[Hd' Hn]].
      * by left.
      * right. split; [set_solver|done].
      * right. split; [done|set_solver].
    + intros [Hd'|[Hd' Hn]]; apply H4.
      * left. apply elem_of_app. by left.
      * destruct (decide (d0 = d)) as [->|Hne'].
        -- left. apply elem_of_app. right. by apply list_elem_of_singleton.
        -- right. split; [done|set_solver].
Qed.

Lemma scan_outputs_spec h task os st :
  (∀ o, o ∈ os → is_Some (output_objs h !! o)) →
  ∃ r, scan_outputs h task os st = Ok r ∧
    scanned task (λ d, ∃ o x, o ∈ os ∧ output_objs h !! o = Some x ∧
                       d ∈ TaskOutput.consumers x) st r.
Proof.
  revert st. induction os as [|o os IH]; intros st Hos; simpl.
  { eexists. split; [done|]. apply scanned_none.
    intros d (o & x & Ho & _). by apply elem_of_nil in Ho. }
  destruct (Hos o) as [x Hx]; [by left|].
  unfold get_output. rewrite Hx. simpl.
  pose proof (scan_consumers_spec task (elements (TaskOutput.consumers x)) st) as Hscan.
  destruct (scan_consumers task _ st) as [[] st'] eqn:Hr.
  - eexists. split; [done|]. unfold scanned in *. simpl in *.
    exists o, x. split; [by left|]. split; [done|]. by apply elem_of_elements.
  - destruct (IH st') as (r & Hrun & Hspec); [by intros o' Ho'; apply Hos; right|].
    exists r. split; [done|].
    eapply scanned_ext; [|eapply (scanned_seq _ _ _ _ (false, st')); [done|exact Hscan|exact Hspec]].
    intros d. split.
    + intros [Hd|(o' & x' & Ho' & Hx' & Hd)].
      * exists o, x. split; [by left|]. split; [done|]. by apply elem_of_elements.
      * exists o', x'. split; [by right|done].
    + intros (o' & x' & [->|Ho']%elem_of_cons & Hx' & Hd).
      * left. apply elem_of_elements. congruence.
      * right. by exists o', x'.
Qed.

Lemma scan_explore_spec h task ts st :
  heap_closed h →
  (∀ t, t ∈ ts → is_Some (task_objs h !! t)) →
  ∃ r, scan_explore h task ts st = Ok r ∧
    scanned task (λ d, ∃ t, t ∈ ts ∧ consumes h t d) st r.
Proof.
  intros Hclosed. revert st. induction ts as [|t ts IH]; intros st Hts; simpl.
  { eexists. split; [done|]. apply scanned_none.
    intros d (t & Ht & _). by apply elem_of_nil in Ht. }
  destruct (Hts t) as [x Hx]; [by left|].
  unfold get_task. rewrite Hx. simpl.
  destruct (scan_outputs_spec h task (Task.outputs x) st) as (r1 & Hrun1 & Hspec1).
  { intros o Ho. eapply (closed_task_refs h Hclosed t x); [done|].
    apply elem_of_app. by right. }
  rewrite Hrun1. simpl.
  assert (∀ d, (∃ o y, o ∈ Task.outputs x ∧ output_objs h !! o = Some y ∧
                  d ∈ TaskOutput.consumers y) ↔ consumes h t d) as Hedge.
  { intros d. split.
    - intros (o & y & ? & ? & ?). by exists x, o, y.
    - intros (x' & o & y & Hx' & ? & ? & ?). exists o, y.
      replace x with x' by congruence. done. }
  destruct r1 as [[] st1].
  - eexists. split; [done|]. unfold scanned in *. simpl in *.
    exists t. split; [by left|]. by apply Hedge.
  - destruct (IH st1) as (r & Hrun & Hspec); [by intros t' Ht'; apply Hts; right|].
    exists r. split; [done|].
    eapply scanned_ext; [|eapply (scanned_seq _ _ _ _ (false, st1)); [done|exact Hspec1|exact Hspec]].
    intros d. split.
    + intros [Hd|(t' & Ht' & Hd)].
      * exists t. split; [by left|]. by apply Hedge.
      * exists t'. split; [by right|done].
    + intros (t' & [->|Ht']%elem_of_cons & Hd).
      * left. by apply Hedge.
      * right. by exists t'.
Qed.

Lemma predecessor_last h a b : predecessor h a b → ∃ z, consumes h z b.
Proof. induction 1 as [x y Hxy|x y z _ _ IH]; eauto. Qed.

(** The rounds of [is_predecessor_of]: what is known of [explore] and
    [descendants] at the head of the loop. *)
Lemma explore_loop_spec h self task fuel (E : list tref) (D : gset tref) :
  heap_closed h →
  (∀ d, d ∈ D → predecessor h self d) →
  task ∉ D →
  (∀ e, e ∈ E → e = self ∨ e ∈ D) →
  (∀ x y, x = self ∨ x ∈ D → x ∉ E → consumes h x y → y ∈ D) →
  is_Some (task_objs h !! self) →
  (E ≠ [] → length (task_objs h) + 1 ≤ fuel + size D)%nat →
  ∃ b, explore_loop fuel h task E D = Ok b ∧ (b = true ↔ predecessor h self task).
Proof.
  intros Hclosed. revert E D.
  assert (∀ a b, consumes h a b → is_Some (task_objs h !! b)) as Hvalid.
  { intros a b (ta & o & x & _ & _ & Hx & Hb). by eapply closed_consumers. }
  assert (∀ d, predecessor h self d → is_Some (task_objs h !! d)) as Hpvalid.
  { intros d [z Hz]%predecessor_last. by eapply Hvalid. }
  induction fuel as [|fuel IH]; intros E D HD Htask HE Hclos Hself Hfuel.
  - destruct E as [|e E].
    + exists false. split; [done|]. split; [done|]. intros Hp. exfalso. apply Htask.
      clear -Hp Hclos. induction Hp as [x y Hxy|x y z Hxy _ IHp].
      * eapply Hclos; [by left|apply not_elem_of_nil|done].
      * apply IHp. intros a b Ha Hn Hab. eapply Hclos; [|done|done].
        destruct Ha as [->|Ha]; [|by right]. right.
        eapply (Hclos x y); [by left|apply not_elem_of_nil|done].
    + exfalso. specialize (Hfuel ltac:(done)).
      assert (size D ≤ length (task_objs h))%nat; [|lia].
      rewrite <- (size_set_seq (C:=gset nat) 0 (length (task_objs h))).
      apply subseteq_size. intros d Hd. apply elem_of_set_seq. split; [lia|].
      simpl. apply HD, Hpvalid in Hd as [? Hd]. by apply lookup_lt_Some in Hd.
  - destruct E as [|e0 E0] eqn:HeqE.
    + exists false. split; [done|]. split; [done|]. intros Hp. exfalso. apply Htask.
      clear -Hp Hclos. induction Hp as [x y Hxy|x y z Hxy _ IHp].
      * eapply Hclos; [by left|apply not_elem_of_nil|done].
      * apply IHp. intros a b Ha Hn Hab. eapply Hclos; [|done|done].
        destruct Ha as [->|Ha]; [|by right]. right.
        eapply (Hclos x y); [by left|apply not_elem_of_nil|done].
    + rewrite <- HeqE in *. assert (E ≠ []) as Hne by (by rewrite HeqE).
      assert (∀ e, e ∈ E → rtc (consumes h) self e) as Hreach.
      { intros e [->|He]%HE; [done|]. by apply tc_rtc, HD. }
      cbn [explore_loop]. rewrite HeqE. rewrite <- HeqE.
      destruct (scan_explore_spec h task E (D, []) Hclosed) as (r & Hrun & Hspec).
      { intros e [->|He]%HE; [done|]. by apply Hpvalid, HD. }
      rewrite Hrun. simpl. unfold scanned in Hspec.
      destruct r as [[] [D' N']]; simpl in *.
      * exists true. split; [done|]. split; [|done]. intros _.
        destruct Hspec as (e & He & Hedge). eapply tc_rtc_l; [by apply Hreach|].
        by apply tc_once.
      * destruct Hspec as (H1 & H2 & H3 & H4).
        apply IH; try done.
        -- intros d Hd. destruct (H3 d Hd) as [|[(e & He & Hedge) _]]; [by apply HD|].
           eapply tc_rtc_l; [by apply Hreach|]. by apply tc_once.
        -- intros Hd. destruct (H3 task Hd) as [|[_ ?]]; done.
        -- intros e He. right. apply H4 in He as [He|[He _]]; [|done].
           by apply elem_of_nil in He.
        -- intros x y Hx Hn Hxy. destruct (decide (x ∈ E)) as [HxE|HxE].
           { apply H2. by exists x. }
           apply H1. eapply Hclos; [|done|done].
           destruct Hx as [->|Hx]; [by left|]. right.
           destruct (decide (x ∈ D)) as [|HxD]; [done|].
           exfalso. apply Hn, H4. by right.
        -- intros HN. specialize (Hfuel Hne).
           assert (size D < size D')%nat; [|lia].
           apply subset_size. split; [done|].
           destruct N' as [|n N']; [done|].
           assert (n ∈ D' ∧ n ∉ D) as [Hn1 Hn2].
           { destruct (proj1 (H4 n)) as [Hn|]; [by left| |done]. by apply elem_of_nil in Hn. }
           intros Hsub. by apply Hn2, Hsub.
Qed.

End Predecessor.

Lemma Task_is_predecessor_of_spec h self task :
  heap_closed h → is_Some (task_objs h !! self) →
  ∃ b, Task_is_predecessor_of h self task = Ok b ∧ (b = true ↔ predecessor h self task).
Proof.
  intros Hclosed Hself. apply explore_loop_spec; try done.
  - intros e ->%list_elem_of_singleton. by left.
  - intros x y [->|Hx] Hn Hxy; [|done]. exfalso. apply Hn. by left.
  - intros _. rewrite size_empty. lia.
Qed.

(** *** Checks *)

Lemma check_ok b : check b = Ok tt ↔ b = true.
Proof. by destruct b. Qed.

Lemma check_asserts b : asserts (check b).
Proof. destruct b; [by left|by right]. Qed.

Lemma seq_ok (m k : outcome unit) : (m ;; k) = Ok tt ↔ m = Ok tt ∧ k = Ok tt.
Proof. destruct m as [[]|e]; simpl; naive_solver. Qed.

Lemma seq_asserts (m k : outcome unit) : asserts m → asserts k → asserts (m ;; k).
Proof. intros [->| ->] Hk; [done|by right]. Qed.

Lemma check_each_ok {A} (l : list A) (f : A → outcome unit) :
  check_each l f = Ok tt ↔ ∀ x, x ∈ l → f x = Ok tt.
Proof.
  induction l as [|a l IH]; simpl.
  - split; [|done]. intros _ x Hx. by apply elem_of_nil in Hx.
  - rewrite seq_ok, IH. split.
    + intros [Ha Hl] x [->|Hx]%elem_of_cons; auto.
    + intros Hl. split; [apply Hl; by left|]. intros x Hx. apply Hl. by right.
Qed.

Lemma check_each_asserts {A} (l : list A) (f : A → outcome unit) :
  (∀ x, x ∈ l → asserts (f x)) → asserts (check_each l f).
Proof.
  induction l as [|a l IH]; intros Hl; simpl; [by left|].
  apply seq_asserts; [apply Hl; by left|]. apply IH. intros x Hx. apply Hl. by right.
Qed.

Lemma none_or_nonneg_spec x : none_or_nonneg x = true ↔ nonneg_or_none x.
Proof. destruct x; simpl; [apply bool_decide_eq_true|done]. Qed.

Lemma length_remove_dups_le (l : list nat) : (length (remove_dups l) ≤ length l)%nat.
Proof.
  induction l as [|a l IH]; simpl; [done|].
  destruct (decide_rel elem_of a l); simpl; lia.
Qed.

Lemma length_remove_dups_NoDup (l : list nat) :
  length l = length (remove_dups l) ↔ NoDup l.
Proof.
  split.
  - induction l as [|a l IH]; simpl; [constructor|].
    destruct (decide_rel elem_of a l) as [Hin|Hout]; simpl.
    + intros Hlen. pose proof (length_remove_dups_le l) as Hle. lia.
    + intros [=Hlen]. constructor; auto.
  - induction 1 as [|a l Hout _ IH]; simpl; [done|].
    destruct (decide_rel elem_of a l); [done|]. simpl. by rewrite IH.
Qed.

Section Validate.

Variable h : Heap.
Hypothesis Hclosed : heap_closed h.

Lemma Task_validate_spec t x :
  task_objs h !! t = Some x →
  (Task_validate h t = Ok tt ↔ task_checks h t x) ∧ asserts (Task_validate h t).
Proof.
  intros Hx.
  destruct (Task_is_predecessor_of_spec h t t Hclosed) as (b & Hb & Hpred); [done|].
  unfold Task_validate, get_task. rewrite Hx. simpl.
  rewrite Hb. split.
  - rewrite seq_ok, seq_ok. simpl. rewrite seq_ok, seq_ok, check_each_ok.
    rewrite !check_ok, !bool_decide_eq_true, none_or_nonneg_spec, negb_true_iff.
    rewrite length_remove_dups_NoDup.
    assert (b = false ↔ ¬ predecessor h t t) as -> by (destruct b; naive_solver).
    assert (∀ o, o ∈ Task.outputs x →
      ((y ← get_output h o;
        check (bool_decide (TaskOutput.parent y = Some t));;
        check (bool_decide (0 ≤ TaskOutput.size y));;
        check (none_or_nonneg (TaskOutput.expected_size y))) = Ok tt) ↔
      ∃ y, output_objs h !! o = Some y ∧ TaskOutput.parent y = Some t ∧
           0 ≤ TaskOutput.size y ∧ nonneg_or_none (TaskOutput.expected_size y)) as Hout.
    { intros o Ho. destruct (closed_task_refs h Hclosed t x o Hx) as [y Hy].
      { apply elem_of_app. by right. }
      unfold get_output. rewrite Hy. simpl.
      rewrite !seq_ok, !check_ok, !bool_decide_eq_true, none_or_nonneg_spec.
      naive_solver. }
    unfold task_checks. split.
    + intros (? & ? & ? & ? & Ho). repeat split; try done.
      intros o Hin. by apply Hout, Ho.
    + intros (? & ? & ? & ? & Ho). repeat split; try done.
      intros o Hin. by apply Hout, Ho.
  - repeat (apply seq_asserts; [apply check_asserts|]). simpl.
    repeat (apply seq_asserts; [apply check_asserts|]).
    apply check_each_asserts. intros o Ho.
    destruct (closed_task_refs h Hclosed t x o Hx) as [y Hy].
    { apply elem_of_app. by right. }
    unfold get_output. rewrite Hy. simpl.
    repeat (apply seq_asserts; [apply check_asserts|]). apply check_asserts.
Qed.

Lemma enumerate_from_elem {A} (k : nat) (l : list A) i x :
  (i, x) ∈ enumerate_from k l ↔ (k ≤ i)%nat ∧ l !! (i - k)%nat = Some x.
Proof.
  revert k. induction l as [|a l IH]; intros k; simpl.
  - split; [by intros ?%elem_of_nil|]. by intros [_ ?].
  - rewrite elem_of_cons, IH. split.
    + intros [[= -> ->]|[Hle Hl]].
      * split; [done|]. by rewrite Nat.sub_diag.
      * split; [lia|]. by replace (i - k)%nat with (S (i - S k)) by lia.
    + intros [Hle Hl]. destruct (decide (i = k)) as [->|Hne].
      * left. rewrite Nat.sub_diag in Hl. simpl in Hl. congruence.
      * right. split; [lia|]. by replace (i - k)%nat with (S (i - S k)) in Hl by lia.
Qed.

Lemma validate_input_spec (G : TaskGraph.t) t x o :
  task_objs h !! t = Some x → o ∈ Task.inputs x →
  let r := check (bool_decide (o ∈ TaskGraph.outputs G));;
           y ← get_output h o;
           check (match TaskOutput.parent y with
                  | Some p => bool_decide (p ∈ TaskGraph.tasks G)
                  | None => false
                  end) in
  (r = Ok tt ↔ valid_input h G o) ∧ asserts r.
Proof.
  intros Hx Ho. destruct (closed_task_refs h Hclosed t x o Hx) as [y Hy].
  { apply elem_of_app. by left. }
  simpl. unfold get_output. rewrite Hy. simpl. split.
  - rewrite seq_ok, !check_ok, bool_decide_eq_true. unfold valid_input.
    destruct (TaskOutput.parent y) as [p|] eqn:Hp.
    + rewrite bool_decide_eq_true. naive_solver.
    + naive_solver.
  - apply seq_asserts; apply check_asserts.
Qed.

Lemma validate_output_spec (G : TaskGraph.t) t x o :
  task_objs h !! t = Some x → o ∈ Task.outputs x →
  let r := check (bool_decide (o ∈ TaskGraph.outputs G));;
           y ← get_output h o;
           check (bool_decide (TaskOutput.parent y = Some t));;
           check_each (elements (TaskOutput.consumers y))
             (λ c, check (bool_decide (c ∈ TaskGraph.tasks G))) in
  (r = Ok tt ↔ o ∈ TaskGraph.outputs G ∧
     ∃ y, output_objs h !! o = Some y ∧ TaskOutput.parent y = Some t ∧
          ∀ c, c ∈ TaskOutput.consumers y → c ∈ TaskGraph.tasks G) ∧
  asserts r.
Proof.
  intros Hx Ho. destruct (closed_task_refs h Hclosed t x o Hx) as [y Hy].
  { apply elem_of_app. by right. }
  simpl. unfold get_output. rewrite Hy. simpl. split.
  - rewrite !seq_ok, !check_ok, !bool_decide_eq_true, check_each_ok.
    setoid_rewrite check_ok. setoid_rewrite bool_decide_eq_true.
    setoid_rewrite elem_of_elements. naive_solver.
  - repeat (apply seq_asserts; [apply check_asserts|]).
    apply check_each_asserts. intros c _. apply check_asserts.
Qed.

Lemma TaskGraph_validate_spec g G :
  graph_objs h !! g = Some G →
  (TaskGraph_validate h g = Ok tt ↔ valid h G) ∧ asserts (TaskGraph_validate h g).
Proof.
  intros HG. unfold TaskGraph_validate, get_graph. rewrite HG. simpl.
  assert (∀ i t, TaskGraph.tasks G !! i = Some t →
    let r := x ← get_task h t;
             check (bool_decide (Task.id x = Some i));;
             Task_validate h t;;
             check_each (Task.inputs x) (λ o,
               check (bool_decide (o ∈ TaskGraph.outputs G));;
               y ← get_output h o;
               check (match TaskOutput.parent y with
                      | Some p => bool_decide (p ∈ TaskGraph.tasks G)
                      | None => false
                      end));;
             check_each (Task.outputs x) (λ o,
               check (bool_decide (o ∈ TaskGraph.outputs G));;
               y ← get_output h o;
               check (bool_decide (TaskOutput.parent y = Some t));;
               check_each (elements (TaskOutput.consumers y))
                 (λ c, check (bool_decide (c ∈ TaskGraph.tasks G)))) in
    (r = Ok tt ↔ valid_task h G i t) ∧ asserts r) as Hbody.
  { intros i t Ht.
    destruct (closed_graph_tasks h Hclosed g G t HG) as [x Hx].
    { by eapply list_elem_of_lookup_2. }
    simpl. unfold get_task. rewrite Hx. simpl.
    destruct (Task_validate_spec t x Hx) as [Htv Hta]. split.
    - rewrite !seq_ok, check_ok, bool_decide_eq_true, Htv, !check_each_ok.
      unfold valid_task, task_checks, valid_output. split.
      + intros (Hid & (Hd & He & Hp & Hn & Hos) & Hin & Hout).
        exists x. split_and!; try done.
        * intros o Ho. destruct (Hos o Ho) as (y & Hy & Hpar & Hsz & Hes).
          destruct (validate_output_spec G t x o Hx Ho) as [Hiff _]. simpl in Hiff.
          specialize (Hout o Ho). apply Hiff in Hout as (? & y' & Hy' & _ & Hc).
          exists y. replace y' with y in * by congruence. done.
        * intros o Ho. destruct (validate_input_spec G t x o Hx Ho) as [Hiff _].
          by apply Hiff, Hin.
      + intros (x' & Hx' & Hid & Hd & He & Hp & Hn & Hos & Hin).
        replace x' with x in * by congruence. split_and!; try done.
        * intros o Ho. destruct (Hos o Ho) as (y & ? & ? & ? & ? & ? & ?). by exists y.
        * intros o Ho. destruct (validate_input_spec G t x o Hx Ho) as [Hiff _].
          by apply Hiff, Hin.
        * intros o Ho. destruct (validate_output_spec G t x o Hx Ho) as [Hiff _].
          apply Hiff.
          destruct (Hos o Ho) as (y & ? & ? & ? & ? & ? & ?). split; [done|]. by exists y.
    - apply seq_asserts; [apply check_asserts|]. apply seq_asserts; [done|].
      apply seq_asserts; apply check_each_asserts; intros o Ho.
      + by apply (validate_input_spec G t x o Hx Ho).
      + by apply (validate_output_spec G t x o Hx Ho). }
  split.
  - rewrite check_each_ok. unfold valid. split.
    + intros Hall i t Ht. apply (Hbody i t Ht). apply (Hall (i, t)).
      apply enumerate_from_elem. split; [lia|]. by rewrite Nat.sub_0_r.
    + intros Hall [i t] [_ Ht]%enumerate_from_elem. rewrite Nat.sub_0_r in Ht.
      by apply (Hbody i t Ht), Hall.
  - apply check_each_asserts. intros [i t] [_ Ht]%enumerate_from_elem.
    rewrite Nat.sub_0_r in Ht. by apply (Hbody i t Ht).
Qed.

End Validate.

Lemma heap_closedb_spec h : heap_closedb h = true → heap_closed h.
Proof.
  unfold heap_closedb. rewrite !andb_true_iff, !forallb_forall.
  setoid_rewrite andb_true_iff. setoid_rewrite forallb_forall.
  setoid_rewrite <- list_elem_of_In. setoid_rewrite bool_decide_eq_true.
  intros [[Ht Ho] Hg]. split.
  - intros r t o Hr Hin. apply lookup_lt_is_Some. eapply Ht; [|done].
    by eapply list_elem_of_lookup_2.
  - intros r x p Hr Hp. apply lookup_lt_is_Some.
    destruct (Ho x) as [Hpar _]; [by eapply list_elem_of_lookup_2|].
    rewrite Hp in Hpar. by apply bool_decide_eq_true in Hpar.
  - intros r x c Hr Hc. apply lookup_lt_is_Some.
    destruct (Ho x) as [_ Hcons]; [by eapply list_elem_of_lookup_2|].
    by apply Hcons, elem_of_elements.
  - intros r G t Hr Hin. apply lookup_lt_is_Some.
    destruct (Hg G) as [Hts _]; [by eapply list_elem_of_lookup_2|]. by apply Hts.
  - intros r G o Hr Hin. apply lookup_lt_is_Some.
    destruct (Hg G) as [_ Hos]; [by eapply list_elem_of_lookup_2|]. by apply Hos.
Qed.

Lemma valid_acyclic_nonnegative_connected h G :
  valid h G → acyclic_nonnegative_connected h G.
Proof.
  intros Hvalid. split; [|split].
  - intros t [i Hi]%list_elem_of_lookup_1.
    by destruct (Hvalid i t Hi) as (x & _ & _ & _ & _ & Hp & _).
  - intros t x [i Hi]%list_elem_of_lookup_1 Hx.
    destruct (Hvalid i t Hi) as (x' & Hx' & _ & Hd & _ & _ & _ & Hos & _).
    replace x' with x in * by congruence. split; [done|].
    intros o y Ho Hy. destruct (Hos o Ho) as (y' & Hy' & _ & Hsz & _).
    by replace y with y' by congruence.
  - intros t x o [i Hi]%list_elem_of_lookup_1 Hx Ho.
    destruct (Hvalid i t Hi) as (x' & Hx' & _ & _ & _ & _ & _ & _ & Hin).
    replace x' with x in * by congruence. by apply Hin.
Qed.

(** C6, amended: [TaskGraph.validate] returns if and only if all its
    checks hold, and it raises [AssertionError] otherwise.  The checks
    hold only if the graph has no cycle, no negative duration or size,
    and no input that is not a registered output whose parent is in the
    graph; so [validate] raises on every graph with a cycle, a negative
    size or duration, or a dangling input.  (The checks ask more: the
    ids of the tasks are their positions, expected durations and sizes
    are not negative, the outputs of a task are distinct, registered
    and owned by the task, and their consumers are in the graph.) *)
Theorem validate_checks h g G :
  heap_closed h →
  graph_objs h !! g = Some G →
  (TaskGraph_validate h g = Ok tt ↔ valid h G) ∧
  (TaskGraph_validate h g = Ok tt ∨ TaskGraph_validate h g = Raise AssertionError) ∧
  (TaskGraph_validate h g = Ok tt → acyclic_nonnegative_connected h G) ∧
  (¬ acyclic_nonnegative_connected h G → TaskGraph_validate h g = Raise AssertionError).
Proof.
  intros Hclosed HG.
  destruct (TaskGraph_validate_spec h Hclosed g G HG) as [Hiff Hass].
  split; [done|]. split; [done|]. split.
  - intros Hok. by apply valid_acyclic_nonnegative_connected, Hiff.
  - intros Hno. destruct Hass as [Hok|Hraise]; [|done].
    exfalso. by apply Hno, valid_acyclic_nonnegative_connected, Hiff.
Qed.

Lemma validate_checks_witness :
  let h := two_inputs_one_parent in
  let G := TaskGraph.mk [0%nat; 1%nat] [0%nat; 1%nat] in
  (TaskGraph_validate h 0%nat = Ok tt ↔ valid h G) ∧
  (TaskGraph_validate h 0%nat = Ok tt ∨ TaskGraph_validate h 0%nat = Raise AssertionError) ∧
  (TaskGraph_validate h 0%nat = Ok tt → acyclic_nonnegative_connected h G) ∧
  (¬ acyclic_nonnegative_connected h G → TaskGraph_validate h 0%nat = Raise AssertionError).
Proof.
  intros h G. apply (validate_checks h 0%nat G).
  - apply heap_closedb_spec. vm_compute. reflexivity.
  - vm_compute. reflexivity.
Defined.

(** C6, as stated, fails: in the graph that is left when the first of
    two tasks is removed, the remaining task has id 1 at position 0.
    The graph has no cycle, no negative duration or size and no input,
    and [validate] raises. *)
Lemma validate_rejects_stale_ids :
  let h := first_task_removed in
  let G := TaskGraph.mk [1%nat] [] in
  graph_objs h !! 0%nat = Some G ∧
  TaskGraph_validate h 0%nat = Raise AssertionError ∧
  acyclic_nonnegative_connected h G ∧
  ¬ (TaskGraph_validate h 0%nat = Ok tt ↔ acyclic_nonnegative_connected h G).
Proof.
  intros h G.
  assert (acyclic_nonnegative_connected h G) as Hgood.
  { split; [|split].
    - intros t _ Hp.
      assert (∀ a b, consumes h a b → False) as Hno.
      { intros a b (ta & o & out & Hta & Ho & _). vm_compute in Hta.
        destruct a as [|[|a]]; [| |done]; injection Hta as <-; by apply elem_of_nil in Ho. }
      destruct Hp as [? ? Hc|? ? ? Hc _]; by eapply Hno.
    - intros t x ->%list_elem_of_singleton Hx. vm_compute in Hx. injection Hx as <-.
      split; [done|]. intros o y Ho. by apply elem_of_nil in Ho.
    - intros t x o ->%list_elem_of_singleton Hx. vm_compute in Hx. injection Hx as <-.
      intros Ho. by apply elem_of_nil in Ho. }
  split; [by vm_compute|]. split; [by vm_compute|]. split; [done|].
  intros [_ Hiff]. specialize (Hiff Hgood). vm_compute in Hiff. discriminate.
Qed.

(** ** [TaskGraph.copy] *)

(** *** Lists of tagged elements *)

Lemma filter_none {A} (P : A → Prop) `{!∀ x, Decision (P x)} (l : list A) :
  (∀ x, x ∈ l → ¬ P x) → filter P l = [].
Proof.
  induction l as [|x l IH]; intros Hl; [done|].
  rewrite filter_cons_False by (apply Hl; left). apply IH. intros y Hy. apply Hl. by right.
Qed.

Lemma filter_all {A} (P : A → Prop) `{!∀ x, Decision (P x)} (l : list A) :
  (∀ x, x ∈ l → P x) → filter P l = l.
Proof.
  induction l as [|x l IH]; intros Hl; [done|].
  rewrite filter_cons_True by (apply Hl; left). f_equal. apply IH. intros y Hy.
  apply Hl. by right.
Qed.

Lemma insert_middle {A} (l1 l2 : list A) (x y : A) :
  <[length l1 := y]> (l1 ++ x :: l2) = l1 ++ y :: l2.
Proof. rewrite insert_app_r_alt by lia. by rewrite Nat.sub_diag. Qed.

Section Tagged.

Context {A B : Type} (f : A → list B).

Lemma tagged_snoc (xs : list A) (x : A) :
  tagged f (xs ++ [x]) = tagged f xs ++ ((λ b, (length xs, b)) <$> f x).
Proof.
  unfold tagged. rewrite imap_app, concat_app. simpl.
  by rewrite Nat.add_0_r, app_nil_r.
Qed.

Lemma tagged_take_S (xs : list A) a x :
  xs !! a = Some x →
  tagged f (take (S a) xs) = tagged f (take a xs) ++ ((λ b, (a, b)) <$> f x).
Proof.
  intros Hx. rewrite (take_S_r _ _ _ Hx), tagged_snoc.
  rewrite length_take_le; [done|]. apply lookup_lt_Some in Hx. lia.
Qed.

Lemma elem_of_tagged (xs : list A) a b :
  (a, b) ∈ tagged f xs ↔ ∃ x, xs !! a = Some x ∧ b ∈ f x.
Proof.
  induction xs as [|x xs IH] using rev_ind.
  - split; [by intros ?%elem_of_nil | by intros (x & ? & _)].
  - rewrite tagged_snoc, elem_of_app, IH, list_elem_of_fmap. split.
    + intros [(y & Hy & Hb)|(b' & [= -> ->] & Hb)].
      * exists y. by rewrite lookup_app_l by by eapply lookup_lt_Some.
      * exists x. by rewrite list_lookup_middle.
    + intros (y & Hy & Hb). destruct (decide (a < length xs)%nat) as [Hlt|Hge].
      * left. exists y. by rewrite lookup_app_l in Hy.
      * right. exists b. rewrite lookup_app_r in Hy by lia.
        apply list_lookup_singleton_Some in Hy as [Ha ->].
        split; [|done]. f_equal. lia.
Qed.

Lemma filter_tagged_lt (xs : list A) a :
  (length xs ≤ a)%nat → filter (λ e, e.1 = a) (tagged f xs) = [].
Proof.
  intros Hlen. apply filter_none. intros [a' b] Hin. simpl. intros ->.
  apply elem_of_tagged in Hin as (x & Hx%lookup_lt_Some & _). lia.
Qed.

Lemma filter_tagged (xs : list A) a x :
  xs !! a = Some x →
  filter (λ e, e.1 = a) (tagged f xs) = (λ b, (a, b)) <$> f x.
Proof.
  revert a x. induction xs as [|y xs IH] using rev_ind; intros a x Hx; [done|].
  rewrite tagged_snoc, filter_app. destruct (decide (a < length xs)%nat) as [Hlt|Hge].
  - rewrite lookup_app_l in Hx by done. rewrite (IH _ _ Hx).
    rewrite (filter_none _ (_ <$> f y)); [by rewrite app_nil_r|].
    intros [a' b] (b' & [= -> ->] & _)%list_elem_of_fmap. simpl. lia.
  - rewrite lookup_app_r in Hx by lia.
    apply list_lookup_singleton_Some in Hx as [Ha ->].
    assert (a = length xs) as -> by lia.
    rewrite filter_tagged_lt by lia. simpl.
    apply filter_all. by intros [a' b] (b' & [= -> ->] & _)%list_elem_of_fmap.
Qed.

Lemma tagged_take (xs : list A) a :
  ∃ rest, tagged f xs = tagged f (take a xs) ++ rest.
Proof.
  assert (∃ rest, tagged f (take a xs ++ drop a xs) = tagged f (take a xs) ++ rest)
    as Hrest; [|by rewrite take_drop in Hrest].
  unfold tagged. rewrite imap_app, concat_app. eauto.
Qed.

Lemma tagged_lookup (xs : list A) a x j b :
  xs !! a = Some x → f x !! j = Some b →
  tagged f xs !! (length (tagged f (take a xs)) + j)%nat = Some (a, b).
Proof.
  intros Hx Hb. destruct (tagged_take xs (S a)) as [rest ->].
  rewrite (tagged_take_S _ _ _ Hx). rewrite lookup_app_l.
  - rewrite lookup_app_r by lia.
    replace (_ + j - _)%nat with j by lia. by rewrite list_lookup_fmap, Hb.
  - rewrite length_app, length_fmap. apply lookup_lt_Some in Hb. lia.
Qed.

Lemma tagged_lookup_inv (xs : list A) k a b :
  tagged f xs !! k = Some (a, b) →
  ∃ x j, xs !! a = Some x ∧ f x !! j = Some b ∧
         k = (length (tagged f (take a xs)) + j)%nat.
Proof.
  revert k. induction xs as [|y xs IH] using rev_ind; intros k Hk; [done|].
  rewrite tagged_snoc in Hk. destruct (decide (k < length (tagged f xs))%nat) as [Hlt|Hge].
  - rewrite lookup_app_l in Hk by done. destruct (IH _ Hk) as (x & j & Hx & Hj & ->).
    exists x, j. pose proof (lookup_lt_Some _ _ _ Hx).
    rewrite lookup_app_l by done. split_and!; [done..|].
    by rewrite take_app_le by lia.
  - rewrite lookup_app_r in Hk by lia.
    apply list_lookup_fmap_Some in Hk as (b' & [= -> ->] & Hb).
    exists y, (k - length (tagged f xs))%nat. rewrite list_lookup_middle by done.
    split_and!; [done..|]. rewrite take_app_length. lia.
Qed.

Lemma tagged_snd (xs : list A) : (tagged f xs).*2 = concat (f <$> xs).
Proof.
  induction xs as [|x xs IH] using rev_ind; [done|].
  rewrite tagged_snoc, !fmap_app, concat_app, IH. simpl.
  rewrite app_nil_r. f_equal. rewrite <- list_fmap_compose. apply list_fmap_id.
Qed.

Lemma length_tagged_take_le (xs : list A) a :
  (length (tagged f (take a xs)) ≤ length (tagged f xs))%nat.
Proof. destruct (tagged_take xs a) as [rest ->]. rewrite length_app. lia. Qed.

End Tagged.

(** *** The steps of [copy] *)

Lemma out_rec_Some h o y : output_objs h !! o = Some y → out_rec h o = y.
Proof. unfold out_rec. by intros ->. Qed.

Lemma upd_task_run h r x f :
  task_objs h !! r = Some x →
  upd_task r f h =
    (Ok tt, mkHeap (<[r := f x]> (task_objs h)) (output_objs h) (graph_objs h)).
Proof. intros Hx. unfold upd_task, Py.bind, read, get_task, modify. by rewrite Hx. Qed.

Lemma upd_output_run h r y f :
  output_objs h !! r = Some y →
  upd_output r f h =
    (Ok tt, mkHeap (task_objs h) (<[r := f y]> (output_objs h)) (graph_objs h)).
Proof. intros Hy. unfold upd_output, Py.bind, read, get_output, modify. by rewrite Hy. Qed.

Lemma TaskOutput_init_run h size e :
  0 ≤ size → nonneg_or_none e →
  TaskOutput_init size e h =
    (Ok (length (output_objs h)),
     mkHeap (task_objs h) (output_objs h ++ [TaskOutput.mk None None size ∅ e])
       (graph_objs h)).
Proof.
  intros Hsize He%none_or_nonneg_spec. unfold TaskOutput_init.
  by rewrite bool_decide_true, He by done.
Qed.

Lemma Task_init_run h name d c e :
  0 ≤ c → 0 ≤ d → nonneg_or_none e →
  Task_init name [] d c None e h =
    (Ok (length (task_objs h)),
     mkHeap (task_objs h ++ [Task.mk [] [] d e name None c]) (output_objs h)
       (graph_objs h)).
Proof.
  intros Hc Hd He%none_or_nonneg_spec. unfold Task_init.
  rewrite !bool_decide_true, He by done. cbn [assert map_m for_each].
  unfold Py.bind at 1 2 3 4 5. cbn [ret alloc_task]. unfold Py.bind at 1.
  erewrite upd_task_run by (cbn [task_objs]; by apply list_lookup_middle).
  cbn [task_objs output_objs graph_objs]. unfold Py.bind, ret.
  by rewrite list_insert_id by by apply list_lookup_middle.
Qed.

(** A new object for the copy of output [o]. *)
#[local] Abbreviation fresh_output h o :=
  (TaskOutput.mk None None (TaskOutput.size (out_rec h o)) ∅
     (TaskOutput.expected_size (out_rec h o))).

Lemma clone_outputs_run h T os acc :
  (∀ o, o ∈ os → ∃ y, output_objs h !! o = Some y ∧ 0 ≤ TaskOutput.size y ∧
                      nonneg_or_none (TaskOutput.expected_size y)) →
  map_m (λ o, x <- read (λ h, get_output h o) ;;
              TaskOutput_init (TaskOutput.size x) (TaskOutput.expected_size x)) os
    (mkHeap T (output_objs h ++ acc) (graph_objs h)) =
  (Ok (seq (length (output_objs h) + length acc) (length os)),
   mkHeap T (output_objs h ++ acc ++ ((λ o, fresh_output h o) <$> os)) (graph_objs h)).
Proof.
  revert acc. induction os as [|o os IH]; intros acc Hos.
  - simpl. by rewrite app_nil_r.
  - destruct (Hos o) as (y & Hy & Hsize & He); [left|].
    cbn [map_m]. unfold Py.bind at 1 2. unfold read at 1, get_output.
    cbn [output_objs]. rewrite (lookup_app_l_Some _ _ _ _ Hy).
    rewrite TaskOutput_init_run by done. cbn [task_objs output_objs graph_objs].
    rewrite <- app_assoc. unfold Py.bind. rewrite IH by (intros; apply Hos; by right).
    unfold ret. rewrite !length_app. cbn [length seq fmap list_fmap].
    rewrite (out_rec_Some _ _ _ Hy), <- !app_assoc. cbn [app].
    by replace (length (output_objs h) + (length acc + 1))%nat
      with (S (length (output_objs h) + length acc)) by lia.
Qed.

Lemma set_parents_run T O Gs t ys :
  for_each (seq (length O) (length ys))
    (λ o, upd_output o (TaskOutput.set_parent (Some t))) (mkHeap T (O ++ ys) Gs) =
  (Ok tt, mkHeap T (O ++ (TaskOutput.set_parent (Some t) <$> ys)) Gs).
Proof.
  revert O. induction ys as [|y ys IH]; intros O; [done|].
  cbn [length seq for_each]. unfold Py.bind.
  erewrite upd_output_run by (cbn [output_objs]; by apply list_lookup_middle).
  cbn [task_objs output_objs graph_objs].
  replace (<[length O := _]> (O ++ y :: ys))
    with ((O ++ [TaskOutput.set_parent (Some t) y]) ++ ys).
  - specialize (IH (O ++ [TaskOutput.set_parent (Some t) y])).
    rewrite length_app in IH. cbn [length] in IH.
    replace (length O + 1)%nat with (S (length O)) in IH by lia.
    rewrite IH. by rewrite <- app_assoc.
  - by rewrite <- app_assoc, insert_middle.
Qed.

Lemma Task_simple_copy_run h r x T acc :
  task_objs h !! r = Some x →
  0 ≤ Task.cpus x → 0 ≤ Task.duration x → nonneg_or_none (Task.expected_duration x) →
  (∀ o, o ∈ Task.outputs x →
     ∃ y, output_objs h !! o = Some y ∧ 0 ≤ TaskOutput.size y ∧
          nonneg_or_none (TaskOutput.expected_size y)) →
  Task_simple_copy r (mkHeap (task_objs h ++ T) (output_objs h ++ acc) (graph_objs h)) =
  (Ok (length (task_objs h) + length T)%nat,
   mkHeap
     (task_objs h ++ T ++
        [Task.mk [] (seq (length (output_objs h) + length acc) (length (Task.outputs x)))
           (Task.duration x) (Task.expected_duration x) (Task.name x) None (Task.cpus x)])
     (output_objs h ++ acc ++
        ((λ o, TaskOutput.set_parent (Some (length (task_objs h) + length T)%nat)
                 (fresh_output h o)) <$> Task.outputs x))
     (graph_objs h)).
Proof.
  intros Hx Hc Hd He Hos. unfold Task_simple_copy.
  unfold Py.bind at 1. unfold read at 1, get_task. cbn [task_objs].
  rewrite (lookup_app_l_Some _ _ _ _ Hx).
  unfold Py.bind at 1. rewrite Task_init_run by done.
  cbn [task_objs output_objs graph_objs]. unfold Py.bind at 1.
  rewrite clone_outputs_run by done. unfold Py.bind at 1.
  erewrite upd_task_run by (cbn [task_objs]; by apply list_lookup_middle).
  cbn [task_objs output_objs graph_objs Task.set_outputs Task.inputs Task.outputs
       Task.duration Task.expected_duration Task.name Task.id Task.cpus].
  rewrite insert_middle. unfold Py.bind.
  match goal with |- context [for_each _ _ (mkHeap ?T' _ _)] =>
    pose proof (set_parents_run T' (output_objs h ++ acc) (graph_objs h)
      (length (task_objs h ++ T)) ((λ o, fresh_output h o) <$> Task.outputs x)) as Hp end.
  rewrite length_app, length_fmap, <- (app_assoc (output_objs h) acc) in Hp.
  rewrite Hp. unfold ret.
  by rewrite !length_app, <- !app_assoc, <- list_fmap_compose.
Qed.

Lemma copy_heap_nil h xs E ti oi : copy_heap h xs [] E ti oi = h.
Proof. destruct h. unfold copy_heap. simpl. by rewrite !app_nil_r. Qed.

Lemma insert_app_imap {A B} (T : list B) (f g : nat → A → B) (xs : list A) a x v :
  xs !! a = Some x → v = g a x →
  (∀ b y, b ≠ a → xs !! b = Some y → g b y = f b y) →
  <[(length T + a)%nat := v]> (T ++ imap f xs) = T ++ imap g xs.
Proof.
  intros Hx -> Hfg. rewrite insert_app_r. f_equal. apply list_eq. intros j.
  destruct (decide (j = a)) as [->|Hne].
  - rewrite list_lookup_insert_eq by (rewrite length_imap; by eapply lookup_lt_Some).
    by rewrite list_lookup_imap, Hx.
  - rewrite list_lookup_insert_ne by done. rewrite !list_lookup_imap.
    destruct (xs !! j) as [y|] eqn:Hy; [|done]. simpl. f_equal. symmetry. by apply Hfg.
Qed.

Lemma map_m_pure {S A B} (f : A → M S B) (l : list A) (s : S) (bs : list B) :
  Forall2 (λ a b, f a s = (Ok b, s)) l bs → map_m f l s = (Ok bs, s).
Proof.
  induction 1 as [|a b l bs Hab _ IH]; simpl; [done|].
  unfold Py.bind. by rewrite Hab, IH.
Qed.

(** The graph [G] of heap [h] is copied; [xs] are its tasks. *)
Section Copy.

Variables (h : Heap) (G : TaskGraph.t) (xs : list Task.t).
Hypothesis Hclosed : heap_closed h.
Hypothesis Hxs : Forall2 (λ r x, task_objs h !! r = Some x) (TaskGraph.tasks G) xs.
Hypothesis Hvalid : valid h G.
Hypothesis Hbuilt : well_built h G.

#[local] Abbreviation T0 := (length (task_objs h)).
#[local] Abbreviation O0 := (length (output_objs h)).
#[local] Abbreviation rs := (TaskGraph.tasks G).

Lemma task_at a x :
  xs !! a = Some x → ∃ r, rs !! a = Some r ∧ task_objs h !! r = Some x.
Proof. intros Hx. by apply (Forall2_lookup_r _ _ _ _ _ Hxs). Qed.

Lemma task_ok a x :
  xs !! a = Some x →
  0 ≤ Task.cpus x ∧ 0 ≤ Task.duration x ∧ nonneg_or_none (Task.expected_duration x) ∧
  ∀ o, o ∈ Task.outputs x →
    ∃ y, output_objs h !! o = Some y ∧ 0 ≤ TaskOutput.size y ∧
         nonneg_or_none (TaskOutput.expected_size y).
Proof.
  intros (r & Hr & Hx)%task_at.
  destruct (Hvalid _ _ Hr) as (x' & Hx' & _ & Hd & He & _ & _ & Hout & _).
  assert (x' = x) as -> by congruence.
  destruct (Hbuilt r x) as [Hc _]; [by eapply list_elem_of_lookup_2 | done |].
  split_and!; [done..|]. intros o Ho.
  destruct (Hout o Ho) as (y & Hy & _ & Hs & Hes & _). eauto.
Qed.

Lemma flat_outputs_owned : flat_outputs h G = (owned xs).*2.
Proof.
  unfold flat_outputs, owned. rewrite tagged_snd. f_equal. clear Hvalid Hbuilt.
  induction Hxs as [|r x l k Hr Hl IH]; [done|]. rewrite !fmap_cons, IH by done.
  by rewrite Hr.
Qed.

Lemma input_ok a x o :
  xs !! a = Some x → o ∈ Task.inputs x →
  ∃ r y p, rs !! a = Some r ∧ output_objs h !! o = Some y ∧
           TaskOutput.id y = Some (idk h o) ∧ owned xs !! idk h o = Some (p, o) ∧
           r ∈ TaskOutput.consumers y.
Proof.
  intros (r & Hr & Hx)%task_at Ho.
  destruct (Hbuilt r x) as [_ Hin]; [by eapply list_elem_of_lookup_2 | done |].
  destruct (Hin o Ho) as (y & k & Hy & Hk & Hflat & Hcons).
  assert (idk h o = k) as Hidk by (unfold idk, id_of; by rewrite Hy; simpl; rewrite Hk).
  rewrite flat_outputs_owned in Hflat.
  apply list_lookup_fmap_Some in Hflat as ([p o'] & -> & Hp).
  exists r, y, p. by rewrite Hidk.
Qed.

Lemma length_xs : length xs = length rs.
Proof. symmetry. by eapply Forall2_length. Qed.

Lemma off_S a x :
  xs !! a = Some x → off xs (S a) = (off xs a + length (Task.outputs x))%nat.
Proof.
  intros Hx. unfold off, owned. by rewrite (tagged_take_S _ _ _ _ Hx), length_app, length_fmap.
Qed.

Lemma off_le a : (off xs a ≤ length (owned xs))%nat.
Proof. apply length_tagged_take_le. Qed.

Lemma off_all : off xs (length xs) = length (owned xs).
Proof. unfold off. by rewrite firstn_all. Qed.

(** The first phase: the tasks are copied, without their inputs. *)
Lemma copy_phase1_step a r x :
  rs !! a = Some r → xs !! a = Some x →
  Task_simple_copy r (copy_heap h xs (take a xs) [] no_id no_id) =
    (Ok (T0 + a)%nat, copy_heap h xs (take (S a) xs) [] no_id no_id).
Proof.
  intros Hr Hx. destruct (task_at _ _ Hx) as (r' & Hr' & Hrx).
  assert (r' = r) as -> by congruence.
  destruct (task_ok _ _ Hx) as (Hc & Hd & He & Hos).
  unfold copy_heap. rewrite (Task_simple_copy_run _ _ _ _ _ Hrx) by done.
  pose proof (lookup_lt_Some _ _ _ Hx) as Hlt.
  rewrite !length_imap, length_take_le by lia. f_equal. f_equal.
  - f_equal. rewrite (take_S_r _ _ _ Hx), imap_app. f_equal. simpl.
    rewrite length_take_le, Nat.add_0_r by lia. done.
  - f_equal. unfold owned. rewrite (tagged_take_S _ _ _ _ Hx), imap_app. f_equal.
    apply list_eq. intros j. rewrite list_lookup_imap, !list_lookup_fmap.
    by destruct (Task.outputs x !! j).
Qed.

Lemma copy_phase1 :
  map_m Task_simple_copy rs h =
    (Ok (seq T0 (length xs)), copy_heap h xs xs [] no_id no_id).
Proof.
  pose proof (hoare_map_m
    (λ l1 bs s, s = copy_heap h xs (take (length l1) xs) [] no_id no_id ∧
                bs = seq T0 (length l1)) rs Task_simple_copy) as Hloop.
  destruct (Hloop) with (s := h) as (bs & t & Hrun & -> & ->).
  - intros l1 r l2 bs Hl s [-> ->].
    assert (rs !! length l1 = Some r) as Hr by (rewrite Hl; by apply list_lookup_middle).
    destruct (Forall2_lookup_l _ _ _ _ _ Hxs Hr) as (x & Hx & _).
    eexists _, _. split; [by apply (copy_phase1_step _ _ x)|].
    rewrite length_app. simpl. replace (length l1 + 1)%nat with (S (length l1)) by lia.
    split; [done|]. by rewrite seq_S.
  - simpl. split; [|done]. by rewrite copy_heap_nil.
  - rewrite Hrun. by rewrite <- length_xs, firstn_all.
Qed.

(** The outputs of the copies, as [_copy_tasks] collects them. *)
Lemma clone_task_at E ti oi a x :
  xs !! a = Some x →
  task_objs (copy_heap h xs xs E ti oi) !! (T0 + a)%nat =
    Some (clone_task O0 xs E ti a x).
Proof.
  intros Hx. unfold copy_heap. cbn [task_objs]. rewrite lookup_app_r by lia.
  replace (T0 + a - T0)%nat with a by lia. by rewrite list_lookup_imap, Hx.
Qed.

Lemma clone_output_at E ti oi k p :
  owned xs !! k = Some p →
  output_objs (copy_heap h xs xs E ti oi) !! (O0 + k)%nat =
    Some (clone_output h E oi k p).
Proof.
  intros Hp. unfold copy_heap. cbn [output_objs]. rewrite lookup_app_r by lia.
  replace (O0 + k - O0)%nat with k by lia. by rewrite list_lookup_imap, Hp.
Qed.

Lemma concat_clone_outputs a :
  (a ≤ length xs)%nat →
  concat (imap (λ a x, seq (O0 + off xs a) (length (Task.outputs x))) (take a xs)) =
    seq O0 (off xs a).
Proof.
  induction a as [|a IH]; intros Ha; [done|].
  destruct (lookup_lt_is_Some_2 xs a) as [x Hx]; [lia|].
  rewrite (take_S_r _ _ _ Hx), imap_app, concat_app, IH by lia. simpl.
  rewrite length_take_le, Nat.add_0_r, app_nil_r, (off_S _ _ Hx) by lia.
  by rewrite seq_app.
Qed.

Lemma copy_read_outputs E ti oi :
  map_m (λ task, t <- read (λ h, get_task h task) ;; ret (Task.outputs t))
    (seq T0 (length xs)) (copy_heap h xs xs E ti oi) =
  (Ok (imap (λ a x, seq (O0 + off xs a) (length (Task.outputs x))) xs),
   copy_heap h xs xs E ti oi).
Proof.
  apply map_m_pure. apply Forall2_same_length_lookup_2.
  - by rewrite length_seq, length_imap.
  - intros a t os [-> Ha]%lookup_seq Hos.
    rewrite list_lookup_imap in Hos. destruct (xs !! a) as [x|] eqn:Hx; [|done].
    injection Hos as <-. unfold Py.bind, read, get_task.
    by rewrite (clone_task_at _ _ _ _ _ Hx).
Qed.

(** The second phase: the inputs are added. *)
Lemma add_input_run E ti oi a x k p :
  xs !! a = Some x → owned xs !! k = Some p →
  Task_add_input (T0 + a)%nat (InObject (O0 + k)%nat) (copy_heap h xs xs E ti oi) =
    (Ok tt, copy_heap h xs xs (E ++ [(a, k)]) ti oi).
Proof.
  intros Hx Hp. unfold Task_add_input. unfold Py.bind at 1 2. cbn [ret].
  rewrite (upd_task_run _ _ _ _ (clone_task_at E ti oi _ _ Hx)).
  erewrite upd_output_run by (by apply (clone_output_at E ti oi)).
  unfold copy_heap. cbn [task_objs output_objs graph_objs]. f_equal. f_equal.
  - apply (insert_app_imap _ _ _ _ _ x); [done|..].
    + unfold clone_task, Task.set_inputs. cbn. f_equal.
      rewrite filter_app, !fmap_app. f_equal.
      by rewrite filter_cons_True by done.
    + intros b y Hb _. unfold clone_task. f_equal.
      rewrite filter_app. rewrite (filter_cons_False _ (a, k)) by (simpl; congruence).
      by rewrite filter_nil, app_nil_r.
  - apply (insert_app_imap _ _ _ _ _ p); [done|..].
    + unfold clone_output, TaskOutput.set_consumers. cbn. f_equal.
      rewrite filter_app, fmap_app, list_to_set_app_L. f_equal.
      rewrite filter_cons_True by done. cbn. by rewrite union_empty_r_L.
    + intros b y Hb _. unfold clone_output. f_equal.
      rewrite filter_app. rewrite (filter_cons_False _ (a, k)) by (simpl; congruence).
      by rewrite filter_nil, app_nil_r.
Qed.

#[local] Abbreviation add_inputs outputs task old_inputs :=
  (for_each old_inputs (λ inp,
     x <- read (λ h, get_output h inp) ;;
     match TaskOutput.id x with
     | None => raise TypeError
     | Some i => match outputs !! i with
                 | None => raise IndexError
                 | Some o => Task_add_input task (InObject o)
                 end
     end)).

Lemma copy_inputs_run E ti oi a x :
  xs !! a = Some x →
  add_inputs (seq O0 (length (owned xs))) (T0 + a)%nat (Task.inputs x)
    (copy_heap h xs xs E ti oi) =
  (Ok tt, copy_heap h xs xs
            (E ++ ((λ k, (a, k)) <$> (idk h <$> Task.inputs x))) ti oi).
Proof.
  intros Hx.
  pose proof (hoare_for_each
    (λ l1 s, s = copy_heap h xs xs (E ++ ((λ k, (a, k)) <$> (idk h <$> l1))) ti oi)
    (Task.inputs x)) as Hloop.
  edestruct Hloop with (s := copy_heap h xs xs E ti oi) as ([] & t & Hrun & ->);
    [| |exact Hrun].
  - intros l1 o l2 Hl s ->.
    destruct (input_ok a x o Hx) as (r & y & p & _ & Hy & Hid & Hp & _).
    { rewrite Hl. apply elem_of_app. right. left. }
    eexists tt, _. split; [|done].
    unfold Py.bind, read, get_output. unfold copy_heap at 1. cbn [output_objs].
    rewrite (lookup_app_l_Some _ _ _ _ Hy), Hid.
    rewrite lookup_seq_lt by (by eapply lookup_lt_Some).
    rewrite (add_input_run _ _ _ _ _ _ _ Hx Hp).
    by rewrite !fmap_app, <- app_assoc.
  - simpl. by rewrite app_nil_r.
Qed.

Lemma copy_phase2 ti oi :
  for_each (zip rs (seq T0 (length xs))) (λ '(old_task, task),
    old <- read (λ h, get_task h old_task) ;;
    add_inputs (seq O0 (length (owned xs))) task (Task.inputs old))
    (copy_heap h xs xs [] ti oi) =
  (Ok tt, copy_heap h xs xs (edges_of h xs) ti oi).
Proof.
  pose proof (hoare_for_each
    (λ (l1 : list (nat * nat)) s,
       s = copy_heap h xs xs (edges_of h (take (length l1) xs)) ti oi)
    (zip rs (seq T0 (length xs)))) as Hloop.
  edestruct Hloop with (s := copy_heap h xs xs [] ti oi) as ([] & t & Hrun & ->);
    [| |rewrite Hrun].
  - intros l1 [r t] l2 Hl s ->.
    assert (zip rs (seq T0 (length xs)) !! length l1 = Some (r, t)) as Hrt
      by (rewrite Hl; by apply list_lookup_middle).
    apply lookup_zip_with_Some in Hrt as (r' & t' & [= <- <-] & Hr & [-> Hlt]%lookup_seq).
    destruct (Forall2_lookup_l _ _ _ _ _ Hxs Hr) as (x & Hx & Hrx).
    eexists tt, _. split.
    + unfold Py.bind at 1. unfold read at 1, get_task. unfold copy_heap at 1.
      cbn [task_objs]. rewrite (lookup_app_l_Some _ _ _ _ Hrx).
      by apply copy_inputs_run.
    + rewrite length_app. simpl.
      replace (length l1 + 1)%nat with (S (length l1)) by lia.
      unfold edges_of. by rewrite (tagged_take_S _ _ _ _ Hx).
  - done.
  - rewrite length_zip, length_seq, <- length_xs, Nat.min_id. by rewrite firstn_all.
Qed.

(** The third phase: [TaskGraph.__init__] numbers the copies. *)
#[local] Abbreviation set_output_ids :=
  (fix inner (os : list oref) (outputs : list oref) : M Heap (list oref) :=
     match os with
     | [] => ret outputs
     | output :: os' =>
         upd_output output (TaskOutput.set_id (Some (length outputs))) ;;;
         inner os' (outputs ++ [output])
     end).

Lemma id_below_S n k : k ≠ n → id_below (S n) k = id_below n k.
Proof. intros Hk. unfold id_below. repeat case_decide; (done || lia). Qed.

Lemma id_below_here n : id_below (S n) n = Some n.
Proof. unfold id_below. case_decide; (done || lia). Qed.

Lemma set_output_ids_run E ti len : ∀ m,
  (m + len ≤ length (owned xs))%nat →
  set_output_ids (seq (O0 + m) len) (seq O0 m)
    (copy_heap h xs xs E ti (id_below m)) =
  (Ok (seq O0 (m + len)), copy_heap h xs xs E ti (id_below (m + len))).
Proof.
  induction len as [|len IH]; intros m Hm.
  - by rewrite Nat.add_0_r.
  - destruct (lookup_lt_is_Some_2 (owned xs) m) as [p Hp]; [lia|].
    cbn [seq]. unfold Py.bind at 1.
    erewrite upd_output_run by (by apply clone_output_at).
    rewrite length_seq. unfold copy_heap at 1 2 3.
    cbn [task_objs output_objs graph_objs].
    rewrite (insert_app_imap _ _ (clone_output h E (id_below (S m))) _ _ p); [|done|..].
    + rewrite <- seq_S. replace (S (O0 + m)) with (O0 + S m)%nat by lia.
      fold (copy_heap h xs xs E ti (id_below (S m))). rewrite IH by lia.
      by replace (S m + len)%nat with (m + S len)%nat by lia.
    + unfold clone_output, TaskOutput.set_id. cbn. by rewrite id_below_here.
    + intros b y Hb _. unfold clone_output. by rewrite id_below_S.
Qed.

Lemma init_loop_run E cnt : ∀ i,
  (i + cnt = length xs)%nat →
  TaskGraph_init_loop (enumerate_from i (seq (T0 + i) cnt)) (seq O0 (off xs i))
    (copy_heap h xs xs E (id_below i) (id_below (off xs i))) =
  (Ok (seq O0 (length (owned xs))),
   copy_heap h xs xs E (id_below (length xs)) (id_below (length (owned xs)))).
Proof.
  induction cnt as [|cnt IH]; intros i Hi.
  - rewrite Nat.add_0_r in Hi. subst i. by rewrite off_all.
  - destruct (lookup_lt_is_Some_2 xs i) as [x Hx]; [lia|].
    cbn [seq enumerate_from TaskGraph_init_loop]. unfold Py.bind at 1.
    rewrite (upd_task_run _ _ _ _ (clone_task_at _ _ _ _ _ Hx)).
    unfold copy_heap at 1 2 3. cbn [task_objs output_objs graph_objs].
    rewrite (insert_app_imap _ _ (clone_task O0 xs E (id_below (S i))) _ _ x); [|done|..].
    + fold (copy_heap h xs xs E (id_below (S i)) (id_below (off xs i))).
      unfold Py.bind at 1. unfold read at 1, get_task.
      rewrite (clone_task_at _ _ _ _ _ Hx). unfold Py.bind at 1.
      cbn [clone_task Task.outputs].
      rewrite set_output_ids_run by (rewrite <- (off_S _ _ Hx); apply off_le).
      rewrite <- (off_S _ _ Hx). replace (S (T0 + i)) with (T0 + S i)%nat by lia.
      apply IH. lia.
    + unfold clone_task, Task.set_id. cbn. by rewrite id_below_here.
    + intros b y Hb _. unfold clone_task. by rewrite id_below_S.
Qed.

(** The heap and the graph that [copy] returns. *)
Definition copied : Heap :=
  let hc := copy_heap h xs xs (edges_of h xs) (id_below (length xs))
              (id_below (length (owned xs))) in
  mkHeap (task_objs hc) (output_objs hc)
    (graph_objs h ++ [TaskGraph.mk (seq T0 (length xs)) (seq O0 (length (owned xs)))]).

Lemma id_below_0 : id_below 0 = no_id.
Proof. done. Qed.

Lemma TaskGraph_copy_run g :
  graph_objs h !! g = Some G →
  TaskGraph_copy g h = (Ok (length (graph_objs h)), copied).
Proof.
  intros Hg. unfold TaskGraph_copy, TaskGraph_copy_tasks.
  unfold Py.bind at 1 2. unfold read at 1, get_graph. rewrite Hg.
  unfold Py.bind at 1. rewrite copy_phase1.
  unfold Py.bind at 1. rewrite copy_read_outputs.
  pose proof (concat_clone_outputs (length xs)) as Hflat.
  rewrite firstn_all, off_all in Hflat.
  unfold flat_list. rewrite Hflat by done.
  unfold Py.bind at 1. rewrite copy_phase2. cbn [ret].
  unfold TaskGraph_init. unfold Py.bind at 1.
  pose proof (init_loop_run (edges_of h xs) (length xs) 0) as Hinit.
  rewrite Nat.add_0_r in Hinit. change (off xs 0) with 0%nat in Hinit.
  change (id_below 0) with no_id in Hinit. cbn [seq] in Hinit.
  rewrite Hinit by done. done.
Qed.

(** *** The copy is a valid graph *)

#[local] Abbreviation E := (edges_of h xs).
#[local] Abbreviation G' :=
  (TaskGraph.mk (seq T0 (length xs)) (seq O0 (length (owned xs)))).
#[local] Abbreviation clone_t := (clone_task O0 xs E (id_below (length xs))).
#[local] Abbreviation clone_o := (clone_output h E (id_below (length (owned xs)))).

Lemma copied_task r t :
  task_objs copied !! r = Some t ↔
  task_objs h !! r = Some t ∨ ∃ a x, r = (T0 + a)%nat ∧ xs !! a = Some x ∧ t = clone_t a x.
Proof.
  unfold copied, copy_heap. cbn [task_objs]. rewrite lookup_app_Some. split.
  - intros [?|[Hr (x & Hx & ->)%list_lookup_imap_Some]]; [by left|right].
    exists (r - T0)%nat, x. split_and!; [lia|done..].
  - intros [?|(a & x & -> & Hx & ->)]; [by left|right]. split; [lia|].
    apply list_lookup_imap_Some. exists x. by replace (T0 + a - T0)%nat with a by lia.
Qed.

Lemma copied_output o y :
  output_objs copied !! o = Some y ↔
  output_objs h !! o = Some y ∨
  ∃ k p, o = (O0 + k)%nat ∧ owned xs !! k = Some p ∧ y = clone_o k p.
Proof.
  unfold copied, copy_heap. cbn [output_objs]. rewrite lookup_app_Some. split.
  - intros [?|[Hr (x & Hx & ->)%list_lookup_imap_Some]]; [by left|right].
    exists (o - O0)%nat, x. split_and!; [lia|done..].
  - intros [?|(a & x & -> & Hx & ->)]; [by left|right]. split; [lia|].
    apply list_lookup_imap_Some. exists x. by replace (O0 + a - O0)%nat with a by lia.
Qed.

Lemma copied_task_Some r : is_Some (task_objs copied !! r) ↔ (r < T0 + length xs)%nat.
Proof.
  rewrite lookup_lt_is_Some. unfold copied, copy_heap. cbn [task_objs].
  by rewrite length_app, length_imap.
Qed.

Lemma copied_output_Some o :
  is_Some (output_objs copied !! o) ↔ (o < O0 + length (owned xs))%nat.
Proof.
  rewrite lookup_lt_is_Some. unfold copied, copy_heap. cbn [output_objs].
  by rewrite length_app, length_imap.
Qed.

Lemma edge_ok a k :
  (a, k) ∈ E →
  ∃ x o, xs !! a = Some x ∧ o ∈ Task.inputs x ∧ k = idk h o.
Proof.
  intros (x & Hx & (o & -> & Ho)%list_elem_of_fmap)%elem_of_tagged. eauto.
Qed.

Lemma clone_inputs ti a x :
  xs !! a = Some x →
  Task.inputs (clone_task O0 xs E ti a x) = (λ o, (O0 + idk h o)%nat) <$> Task.inputs x.
Proof.
  intros Hx. unfold clone_task. cbn [Task.inputs]. unfold edges_of.
  rewrite (filter_tagged _ _ _ _ Hx), <- !list_fmap_compose. done.
Qed.

Lemma clone_consumers oi k p c :
  c ∈ TaskOutput.consumers (clone_output h E oi k p) ↔
  ∃ b, c = (T0 + b)%nat ∧ (b, k) ∈ E.
Proof.
  unfold clone_output. cbn [TaskOutput.consumers].
  rewrite elem_of_list_to_set, list_elem_of_fmap. split.
  - intros ([b k'] & -> & [Hk Hin]%list_elem_of_filter). simpl in *. subst k'. eauto.
  - intros (b & -> & Hin). exists (b, k). split; [done|].
    by apply list_elem_of_filter.
Qed.

Lemma owned_task k a o : owned xs !! k = Some (a, o) → (a < length xs)%nat.
Proof.
  intros (x & j & Hx & _)%tagged_lookup_inv. by eapply lookup_lt_Some.
Qed.

Lemma clone_output_of a x o :
  xs !! a = Some x → o ∈ Task.outputs (clone_t a x) →
  ∃ j oj, o = (O0 + (off xs a + j))%nat ∧ Task.outputs x !! j = Some oj ∧
          owned xs !! (off xs a + j)%nat = Some (a, oj).
Proof.
  intros Hx. unfold clone_task. cbn [Task.outputs]. intros [Hge Hlt]%elem_of_seq.
  destruct (lookup_lt_is_Some_2 (Task.outputs x) (o - (O0 + off xs a))) as [oj Hoj]; [lia|].
  exists (o - (O0 + off xs a))%nat, oj. split_and!; [lia|done|].
  by apply (tagged_lookup Task.outputs _ _ x).
Qed.

Lemma copied_closed : heap_closed copied.
Proof.
  split.
  - intros r t o [Ht|(a & x & -> & Hx & ->)]%copied_task Ho; apply copied_output_Some.
    + destruct (closed_task_refs _ Hclosed _ _ _ Ht Ho) as [y Hy].
      apply lookup_lt_Some in Hy. lia.
    + apply elem_of_app in Ho as [Ho|Ho].
      * rewrite (clone_inputs _ _ _ Hx) in Ho.
        apply list_elem_of_fmap in Ho as (o' & -> & Ho').
        destruct (input_ok _ _ _ Hx Ho') as (_ & _ & p & _ & _ & _ & Hp%lookup_lt_Some & _).
        lia.
      * destruct (clone_output_of _ _ _ Hx Ho) as (j & oj & -> & _ & Hp%lookup_lt_Some).
        lia.
  - intros o y p [Hy|(k & [a oj] & -> & Hp & ->)]%copied_output Hpar;
      apply copied_task_Some.
    + destruct (closed_parent _ Hclosed _ _ _ Hy Hpar) as [t Ht].
      apply lookup_lt_Some in Ht. lia.
    + injection Hpar as <-. simpl. apply owned_task in Hp. lia.
  - intros o y c [Hy|(k & p & -> & Hp & ->)]%copied_output Hc; apply copied_task_Some.
    + destruct (closed_consumers _ Hclosed _ _ _ Hy Hc) as [t Ht].
      apply lookup_lt_Some in Ht. lia.
    + apply clone_consumers in Hc as (b & -> & (x & _ & Hx%lookup_lt_Some & _)%edge_ok).
      lia.
  - intros r Gr t. unfold copied. cbn [graph_objs]. rewrite lookup_app_Some.
    intros [Hr|[_ Hr]] Ht; apply copied_task_Some.
    + destruct (closed_graph_tasks _ Hclosed _ _ _ Hr Ht) as [x Hx].
      apply lookup_lt_Some in Hx. lia.
    + apply list_lookup_singleton_Some in Hr as [_ <-]. simpl in Ht.
      apply elem_of_seq in Ht. lia.
  - intros r Gr o. unfold copied. cbn [graph_objs]. rewrite lookup_app_Some.
    intros [Hr|[_ Hr]] Ho; apply copied_output_Some.
    + destruct (closed_graph_outputs _ Hclosed _ _ _ Hr Ho) as [x Hx].
      apply lookup_lt_Some in Hx. lia.
    + apply list_lookup_singleton_Some in Hr as [_ <-]. simpl in Ho.
      apply elem_of_seq in Ho. lia.
Qed.

(** An edge between two copies comes from an edge between the tasks. *)
Lemma copied_consumes c d a ra :
  consumes copied c d → c = (T0 + a)%nat → rs !! a = Some ra →
  ∃ b rb, d = (T0 + b)%nat ∧ rs !! b = Some rb ∧ consumes h ra rb.
Proof.
  intros (ta & o & y & Hta & Ho & Hy & Hd) -> Hra.
  destruct (Forall2_lookup_l _ _ _ _ _ Hxs Hra) as (x & Hx & Hrx).
  assert (ta = clone_t a x) as ->.
  { pose proof (proj2 (copied_task (T0 + a) (clone_t a x))) as Hc.
    rewrite Hc in Hta by (right; eauto). congruence. }
  destruct (clone_output_of _ _ _ Hx Ho) as (j & oj & -> & Hoj & Hown).
  assert (y = clone_o (off xs a + j) (a, oj)) as ->.
  { pose proof (proj2 (copied_output (O0 + (off xs a + j))
      (clone_o (off xs a + j) (a, oj)))) as Hc.
    rewrite Hc in Hy by (right; eauto). congruence. }
  apply clone_consumers in Hd as (b & -> & (xb & o' & Hxb & Ho' & Hk)%edge_ok).
  destruct (input_ok _ _ _ Hxb Ho') as (rb & y' & p & Hrb & Hy' & _ & Hp & Hcons).
  rewrite <- Hk, Hown in Hp. injection Hp as <- <-.
  exists b, rb. split_and!; [done..|].
  exists x, oj, y'. split_and!; [done| |done..]. by eapply list_elem_of_lookup_2.
Qed.

Lemma copied_predecessor c d :
  predecessor copied c d → ∀ a ra, c = (T0 + a)%nat → rs !! a = Some ra →
  ∃ b rb, d = (T0 + b)%nat ∧ rs !! b = Some rb ∧ predecessor h ra rb.
Proof.
  induction 1 as [c d Hcd|c d e Hcd _ IH]; intros a ra Hc Hra.
  - destruct (copied_consumes _ _ _ _ Hcd Hc Hra) as (b & rb & ? & ? & ?).
    exists b, rb. split_and!; [done..|]. by apply tc_once.
  - destruct (copied_consumes _ _ _ _ Hcd Hc Hra) as (b & rb & Hd & Hrb & Hab).
    destruct (IH _ _ Hd Hrb) as (b' & rb' & ? & ? & ?).
    exists b', rb'. split_and!; [done..|]. by eapply tc_l.
Qed.

Lemma id_below_lt n k : (k < n)%nat → id_below n k = Some k.
Proof. intros Hk. unfold id_below. by rewrite decide_True. Qed.

Lemma copied_valid : valid copied G'.
Proof.
  intros i t [-> Hi]%lookup_seq. cbn [TaskGraph.tasks] in *.
  destruct (lookup_lt_is_Some_2 xs i) as [x Hx]; [done|].
  destruct (task_at _ _ Hx) as (r & Hr & Hrx).
  destruct (task_ok _ _ Hx) as (Hc & Hd & He & Hos).
  exists (clone_t i x). split_and!.
  - apply copied_task. right. eauto.
  - unfold clone_task. cbn [Task.id]. by apply id_below_lt.
  - done.
  - done.
  - intros Hcycle.
    destruct (copied_predecessor _ _ Hcycle i r) as (b & rb & Hb & Hrb & Hpred); [done..|].
    assert (b = i) as -> by lia. assert (rb = r) as -> by congruence.
    by destruct (Hvalid _ _ Hr) as (x' & _ & _ & _ & _ & Hacyc & _).
  - apply NoDup_seq.
  - intros o Ho. destruct (clone_output_of _ _ _ Hx Ho) as (j & oj & -> & Hoj & Hown).
    destruct (Hos oj) as (y & Hy & Hsize & Hes); [by eapply list_elem_of_lookup_2|].
    exists (clone_o (off xs i + j) (i, oj)). split_and!.
    + apply copied_output. right. eauto.
    + done.
    + unfold clone_output. cbn. by rewrite (out_rec_Some _ _ _ Hy).
    + unfold clone_output. cbn. by rewrite (out_rec_Some _ _ _ Hy).
    + cbn. apply elem_of_seq. apply lookup_lt_Some in Hown. lia.
    + intros c (b & -> & (xb & _ & Hxb%lookup_lt_Some & _)%edge_ok)%clone_consumers.
      cbn. apply elem_of_seq. lia.
  - intros o Ho. rewrite (clone_inputs _ _ _ Hx) in Ho.
    apply list_elem_of_fmap in Ho as (o' & -> & Ho').
    destruct (input_ok _ _ _ Hx Ho') as (_ & y & p & _ & Hy & Hid & Hp & _).
    split.
    + cbn. apply elem_of_seq. apply lookup_lt_Some in Hp. lia.
    + exists (clone_o (idk h o') (p, o')), (T0 + p)%nat. split_and!.
      * apply copied_output. right. eauto.
      * done.
      * cbn. apply elem_of_seq. apply owned_task in Hp. lia.
Qed.

(** The copies keep the fields of the tasks. *)
Lemma copied_is_copy a x : xs !! a = Some x → is_copy h copied x (clone_t a x).
Proof.
  intros Hx. destruct (task_ok _ _ Hx) as (_ & _ & _ & Hos).
  split_and!; [done..| |].
  - apply Forall2_same_length_lookup_2.
    { unfold clone_task. cbn. by rewrite length_seq. }
    intros j o o' Ho. unfold clone_task. cbn [Task.outputs].
    intros [-> Hj]%lookup_seq.
    destruct (Hos o) as (y & Hy & _); [by eapply list_elem_of_lookup_2|].
    exists y, (clone_o (off xs a + j) (a, o)). split_and!; [done| | |].
    + apply copied_output. right. exists (off xs a + j)%nat, (a, o).
      split_and!; [lia| |done]. by apply (tagged_lookup Task.outputs _ _ x).
    + unfold clone_output. cbn. by rewrite (out_rec_Some _ _ _ Hy).
    + unfold clone_output. cbn. by rewrite (out_rec_Some _ _ _ Hy).
  - rewrite (clone_inputs _ _ _ Hx). apply Forall2_fmap_r, Forall_Forall2_diag.
    apply Forall_forall. intros o Ho.
    destruct (input_ok _ _ _ Hx Ho) as (_ & y & p & _ & Hy & Hid & Hp & _).
    exists y, (clone_o (idk h o) (p, o)). split_and!; [done| |].
    + apply copied_output. right. eauto.
    + unfold clone_output. cbn. rewrite Hid. apply id_below_lt.
      by eapply lookup_lt_Some.
Qed.

End Copy.

Lemma tasks_of_graph h (l : list tref) :
  (∀ r, r ∈ l → is_Some (task_objs h !! r)) →
  ∃ xs, Forall2 (λ r x, task_objs h !! r = Some x) l xs.
Proof.
  induction l as [|r l IH]; intros Hl; [by exists []|].
  destruct (Hl r) as [x Hx]; [left|]. destruct IH as [xs Hxs].
  { intros r' Hr'. apply Hl. by right. }
  exists (x :: xs). by constructor.
Qed.

Lemma well_builtb_spec h G : well_builtb h G = true → well_built h G.
Proof.
  unfold well_builtb. rewrite forallb_forall. intros Hb r x Hr%list_elem_of_In Hx.
  specialize (Hb r Hr). rewrite Hx in Hb.
  apply andb_prop in Hb as [Hc%bool_decide_eq_true Hin]. split; [done|].
  rewrite forallb_forall in Hin. intros o Ho%list_elem_of_In. specialize (Hin o Ho).
  destruct (output_objs h !! o) as [y|]; [|done].
  destruct (TaskOutput.id y) as [k|] eqn:Hk; [|done].
  apply andb_prop in Hin as [Hflat%bool_decide_eq_true Hcons%bool_decide_eq_true].
  by exists y, k.
Qed.

(** C7, amended: when [validate] succeeds on a graph that is as the
    graph builder keeps it (no negative cpus, the id of every input
    object is its position among the outputs of the graph, every task
    is a consumer of its inputs), [copy] returns a graph on which
    [validate] succeeds too; the copy of each task has the name, the
    duration, the expected duration and the cpus of the task, as many
    outputs, of the same sizes and expected sizes, and as many inputs,
    with the same ids. *)
Theorem copy_of_valid_graph_validates h g G :
  heap_closed h → graph_objs h !! g = Some G → well_built h G →
  TaskGraph_validate h g = Ok tt →
  ∃ g' h' G',
    TaskGraph_copy g h = (Ok g', h') ∧
    graph_objs h' !! g' = Some G' ∧
    TaskGraph_validate h' g' = Ok tt ∧
    Forall2 (λ r r', ∃ x x', task_objs h !! r = Some x ∧ task_objs h' !! r' = Some x' ∧
                             is_copy h h' x x')
      (TaskGraph.tasks G) (TaskGraph.tasks G').
Proof.
  intros Hclosed Hg Hbuilt Hrun.
  destruct (TaskGraph_validate_spec h Hclosed g G Hg) as [Hiff _].
  apply Hiff in Hrun as Hvalid.
  destruct (tasks_of_graph h (TaskGraph.tasks G)) as [xs Hxs].
  { intros r (i & Hi)%list_elem_of_lookup_1.
    destruct (Hvalid _ _ Hi) as (x & Hx & _). eauto. }
  pose proof (copied_closed h G xs Hclosed Hxs Hbuilt) as Hclosed'.
  assert (graph_objs (copied h xs) !! length (graph_objs h) =
          Some (TaskGraph.mk (seq (length (task_objs h)) (length xs))
                  (seq (length (output_objs h)) (length (owned xs))))) as Hg'
    by (unfold copied; cbn [graph_objs]; by apply list_lookup_middle).
  eexists _, _, _. split_and!.
  - by apply (TaskGraph_copy_run h G xs).
  - exact Hg'.
  - destruct (TaskGraph_validate_spec _ Hclosed' _ _ Hg') as [Hiff' _].
    apply Hiff'. by apply (copied_valid h G xs).
  - cbn [TaskGraph.tasks]. apply Forall2_same_length_lookup_2.
    { rewrite length_seq. by eapply Forall2_length. }
    intros i r r' Hr [-> Hi]%lookup_seq.
    destruct (Forall2_lookup_l _ _ _ _ _ Hxs Hr) as (x & Hx & Hrx).
    eexists x, _. split_and!; [done| |by apply (copied_is_copy h G xs)].
    apply copied_task. right. eauto.
Qed.

Lemma copy_of_valid_graph_validates_witness :
  let h := Runs.two_inputs_one_parent in
  let G := TaskGraph.mk [0%nat; 1%nat] [0%nat; 1%nat] in
  ∃ g' h' G',
    TaskGraph_copy 0%nat h = (Ok g', h') ∧
    graph_objs h' !! g' = Some G' ∧
    TaskGraph_validate h' g' = Ok tt ∧
    Forall2 (λ r r', ∃ x x', task_objs h !! r = Some x ∧ task_objs h' !! r' = Some x' ∧
                             is_copy h h' x x')
      (TaskGraph.tasks G) (TaskGraph.tasks G').
Proof.
  intros h G. apply (copy_of_valid_graph_validates h 0%nat G).
  - apply heap_closedb_spec. vm_compute. reflexivity.
  - vm_compute. reflexivity.
  - apply well_builtb_spec. vm_compute. reflexivity.
  - vm_compute. reflexivity.
Defined.

(** C7, as stated, fails: in the graph that is left when the first of
    two tasks is removed, the remaining task has id 1 at position 0 and
    [validate] raises; [copy] numbers the tasks anew, and [validate]
    succeeds on the copy. *)
Lemma copy_validates_where_original_does_not :
  let h := first_task_removed in
  ∃ g' h', TaskGraph_copy 0%nat h = (Ok g', h') ∧
           TaskGraph_validate h' g' = Ok tt ∧
           TaskGraph_validate h 0%nat = Raise AssertionError.
Proof. intros h. eexists _, _. split_and!; vm_compute; reflexivity. Qed.

(** ** Building a graph: [new_task], [add_input], [remove_task] *)

Lemma upd_graph_run h r G f :
  graph_objs h !! r = Some G →
  upd_graph r f h =
    (Ok tt, mkHeap (task_objs h) (output_objs h) (<[r := f G]> (graph_objs h))).
Proof. intros HG. unfold upd_graph, Py.bind, read, get_graph, modify. by rewrite HG. Qed.

(** The outputs that [Task.__init__] makes from a list of sizes. *)
Lemma sized_outputs_run T O Gs (sizes : list Z) : ∀ acc,
  Forall (λ s, 0 ≤ s) sizes →
  map_m (λ a, match a with
              | OutSize s => TaskOutput_init s (Some s)
              | OutObject o => ret o
              end) (OutSize <$> sizes) (mkHeap T (O ++ acc) Gs) =
  (Ok (seq (length O + length acc) (length sizes)),
   mkHeap T (O ++ acc ++ ((λ s, TaskOutput.mk None None s ∅ (Some s)) <$> sizes)) Gs).
Proof.
  induction sizes as [|sz sizes IH]; intros acc Hsizes.
  { cbn. by rewrite app_nil_r. }
  apply Forall_cons in Hsizes as [Hsz Hsizes].
  rewrite fmap_cons. cbn [map_m]. unfold Py.bind at 1.
  rewrite TaskOutput_init_run by done. cbn [task_objs output_objs graph_objs].
  rewrite <- app_assoc. unfold Py.bind. rewrite IH by done. unfold ret.
  rewrite !length_app. cbn [length seq fmap list_fmap].
  rewrite <- !app_assoc. cbn [app].
  by replace (length O + (length acc + 1))%nat with (S (length O + length acc)) by lia.
Qed.

(** The loop of [Task.__init__] over new outputs. *)
Lemma own_output_step T Gs t O y ys :
  TaskOutput.parent y = None →
  (o <- read (λ h, get_output h (length O)) ;;
   assert (bool_decide (TaskOutput.parent o = None)) ;;;
   upd_output (length O) (TaskOutput.set_parent (Some t))) (mkHeap T (O ++ y :: ys) Gs) =
  (Ok tt, mkHeap T (O ++ TaskOutput.set_parent (Some t) y :: ys) Gs).
Proof.
  intros Hy. unfold Py.bind, read, upd_output, get_output, modify. cbn [output_objs].
  rewrite list_lookup_middle by done. rewrite bool_decide_true by done. cbn.
  rewrite list_lookup_middle by done. by rewrite insert_middle.
Qed.

Lemma own_outputs_run T Gs t (ys : list TaskOutput.t) : ∀ O,
  Forall (λ y, TaskOutput.parent y = None) ys →
  for_each (seq (length O) (length ys)) (λ output,
    o <- read (λ h, get_output h output) ;;
    assert (bool_decide (TaskOutput.parent o = None)) ;;;
    upd_output output (TaskOutput.set_parent (Some t))) (mkHeap T (O ++ ys) Gs) =
  (Ok tt, mkHeap T (O ++ (TaskOutput.set_parent (Some t) <$> ys)) Gs).
Proof.
  induction ys as [|y ys IH]; intros O Hys; [done|].
  apply Forall_cons in Hys as [Hy Hys].
  cbn [length seq for_each]. rewrite (bind_ok _ _ _ _ _ (own_output_step T Gs t O y ys Hy)).
  specialize (IH (O ++ [TaskOutput.set_parent (Some t) y]) Hys).
  rewrite length_app in IH. cbn [length] in IH.
  replace (length O + 1)%nat with (S (length O)) in IH by lia.
  rewrite <- app_assoc in IH. cbn [app] in IH. rewrite IH.
  by rewrite <- app_assoc.
Qed.

(** The loop of [new_task] that numbers the outputs. *)
Lemma number_outputs_run T Gs (ys : list TaskOutput.t) : ∀ O k,
  for_each (enumerate_from k (seq (length O) (length ys)))
    (λ '(output_id, o), upd_output o (TaskOutput.set_id (Some output_id)))
    (mkHeap T (O ++ ys) Gs) =
  (Ok tt, mkHeap T (O ++ imap (λ j y, TaskOutput.set_id (Some (k + j)%nat) y) ys) Gs).
Proof.
  induction ys as [|y ys IH]; intros O k; [done|].
  cbn [length seq enumerate_from for_each imap]. unfold Py.bind at 1.
  erewrite upd_output_run by (cbn [output_objs]; by apply list_lookup_middle).
  cbn [task_objs output_objs graph_objs]. rewrite insert_middle.
  specialize (IH (O ++ [TaskOutput.set_id (Some k) y]) (S k)).
  rewrite length_app in IH. cbn [length] in IH.
  replace (length O + 1)%nat with (S (length O)) in IH by lia.
  rewrite <- app_assoc in IH. cbn [app] in IH. rewrite IH.
  rewrite <- app_assoc, Nat.add_0_r. cbn [app]. do 4 f_equal.
  apply imap_ext. intros j z _. cbn. do 2 f_equal. lia.
Qed.

Lemma Task_init_sizes_run h name sizes d c e :
  0 ≤ c → 0 ≤ d → nonneg_or_none e → Forall (λ s, 0 ≤ s) sizes →
  Task_init name (OutSize <$> sizes) d c None e h =
    (Ok (length (task_objs h)),
     mkHeap
       (task_objs h ++
          [Task.mk [] (seq (length (output_objs h)) (length sizes)) d e name None c])
       (output_objs h ++
          ((λ s, TaskOutput.mk (Some (length (task_objs h))) None s ∅ (Some s)) <$> sizes))
       (graph_objs h)).
Proof.
  intros Hc Hd He%none_or_nonneg_spec Hsizes. unfold Task_init.
  rewrite !bool_decide_true, He by done. cbn [assert].
  unfold Py.bind at 1 2 3 4. cbn [ret alloc_task]. unfold Py.bind at 1.
  pose proof (sized_outputs_run (task_objs h ++ [Task.mk [] [] d e name None c])
                (output_objs h) (graph_objs h) sizes [] Hsizes) as Hout.
  rewrite app_nil_r in Hout. cbn [length app] in Hout. rewrite Nat.add_0_r in Hout.
  rewrite Hout. unfold Py.bind at 1.
  erewrite upd_task_run by (cbn [task_objs]; by apply list_lookup_middle).
  cbn [task_objs output_objs graph_objs]. rewrite insert_middle.
  unfold Py.bind at 1.
  match goal with |- context [for_each _ _ (mkHeap ?T' _ _)] =>
    pose proof (own_outputs_run T' (graph_objs h) (length (task_objs h))
      ((λ s, TaskOutput.mk None None s ∅ (Some s)) <$> sizes) (output_objs h)) as Hp end.
  rewrite length_fmap in Hp. rewrite Hp.
  - unfold ret. by rewrite <- list_fmap_compose.
  - apply Forall_fmap, Forall_true. done.
Qed.

Lemma TaskGraph_new_task_run h g G name sizes d e c :
  graph_objs h !! g = Some G →
  0 ≤ c → 0 ≤ d → nonneg_or_none e → Forall (λ s, 0 ≤ s) sizes →
  TaskGraph_new_task g name (OutSize <$> sizes) d e c None h =
    (Ok (length (task_objs h)), with_new_task h g G name sizes d e c).
Proof.
  intros Hg Hc Hd He Hsizes. unfold TaskGraph_new_task.
  unfold Py.bind at 1. rewrite Task_init_sizes_run by done.
  unfold Py.bind at 1. unfold read at 1, get_graph. cbn [graph_objs]. rewrite Hg.
  unfold Py.bind at 1.
  erewrite upd_task_run by (cbn [task_objs]; by apply list_lookup_middle).
  cbn [task_objs output_objs graph_objs]. rewrite insert_middle.
  unfold Py.bind at 1. unfold read at 1, get_task. cbn [task_objs].
  rewrite list_lookup_middle by done.
  cbn [Task.set_id Task.inputs Task.outputs Task.duration Task.expected_duration
       Task.name Task.id Task.cpus].
  unfold Py.bind at 1.
  match goal with |- context [for_each _ _ (mkHeap ?T' _ _)] =>
    pose proof (number_outputs_run T' (graph_objs h)
      ((λ s, TaskOutput.mk (Some (length (task_objs h))) None s ∅ (Some s)) <$> sizes)
      (output_objs h) (length (TaskGraph.outputs G))) as Hp end.
  rewrite length_fmap in Hp. rewrite Hp. unfold Py.bind at 1.
  erewrite upd_graph_run by (cbn [graph_objs]; exact Hg).
  cbn [task_objs output_objs graph_objs]. unfold Py.bind at 1.
  erewrite upd_graph_run
    by (cbn [graph_objs]; apply list_lookup_insert_eq; by eapply lookup_lt_Some).
  cbn [task_objs output_objs graph_objs TaskGraph.tasks TaskGraph.outputs].
  rewrite list_insert_insert_eq. unfold ret, with_new_task. do 2 f_equal.
  f_equal. rewrite imap_fmap. apply imap_ext. by intros j s _.
Qed.

(** *** The graph with the new task *)

Section NewTask.

Variables (h : Heap) (g : gref) (G : TaskGraph.t) (name : option string)
  (sizes : list Z) (d : Z) (e : option Z) (c : Z).
Hypothesis Hclosed : heap_closed h.
Hypothesis Hg : graph_objs h !! g = Some G.
Hypothesis Hargs : 0 ≤ c ∧ 0 ≤ d ∧ nonneg_or_none e ∧ Forall (λ s, 0 ≤ s) sizes.

#[local] Abbreviation T0 := (length (task_objs h)).
#[local] Abbreviation O0 := (length (output_objs h)).
#[local] Abbreviation h' := (with_new_task h g G name sizes d e c).
#[local] Abbreviation G' := (graph_with_new_task h G sizes).
#[local] Abbreviation x0 := (new_task_rec h G name sizes d e c).

Lemma nt_task r x :
  task_objs h' !! r = Some x ↔ task_objs h !! r = Some x ∨ (r = T0 ∧ x = x0).
Proof.
  unfold with_new_task. cbn [task_objs]. rewrite lookup_snoc_Some. split.
  - intros [[_ ?]|[-> <-]]; [by left|by right].
  - intros [Hr|[-> ->]]; [left|by right]. split; [by eapply lookup_lt_Some|done].
Qed.

Lemma nt_output o y :
  output_objs h' !! o = Some y ↔
  output_objs h !! o = Some y ∨
  ∃ j sz, o = (O0 + j)%nat ∧ sizes !! j = Some sz ∧ y = new_output_rec h G j sz.
Proof.
  unfold with_new_task. cbn [output_objs]. rewrite lookup_app_Some. split.
  - intros [?|[Hr (sz & Hsz & ->)%list_lookup_imap_Some]]; [by left|right].
    exists (o - O0)%nat, sz. split_and!; [lia|done..].
  - intros [?|(j & sz & -> & Hsz & ->)]; [by left|right]. split; [lia|].
    apply list_lookup_imap_Some. exists sz. by replace (O0 + j - O0)%nat with j by lia.
Qed.

Lemma nt_graph r Gr :
  graph_objs h' !! r = Some Gr ↔
  (r ≠ g ∧ graph_objs h !! r = Some Gr) ∨ (r = g ∧ Gr = G').
Proof.
  unfold with_new_task. cbn [graph_objs]. rewrite list_lookup_insert_Some. split.
  - intros [(-> & <- & _)|[? ?]]; [by right|by left].
  - intros [[? ?]|[-> ->]]; [by right|left]. split_and!; [done..|].
    by eapply lookup_lt_Some.
Qed.

Lemma nt_old_task r : (r < T0)%nat → task_objs h' !! r = task_objs h !! r.
Proof. intros Hr. unfold with_new_task. cbn. by rewrite lookup_app_l. Qed.

Lemma nt_old_output o : (o < O0)%nat → output_objs h' !! o = output_objs h !! o.
Proof. intros Hr. unfold with_new_task. cbn. by rewrite lookup_app_l. Qed.

Lemma nt_graph_task_old r : r ∈ TaskGraph.tasks G → (r < T0)%nat.
Proof.
  intros Hr. destruct (closed_graph_tasks _ Hclosed _ _ _ Hg Hr) as [x Hx].
  by eapply lookup_lt_Some.
Qed.

Lemma nt_graph_output_old o : o ∈ TaskGraph.outputs G → (o < O0)%nat.
Proof.
  intros Ho. destruct (closed_graph_outputs _ Hclosed _ _ _ Hg Ho) as [x Hx].
  by eapply lookup_lt_Some.
Qed.

Lemma nt_closed : heap_closed h'.
Proof.
  assert (length (output_objs h') = (O0 + length sizes)%nat) as Hlo
    by (unfold with_new_task; cbn; by rewrite length_app, length_imap).
  assert (length (task_objs h') = S T0) as Hlt
    by (unfold with_new_task; cbn; rewrite length_app; cbn; lia).
  split.
  - intros r t o [Ht|[-> ->]]%nt_task Ho; apply lookup_lt_is_Some; rewrite Hlo.
    + destruct (closed_task_refs _ Hclosed _ _ _ Ht Ho) as [y Hy%lookup_lt_Some]. lia.
    + cbn in Ho. apply elem_of_seq in Ho. lia.
  - intros o y p [Hy|(j & sz & -> & Hsz & ->)]%nt_output Hp;
      apply lookup_lt_is_Some; rewrite Hlt.
    + destruct (closed_parent _ Hclosed _ _ _ Hy Hp) as [t Ht%lookup_lt_Some]. lia.
    + injection Hp as <-. lia.
  - intros o y p [Hy|(j & sz & -> & Hsz & ->)]%nt_output Hp;
      apply lookup_lt_is_Some; rewrite Hlt.
    + destruct (closed_consumers _ Hclosed _ _ _ Hy Hp) as [t Ht%lookup_lt_Some]. lia.
    + by apply elem_of_empty in Hp.
  - intros r Gr t [[_ Hr]|[-> ->]]%nt_graph Ht; apply lookup_lt_is_Some; rewrite Hlt.
    + destruct (closed_graph_tasks _ Hclosed _ _ _ Hr Ht) as [x Hx%lookup_lt_Some]. lia.
    + cbn in Ht. apply elem_of_app in Ht as [Ht%nt_graph_task_old|Ht%list_elem_of_singleton];
        lia.
  - intros r Gr o [[_ Hr]|[-> ->]]%nt_graph Ho; apply lookup_lt_is_Some; rewrite Hlo.
    + destruct (closed_graph_outputs _ Hclosed _ _ _ Hr Ho) as [x Hx%lookup_lt_Some]. lia.
    + cbn in Ho. apply elem_of_app in Ho as [Ho%nt_graph_output_old|Ho%elem_of_seq]; lia.
Qed.

(** The new task brings no edge. *)
Lemma nt_consumes a b : consumes h' a b → consumes h a b.
Proof.
  intros (ta & o & y & [Hta|[-> ->]]%nt_task & Ho & Hy & Hb).
  - destruct (closed_task_refs _ Hclosed _ _ o Hta) as [y0 Hy0];
      [apply elem_of_app; by right|].
    rewrite nt_old_output in Hy by by eapply lookup_lt_Some.
    by exists ta, o, y.
  - cbn in Ho. apply elem_of_seq in Ho.
    apply nt_output in Hy as [Hy%lookup_lt_Some|(j & sz & -> & Hsz & ->)]; [lia|].
    by apply elem_of_empty in Hb.
Qed.

Lemma nt_predecessor a b : predecessor h' a b → predecessor h a b.
Proof.
  induction 1 as [a b Hab|a b c' Hab _ IH].
  - by apply tc_once, nt_consumes.
  - eapply tc_l; [by apply nt_consumes|done].
Qed.

Lemma nt_valid : valid h G → valid h' G'.
Proof.
  destruct Hargs as (Hc & Hd & He & Hsizes).
  intros Hvalid i t [[Hi Ht]|[-> <-]]%lookup_snoc_Some.
  - destruct (Hvalid i t Ht) as (x & Hx & Hid & Hdur & Hexp & Hacyc & Hnd & Hout & Hin).
    exists x. split_and!; try done.
    + apply nt_task. by left.
    + intros Hp. by apply Hacyc, nt_predecessor.
    + intros o Ho. destruct (Hout o Ho) as (y & Hy & Hpar & Hsz & Hes & Hog & Hcons).
      exists y. split_and!; try done.
      * apply nt_output. by left.
      * cbn. apply elem_of_app. by left.
      * intros c' Hc'. cbn. apply elem_of_app. left. by apply Hcons.
    + intros o Ho. destruct (Hin o Ho) as (Hog & y & p & Hy & Hpar & Hp).
      split; [cbn; apply elem_of_app; by left|].
      exists y, p. split_and!; [apply nt_output; by left|done|].
      cbn. apply elem_of_app. by left.
  - exists x0. split_and!; try done.
    + apply nt_task. by right.
    + intros Hp. apply nt_predecessor in Hp.
      assert (∀ a b, predecessor h a b → (a < T0)%nat) as Hlt.
      { intros a b [? ? (ta & _ & _ & Hta%lookup_lt_Some & _)|
                    ? ? ? (ta & _ & _ & Hta%lookup_lt_Some & _) _]; done. }
      apply Hlt in Hp. lia.
    + apply NoDup_seq.
    + intros o Ho. cbn in Ho. apply elem_of_seq in Ho.
      destruct (lookup_lt_is_Some_2 sizes (o - O0)) as [sz Hsz]; [lia|].
      exists (new_output_rec h G (o - O0) sz). split_and!; try done.
      * apply nt_output. right. exists (o - O0)%nat, sz. split_and!; [lia|done..].
      * cbn. eapply Forall_lookup_1 in Hsizes; [|done]. done.
      * cbn. eapply Forall_lookup_1 in Hsizes; [|done]. done.
      * cbn. apply elem_of_app. right. apply elem_of_seq. lia.
    + intros o Ho. by apply elem_of_nil in Ho.
Qed.

Lemma nt_flat_outputs :
  flat_outputs h' G' = flat_outputs h G ++ seq O0 (length sizes).
Proof.
  unfold flat_outputs. cbn [graph_with_new_task TaskGraph.tasks].
  rewrite fmap_app, concat_app. f_equal.
  - f_equal. apply list_fmap_ext. intros i r Hr.
    rewrite nt_old_task; [done|]. by eapply nt_graph_task_old, list_elem_of_lookup_2.
  - rewrite fmap_cons, (proj2 (nt_task T0 x0)) by by right. cbn. by rewrite app_nil_r.
Qed.

Lemma nt_built : built h G → built h' G'.
Proof.
  destruct Hargs as (Hc & Hd & He & Hsizes).
  intros (Hflat & Hids & Htasks). split_and!.
  - rewrite nt_flat_outputs, <- Hflat. done.
  - intros k o. cbn. rewrite lookup_app_Some. intros [Ho|[Hk [Heq Hlt]%lookup_seq]].
    + unfold id_of. rewrite nt_old_output; [by apply Hids|].
      by eapply nt_graph_output_old, list_elem_of_lookup_2.
    + destruct (lookup_lt_is_Some_2 sizes (k - length (TaskGraph.outputs G)))
        as [sz Hsz]; [done|].
      unfold id_of.
      rewrite (proj2 (nt_output o
        (new_output_rec h G (k - length (TaskGraph.outputs G)) sz))).
      * cbn. f_equal. lia.
      * right. eexists _, sz. split_and!; [exact Heq|done..].
  - intros r x Hr [Hx|[-> ->]]%nt_task.
    + cbn in Hr. apply elem_of_app in Hr as [Hr|Hr%list_elem_of_singleton].
      2: { apply lookup_lt_Some in Hx. lia. }
      destruct (Htasks r x Hr Hx) as [Hcpus Hin]. split; [done|].
      intros o Ho. destruct (Hin o Ho) as (Hog & y & Hy & Hcons).
      split; [cbn; apply elem_of_app; by left|].
      exists y. split; [|done]. apply nt_output. by left.
    + split; [done|]. intros o Ho. by apply elem_of_nil in Ho.
Qed.

End NewTask.

Lemma built_well_built h G : built h G → well_built h G.
Proof.
  intros (Hflat & Hids & Htasks) r x Hr Hx. destruct (Htasks r x Hr Hx) as [Hc Hin].
  split; [done|]. intros o Ho. destruct (Hin o Ho) as (Hog & y & Hy & Hcons).
  apply list_elem_of_lookup_1 in Hog as [k Hk].
  pose proof (Hids k o Hk) as Hid. unfold id_of in Hid. rewrite Hy in Hid. cbn in Hid.
  exists y, k. split_and!; try done. by rewrite <- Hflat.
Qed.

(** *** [add_input] *)

Lemma Task_add_input_run h t o x y :
  task_objs h !! t = Some x → output_objs h !! o = Some y →
  Task_add_input t (InObject o) h =
    (Ok tt,
     mkHeap (<[t := Task.set_inputs (Task.inputs x ++ [o]) x]> (task_objs h))
       (<[o := TaskOutput.set_consumers (TaskOutput.consumers y ∪ {[t]}) y]> (output_objs h))
       (graph_objs h)).
Proof.
  intros Hx Hy. unfold Task_add_input. unfold Py.bind at 1. cbn [ret].
  unfold Py.bind at 1. rewrite (upd_task_run _ _ _ _ Hx).
  by erewrite upd_output_run by (cbn [output_objs]; exact Hy).
Qed.

Section AddInput.

Variables (h : Heap) (g : gref) (G : TaskGraph.t) (t : tref) (o : oref)
  (x : Task.t) (y : TaskOutput.t).
Hypothesis Hclosed : heap_closed h.
Hypothesis Hg : graph_objs h !! g = Some G.
Hypothesis Hx : task_objs h !! t = Some x.
Hypothesis Hy : output_objs h !! o = Some y.

#[local] Abbreviation x' := (Task.set_inputs (Task.inputs x ++ [o]) x).
#[local] Abbreviation y' := (TaskOutput.set_consumers (TaskOutput.consumers y ∪ {[t]}) y).
#[local] Abbreviation h' :=
  (mkHeap (<[t := x']> (task_objs h)) (<[o := y']> (output_objs h)) (graph_objs h)).

Lemma ai_task r z :
  task_objs h' !! r = Some z ↔
  (r = t ∧ z = x') ∨ (r ≠ t ∧ task_objs h !! r = Some z).
Proof.
  cbn [task_objs]. rewrite list_lookup_insert_Some. split.
  - intros [(-> & <- & _)|[? ?]]; [by left|right]; split; congruence.
  - intros [[-> ->]|[? ?]]; [left|right; split; congruence].
    split_and!; [done..|]. by eapply lookup_lt_Some.
Qed.

Lemma ai_output r z :
  output_objs h' !! r = Some z ↔
  (r = o ∧ z = y') ∨ (r ≠ o ∧ output_objs h !! r = Some z).
Proof.
  cbn [output_objs]. rewrite list_lookup_insert_Some. split.
  - intros [(-> & <- & _)|[? ?]]; [by left|right]; split; congruence.
  - intros [[-> ->]|[? ?]]; [left|right; split; congruence].
    split_and!; [done..|]. by eapply lookup_lt_Some.
Qed.

(** Every task and object of [h] is there in [h'], with the same
    fields but for the inputs and the consumers. *)
Lemma ai_task_old r z :
  task_objs h !! r = Some z →
  ∃ z', task_objs h' !! r = Some z' ∧ Task.outputs z' = Task.outputs z ∧
        Task.cpus z' = Task.cpus z ∧
        (∀ a, a ∈ Task.inputs z' ↔ a ∈ Task.inputs z ∨ (r = t ∧ a = o)).
Proof.
  intros Hz. destruct (decide (r = t)) as [->|Hne].
  - exists x'. replace z with x by congruence. split_and!; [by apply ai_task; left|done..|].
    intros a. cbn. rewrite elem_of_app, list_elem_of_singleton. naive_solver.
  - exists z. split_and!; [by apply ai_task; right|done..|]. naive_solver.
Qed.

Lemma ai_output_old r z :
  output_objs h !! r = Some z →
  ∃ z', output_objs h' !! r = Some z' ∧ TaskOutput.id z' = TaskOutput.id z ∧
        TaskOutput.parent z' = TaskOutput.parent z ∧
        (∀ a, a ∈ TaskOutput.consumers z' ↔ a ∈ TaskOutput.consumers z ∨ (r = o ∧ a = t)).
Proof.
  intros Hz. destruct (decide (r = o)) as [->|Hne].
  - exists y'. replace z with y by congruence. split_and!; [by apply ai_output; left|done..|].
    intros a. cbn. set_solver.
  - exists z. split_and!; [by apply ai_output; right|done..|]. naive_solver.
Qed.

Lemma ai_closed : heap_closed h'.
Proof.
  assert (∀ r, is_Some (task_objs h' !! r) ↔ is_Some (task_objs h !! r)) as HT.
  { intros r. rewrite !lookup_lt_is_Some. cbn. by rewrite length_insert. }
  assert (∀ r, is_Some (output_objs h' !! r) ↔ is_Some (output_objs h !! r)) as HO.
  { intros r. rewrite !lookup_lt_is_Some. cbn. by rewrite length_insert. }
  split.
  - intros r z a [[-> ->]|[Hne Hz]]%ai_task Ha; apply HO.
    + cbn in Ha. rewrite <- app_assoc in Ha. apply elem_of_app in Ha as [Ha|Ha].
      * apply (closed_task_refs _ Hclosed _ _ _ Hx). apply elem_of_app. by left.
      * apply elem_of_cons in Ha as [->|Ha]; [by exists y|].
        apply (closed_task_refs _ Hclosed _ _ _ Hx). apply elem_of_app. by right.
    + by apply (closed_task_refs _ Hclosed _ _ _ Hz).
  - intros r z p [[-> ->]|[Hne Hz]]%ai_output Hp; apply HT.
    + by apply (closed_parent _ Hclosed _ _ _ Hy).
    + by apply (closed_parent _ Hclosed _ _ _ Hz).
  - intros r z p [[-> ->]|[Hne Hz]]%ai_output Hp; apply HT.
    + cbn in Hp. apply elem_of_union in Hp as [Hp| ->%elem_of_singleton]; [|by exists x].
      by apply (closed_consumers _ Hclosed _ _ _ Hy).
    + by apply (closed_consumers _ Hclosed _ _ _ Hz).
  - intros r Gr a Hr Ha. apply HT. by apply (closed_graph_tasks _ Hclosed _ _ _ Hr).
  - intros r Gr a Hr Ha. apply HO. by apply (closed_graph_outputs _ Hclosed _ _ _ Hr).
Qed.

Lemma ai_built : t ∈ TaskGraph.tasks G → o ∈ TaskGraph.outputs G → built h G → built h' G.
Proof.
  intros Ht Ho (Hflat & Hids & Htasks). split_and!.
  - rewrite Hflat. unfold flat_outputs. f_equal. apply list_fmap_ext. intros i r Hr.
    destruct (closed_graph_tasks _ Hclosed _ _ r Hg) as [z Hz];
      [by eapply list_elem_of_lookup_2|].
    destruct (ai_task_old r z Hz) as (z' & Hz' & Hout & _).
    by rewrite Hz, Hz'; cbn; rewrite Hout.
  - intros k a Ha. specialize (Hids k a Ha). unfold id_of in *.
    destruct (output_objs h !! a) as [z|] eqn:Hz; [|done].
    destruct (ai_output_old a z Hz) as (z' & Hz' & Hid & _).
    rewrite Hz'. cbn in *. by rewrite Hid.
  - intros r z' Hr Hz'.
    destruct (closed_graph_tasks _ Hclosed _ _ r Hg Hr) as [z Hz].
    destruct (ai_task_old r z Hz) as (z'' & Hz'' & _ & Hcpus & Hin).
    assert (z'' = z') as -> by congruence.
    destruct (Htasks r z Hr Hz) as [Hc Hinputs]. split; [by rewrite Hcpus|].
    intros a [Ha|[-> ->]]%Hin.
    + destruct (Hinputs a Ha) as (Hag & w & Hw & Hcons). split; [done|].
      destruct (ai_output_old a w Hw) as (w' & Hw' & _ & _ & Hcons').
      exists w'. split; [done|]. apply Hcons'. by left.
    + split; [done|]. exists y'. split; [by apply ai_output; left|].
      cbn. set_solver.
Qed.

End AddInput.

(** X13: [new_task] keeps a graph valid.  A new graph is empty,
    [validate] succeeds on it and it is built.  In a graph of a heap
    without dangling references, [new_task] with sizes for the outputs
    (none of them negative; cpus and duration not negative, the expected
    duration [None] or not negative) returns a new task: its id is the
    number of the tasks that the graph had, the ids of its outputs go on
    from the number of the outputs that the graph had, and task and
    outputs are appended to the graph.  If [validate] succeeded on the
    graph before, it succeeds afterwards; and a graph that is built
    stays built (so it meets the conditions under which [copy] keeps
    [validate] succeeding). *)
Theorem new_task_keeps_graph_valid h g G name sizes d e c :
  heap_closed h → graph_objs h !! g = Some G →
  0 ≤ c → 0 ≤ d → nonneg_or_none e → Forall (λ s, 0 ≤ s) sizes →
  (let h0 := state_after (TaskGraph_init None) h in
   let g0 := length (graph_objs h) in
   result_of (TaskGraph_init None) h = Ok g0 ∧ heap_closed h0 ∧
   graph_objs h0 !! g0 = Some (TaskGraph.mk [] []) ∧
   TaskGraph_validate h0 g0 = Ok tt ∧ built h0 (TaskGraph.mk [] [])) ∧
  ∃ h', TaskGraph_new_task g name (OutSize <$> sizes) d e c None h =
          (Ok (length (task_objs h)), h') ∧
    heap_closed h' ∧
    graph_objs h' !! g = Some (graph_with_new_task h G sizes) ∧
    task_objs h' !! length (task_objs h) = Some (new_task_rec h G name sizes d e c) ∧
    (∀ j s, sizes !! j = Some s →
       output_objs h' !! (length (output_objs h) + j)%nat = Some (new_output_rec h G j s)) ∧
    (TaskGraph_validate h g = Ok tt → TaskGraph_validate h' g = Ok tt) ∧
    (built h G → built h' (graph_with_new_task h G sizes) ∧
                 well_built h' (graph_with_new_task h G sizes)).
Proof.
  intros Hclosed Hg Hc Hd He Hsizes. split.
  - assert (heap_closed (state_after (TaskGraph_init None) h)) as Hclosed0.
    { unfold state_after. cbn. split; cbn.
      - apply (closed_task_refs _ Hclosed).
      - apply (closed_parent _ Hclosed).
      - apply (closed_consumers _ Hclosed).
      - intros r Gr t [Hr|[_ [_ <-]%list_lookup_singleton_Some]]%lookup_app_Some Ht.
        + by apply (closed_graph_tasks _ Hclosed _ _ _ Hr).
        + by apply elem_of_nil in Ht.
      - intros r Gr t [Hr|[_ [_ <-]%list_lookup_singleton_Some]]%lookup_app_Some Ht.
        + by apply (closed_graph_outputs _ Hclosed _ _ _ Hr).
        + by apply elem_of_nil in Ht. }
    assert (graph_objs (state_after (TaskGraph_init None) h) !! length (graph_objs h) =
            Some (TaskGraph.mk [] [])) as Hg0
      by (unfold state_after; cbn; by apply list_lookup_middle).
    cbn zeta. split_and!; [done..| |].
    + destruct (TaskGraph_validate_spec _ Hclosed0 _ _ Hg0) as [Hiff _].
      apply Hiff. by intros i t Ht.
    + unfold built. split_and!; [done|by intros k o Ho|by intros r x Hr%elem_of_nil].
  - assert (0 ≤ c ∧ 0 ≤ d ∧ nonneg_or_none e ∧ Forall (λ s, 0 ≤ s) sizes) as Hargs by done.
    exists (with_new_task h g G name sizes d e c).
    pose proof (nt_closed h g G name sizes d e c Hclosed Hg) as Hclosed'.
    assert (graph_objs (with_new_task h g G name sizes d e c) !! g =
            Some (graph_with_new_task h G sizes)) as Hg'
      by (apply (nt_graph _ _ _ _ _ _ _ _ Hg); by right).
    split_and!.
    + by apply TaskGraph_new_task_run.
    + done.
    + done.
    + apply nt_task. by right.
    + intros j s Hs. apply nt_output. right. by exists j, s.
    + intros Hrun. destruct (TaskGraph_validate_spec _ Hclosed _ _ Hg) as [Hiff _].
      destruct (TaskGraph_validate_spec _ Hclosed' _ _ Hg') as [Hiff' _].
      apply Hiff'. apply nt_valid; [done..|]. by apply Hiff.
    + intros Hbuilt.
      assert (built (with_new_task h g G name sizes d e c) (graph_with_new_task h G sizes))
        by by apply nt_built.
      split; [done|]. by apply built_well_built.
Qed.

Lemma new_task_keeps_graph_valid_witness :
  let h := two_inputs_one_parent in
  let G := TaskGraph.mk [0%nat; 1%nat] [0%nat; 1%nat] in
  ∃ h', TaskGraph_new_task 0%nat (Some "c") (OutSize <$> [5; 7]) 2 (Some 3) 1 None h =
          (Ok (length (task_objs h)), h') ∧
    heap_closed h' ∧
    graph_objs h' !! 0%nat = Some (graph_with_new_task h G [5; 7]) ∧
    task_objs h' !! length (task_objs h) =
      Some (new_task_rec h G (Some "c") [5; 7] 2 (Some 3) 1) ∧
    (∀ j s, [5; 7] !! j = Some s →
       output_objs h' !! (length (output_objs h) + j)%nat = Some (new_output_rec h G j s)) ∧
    (TaskGraph_validate h 0%nat = Ok tt → TaskGraph_validate h' 0%nat = Ok tt) ∧
    (built h G → built h' (graph_with_new_task h G [5; 7]) ∧
                 well_built h' (graph_with_new_task h G [5; 7])).
Proof.
  intros h G.
  apply (new_task_keeps_graph_valid h 0%nat G (Some "c") [5; 7] 2 (Some 3) 1).
  - apply heap_closedb_spec. vm_compute. reflexivity.
  - vm_compute. reflexivity.
  - lia.
  - lia.
  - cbn. lia.
  - repeat constructor; lia.
Defined.

(** X14: [add_input] keeps a graph built.  For a task and an output
    of a graph (of a heap without dangling references), [add_input]
    returns; the output is then the last input of the task and the task
    is among the consumers of the output; nothing else is changed, and
    a built graph stays built: the outputs of the graph are the outputs
    of its tasks, the id of an output is its position, and every task is
    a consumer of each of its inputs. *)
Theorem add_input_keeps_graph_built h g G t o :
  heap_closed h → graph_objs h !! g = Some G →
  t ∈ TaskGraph.tasks G → o ∈ TaskGraph.outputs G →
  ∃ h' x y,
    task_objs h !! t = Some x ∧ output_objs h !! o = Some y ∧
    Task_add_input t (InObject o) h = (Ok tt, h') ∧
    h' = mkHeap
           (<[t := Task.set_inputs (Task.inputs x ++ [o]) x]> (task_objs h))
           (<[o := TaskOutput.set_consumers (TaskOutput.consumers y ∪ {[t]}) y]>
              (output_objs h))
           (graph_objs h) ∧
    heap_closed h' ∧
    (built h G → built h' G ∧ well_built h' G).
Proof.
  intros Hclosed Hg Ht Ho.
  destruct (closed_graph_tasks _ Hclosed _ _ _ Hg Ht) as [x Hx].
  destruct (closed_graph_outputs _ Hclosed _ _ _ Hg Ho) as [y Hy].
  eexists _, x, y. split_and!; [done|done|by apply Task_add_input_run|done| |].
  - by apply ai_closed.
  - intros Hbuilt.
    assert (built (mkHeap
           (<[t := Task.set_inputs (Task.inputs x ++ [o]) x]> (task_objs h))
           (<[o := TaskOutput.set_consumers (TaskOutput.consumers y ∪ {[t]}) y]>
              (output_objs h))
           (graph_objs h)) G) by by apply (ai_built h g).
    split; [done|]. by apply built_well_built.
Qed.

Lemma add_input_keeps_graph_built_witness :
  let h := two_inputs_one_parent in
  let G := TaskGraph.mk [0%nat; 1%nat] [0%nat; 1%nat] in
  ∃ h' x y,
    task_objs h !! 1%nat = Some x ∧ output_objs h !! 0%nat = Some y ∧
    Task_add_input 1%nat (InObject 0%nat) h = (Ok tt, h') ∧
    h' = mkHeap
           (<[1%nat := Task.set_inputs (Task.inputs x ++ [0%nat]) x]> (task_objs h))
           (<[0%nat := TaskOutput.set_consumers (TaskOutput.consumers y ∪ {[1%nat]}) y]>
              (output_objs h))
           (graph_objs h) ∧
    heap_closed h' ∧
    (built h G → built h' G ∧ well_built h' G).
Proof.
  intros h G. apply (add_input_keeps_graph_built h 0%nat G 1%nat 0%nat).
  - apply heap_closedb_spec. vm_compute. reflexivity.
  - vm_compute. reflexivity.
  - cbn. apply elem_of_cons. right. apply list_elem_of_singleton. reflexivity.
  - cbn. apply elem_of_cons. left. reflexivity.
Defined.

(** *** [remove_task] of the task that was added *)

Lemma list_remove_first_middle (x : nat) (l r : list nat) :
  x ∉ l → list_remove_first x (l ++ x :: r) = Some (l ++ r).
Proof.
  induction l as [|y l IH]; intros Hx; cbn.
  - by rewrite decide_True.
  - rewrite decide_False by (intros ->; apply Hx; left).
    rewrite IH; [done|]. intros Hin. apply Hx. by right.
Qed.

Lemma list_remove_first_absent (x : nat) (l : list nat) :
  x ∉ l → list_remove_first x l = None.
Proof.
  induction l as [|y l IH]; intros Hx; cbn; [done|].
  rewrite decide_False by (intros ->; apply Hx; left).
  rewrite IH; [done|]. intros Hin. apply Hx. by right.
Qed.

(** The first loop of [remove_task], over outputs that nobody consumes. *)
Lemma remove_outputs_run T O g ts outs (m : nat) : ∀ a Gs,
  Gs !! g = Some (TaskGraph.mk ts (outs ++ seq a m)) →
  (∀ o, o ∈ outs → (o < a)%nat) →
  (∀ j, (j < m)%nat → ∃ y, O !! (a + j)%nat = Some y ∧ TaskOutput.consumers y = ∅) →
  for_each (seq a m) (λ o,
    g0 <- read (λ h, get_graph h g) ;;
    match list_remove_first o (TaskGraph.outputs g0) with
    | None => raise ValueError
    | Some l => upd_graph g (λ g1, TaskGraph.mk (TaskGraph.tasks g1) l)
    end ;;;
    x <- read (λ h, get_output h o) ;;
    for_each (elements (TaskOutput.consumers x)) (λ c,
      tc <- read (λ h, get_task h c) ;;
      match list_remove_first o (Task.inputs tc) with
      | None => raise ValueError
      | Some l => upd_task c (Task.set_inputs l)
      end)) (mkHeap T O Gs) =
    (Ok tt, mkHeap T O (<[g := TaskGraph.mk ts outs]> Gs)).
Proof.
  induction m as [|m IH]; intros a Gs Hg Houts Hobjs.
  { cbn. rewrite app_nil_r in Hg. by rewrite list_insert_id. }
  destruct (Hobjs 0%nat) as (y & Hy & Hcons); [lia|]. rewrite Nat.add_0_r in Hy.
  cbn [seq for_each]. unfold Py.bind at 1 2 3. unfold read at 1, get_graph.
  cbn [graph_objs]. rewrite Hg. cbn [TaskGraph.outputs seq].
  rewrite list_remove_first_middle by (intros Hin%Houts; lia).
  erewrite upd_graph_run by (cbn [graph_objs]; exact Hg).
  cbn [task_objs output_objs graph_objs TaskGraph.tasks].
  unfold Py.bind at 1. unfold read at 1, get_output. cbn [output_objs]. rewrite Hy.
  rewrite Hcons, elements_empty. cbn [for_each ret].
  rewrite IH.
  - by rewrite list_insert_insert_eq.
  - apply list_lookup_insert_eq. by eapply lookup_lt_Some.
  - intros o Ho%Houts. lia.
  - intros j Hj. destruct (Hobjs (S j)) as (z & Hz & Hzc); [lia|].
    exists z. split; [|done]. by replace (S a + j)%nat with (a + S j)%nat by lia.
Qed.

(** Objects added behind those of a heap do not change what [validate]
    says of a graph of the heap. *)
Lemma valid_extended h T O G :
  heap_closed h →
  (∀ t, t ∈ TaskGraph.tasks G → is_Some (task_objs h !! t)) →
  valid (mkHeap (task_objs h ++ T) (output_objs h ++ O) (graph_objs h)) G ↔ valid h G.
Proof.
  intros Hclosed Htasks.
  set (h2 := mkHeap (task_objs h ++ T) (output_objs h ++ O) (graph_objs h)).
  assert (∀ a b, consumes h a b → consumes h2 a b) as Hup.
  { intros a b (ta & o & y & Hta & Ho & Hy & Hb). exists ta, o, y.
    split_and!; [by apply lookup_app_l_Some|done|by apply lookup_app_l_Some|done]. }
  assert (∀ a b, consumes h2 a b → is_Some (task_objs h !! a) →
                 consumes h a b ∧ is_Some (task_objs h !! b)) as Hdown.
  { intros a b (ta & o & y & Hta & Ho & Hy & Hb) [ta' Hta'].
    cbn in Hta. rewrite (lookup_app_l_Some _ _ _ _ Hta') in Hta. injection Hta as <-.
    destruct (closed_task_refs _ Hclosed _ _ o Hta') as [y' Hy'];
      [apply elem_of_app; by right|].
    cbn in Hy. rewrite (lookup_app_l_Some _ _ _ _ Hy') in Hy. injection Hy as <-.
    split; [by exists ta', o, y'|]. by apply (closed_consumers _ Hclosed _ _ _ Hy'). }
  assert (∀ a b, predecessor h a b → predecessor h2 a b) as Hpup.
  { induction 1 as [a b Hab|a b c Hab _ IH]; [by apply tc_once, Hup|].
    eapply tc_l; [by apply Hup|done]. }
  assert (∀ a b, predecessor h2 a b → is_Some (task_objs h !! a) → predecessor h a b)
    as Hpdown.
  { induction 1 as [a b Hab|a b c Hab _ IH]; intros Ha.
    - apply tc_once. by apply Hdown.
    - destruct (Hdown a b Hab Ha) as [Hab' Hb]. eapply tc_l; [done|]. by apply IH. }
  split.
  - intros Hv i t Ht. destruct (Htasks t) as [x Hx]; [by eapply list_elem_of_lookup_2|].
    destruct (Hv i t Ht) as (x2 & Hx2 & Hid & Hdur & Hexp & Hacyc & Hnd & Hout & Hin).
    cbn in Hx2. rewrite (lookup_app_l_Some _ _ _ _ Hx) in Hx2. injection Hx2 as <-.
    exists x. split_and!; try done.
    + intros Hp. by apply Hacyc, Hpup.
    + intros o Ho. destruct (Hout o Ho) as (y & Hy & Hrest).
      destruct (closed_task_refs _ Hclosed _ _ o Hx) as [y' Hy'];
        [apply elem_of_app; by right|].
      cbn in Hy. rewrite (lookup_app_l_Some _ _ _ _ Hy') in Hy. injection Hy as <-.
      by exists y'.
    + intros o Ho. destruct (Hin o Ho) as (Hog & y & p & Hy & Hrest).
      destruct (closed_task_refs _ Hclosed _ _ o Hx) as [y' Hy'];
        [apply elem_of_app; by left|].
      cbn in Hy. rewrite (lookup_app_l_Some _ _ _ _ Hy') in Hy. injection Hy as <-.
      split; [done|]. by exists y', p.
  - intros Hv i t Ht.
    destruct (Hv i t Ht) as (x & Hx & Hid & Hdur & Hexp & Hacyc & Hnd & Hout & Hin).
    exists x. split_and!; try done.
    + by apply lookup_app_l_Some.
    + intros Hp. apply Hacyc, Hpdown; [done|by exists x].
    + intros o Ho. destruct (Hout o Ho) as (y & Hy & Hrest).
      exists y. split; [by apply lookup_app_l_Some|done].
    + intros o Ho. destruct (Hin o Ho) as (Hog & y & p & Hy & Hrest).
      split; [done|]. exists y, p. split; [by apply lookup_app_l_Some|done].
Qed.

(** X15: [remove_task] undoes [new_task].  When the task that
    [new_task] has just added is removed, the graph has the tasks and
    the outputs that it had before, every task and object that was
    there is unchanged, and [validate] gives what it gave before.
    Removing the task once more raises [ValueError] and changes
    nothing. *)
Theorem remove_task_undoes_new_task h g G name sizes d e c :
  heap_closed h → graph_objs h !! g = Some G →
  0 ≤ c → 0 ≤ d → nonneg_or_none e → Forall (λ s, 0 ≤ s) sizes →
  ∃ t h1 h2,
    TaskGraph_new_task g name (OutSize <$> sizes) d e c None h = (Ok t, h1) ∧
    TaskGraph_remove_task g t h1 = (Ok tt, h2) ∧
    graph_objs h2 = graph_objs h ∧
    (∃ T, task_objs h2 = task_objs h ++ T) ∧
    (∃ O, output_objs h2 = output_objs h ++ O) ∧
    TaskGraph_validate h2 g = TaskGraph_validate h g ∧
    TaskGraph_remove_task g t h2 = (Raise ValueError, h2).
Proof.
  intros Hclosed Hg Hc Hd He Hsizes.
  set (T0 := length (task_objs h)). set (O0 := length (output_objs h)).
  set (h1 := with_new_task h g G name sizes d e c).
  set (h2 := mkHeap (task_objs h1) (output_objs h1) (graph_objs h)).
  assert (task_objs h1 !! T0 = Some (new_task_rec h G name sizes d e c)) as HT0
    by (apply nt_task; by right).
  assert (T0 ∉ TaskGraph.tasks G) as Hfresh.
  { intros Hin. destruct (closed_graph_tasks _ Hclosed _ _ _ Hg Hin) as [x Hx].
    apply lookup_lt_Some in Hx. unfold T0 in Hx. lia. }
  assert (TaskGraph_remove_task g T0 h1 = (Ok tt, h2)) as Hremove.
  { unfold TaskGraph_remove_task.
    unfold Py.bind at 1. unfold read at 1, get_task. rewrite HT0.
    cbn [new_task_rec Task.outputs Task.inputs]. unfold Py.bind at 1.
    unfold h1 at 1, with_new_task.
    rewrite (remove_outputs_run _ _ g (TaskGraph.tasks G ++ [T0]) (TaskGraph.outputs G)).
    - unfold Py.bind at 1 2. unfold read at 1, get_graph. cbn [graph_objs].
      rewrite list_lookup_insert_eq
        by (rewrite length_insert; by eapply lookup_lt_Some).
      cbn [TaskGraph.tasks].
      rewrite (list_remove_first_middle T0 (TaskGraph.tasks G) []) by done.
      rewrite app_nil_r.
      erewrite upd_graph_run
        by (cbn [graph_objs]; apply list_lookup_insert_eq; rewrite length_insert;
            by eapply lookup_lt_Some).
      cbn [task_objs output_objs graph_objs TaskGraph.outputs].
      unfold Py.bind at 1. unfold read at 1, get_task. cbn [task_objs].
      pose proof HT0 as HT0'. unfold h1, with_new_task in HT0'. cbn [task_objs] in HT0'.
      rewrite HT0'. cbn [new_task_rec Task.inputs for_each ret].
      unfold h2. do 2 f_equal. rewrite !list_insert_insert_eq.
      apply list_insert_id. by destruct G.
    - apply list_lookup_insert_eq. by eapply lookup_lt_Some.
    - intros o Ho. destruct (closed_graph_outputs _ Hclosed _ _ _ Hg Ho) as [x Hx].
      by apply lookup_lt_Some in Hx.
    - intros j Hj. destruct (lookup_lt_is_Some_2 sizes j Hj) as [sz Hsz].
      exists (new_output_rec h G j sz). split; [|done].
      rewrite lookup_app_r by lia.
      replace (length (output_objs h) + j - length (output_objs h))%nat with j by lia.
      by rewrite list_lookup_imap, Hsz. }
  assert (heap_closed h2) as Hclosed2.
  { pose proof (nt_closed h g G name sizes d e c Hclosed Hg) as Hc1. split.
    - apply (closed_task_refs _ Hc1).
    - apply (closed_parent _ Hc1).
    - apply (closed_consumers _ Hc1).
    - intros r Gr t Hr Ht. destruct (closed_graph_tasks _ Hclosed _ _ _ Hr Ht) as [x Hx].
      exists x. by apply lookup_app_l_Some.
    - intros r Gr o Hr Ho. destruct (closed_graph_outputs _ Hclosed _ _ _ Hr Ho) as [x Hx].
      exists x. by apply lookup_app_l_Some. }
  exists T0, h1, h2. split_and!.
  - by apply TaskGraph_new_task_run.
  - done.
  - done.
  - by eexists.
  - by eexists.
  - destruct (TaskGraph_validate_spec _ Hclosed _ _ Hg) as [Hiff Hass].
    destruct (TaskGraph_validate_spec h2 Hclosed2 g G Hg) as [Hiff2 Hass2].
    pose proof (valid_extended h [new_task_rec h G name sizes d e c]
                  (imap (new_output_rec h G) sizes) G Hclosed
                  (λ t, closed_graph_tasks _ Hclosed _ _ t Hg)) as Hext.
    destruct Hass as [Hok|Hraise], Hass2 as [Hok2|Hraise2]; try congruence.
    + apply Hiff, Hext, Hiff2 in Hok. congruence.
    + apply Hiff2, Hext, Hiff in Hok2. congruence.
  - unfold TaskGraph_remove_task.
    unfold Py.bind at 1. unfold read at 1, get_task. cbn [h2 task_objs]. rewrite HT0.
    cbn [new_task_rec Task.outputs Task.inputs].
    destruct sizes as [|sz sizes'].
    + cbn [length seq]. rewrite (bind_ok _ _ _ tt h2) by done.
      rewrite (bind_ok _ _ _ G h2) by (unfold read, get_graph; cbn; by rewrite Hg).
      apply bind_raise. cbn beta. by rewrite list_remove_first_absent.
    + cbn [length seq for_each]. apply bind_raise. apply bind_raise.
      rewrite (bind_ok _ _ _ G h2) by (unfold read, get_graph; cbn; by rewrite Hg).
      apply bind_raise. cbn beta. rewrite list_remove_first_absent; [done|].
      intros Ho. destruct (closed_graph_outputs _ Hclosed _ _ _ Hg Ho) as [x Hx].
      apply lookup_lt_Some in Hx. lia.
Qed.

Lemma remove_task_undoes_new_task_witness :
  let h := two_inputs_one_parent in
  ∃ t h1 h2,
    TaskGraph_new_task 0%nat (Some "c") (OutSize <$> [5; 7]) 2 (Some 3) 1 None h = (Ok t, h1) ∧
    TaskGraph_remove_task 0%nat t h1 = (Ok tt, h2) ∧
    graph_objs h2 = graph_objs h ∧
    (∃ T, task_objs h2 = task_objs h ++ T) ∧
    (∃ O, output_objs h2 = output_objs h ++ O) ∧
    TaskGraph_validate h2 0%nat = TaskGraph_validate h 0%nat ∧
    TaskGraph_remove_task 0%nat t h2 = (Raise ValueError, h2).
Proof.
  intros h.
  apply (remove_task_undoes_new_task h 0%nat (TaskGraph.mk [0%nat; 1%nat] [0%nat; 1%nat])
           (Some "c") [5; 7] 2 (Some 3) 1).
  - apply heap_closedb_spec. vm_compute. reflexivity.
  - vm_compute. reflexivity.
  - lia.
  - lia.
  - cbn. lia.
  - repeat constructor; lia.
Defined.

(** ** The genetic scheduler: individuals and schedules *)

Section GeneticProps.

Import Genetic.

Lemma list_item_raise {A} (l : list A) i e : list_item l i = Raise e → e = IndexError.
Proof.
  unfold list_item. case_decide; [|by intros [= <-]].
  destruct (l !! _); [done|]. by intros [= <-].
Qed.

(** An entry of a schedule for the task id [tid]. *)
Definition assignment_of (h : Heap) (mapping : list Z) (graph_tasks : list tref)
    (workers : list Worker) (tid : Z) (a : TaskAssignment) : Prop :=
  list_item graph_tasks tid = Ok (ta_task a) ∧
  (∃ m, list_item mapping tid = Ok m ∧ list_item workers m = Ok (ta_worker a)) ∧
  ∃ x, task_objs h !! ta_task a = Some x ∧ Task.cpus x ≤ worker_cpus (ta_worker a).

Lemma create_schedule_loop_after_validation h mapping graph_tasks workers tasks : ∀ acc,
  match is_schedule_valid_loop h mapping graph_tasks workers tasks with
  | Ok true =>
      ∃ sched, create_schedule_loop h mapping graph_tasks workers tasks acc =
                 Ok (acc ++ sched) ∧
               Forall2 (assignment_of h mapping graph_tasks workers) tasks sched
  | Ok false =>
      create_schedule_loop h mapping graph_tasks workers tasks acc = Raise AssertionError
  | Raise e => create_schedule_loop h mapping graph_tasks workers tasks acc = Raise e
  end.
Proof.
  induction tasks as [|t tasks IH]; intros acc.
  { cbn. exists []. by rewrite app_nil_r. }
  cbn [is_schedule_valid_loop create_schedule_loop].
  destruct (list_item mapping t) as [m|e] eqn:Hm; cbn.
  2: { apply list_item_raise in Hm as ->.
       destruct (list_item graph_tasks t) as [r|e] eqn:Hr; cbn; [done|].
       by apply list_item_raise in Hr as ->. }
  destruct (list_item workers m) as [w|e] eqn:Hw; cbn.
  2: { apply list_item_raise in Hw as ->.
       destruct (list_item graph_tasks t) as [r|e] eqn:Hr; cbn; [done|].
       by apply list_item_raise in Hr as ->. }
  destruct (list_item graph_tasks t) as [r|e] eqn:Hr; cbn; [|done].
  unfold get_task. destruct (task_objs h !! r) as [x|] eqn:Hx; cbn; [|done].
  destruct (decide (worker_cpus w < Task.cpus x)) as [Hlt|Hge].
  - by rewrite bool_decide_false by lia.
  - rewrite bool_decide_true by lia. cbn.
    specialize (IH (acc ++ [mkTaskAssignment w r])).
    destruct (is_schedule_valid_loop h mapping graph_tasks workers tasks) as [[]|e]; [|done..].
    destruct IH as (sched & Hrun & Hall). exists (mkTaskAssignment w r :: sched).
    split; [by rewrite Hrun, <- app_assoc|]. constructor; [|done].
    split_and!; [done|by exists m|]. exists x. split; [done|]. cbn. lia.
Qed.

(** X11: a valid individual makes a schedule.  [create_schedule]
    does what [is_schedule_valid] announces: when the individual is
    valid, [create_schedule] returns, for every task id of the second
    part of the individual, in order, the task with this id and the
    worker that the first part gives to it, and the worker has the cpus
    that the task needs; when it is not valid, the assertion of
    [create_schedule] fails; and when [is_schedule_valid] raises (an id
    out of range), [create_schedule] raises the same. *)
Theorem create_schedule_after_validation h individual graph_tasks workers :
  match is_schedule_valid h individual graph_tasks workers with
  | Ok true =>
      ∃ sched, create_schedule h individual graph_tasks workers = Ok sched ∧
               static_schedule h individual graph_tasks workers = Ok sched ∧
               Forall2 (assignment_of h (take (length graph_tasks) individual)
                          graph_tasks workers)
                 (drop (length graph_tasks) individual) sched
  | Ok false => create_schedule h individual graph_tasks workers = Raise AssertionError
  | Raise e => create_schedule h individual graph_tasks workers = Raise e
  end.
Proof.
  unfold static_schedule, is_schedule_valid, create_schedule, split_individual.
  pose proof (create_schedule_loop_after_validation h
    (take (length graph_tasks) individual) graph_tasks workers
    (drop (length graph_tasks) individual) []) as Hloop.
  destruct (is_schedule_valid_loop _ _ _ _ _) as [[]|e]; [|done..].
  destruct Hloop as (sched & Hrun & Hall). by exists sched.
Qed.

(** The loop of [order_crossover] appends the elements that are not in
    [visited]. *)
Lemma order_crossover_loop (visited : gset Z) (tasks2 : list Z) : ∀ tasks,
  foldl (λ tasks t, if decide (t ∈ visited) then tasks else tasks ++ [t]) tasks tasks2 =
  tasks ++ filter (λ t, t ∉ visited) tasks2.
Proof.
  induction tasks2 as [|t tasks2 IH]; intros tasks; cbn [foldl].
  { by rewrite app_nil_r. }
  rewrite IH. destruct (decide (t ∈ visited)) as [Hin|Hnin].
  - by rewrite filter_cons_False by (intros Hn; by apply Hn).
  - rewrite filter_cons_True by done. by rewrite <- app_assoc.
Qed.

(** X12: the order crossover of two orders of the same tasks is an
    order of these tasks.  When [tasks1] has no repeated id and [tasks2]
    lists the same ids, then for every crossover point the assertion of
    [order_crossover] holds, and the child is a permutation of
    [tasks1] without repetition: it starts with the first [point] ids
    of [tasks1] and goes on with the other ids in the order of
    [tasks2]. *)
Theorem order_crossover_permutes task_count point tasks1 tasks2 :
  task_count ≠ 0%nat → NoDup tasks1 → tasks1 ≡ₚ tasks2 →
  ∃ child, order_crossover task_count point tasks1 tasks2 = Ok child ∧
    child = take point tasks1 ++ filter (λ t, t ∉ take point tasks1) tasks2 ∧
    child ≡ₚ tasks1 ∧ NoDup child.
Proof.
  intros Hcount Hnd Hperm.
  set (child := take point tasks1 ++ filter (λ t, t ∉ take point tasks1) tasks2).
  assert (filter (λ t, t ∉ take point tasks1) tasks2 ≡ₚ drop point tasks1) as Hrest.
  { rewrite <- Hperm.
    transitivity (filter (λ t, t ∉ take point tasks1)
                    (take point tasks1 ++ drop point tasks1)); [by rewrite take_drop|].
    assert (NoDup (take point tasks1 ++ drop point tasks1)) as Hnd'
      by by rewrite take_drop.
    apply NoDup_app in Hnd' as (_ & Hdisj & _).
    rewrite filter_app, filter_none, filter_all; [done| |].
    - intros t Ht Hin. by apply (Hdisj t).
    - intros t Ht Hn. by apply Hn. }
  assert (child ≡ₚ tasks1) as Hchild.
  { unfold child. rewrite Hrest. by rewrite take_drop. }
  exists child. split_and!; [|done|done|by rewrite Hchild].
  unfold order_crossover. rewrite decide_False by done. cbn zeta.
  rewrite order_crossover_loop.
  assert (filter (λ t, t ∉ (list_to_set (take point tasks1) : gset Z)) tasks2 =
          filter (λ t, t ∉ take point tasks1) tasks2) as ->.
  { apply list_filter_iff. intros t. by rewrite elem_of_list_to_set. }
  fold child. by rewrite bool_decide_true by by rewrite Hchild.
Qed.

Lemma order_crossover_permutes_witness :
  ∃ child, order_crossover 4 2 [3; 1; 0; 2] [0; 1; 2; 3] = Ok child ∧
    child = take 2 [3; 1; 0; 2] ++ filter (λ t, t ∉ take 2 [3; 1; 0; 2]) [0; 1; 2; 3] ∧
    child ≡ₚ [3; 1; 0; 2] ∧ NoDup child.
Proof.
  apply (order_crossover_permutes 4 2 [3; 1; 0; 2] [0; 1; 2; 3]).
  - lia.
  - exact (bool_decide_unpack (NoDup [3; 1; 0; 2]) I).
  - apply NoDup_Permutation.
    + exact (bool_decide_unpack (NoDup [3; 1; 0; 2]) I).
    + exact (bool_decide_unpack (NoDup [0; 1; 2; 3]) I).
    + intros x. rewrite !elem_of_cons, !elem_of_nil. tauto.
Defined.

End GeneticProps.

(** ** [is_predecessor_of] and the order of a validated graph *)

Lemma predecessor_resolves h a b :
  heap_closed h → predecessor h a b → is_Some (task_objs h !! b).
Proof.
  intros Hclosed. induction 1 as [a b (ta & o & x & _ & _ & Hx & Hb)|a b c _ _ IH]; [|done].
  by apply (closed_consumers _ Hclosed _ _ _ Hx).
Qed.

(** X16: [is_predecessor_of] decides reachability.  For every task
    [self] of a heap, [self.is_predecessor_of(task)] returns, also when
    the tasks form a cycle, and it returns [True] exactly if [task] is
    reached from [self] in one or more steps from a task to a consumer
    of one of its outputs.  In particular a task is not a predecessor
    of itself unless it lies on a cycle. *)
Theorem is_predecessor_of_decides_reachability h self task :
  heap_closed h → is_Some (task_objs h !! self) →
  ∃ b, Task_is_predecessor_of h self task = Ok b ∧
       (b = true ↔ predecessor h self task).
Proof. apply Task_is_predecessor_of_spec. Qed.

Lemma is_predecessor_of_decides_reachability_witness :
  ∃ b, Task_is_predecessor_of two_inputs_one_parent 0%nat 1%nat = Ok b ∧
       (b = true ↔ predecessor two_inputs_one_parent 0%nat 1%nat).
Proof.
  apply (is_predecessor_of_decides_reachability two_inputs_one_parent 0%nat 1%nat).
  - apply heap_closedb_spec. vm_compute. reflexivity.
  - vm_compute. eexists. reflexivity.
Defined.

(** X17: a graph that [validate] accepts orders its tasks.  If
    [t.is_predecessor_of(u)] is [True] for a task [t] of such a graph,
    then [u] is another task and [u.is_predecessor_of(t)] returns
    [False]; and [t] is a predecessor of every task that [u] is a
    predecessor of. *)
Theorem validated_graph_orders_tasks h g G t u :
  heap_closed h → graph_objs h !! g = Some G →
  TaskGraph_validate h g = Ok tt →
  t ∈ TaskGraph.tasks G →
  Task_is_predecessor_of h t u = Ok true →
  t ≠ u ∧
  Task_is_predecessor_of h u t = Ok false ∧
  ∀ v, Task_is_predecessor_of h u v = Ok true →
       Task_is_predecessor_of h t v = Ok true.
Proof.
  intros Hclosed Hg Hvalid Ht Htu.
  pose proof (closed_graph_tasks _ Hclosed _ _ _ Hg Ht) as Hsome.
  destruct (Task_is_predecessor_of_spec h t u Hclosed Hsome) as (b & Hb & Hiff).
  assert (predecessor h t u) as Hp by (apply Hiff; congruence).
  pose proof (predecessor_resolves _ _ _ Hclosed Hp) as Hu.
  assert (¬ predecessor h t t) as Hacyclic.
  { apply (TaskGraph_validate_spec _ Hclosed _ _ Hg) in Hvalid.
    apply list_elem_of_lookup in Ht as [i Hi].
    by destruct (Hvalid i t Hi) as (x & _ & _ & _ & _ & Hacyc & _). }
  split_and!.
  - by intros <-.
  - destruct (Task_is_predecessor_of_spec h u t Hclosed Hu) as (b' & Hb' & Hiff').
    rewrite Hb'. f_equal. destruct b'; [|done].
    exfalso. apply Hacyclic. eapply tc_transitive; [done|]. by apply Hiff'.
  - intros v Hv.
    destruct (Task_is_predecessor_of_spec h u v Hclosed Hu) as (b1 & Hb1 & Hiff1).
    destruct (Task_is_predecessor_of_spec h t v Hclosed Hsome) as (b2 & Hb2 & Hiff2).
    rewrite Hb2. f_equal. apply Hiff2. eapply tc_transitive; [done|].
    apply Hiff1. congruence.
Qed.

Lemma validated_graph_orders_tasks_witness :
  let h := with_new_task two_inputs_one_parent 0%nat
             (TaskGraph.mk [0%nat; 1%nat] [0%nat; 1%nat]) None [] 1 None 1 in
  (0%nat : tref) ≠ 1%nat ∧
  Task_is_predecessor_of h 1%nat 0%nat = Ok false ∧
  ∀ v, Task_is_predecessor_of h 1%nat v = Ok true →
       Task_is_predecessor_of h 0%nat v = Ok true.
Proof.
  intros h.
  apply (validated_graph_orders_tasks h 0%nat
           (TaskGraph.mk [0%nat; 1%nat; 2%nat] [0%nat; 1%nat])).
  - apply heap_closedb_spec. vm_compute. reflexivity.
  - vm_compute. reflexivity.
  - vm_compute. reflexivity.
  - apply elem_of_cons. left. reflexivity.
  - vm_compute. reflexivity.
Defined.

(** ** [leaf_tasks] and [source_tasks] *)

(** In a finite set, a walk along a relation without cycles ends. *)
Lemma acyclic_walk_ends (R : nat → nat → Prop) (stop : nat → Prop) (X : gset nat) :
  (∀ a, a ∈ X → stop a ∨ ∃ b, b ∈ X ∧ R a b) →
  (∀ a, a ∈ X → ¬ tc R a a) →
  ∀ a, a ∈ X → ∃ m, m ∈ X ∧ stop m ∧ (a = m ∨ tc R a m).
Proof.
  intros Hstep Hacyc.
  assert (∀ (n : nat) (V : gset nat) a,
    (size (X ∖ V) ≤ n)%nat → a ∈ X → (∀ v, v ∈ V → tc R v a) →
    ∃ m, m ∈ X ∧ stop m ∧ (a = m ∨ tc R a m)) as Hwalk.
  { induction n as [|n IH]; intros V a Hn Ha Hreach.
    - assert (a ∉ V) as HaV by (intros Hv%Hreach; by apply (Hacyc a)).
      assert (X ∖ V ≡ ∅) as Hempty by (apply size_empty_iff; lia).
      set_solver.
    - assert (a ∉ V) as HaV by (intros Hv%Hreach; by apply (Hacyc a)).
      destruct (Hstep a Ha) as [Hs|(b & Hb & Hab)]; [exists a; by auto|].
      destruct (IH (V ∪ {[a]}) b) as (m & Hm & Hsm & Hbm).
      + assert (X ∖ (V ∪ {[a]}) ⊂ X ∖ V) as Hsub.
        { split; [set_solver|]. intros Hc. specialize (Hc a). set_solver. }
        apply subset_size in Hsub. lia.
      + done.
      + intros v [Hv| ->%elem_of_singleton]%elem_of_union.
        * eapply tc_r; [by apply Hreach|done].
        * by apply tc_once.
      + exists m. split_and!; [done..|]. right.
        destruct Hbm as [<-|Hbm]; [by apply tc_once|by eapply tc_l]. }
  intros a Ha. apply (Hwalk (size X) ∅ a); [|done|set_solver].
  apply subseteq_size. set_solver.
Qed.

Lemma tasks_where_spec (cond : tref → outcome bool) (P : tref → Prop) (ts : list tref) :
  (∀ t, t ∈ ts → ∃ b, cond t = Ok b ∧ (b = true ↔ P t)) →
  ∃ l, tasks_where cond ts = Ok l ∧ sublist l ts ∧ ∀ t, t ∈ l ↔ t ∈ ts ∧ P t.
Proof.
  induction ts as [|t ts IH]; intros Hcond.
  { exists []. split_and!; [done..|]. set_solver. }
  destruct (Hcond t) as (b & Hb & HP); [by left|].
  destruct IH as (l & Hl & Hsub & Hmem); [intros u Hu; apply Hcond; by right|].
  cbn. rewrite Hb. cbn. rewrite Hl. cbn. eexists. split; [done|].
  destruct b.
  - assert (P t) as HPt by by apply HP.
    split; [by constructor|]. intros u. rewrite !elem_of_cons, Hmem. naive_solver.
  - assert (¬ P t) as HPt by (by intros HPt%HP).
    split; [by constructor|]. intros u. rewrite elem_of_cons, Hmem. naive_solver.
Qed.

Lemma all_unconsumed_spec h os :
  (∀ o, o ∈ os → is_Some (output_objs h !! o)) →
  ∃ b, all_unconsumed h os = Ok b ∧
    if b then ∀ o y, o ∈ os → output_objs h !! o = Some y → TaskOutput.consumers y = ∅
    else ∃ o y u, o ∈ os ∧ output_objs h !! o = Some y ∧ u ∈ TaskOutput.consumers y.
Proof.
  induction os as [|o os IH]; intros Hos.
  { exists true. split; [done|]. intros o y Ho. by apply elem_of_nil in Ho. }
  destruct (Hos o) as [y Hy]; [by left|].
  destruct IH as (b & Hb & Hcases); [intros o' Ho'; apply Hos; by right|].
  cbn. unfold get_output. rewrite Hy. cbn. case_bool_decide as Hc.
  - exists b. split; [done|]. destruct b.
    + intros o' y' [->|Ho']%elem_of_cons Hy'; [congruence|by eapply Hcases].
    + destruct Hcases as (o' & y' & u & Ho' & Hy' & Hu). exists o', y', u.
      split; [by right|done].
  - exists false. split; [done|]. apply set_choose_L in Hc as [u Hu].
    exists o, y, u. split; [by left|done].
Qed.

Lemma Task_is_leaf_spec h t :
  heap_closed h → is_Some (task_objs h !! t) →
  ∃ b, Task_is_leaf h t = Ok b ∧
       if b then ∀ u, ¬ consumes h t u else ∃ u, consumes h t u.
Proof.
  intros Hclosed [x Hx].
  destruct (all_unconsumed_spec h (Task.outputs x)) as (b & Hb & Hcases).
  { intros o Ho. apply (closed_task_refs _ Hclosed _ _ o Hx), elem_of_app. by right. }
  exists b. unfold Task_is_leaf, get_task. rewrite Hx. cbn. split; [done|].
  destruct b.
  - intros u (x' & o & y & Hx' & Ho & Hy & Hu).
    assert (x' = x) as -> by congruence.
    rewrite (Hcases o y Ho Hy) in Hu. set_solver.
  - destruct Hcases as (o & y & u & Ho & Hy & Hu). exists u. by exists x, o, y.
Qed.

(** X18: the leaves of a graph.  [leaf_tasks] returns, in the order of
    the graph, the tasks of which no output has a consumer; a leaf is a
    predecessor of no task; and in a graph that [validate] accepts every
    task is a leaf or a predecessor of a leaf, so that a graph with a
    task has a leaf. *)
Theorem leaf_tasks_end_every_path h g G :
  heap_closed h → graph_objs h !! g = Some G →
  ∃ l, TaskGraph_leaf_tasks h g = Ok l ∧
    sublist l (TaskGraph.tasks G) ∧
    (∀ t, t ∈ l ↔ t ∈ TaskGraph.tasks G ∧ ∀ u, ¬ consumes h t u) ∧
    (∀ t u, t ∈ l → Task_is_predecessor_of h t u = Ok false) ∧
    (TaskGraph_validate h g = Ok tt →
     ∀ t, t ∈ TaskGraph.tasks G → ∃ m, m ∈ l ∧ (t = m ∨ predecessor h t m)).
Proof.
  intros Hclosed Hg.
  pose proof (λ t, closed_graph_tasks _ Hclosed _ _ t Hg) as Hsome.
  destruct (tasks_where_spec (Task_is_leaf h) (λ t, ∀ u, ¬ consumes h t u)
              (TaskGraph.tasks G)) as (l & Hl & Hsub & Hmem).
  { intros t Ht. destruct (Task_is_leaf_spec h t Hclosed (Hsome t Ht)) as (b & Hb & Hcases).
    exists b. split; [done|]. destruct b; [done|].
    split; [done|]. intros Hnone. destruct Hcases as [u Hu]. by destruct (Hnone u). }
  exists l. split; [unfold TaskGraph_leaf_tasks, get_graph; by rewrite Hg|].
  split_and!; [done..| |].
  - intros t u [Ht Hleaf]%Hmem.
    destruct (Task_is_predecessor_of_spec h t u Hclosed (Hsome t Ht)) as (b & Hb & Hiff).
    rewrite Hb. f_equal. destruct b; [|done]. exfalso.
    assert (predecessor h t u) as Hp by by apply Hiff.
    destruct Hp as [? ? Hc|? ? ? Hc _]; by eapply Hleaf.
  - intros Hvalid%(TaskGraph_validate_spec _ Hclosed _ _ Hg) t Ht.
    destruct (acyclic_walk_ends (consumes h) (λ t, ∀ u, ¬ consumes h t u)
                (list_to_set (TaskGraph.tasks G))) with (a := t)
      as (m & Hm & Hstop & Hreach).
    + intros a Ha%elem_of_list_to_set.
      destruct (Task_is_leaf_spec h a Hclosed (Hsome a Ha)) as ([] & _ & Hcases);
        [by left|right].
      destruct Hcases as [u Hu]. exists u. split; [|done].
      apply elem_of_list_to_set.
      apply list_elem_of_lookup in Ha as [i Hi].
      destruct (Hvalid i a Hi) as (x & Hx & _ & _ & _ & _ & _ & Hout & _).
      destruct Hu as (x' & o & y & Hx' & Ho & Hy & Hu).
      assert (x' = x) as -> by congruence.
      destruct (Hout o Ho) as (y' & Hy' & _ & _ & _ & _ & Hcons).
      assert (y' = y) as -> by congruence. by apply Hcons.
    + intros a [i Hi]%elem_of_list_to_set%list_elem_of_lookup.
      by destruct (Hvalid i a Hi) as (x & _ & _ & _ & _ & Hacyc & _).
    + by apply elem_of_list_to_set.
    + exists m. split; [|done]. apply Hmem. split; [|done].
      by apply elem_of_list_to_set in Hm.
Qed.

Lemma leaf_tasks_end_every_path_witness :
  let h := two_inputs_one_parent in
  ∃ l, TaskGraph_leaf_tasks h 0%nat = Ok l ∧
    sublist l [0%nat; 1%nat] ∧
    (∀ t, t ∈ l ↔ t ∈ [0%nat; 1%nat] ∧ ∀ u, ¬ consumes h t u) ∧
    (∀ t u, t ∈ l → Task_is_predecessor_of h t u = Ok false) ∧
    (TaskGraph_validate h 0%nat = Ok tt →
     ∀ t, t ∈ [0%nat; 1%nat] → ∃ m, m ∈ l ∧ (t = m ∨ predecessor h t m)).
Proof.
  intros h.
  apply (leaf_tasks_end_every_path h 0%nat (TaskGraph.mk [0%nat; 1%nat] [0%nat; 1%nat])).
  - apply heap_closedb_spec. vm_compute. reflexivity.
  - vm_compute. reflexivity.
Defined.

(** X19: the sources of a graph.  [source_tasks] returns, in the order
    of the graph, the tasks without inputs; and in a graph that was
    built with [new_task] and [add_input] and that [validate] accepts,
    every task is a source or has a source among its predecessors, so
    that a graph with a task has a source. *)
Theorem source_tasks_start_every_path h g G :
  heap_closed h → graph_objs h !! g = Some G →
  ∃ l, TaskGraph_source_tasks h g = Ok l ∧
    sublist l (TaskGraph.tasks G) ∧
    (∀ t, t ∈ l ↔ t ∈ TaskGraph.tasks G ∧
                  ∃ x, task_objs h !! t = Some x ∧ Task.inputs x = []) ∧
    (built h G → TaskGraph_validate h g = Ok tt →
     ∀ t, t ∈ TaskGraph.tasks G → ∃ m, m ∈ l ∧ (m = t ∨ predecessor h m t)).
Proof.
  intros Hclosed Hg.
  pose proof (λ t, closed_graph_tasks _ Hclosed _ _ t Hg) as Hsome.
  set (P := λ t, ∃ x, task_objs h !! t = Some x ∧ Task.inputs x = []).
  destruct (tasks_where_spec
              (λ t, x ← get_task h t; Ok (bool_decide (Task.inputs x = []))) P
              (TaskGraph.tasks G)) as (l & Hl & Hsub & Hmem).
  { intros t [x Hx]%Hsome. eexists. unfold get_task. rewrite Hx. cbn. split; [done|].
    rewrite bool_decide_eq_true. split; [intros Hin; by exists x|].
    intros (x' & Hx' & Hin). congruence. }
  exists l. split; [unfold TaskGraph_source_tasks, get_graph; by rewrite Hg|].
  split_and!; [done..|].
  intros (Hflat & _ & Hbuilt) Hvalid%(TaskGraph_validate_spec _ Hclosed _ _ Hg) t Ht.
  set (R := λ a p, p ∈ TaskGraph.tasks G ∧ consumes h p a).
  assert (∀ a b, tc R a b → tc (consumes h) b a) as Hrev.
  { induction 1 as [a b [_ Hab]|a b c [_ Hab] _ IH]; [by apply tc_once|].
    eapply tc_r; [done|done]. }
  destruct (acyclic_walk_ends R P (list_to_set (TaskGraph.tasks G))) with (a := t)
    as (m & Hm & Hstop & Hreach).
  - intros a Ha%elem_of_list_to_set. destruct (Hsome a Ha) as [x Hx].
    destruct (Task.inputs x) as [|o ins] eqn:Hins; [left; by exists x|right].
    destruct (Hbuilt a x Ha Hx) as [_ Hinputs].
    destruct (Hinputs o) as (Ho & y & Hy & Hcons); [rewrite Hins; by left|].
    rewrite Hflat in Ho. unfold flat_outputs in Ho.
    apply list_elem_of_In, in_concat in Ho as (os & Hos & Hoos).
    apply list_elem_of_In in Hos, Hoos.
    apply list_elem_of_fmap in Hos as (p & -> & Hp).
    destruct (task_objs h !! p) as [xp|] eqn:Hxp; [|by apply elem_of_nil in Hoos].
    exists p. split; [by apply elem_of_list_to_set|]. split; [done|].
    by exists xp, o, y.
  - intros a [i Hi]%elem_of_list_to_set%list_elem_of_lookup Hcycle.
    destruct (Hvalid i a Hi) as (x & _ & _ & _ & _ & Hacyc & _). by apply Hacyc, Hrev.
  - by apply elem_of_list_to_set.
  - exists m. split; [apply Hmem; split; [by apply elem_of_list_to_set in Hm|done]|].
    destruct Hreach as [->|Hreach]; [by left|right]. by apply Hrev.
Qed.

Lemma source_tasks_start_every_path_witness :
  let h := two_inputs_one_parent in
  ∃ l, TaskGraph_source_tasks h 0%nat = Ok l ∧
    sublist l [0%nat; 1%nat] ∧
    (∀ t, t ∈ l ↔ t ∈ [0%nat; 1%nat] ∧
                  ∃ x, task_objs h !! t = Some x ∧ Task.inputs x = []) ∧
    (built h (TaskGraph.mk [0%nat; 1%nat] [0%nat; 1%nat]) →
     TaskGraph_validate h 0%nat = Ok tt →
     ∀ t, t ∈ [0%nat; 1%nat] → ∃ m, m ∈ l ∧ (m = t ∨ predecessor h m t)).
Proof.
  intros h.
  apply (source_tasks_start_every_path h 0%nat
           (TaskGraph.mk [0%nat; 1%nat] [0%nat; 1%nat])).
  - apply heap_closedb_spec. vm_compute. reflexivity.
  - vm_compute. reflexivity.
Defined.

(** ** An output has one owner *)

(** The outputs of a new task: numbers make new objects, behind those
    of the heap, and objects are taken as they are. *)
Lemma output_args_run (outputs : list output_arg) : ∀ hs,
  (∀ o, OutObject o ∈ outputs → (o < length (output_objs hs))%nat) →
  ∃ r new,
    map_m (λ a, match a with
                | OutSize s => TaskOutput_init s (Some s)
                | OutObject o => ret o
                end) outputs hs =
      (r, mkHeap (task_objs hs) (output_objs hs ++ new) (graph_objs hs)) ∧
    (r = Raise AssertionError ∨
     ∃ outs, r = Ok outs ∧
       (∀ o, OutObject o ∈ outputs → o ∈ outs) ∧
       ∀ o, o ∈ outs → (o < length (output_objs hs ++ new))%nat).
Proof.
  induction outputs as [|a outputs IH]; intros hs Hobjs.
  { exists (Ok []), []. rewrite app_nil_r. split; [by destruct hs|]. right.
    exists []. split_and!; [done| |]; intros o Ho; by apply elem_of_nil in Ho. }
  cbn [map_m]. destruct a as [s|o].
  - destruct (decide (0 ≤ s)) as [Hs|Hs].
    + rewrite (bind_ok _ _ _ _ _ (TaskOutput_init_run hs s (Some s) Hs Hs)).
      destruct (IH (mkHeap (task_objs hs)
                      (output_objs hs ++ [TaskOutput.mk None None s ∅ (Some s)])
                      (graph_objs hs))) as (r & new & Hrun & Hr).
      { intros o Ho. cbn [output_objs]. rewrite length_app.
        assert (o < length (output_objs hs))%nat by (apply Hobjs; by right). lia. }
      cbn [task_objs output_objs graph_objs] in Hrun, Hr.
      rewrite <- app_assoc in Hrun.
      destruct Hr as [->|(outs & -> & Hin & Hlt)].
      * exists (Raise AssertionError), ([TaskOutput.mk None None s ∅ (Some s)] ++ new).
        split; [|by left]. by rewrite (bind_raise _ _ _ _ _ Hrun).
      * exists (Ok (length (output_objs hs) :: outs)),
          ([TaskOutput.mk None None s ∅ (Some s)] ++ new).
        split; [by rewrite (bind_ok _ _ _ _ _ Hrun)|right].
        exists (length (output_objs hs) :: outs). split_and!; [done| |].
        -- intros o [Ho|Ho]%elem_of_cons; [done|]. right. by apply Hin.
        -- intros o [->|Ho]%elem_of_cons.
           ++ rewrite !length_app. cbn. lia.
           ++ rewrite app_assoc. by apply Hlt.
    + exists (Raise AssertionError), []. rewrite app_nil_r. split; [|by left].
      apply bind_raise. unfold TaskOutput_init.
      rewrite bool_decide_false by done. by destruct hs.
  - rewrite (bind_ok _ _ _ o hs) by done.
    destruct (IH hs) as (r & new & Hrun & Hr); [intros o' Ho'; apply Hobjs; by right|].
    destruct Hr as [->|(outs & -> & Hin & Hlt)].
    + exists (Raise AssertionError), new. split; [|by left]. by apply bind_raise.
    + exists (Ok (o :: outs)), new. split; [by rewrite (bind_ok _ _ _ _ _ Hrun)|]. right.
      exists (o :: outs). split_and!; [done| |].
      * intros o' [Ho'|Ho']%elem_of_cons; [injection Ho' as ->; by left|right; by apply Hin].
      * intros o' [->|Ho']%elem_of_cons; [|by apply Hlt].
        rewrite length_app. assert (o < length (output_objs hs))%nat by (apply Hobjs; by left).
        lia.
Qed.

(** The loop that makes the new task the parent of its outputs stops
    at an output that has a parent. *)
Lemma owner_loop_stops (self : tref) (o : oref) (outs : list oref) : ∀ hs,
  (∀ r, r ∈ outs → (r < length (output_objs hs))%nat) →
  o ∈ outs →
  (∃ y, output_objs hs !! o = Some y ∧ TaskOutput.parent y ≠ None) →
  ∃ hs',
    for_each outs (λ output,
      x <- read (λ h, get_output h output) ;;
      assert (bool_decide (TaskOutput.parent x = None)) ;;;
      upd_output output (TaskOutput.set_parent (Some self))) hs =
      (Raise AssertionError, hs') ∧
    task_objs hs' = task_objs hs ∧ graph_objs hs' = graph_objs hs ∧
    output_objs hs' !! o = output_objs hs !! o.
Proof.
  induction outs as [|r outs IH]; intros hs Hlt Ho (y & Hy & Hparent).
  { by apply elem_of_nil in Ho. }
  destruct (lookup_lt_is_Some_2 (output_objs hs) r) as [x Hx]; [apply Hlt; by left|].
  cbn [for_each].
  destruct (TaskOutput.parent x) as [p|] eqn:Hp.
  - exists hs. split; [|done]. apply bind_raise.
    rewrite (bind_ok _ _ _ x hs) by (unfold read, get_output; by rewrite Hx).
    apply bind_raise. by rewrite Hp.
  - assert (r ≠ o) as Hne by (intros ->; congruence).
    destruct (IH (mkHeap (task_objs hs) (<[r := TaskOutput.set_parent (Some self) x]>
                                           (output_objs hs)) (graph_objs hs)))
      as (hs' & Hrun & HT & HG & Hsame).
    + intros r' Hr'. cbn. rewrite length_insert. apply Hlt. by right.
    + apply elem_of_cons in Ho as [->|Ho]; done.
    + exists y. cbn. by rewrite list_lookup_insert_ne.
    + exists hs'. cbn in HT, HG, Hsame. rewrite list_lookup_insert_ne in Hsame by done.
      split; [|done]. erewrite bind_ok; [exact Hrun|].
      rewrite (bind_ok _ _ _ x hs) by (unfold read, get_output; by rewrite Hx).
      rewrite Hp. cbn [bool_decide decide_rel]. rewrite bool_decide_true by done.
      rewrite (bind_ok _ _ _ tt hs) by done. by apply upd_output_run.
Qed.

(** X20: an output has one owner.  When one of the [outputs] given to
    [Task(...)] or to [new_task] is an object that has a parent already,
    the call raises [AssertionError]: the graphs, the tasks and that
    object are as they were before the call, and no task is added to
    the graph. *)
Theorem output_has_one_owner h g name outputs d e c o y :
  (∀ o', OutObject o' ∈ outputs → is_Some (output_objs h !! o')) →
  OutObject o ∈ outputs →
  output_objs h !! o = Some y → TaskOutput.parent y ≠ None →
  ∃ h',
    Task_init name outputs d c None e h = (Raise AssertionError, h') ∧
    TaskGraph_new_task g name outputs d e c None h = (Raise AssertionError, h') ∧
    graph_objs h' = graph_objs h ∧
    (∀ t x, task_objs h !! t = Some x → task_objs h' !! t = Some x) ∧
    output_objs h' !! o = Some y.
Proof.
  intros Hobjs Ho Hy Hparent.
  cut (∃ h', Task_init name outputs d c None e h = (Raise AssertionError, h') ∧
             graph_objs h' = graph_objs h ∧
             (∀ t x, task_objs h !! t = Some x → task_objs h' !! t = Some x) ∧
             output_objs h' !! o = Some y).
  { intros (h' & Hrun & Hrest). exists h'. split; [done|]. split; [|done].
    unfold TaskGraph_new_task. by apply bind_raise. }
  unfold Task_init.
  destruct (bool_decide (0 ≤ c)); [|by exists h].
  rewrite (bind_ok _ _ _ tt h) by done.
  destruct (bool_decide (0 ≤ d)); [|by exists h].
  rewrite (bind_ok _ _ _ tt h) by done.
  destruct (none_or_nonneg e); [|by exists h].
  rewrite (bind_ok _ _ _ tt h) by done.
  set (x0 := Task.mk [] [] d e name None c).
  rewrite (bind_ok _ _ _ (length (task_objs h))
             (mkHeap (task_objs h ++ [x0]) (output_objs h) (graph_objs h))) by done.
  destruct (output_args_run outputs
              (mkHeap (task_objs h ++ [x0]) (output_objs h) (graph_objs h)))
    as (r & new & Hrun & Hr).
  { intros o' Ho'. cbn. apply lookup_lt_is_Some. by apply Hobjs. }
  cbn [task_objs output_objs graph_objs] in Hrun.
  destruct Hr as [->|(outs & -> & Hin & Hlt)].
  { eexists. split; [apply bind_raise, Hrun|]. cbn. split_and!; [done| |].
    - intros t x Hx. by apply lookup_app_l_Some.
    - by apply lookup_app_l_Some. }
  rewrite (bind_ok _ _ _ _ _ Hrun).
  erewrite bind_ok; cycle 1.
  { apply (upd_task_run _ _ x0). cbn. by rewrite lookup_app_r, Nat.sub_diag. }
  cbn [task_objs output_objs graph_objs].
  edestruct (owner_loop_stops (length (task_objs h)) o outs) as (h' & Hloop & HT & HG & Hsame);
    cycle 3.
  - exists h'. split; [apply bind_raise, Hloop|].
    cbn in HT, HG, Hsame. rewrite HT, HG, Hsame. split_and!; [done| |].
    + intros t x Hx. rewrite list_lookup_insert_ne by (apply lookup_lt_Some in Hx; lia).
      by apply lookup_app_l_Some.
    + by apply lookup_app_l_Some.
  - done.
  - by apply Hin.
  - exists y. split; [|done]. cbn. by apply lookup_app_l_Some.
Qed.

Lemma output_has_one_owner_witness :
  let h := two_inputs_one_parent in
  ∃ h',
    Task_init (Some "c") [OutSize 3; OutObject 0%nat] 1 1 None None h =
      (Raise AssertionError, h') ∧
    TaskGraph_new_task 0%nat (Some "c") [OutSize 3; OutObject 0%nat] 1 None 1 None h =
      (Raise AssertionError, h') ∧
    graph_objs h' = graph_objs h ∧
    (∀ t x, task_objs h !! t = Some x → task_objs h' !! t = Some x) ∧
    output_objs h' !! 0%nat = output_objs h !! 0%nat.
Proof.
  intros h.
  destruct (output_objs h !! 0%nat) as [y|] eqn:Hy; [|by vm_compute in Hy].
  apply (output_has_one_owner h 0%nat (Some "c") [OutSize 3; OutObject 0%nat] 1 None 1
           0%nat y).
  - intros o' [Ho'|Ho']%elem_of_cons; [done|].
    apply list_elem_of_singleton in Ho'. injection Ho' as ->. by exists y.
  - apply elem_of_cons. right. apply elem_of_cons. left. reflexivity.
  - exact Hy.
  - vm_compute in Hy. injection Hy as <-. done.
Defined.

(** ** [TaskGraph.normalize] *)

(** Heap [h'] is heap [h] but for the order and the repetitions of the
    inputs of the tasks. *)
Definition inputs_rearranged (h h' : Heap) : Prop :=
  output_objs h' = output_objs h ∧ graph_objs h' = graph_objs h ∧
  length (task_objs h') = length (task_objs h) ∧
  ∀ r x, task_objs h !! r = Some x →
    ∃ l, task_objs h' !! r = Some (Task.set_inputs l x) ∧
         ∀ o, o ∈ l ↔ o ∈ Task.inputs x.

Section Rearranged.

Variables h h' : Heap.
Hypothesis Hre : inputs_rearranged h h'.

Lemma rearranged_back r x' :
  task_objs h' !! r = Some x' →
  ∃ x l, task_objs h !! r = Some x ∧ x' = Task.set_inputs l x ∧
         ∀ o, o ∈ l ↔ o ∈ Task.inputs x.
Proof.
  destruct Hre as (_ & _ & Hlen & Htasks). intros Hx'.
  destruct (lookup_lt_is_Some_2 (task_objs h) r) as [x Hx].
  { rewrite <- Hlen. by eapply lookup_lt_Some. }
  destruct (Htasks r x Hx) as (l & Hl & Helem). exists x, l.
  split; [done|]. split; [congruence|done].
Qed.

Lemma rearranged_consumes a b : consumes h' a b ↔ consumes h a b.
Proof.
  destruct Hre as (Hout & _ & _ & Htasks). unfold consumes. rewrite Hout. split.
  - intros (x' & o & y & Hx' & Ho & Hy & Hb).
    destruct (rearranged_back a x' Hx') as (x & l & Hx & -> & _). by exists x, o, y.
  - intros (x & o & y & Hx & Ho & Hy & Hb).
    destruct (Htasks a x Hx) as (l & Hl & _). by exists (Task.set_inputs l x), o, y.
Qed.

Lemma rearranged_predecessor a b : predecessor h' a b ↔ predecessor h a b.
Proof.
  split; induction 1 as [a b Hab|a b c Hab _ IH].
  - by apply tc_once, rearranged_consumes.
  - eapply tc_l; [by apply rearranged_consumes|done].
  - by apply tc_once, rearranged_consumes.
  - eapply tc_l; [by apply rearranged_consumes|done].
Qed.

Lemma rearranged_closed : heap_closed h → heap_closed h'.
Proof.
  intros Hclosed. pose proof Hre as (Hout & Hgraphs & Hlen & Htasks). split.
  - intros r x' o Hx' Ho. rewrite Hout.
    destruct (rearranged_back r x' Hx') as (x & l & Hx & -> & Helem).
    apply (closed_task_refs _ Hclosed r x o Hx).
    cbn in Ho. rewrite elem_of_app in Ho |- *. rewrite <- Helem. done.
  - intros r y p. rewrite Hout. intros Hy Hp.
    apply lookup_lt_is_Some. rewrite Hlen. apply lookup_lt_is_Some.
    by apply (closed_parent _ Hclosed r y p).
  - intros r y c. rewrite Hout. intros Hy Hc.
    apply lookup_lt_is_Some. rewrite Hlen. apply lookup_lt_is_Some.
    by apply (closed_consumers _ Hclosed r y c).
  - intros r G t. rewrite Hgraphs. intros HG Ht.
    apply lookup_lt_is_Some. rewrite Hlen. apply lookup_lt_is_Some.
    by apply (closed_graph_tasks _ Hclosed r G t).
  - intros r G o. rewrite Hgraphs, Hout. apply (closed_graph_outputs _ Hclosed).
Qed.

Lemma rearranged_flat_outputs G : flat_outputs h' G = flat_outputs h G.
Proof.
  pose proof Hre as (_ & _ & Hlen & Htasks). unfold flat_outputs. f_equal.
  apply list_fmap_ext. intros _ r _.
  destruct (task_objs h !! r) as [x|] eqn:Hx.
  - destruct (Htasks r x Hx) as (l & -> & _). done.
  - apply lookup_ge_None in Hx. rewrite <- Hlen in Hx. apply lookup_ge_None in Hx.
    by rewrite Hx.
Qed.

Lemma rearranged_valid G : valid h' G ↔ valid h G.
Proof.
  pose proof Hre as (Hout & _ & _ & Htasks).
  assert (∀ t o, valid_output h' G t o ↔ valid_output h G t o) as Hvo.
  { intros t o. unfold valid_output. by rewrite Hout. }
  assert (∀ o, valid_input h' G o ↔ valid_input h G o) as Hvi.
  { intros o. unfold valid_input. by rewrite Hout. }
  split; intros Hv i t Ht;
    destruct (Hv i t Ht) as (x & Hx & Hid & Hdur & Hexp & Hacyc & Hnd & Houts & Hins).
  - destruct (rearranged_back t x Hx) as (x0 & l & Hx0 & -> & Helem).
    exists x0. split_and!; try done.
    + by rewrite <- rearranged_predecessor.
    + intros o Ho. by apply Hvo, Houts.
    + intros o Ho. apply Hvi, Hins. cbn. by apply Helem.
  - destruct (Htasks t x Hx) as (l & Hl & Helem).
    exists (Task.set_inputs l x). split_and!; try done.
    + by rewrite rearranged_predecessor.
    + intros o Ho. by apply Hvo, Houts.
    + intros o Ho. apply Hvi, Hins. by apply Helem.
Qed.

Lemma rearranged_built G : built h G → built h' G.
Proof.
  pose proof Hre as (Hout & _ & _ & Htasks). intros (Hflat & Hids & Hbuilt). split_and!.
  - by rewrite rearranged_flat_outputs.
  - intros k o Hk. unfold id_of. rewrite Hout. by apply Hids.
  - intros r x' Hr Hx'.
    destruct (rearranged_back r x' Hx') as (x & l & Hx & -> & Helem).
    destruct (Hbuilt r x Hr Hx) as [Hcpus Hins]. split; [done|].
    intros o Ho%Helem. rewrite Hout. by apply Hins.
Qed.

End Rearranged.

Section GraphNormalize.

Variable list_of_set : list oref → list oref.
Hypothesis list_of_set_NoDup : ∀ l, NoDup (list_of_set l).
Hypothesis list_of_set_elem : ∀ l x, x ∈ list_of_set l ↔ x ∈ l.

(** The list that [normalize] makes of a list of objects with different
    ids. *)
Lemma normalized_list (h : Heap) (l : list oref) :
  (∀ o, o ∈ l → is_Some (id_of h o)) →
  (∀ o1 o2, o1 ∈ l → o2 ∈ l → id_of h o1 = id_of h o2 → o1 = o2) →
  let l1 := (sort_by_key ((λ o, (default 0%nat (id_of h o), o)) <$> list_of_set l)).*2 in
  NoDup l1 ∧ (∀ o, o ∈ l1 ↔ o ∈ l) ∧ StronglySorted (lt_id h) l1.
Proof.
  intros Hid Hinj l1. set (kf := λ o, default 0%nat (id_of h o)).
  assert (l1 ≡ₚ list_of_set l ∧ StronglySorted (λ a b, (kf a ≤ kf b)%nat) l1)
    as [Hperm Hsorted] by apply (sort_by_key_objects kf).
  assert (∀ o, o ∈ l1 ↔ o ∈ l) as Helem.
  { intros o. by rewrite Hperm, list_of_set_elem. }
  assert (NoDup l1) as Hnodup by (rewrite Hperm; apply list_of_set_NoDup).
  split; [done|]. split; [done|].
  assert (∀ o, o ∈ l1 → o ∈ l) as Hsub by (by intros o; apply Helem).
  clear Hperm Helem. revert Hnodup Hsub.
  induction Hsorted as [|a l' Hl IH Ha]; intros Hnodup Hsub; [constructor|].
  apply NoDup_cons in Hnodup as [Hnotin Hnodup].
  constructor.
  - apply IH; [done|]. intros o Ho. apply Hsub. by right.
  - rewrite Forall_forall in Ha |- *. intros b Hb.
    assert (a ∈ l) as Hain by (apply Hsub; left).
    assert (b ∈ l) as Hbin by (apply Hsub; by right).
    specialize (Ha b Hb). unfold lt_id.
    destruct (Hid a Hain) as [i Hi], (Hid b Hbin) as [j Hj].
    rewrite Hi, Hj. unfold kf in Ha. rewrite Hi, Hj in Ha. simpl in Ha.
    destruct (decide (i = j)) as [->|]; [|lia].
    exfalso. apply Hnotin. replace a with b; [done|].
    apply Hinj; congruence.
Qed.

Variables (h : Heap) (g : gref) (G : TaskGraph.t).
Hypothesis Hclosed : heap_closed h.
Hypothesis Hg : graph_objs h !! g = Some G.
Hypothesis Hbuilt : built h G.

(** What the loop of [normalize] has done when it has been at the tasks
    of [D]. *)
Definition normalized_at (D : gset tref) (hs : Heap) : Prop :=
  output_objs hs = output_objs h ∧ graph_objs hs = graph_objs h ∧
  length (task_objs hs) = length (task_objs h) ∧
  ∀ r x, task_objs h !! r = Some x →
    ∃ l, task_objs hs !! r = Some (Task.set_inputs l x) ∧
         (∀ o, o ∈ l ↔ o ∈ Task.inputs x) ∧
         (r ∈ D → NoDup l ∧ StronglySorted (lt_id h) l) ∧
         (r ∉ D → l = Task.inputs x).

Lemma normalize_loop (ts : list tref) : ∀ D hs,
  normalized_at D hs → (∀ r, r ∈ ts → r ∈ TaskGraph.tasks G) →
  ∃ hs', for_each ts (Task_normalize list_of_set) hs = (Ok tt, hs') ∧
         normalized_at (D ∪ list_to_set ts) hs'.
Proof.
  induction ts as [|r ts IH]; intros D hs Hinv Hts.
  { exists hs. split; [done|]. by rewrite list_to_set_nil, (right_id_L ∅ (∪)). }
  destruct Hinv as (Hout & Hgraphs & Hlen & Htasks).
  destruct Hbuilt as (_ & Hids & Hins).
  assert (r ∈ TaskGraph.tasks G) as Hr by (apply Hts; by left).
  destruct (closed_graph_tasks _ Hclosed _ _ _ Hg Hr) as [x Hx].
  destruct (Htasks r x Hx) as (l & Hl & Helem & _).
  assert (∀ o, o ∈ l → ∃ k, TaskGraph.outputs G !! k = Some o ∧ id_of hs o = Some k) as Hk.
  { intros o Ho%Helem. destruct (Hins r x Hr Hx) as [_ Hin].
    destruct (Hin o Ho) as [[k Hk]%list_elem_of_lookup _]. exists k. split; [done|].
    unfold id_of. rewrite Hout. by apply Hids. }
  destruct (normalized_list hs l) as (Hnodup & Hnelem & Hsorted).
  { intros o (k & _ & Hid)%Hk. by exists k. }
  { intros o1 o2 (k1 & Hk1 & Hid1)%Hk (k2 & Hk2 & Hid2)%Hk Heq. congruence. }
  set (l1 := (sort_by_key ((λ o, (default 0%nat (id_of hs o), o)) <$> list_of_set l)).*2)
    in *.
  destruct (IH (D ∪ {[r]})
              (mkHeap (<[r := Task.set_inputs l1 x]> (task_objs hs))
                 (output_objs hs) (graph_objs hs))) as (hs' & Hrun & Hinv').
  - split_and!; [done|done|by cbn; rewrite length_insert|]. intros r' x' Hx'.
    destruct (decide (r' = r)) as [->|Hne].
    + assert (x' = x) as -> by congruence. exists l1. split_and!.
      * cbn. apply list_lookup_insert_eq. rewrite Hlen. by eapply lookup_lt_Some.
      * intros o. by rewrite Hnelem.
      * intros _. split; [done|]. unfold lt_id, id_of in *. by rewrite <- Hout.
      * intros Hnot. exfalso. apply Hnot. set_solver.
    + destruct (Htasks r' x' Hx') as (l' & Hl' & Helem' & Hdone & Hnot).
      exists l'. split_and!; [|done| |].
      * cbn. by rewrite list_lookup_insert_ne.
      * intros [HD|Hr']%elem_of_union; [by apply Hdone|set_solver].
      * intros Hnot'. apply Hnot. set_solver.
  - intros r' Hr'. apply Hts. by right.
  - exists hs'. split.
    + cbn [for_each]. erewrite bind_ok; [exact Hrun|].
      rewrite (Task_normalize_run list_of_set list_of_set_elem hs r _ Hl).
      * by destruct x.
      * intros o (k & _ & Hid)%Hk. by exists k.
    + assert (D ∪ {[r]} ∪ list_to_set ts = D ∪ list_to_set (r :: ts)) as <-; [|done].
      rewrite list_to_set_cons. set_solver.
Qed.

(** X21: [TaskGraph.normalize] on a graph that was built with [new_task]
    and [add_input].  The call returns; it changes nothing but the lists
    of inputs of the tasks of the graph, each of which then holds the
    objects that it held before, once each and in ascending order of
    their ids; the graph is still as the builder keeps it, and
    [validate] gives what it gave before. *)
Theorem graph_normalize_sorts_inputs :
  ∃ h',
    TaskGraph_normalize list_of_set g h = (Ok tt, h') ∧
    output_objs h' = output_objs h ∧ graph_objs h' = graph_objs h ∧
    length (task_objs h') = length (task_objs h) ∧
    (∀ r x, task_objs h !! r = Some x →
       ∃ l, task_objs h' !! r = Some (Task.set_inputs l x) ∧
            (∀ o, o ∈ l ↔ o ∈ Task.inputs x) ∧
            (r ∈ TaskGraph.tasks G → NoDup l ∧ StronglySorted (lt_id h) l) ∧
            (r ∉ TaskGraph.tasks G → l = Task.inputs x)) ∧
    built h' G ∧
    TaskGraph_validate h' g = TaskGraph_validate h g.
Proof.
  destruct (normalize_loop (TaskGraph.tasks G) ∅ h) as (h' & Hrun & Hinv); [|done|].
  { split_and!; [done..|]. intros r x Hx. exists (Task.inputs x).
    split_and!; [by destruct x|done|set_solver|done]. }
  rewrite (left_id_L ∅ (∪)) in Hinv.
  destruct Hinv as (Hout & Hgraphs & Hlen & Htasks).
  assert (inputs_rearranged h h') as Hre.
  { split_and!; [done..|]. intros r x Hx.
    destruct (Htasks r x Hx) as (l & Hl & Helem & _). by exists l. }
  exists h'. split_and!; [|done..| | |].
  - unfold TaskGraph_normalize.
    by rewrite (bind_ok _ _ _ G h) by (unfold read, get_graph; by rewrite Hg).
  - intros r x Hx. destruct (Htasks r x Hx) as (l & Hl & Helem & Hdone & Hnot).
    exists l. split_and!; [done..| |].
    + intros Hr. apply Hdone. by apply elem_of_list_to_set.
    + intros Hr. apply Hnot. by rewrite elem_of_list_to_set.
  - by apply (rearranged_built h h').
  - pose proof (rearranged_closed h h' Hre Hclosed) as Hclosed'.
    assert (graph_objs h' !! g = Some G) as Hg' by (by rewrite Hgraphs).
    destruct (TaskGraph_validate_spec _ Hclosed _ _ Hg) as [Hiff Hass].
    destruct (TaskGraph_validate_spec _ Hclosed' _ _ Hg') as [Hiff' Hass'].
    pose proof (rearranged_valid h h' Hre G) as Hext.
    destruct Hass as [Hok|Hraise], Hass' as [Hok'|Hraise']; try congruence.
    + apply Hiff, Hext, Hiff' in Hok. congruence.
    + apply Hiff', Hext, Hiff in Hok'. congruence.
Qed.

End GraphNormalize.

Lemma builtb_spec h G : builtb h G = true → built h G.
Proof.
  unfold builtb. intros [[Hflat%bool_decide_eq_true Hids]%andb_prop Htasks]%andb_prop.
  rewrite forallb_forall in Hids. rewrite forallb_forall in Htasks. split_and!.
  - done.
  - intros k o Hk. specialize (Hids k). rewrite Hk in Hids. cbn in Hids.
    eapply bool_decide_eq_true_1, Hids, in_seq. apply lookup_lt_Some in Hk. lia.
  - intros r x Hr%list_elem_of_In Hx. specialize (Htasks r Hr). rewrite Hx in Htasks.
    apply andb_prop in Htasks as [Hc%bool_decide_eq_true Hin]. split; [done|].
    rewrite forallb_forall in Hin. intros o Ho%list_elem_of_In. specialize (Hin o Ho).
    apply andb_prop in Hin as [Hout%bool_decide_eq_true Hy]. split; [done|].
    destruct (output_objs h !! o) as [y|]; [|done].
    apply bool_decide_eq_true in Hy. by exists y.
Qed.

Lemma graph_normalize_sorts_inputs_witness :
  let h := state_after (Task_add_inputs 1%nat [InObject 1%nat; InObject 0%nat])
             two_inputs_one_parent in
  let G := TaskGraph.mk [0%nat; 1%nat] [0%nat; 1%nat] in
  ∃ h',
    TaskGraph_normalize remove_dups 0%nat h = (Ok tt, h') ∧
    output_objs h' = output_objs h ∧ graph_objs h' = graph_objs h ∧
    length (task_objs h') = length (task_objs h) ∧
    (∀ r x, task_objs h !! r = Some x →
       ∃ l, task_objs h' !! r = Some (Task.set_inputs l x) ∧
            (∀ o, o ∈ l ↔ o ∈ Task.inputs x) ∧
            (r ∈ TaskGraph.tasks G → NoDup l ∧ StronglySorted (lt_id h) l) ∧
            (r ∉ TaskGraph.tasks G → l = Task.inputs x)) ∧
    built h' G ∧
    TaskGraph_validate h' 0%nat = TaskGraph_validate h 0%nat.
Proof.
  intros h G.
  apply (graph_normalize_sorts_inputs remove_dups NoDup_remove_dups
           (λ l x, elem_of_remove_dups l x) h 0%nat G).
  - apply heap_closedb_spec. vm_compute. reflexivity.
  - vm_compute. reflexivity.
  - apply builtb_spec. vm_compute. reflexivity.
Defined.

(** ** The information modes *)

(** [f] at the positions listed in [D]. *)
Definition on_members {A} (D : list nat) (f : A → A) (l : list A) : list A :=
  imap (λ i x, if decide (i ∈ D) then f x else x) l.

Lemma on_members_lookup {A} (D : list nat) (f : A → A) (l : list A) i :
  on_members D f l !! i = (λ x, if decide (i ∈ D) then f x else x) <$> l !! i.
Proof. unfold on_members. by rewrite list_lookup_imap. Qed.

Lemma on_members_length {A} (D : list nat) (f : A → A) (l : list A) :
  length (on_members D f l) = length l.
Proof. apply length_imap. Qed.

Lemma on_members_twice {A} (D : list nat) (f1 f2 f3 : A → A) (l : list A) :
  (∀ x, f1 (f2 x) = f3 x) →
  on_members D f1 (on_members D f2 l) = on_members D f3 l.
Proof.
  intros Hf. apply list_eq. intros i. rewrite !on_members_lookup.
  destruct (l !! i) as [x|]; [|done]. cbn. destruct (decide (i ∈ D)); by rewrite ?Hf.
Qed.

Lemma on_members_step {A} (t : nat) (D : list nat) (f : A → A) (l : list A) x :
  (∀ x, f (f x) = f x) → l !! t = Some x →
  on_members D f (<[t := f x]> l) = on_members (t :: D) f l.
Proof.
  intros Hf Hx. apply list_eq. intros i. rewrite !on_members_lookup.
  destruct (decide (i = t)) as [->|Hne].
  - rewrite list_lookup_insert_eq by (by eapply lookup_lt_Some). rewrite Hx. cbn.
    rewrite (decide_True (P := t ∈ t :: D)) by left.
    destruct (decide (t ∈ D)); by rewrite ?Hf.
  - rewrite list_lookup_insert_ne by done. destruct (l !! i) as [y|]; [|done]. cbn.
    destruct (decide (i ∈ D)) as [Hi|Hi].
    + by rewrite decide_True by (by right).
    + rewrite decide_False; [done|]. by intros [?|?]%elem_of_cons.
Qed.

Lemma upd_tasks_run (f : Task.t → Task.t) (ts : list tref) :
  (∀ x, f (f x) = f x) → ∀ T O Gs,
  (∀ t, t ∈ ts → (t < length T)%nat) →
  for_each ts (λ t, upd_task t f) (mkHeap T O Gs) =
    (Ok tt, mkHeap (on_members ts f T) O Gs).
Proof.
  intros Hf. induction ts as [|t ts IH]; intros T O Gs Hts.
  { cbn. do 2 f_equal. apply list_eq. intros i. rewrite on_members_lookup.
    destruct (T !! i); [|done]. cbn. rewrite decide_False; [done|]. apply not_elem_of_nil. }
  destruct (lookup_lt_is_Some_2 T t) as [x Hx]; [apply Hts; by left|].
  cbn [for_each]. erewrite bind_ok by (by apply (upd_task_run _ _ x)).
  cbn [task_objs output_objs graph_objs]. rewrite IH.
  - by rewrite (on_members_step t ts f T x).
  - intros t' Ht'. rewrite length_insert. apply Hts. by right.
Qed.

Lemma upd_outputs_run (f : TaskOutput.t → TaskOutput.t) (os : list oref) :
  (∀ x, f (f x) = f x) → ∀ T O Gs,
  (∀ o, o ∈ os → (o < length O)%nat) →
  for_each os (λ o, upd_output o f) (mkHeap T O Gs) =
    (Ok tt, mkHeap T (on_members os f O) Gs).
Proof.
  intros Hf. induction os as [|o os IH]; intros T O Gs Hos.
  { cbn. do 2 f_equal. apply list_eq. intros i. rewrite on_members_lookup.
    destruct (O !! i); [|done]. cbn. rewrite decide_False; [done|]. apply not_elem_of_nil. }
  destruct (lookup_lt_is_Some_2 O o) as [x Hx]; [apply Hos; by left|].
  cbn [for_each]. erewrite bind_ok by (by apply (upd_output_run _ _ x)).
  cbn [task_objs output_objs graph_objs]. rewrite IH.
  - by rewrite (on_members_step o os f O x).
  - intros o' Ho'. rewrite length_insert. apply Hos. by right.
Qed.

(** Heap [h'] is heap [h] but for expectations, and an expectation that
    is new is not negative where the real value is not. *)
Definition expectations_changed (h h' : Heap) : Prop :=
  (∀ r x, task_objs h !! r = Some x →
     ∃ e, task_objs h' !! r = Some (Task.set_expected_duration e x) ∧
          (nonneg_or_none (Task.expected_duration x) → 0 ≤ Task.duration x →
           nonneg_or_none e)) ∧
  (∀ o y, output_objs h !! o = Some y →
     ∃ e, output_objs h' !! o = Some (TaskOutput.set_expected_size e y) ∧
          (nonneg_or_none (TaskOutput.expected_size y) → 0 ≤ TaskOutput.size y →
           nonneg_or_none e)) ∧
  length (task_objs h') = length (task_objs h) ∧
  length (output_objs h') = length (output_objs h).

Lemma expectations_valid h h' G :
  expectations_changed h h' → valid h G → valid h' G.
Proof.
  intros (Htasks & Houts & Hlt & Hlo) Hvalid.
  assert (∀ a b, consumes h' a b → consumes h a b) as Hcons.
  { intros a b (x' & o & y' & Hx' & Ho & Hy' & Hb).
    destruct (lookup_lt_is_Some_2 (task_objs h) a) as [x Hx].
    { rewrite <- Hlt. by eapply lookup_lt_Some. }
    destruct (lookup_lt_is_Some_2 (output_objs h) o) as [y Hy].
    { rewrite <- Hlo. by eapply lookup_lt_Some. }
    destruct (Htasks a x Hx) as (e & He & _), (Houts o y Hy) as (e' & He' & _).
    exists x, o, y. split_and!; [done| |done|].
    - rewrite He in Hx'. by injection Hx' as <-.
    - rewrite He' in Hy'. by injection Hy' as <-. }
  assert (∀ a b, predecessor h' a b → predecessor h a b) as Hpred.
  { induction 1 as [a b Hab|a b c Hab _ IH]; [by apply tc_once, Hcons|].
    eapply tc_l; [by apply Hcons|done]. }
  intros i t Ht.
  destruct (Hvalid i t Ht) as (x & Hx & Hid & Hdur & Hexp & Hacyc & Hnd & Hout & Hin).
  destruct (Htasks t x Hx) as (e & He & Hnonneg).
  exists (Task.set_expected_duration e x). split_and!; try done.
  - by apply Hnonneg.
  - intros Hp. by apply Hacyc, Hpred.
  - intros o Ho. destruct (Hout o Ho) as (y & Hy & Hparent & Hsize & Hes & Hog & Hcs).
    destruct (Houts o y Hy) as (e' & He' & Hnonneg').
    exists (TaskOutput.set_expected_size e' y). split_and!; try done. by apply Hnonneg'.
  - intros o Ho. destruct (Hin o Ho) as (Hog & y & p & Hy & Hparent & Hp).
    destruct (Houts o y Hy) as (e' & He' & _).
    split; [done|]. by exists (TaskOutput.set_expected_size e' y), p.
Qed.

Lemma expectations_closed h h' :
  graph_objs h' = graph_objs h → expectations_changed h h' →
  heap_closed h → heap_closed h'.
Proof.
  intros Hgraphs (Htasks & Houts & Hlt & Hlo) Hclosed.
  assert (∀ r x', task_objs h' !! r = Some x' →
            ∃ x e, task_objs h !! r = Some x ∧ x' = Task.set_expected_duration e x) as Hbt.
  { intros r x' Hx'. destruct (lookup_lt_is_Some_2 (task_objs h) r) as [x Hx].
    { rewrite <- Hlt. by eapply lookup_lt_Some. }
    destruct (Htasks r x Hx) as (e & He & _). exists x, e. split; [done|congruence]. }
  assert (∀ r y', output_objs h' !! r = Some y' →
            ∃ y e, output_objs h !! r = Some y ∧ y' = TaskOutput.set_expected_size e y) as Hbo.
  { intros r y' Hy'. destruct (lookup_lt_is_Some_2 (output_objs h) r) as [y Hy].
    { rewrite <- Hlo. by eapply lookup_lt_Some. }
    destruct (Houts r y Hy) as (e & He & _). exists y, e. split; [done|congruence]. }
  split.
  - intros r x' o (x & e & Hx & ->)%Hbt Ho.
    apply lookup_lt_is_Some. rewrite Hlo. apply lookup_lt_is_Some.
    by apply (closed_task_refs _ Hclosed r x o).
  - intros r y' p (y & e & Hy & ->)%Hbo Hp.
    apply lookup_lt_is_Some. rewrite Hlt. apply lookup_lt_is_Some.
    by apply (closed_parent _ Hclosed r y p).
  - intros r y' c (y & e & Hy & ->)%Hbo Hc.
    apply lookup_lt_is_Some. rewrite Hlt. apply lookup_lt_is_Some.
    by apply (closed_consumers _ Hclosed r y c).
  - intros r G t. rewrite Hgraphs. intros HG Ht.
    apply lookup_lt_is_Some. rewrite Hlt. apply lookup_lt_is_Some.
    by apply (closed_graph_tasks _ Hclosed r G t).
  - intros r G o. rewrite Hgraphs. intros HG Ho.
    apply lookup_lt_is_Some. rewrite Hlo. apply lookup_lt_is_Some.
    by apply (closed_graph_outputs _ Hclosed r G o).
Qed.

Section ImodeProps.

Import Imode.

(** The heap after [process_imode_exact] and after
    [process_imode_blind] on graph [G]. *)
Definition exact_heap (h : Heap) (G : TaskGraph.t) : Heap :=
  mkHeap
    (on_members (TaskGraph.tasks G)
       (λ x, Task.set_expected_duration (Some (Task.duration x)) x) (task_objs h))
    (on_members (TaskGraph.outputs G)
       (λ y, TaskOutput.set_expected_size (Some (TaskOutput.size y)) y) (output_objs h))
    (graph_objs h).

Definition blind_heap (h : Heap) (G : TaskGraph.t) : Heap :=
  mkHeap
    (on_members (TaskGraph.tasks G) (Task.set_expected_duration None) (task_objs h))
    (on_members (TaskGraph.outputs G) (TaskOutput.set_expected_size None) (output_objs h))
    (graph_objs h).

Lemma process_imode_exact_run h g G :
  graph_objs h !! g = Some G →
  (∀ t, t ∈ TaskGraph.tasks G → (t < length (task_objs h))%nat) →
  (∀ o, o ∈ TaskGraph.outputs G → (o < length (output_objs h))%nat) →
  process_imode_exact g h = (Ok tt, exact_heap h G).
Proof.
  intros Hg Hts Hos. unfold process_imode_exact.
  rewrite (bind_ok _ _ _ G h) by (unfold read, get_graph; by rewrite Hg).
  destruct h as [T O Gs]. cbn in *.
  erewrite bind_ok by (by apply upd_tasks_run).
  by apply upd_outputs_run.
Qed.

Lemma process_imode_blind_run h g G :
  graph_objs h !! g = Some G →
  (∀ t, t ∈ TaskGraph.tasks G → (t < length (task_objs h))%nat) →
  (∀ o, o ∈ TaskGraph.outputs G → (o < length (output_objs h))%nat) →
  process_imode_blind g h = (Ok tt, blind_heap h G).
Proof.
  intros Hg Hts Hos. unfold process_imode_blind, set_consts.
  rewrite (bind_ok _ _ _ G h) by (unfold read, get_graph; by rewrite Hg).
  destruct h as [T O Gs]. cbn in *.
  erewrite bind_ok by (by apply upd_tasks_run).
  by apply upd_outputs_run.
Qed.

(** X22: the information modes.  On a graph of the heap,
    [process_imode_exact] and [process_imode_blind] return; they change
    the expected duration of the tasks of the graph and the expected
    size of its outputs and nothing else; a graph that [validate]
    accepts is accepted after each of them; and the mode that is
    applied last decides: [exact] after [exact] or after [blind] gives
    what [exact] gives, [blind] after [exact] what [blind] gives. *)
Theorem imode_last_mode_decides h g G :
  heap_closed h → graph_objs h !! g = Some G →
  process_imode_exact g h = (Ok tt, exact_heap h G) ∧
  process_imode_blind g h = (Ok tt, blind_heap h G) ∧
  process_imode_exact g (exact_heap h G) = (Ok tt, exact_heap h G) ∧
  process_imode_exact g (blind_heap h G) = (Ok tt, exact_heap h G) ∧
  process_imode_blind g (exact_heap h G) = (Ok tt, blind_heap h G) ∧
  (TaskGraph_validate h g = Ok tt →
   TaskGraph_validate (exact_heap h G) g = Ok tt ∧
   TaskGraph_validate (blind_heap h G) g = Ok tt).
Proof.
  intros Hclosed Hg.
  assert (∀ t, t ∈ TaskGraph.tasks G → (t < length (task_objs h))%nat) as Hts.
  { intros t Ht. apply lookup_lt_is_Some. by apply (closed_graph_tasks _ Hclosed _ _ _ Hg). }
  assert (∀ o, o ∈ TaskGraph.outputs G → (o < length (output_objs h))%nat) as Hos.
  { intros o Ho. apply lookup_lt_is_Some.
    by apply (closed_graph_outputs _ Hclosed _ _ _ Hg). }
  assert (expectations_changed h (exact_heap h G)) as Hexact.
  { split_and!; cbn; [| |apply on_members_length..].
    - intros r x Hx. rewrite on_members_lookup, Hx. cbn.
      destruct (decide (r ∈ TaskGraph.tasks G)); [by eexists|].
      exists (Task.expected_duration x). split; [by destruct x|done].
    - intros o y Hy. rewrite on_members_lookup, Hy. cbn.
      destruct (decide (o ∈ TaskGraph.outputs G)); [by eexists|].
      exists (TaskOutput.expected_size y). split; [by destruct y|done]. }
  assert (expectations_changed h (blind_heap h G)) as Hblind.
  { split_and!; cbn; [| |apply on_members_length..].
    - intros r x Hx. rewrite on_members_lookup, Hx. cbn.
      destruct (decide (r ∈ TaskGraph.tasks G)); [by eexists|].
      exists (Task.expected_duration x). split; [by destruct x|done].
    - intros o y Hy. rewrite on_members_lookup, Hy. cbn.
      destruct (decide (o ∈ TaskGraph.outputs G)); [by eexists|].
      exists (TaskOutput.expected_size y). split; [by destruct y|done]. }
  split_and!.
  - by apply process_imode_exact_run.
  - by apply process_imode_blind_run.
  - rewrite (process_imode_exact_run (exact_heap h G) g G Hg);
      [|intros r Hr; cbn; rewrite on_members_length; auto..].
    unfold exact_heap. cbn [task_objs output_objs graph_objs].
    do 2 f_equal; by apply on_members_twice.
  - rewrite (process_imode_exact_run (blind_heap h G) g G Hg);
      [|intros r Hr; cbn; rewrite on_members_length; auto..].
    unfold exact_heap, blind_heap. cbn [task_objs output_objs graph_objs].
    do 2 f_equal; by apply on_members_twice.
  - rewrite (process_imode_blind_run (exact_heap h G) g G Hg);
      [|intros r Hr; cbn; rewrite on_members_length; auto..].
    unfold exact_heap, blind_heap. cbn [task_objs output_objs graph_objs].
    do 2 f_equal; by apply on_members_twice.
  - intros Hvalid%(TaskGraph_validate_spec _ Hclosed _ _ Hg). split.
    + apply (TaskGraph_validate_spec (exact_heap h G)
               (expectations_closed h (exact_heap h G) eq_refl Hexact Hclosed) g G Hg).
      by apply (expectations_valid h).
    + apply (TaskGraph_validate_spec (blind_heap h G)
               (expectations_closed h (blind_heap h G) eq_refl Hblind Hclosed) g G Hg).
      by apply (expectations_valid h).
Qed.

Lemma imode_last_mode_decides_witness :
  let h := two_inputs_one_parent in
  let G := TaskGraph.mk [0%nat; 1%nat] [0%nat; 1%nat] in
  process_imode_exact 0%nat h = (Ok tt, exact_heap h G) ∧
  process_imode_blind 0%nat h = (Ok tt, blind_heap h G) ∧
  process_imode_exact 0%nat (exact_heap h G) = (Ok tt, exact_heap h G) ∧
  process_imode_exact 0%nat (blind_heap h G) = (Ok tt, exact_heap h G) ∧
  process_imode_blind 0%nat (exact_heap h G) = (Ok tt, blind_heap h G) ∧
  (TaskGraph_validate h 0%nat = Ok tt →
   TaskGraph_validate (exact_heap h G) 0%nat = Ok tt ∧
   TaskGraph_validate (blind_heap h G) 0%nat = Ok tt).
Proof.
  intros h G. apply (imode_last_mode_decides h 0%nat G).
  - apply heap_closedb_spec. vm_compute. reflexivity.
  - vm_compute. reflexivity.
Defined.

End ImodeProps.

(** ** The scheduler mirror *)

Import Mirror MirrorProps.

(** C3 (the code against the claim): task [A2] is assigned to worker 1
    and then to worker 2 within one update.  The reply holds one record
    for [A2], the last one, and [scheduled_worker] of [A2] is worker 2;
    but [assign] only adds to the sets [scheduled], so those of the
    inputs and of the output of [A2] hold worker 1 and worker 2, where
    the claim, and [test_simulator_local_reassign], want worker 2
    alone. *)
Theorem reassign_keeps_first_worker_scheduled :
  let w1 := mkWorker 1 1 in
  let w2 := mkWorker 2 1 in
  let r := send_message local_reassign_policy local_reassign_message
             (SchedulerBase_init true) in
  r.1 = Ok [mkAssignment (Some 2%nat) 2 None None] ∧
  SchedulerTask.scheduled_worker <$> task_of r.2 2 = Some (Some w2) ∧
  SchedulerTask.inputs <$> task_of r.2 2 = Some [1%nat; 0%nat] ∧
  SchedulerTask.outputs <$> task_of r.2 2 = Some [2%nat] ∧
  scheduled_of r.2 0 = Some {[Some w1; Some w2]} ∧
  scheduled_of r.2 1 = Some {[Some w1; Some w2]} ∧
  scheduled_of r.2 2 = Some {[Some w1; Some w2]} ∧
  scheduled_of r.2 0 ≠ Some {[Some w2]}.
Proof. vm_compute. repeat split; try done. Qed.

(** *** A second run of an update follows the first *)

Section Moved.

Variables (dt dx : nat) (old_tasks old_objects : gmap nat nat).

#[local] Abbreviation R := (moved dt dx old_tasks old_objects).

Implicit Types (s : Scheduler) (wa : bool).

Lemma moved_set_data_objs wa s s' l l' :
  R wa s s' →
  (∃ older, length older = dx ∧ l' = older ++ (move_object dt <$> l)) →
  R wa (set_data_objs l s) (set_data_objs l' s').
Proof. intros [] Hl. by constructor. Qed.

Lemma moved_set_task_objs wa s s' l l' :
  R wa s s' →
  (∃ older, length older = dt ∧ l' = older ++ (move_task dx <$> l)) →
  R wa (set_task_objs l s) (set_task_objs l' s').
Proof. intros [] Hl. by constructor. Qed.

Lemma moved_set_objects wa s s' k r :
  R wa s s' →
  R wa (set_objects (<[k := r]> (objects s)) s)
       (set_objects (<[k := (dx + r)%nat]> (objects s')) s').
Proof.
  intros []. constructor; try done. simpl.
  by rewrite moved_objects0, fmap_insert, insert_union_l.
Qed.

Lemma moved_set_tasks wa s s' k r :
  R wa s s' →
  R wa (set_tasks (<[k := r]> (tasks s)) s)
       (set_tasks (<[k := (dt + r)%nat]> (tasks s')) s').
Proof.
  intros []. constructor; try done. simpl.
  by rewrite moved_tasks0, fmap_insert, insert_union_l.
Qed.

Lemma moved_item_objects wa s s' k r :
  R wa s s' → item (objects s) k = Ok r → item (objects s') k = Ok (dx + r)%nat.
Proof.
  intros [] Hk. unfold item in *. destruct (objects s !! k) as [r0|] eqn:Hr; [|done].
  injection Hk as ->. rewrite moved_objects0.
  erewrite lookup_union_Some_l; [done|]. by rewrite lookup_fmap, Hr.
Qed.

Lemma moved_item_tasks wa s s' k r :
  R wa s s' → item (tasks s) k = Ok r → item (tasks s') k = Ok (dt + r)%nat.
Proof.
  intros [] Hk. unfold item in *. destruct (tasks s !! k) as [r0|] eqn:Hr; [|done].
  injection Hk as ->. rewrite moved_tasks0.
  erewrite lookup_union_Some_l; [done|]. by rewrite lookup_fmap, Hr.
Qed.

Lemma moved_lookup_object wa s s' r :
  R wa s s' → data_objs s' !! (dx + r)%nat = move_object dt <$> data_objs s !! r.
Proof.
  intros []. destruct moved_data_objs0 as (older & Hlen & ->).
  rewrite lookup_app_r by lia. rewrite list_lookup_fmap. f_equal. f_equal. lia.
Qed.

Lemma moved_lookup_task wa s s' r :
  R wa s s' → task_objs s' !! (dt + r)%nat = move_task dx <$> task_objs s !! r.
Proof.
  intros []. destruct moved_task_objs0 as (older & Hlen & ->).
  rewrite lookup_app_r by lia. rewrite list_lookup_fmap. f_equal. f_equal. lia.
Qed.

Lemma moved_get_object wa s s' r x :
  R wa s s' → get_object s r = Ok x → get_object s' (dx + r)%nat = Ok (move_object dt x).
Proof.
  intros Hs. unfold get_object. rewrite (moved_lookup_object wa s s' r Hs).
  destruct (data_objs s !! r); [|done]. by intros [= ->].
Qed.

Lemma moved_get_task wa s s' r x :
  R wa s s' → get_task s r = Ok x → get_task s' (dt + r)%nat = Ok (move_task dx x).
Proof.
  intros Hs. unfold get_task. rewrite (moved_lookup_task wa s s' r Hs).
  destruct (task_objs s !! r); [|done]. by intros [= ->].
Qed.

Lemma simulates_new_object wa o o' :
  o' = move_object dt o →
  simulates (R wa) (R wa) (λ r r', r' = (dx + r)%nat) (new_object o) (new_object o').
Proof.
  intros -> s s' r t Hs. unfold new_object. intros [= <- <-].
  eexists _, _. split; [done|]. pose proof Hs as [].
  destruct moved_data_objs0 as (older & Hlen & Hd). split.
  - apply moved_set_data_objs; [done|]. exists older. split; [done|].
    by rewrite Hd, fmap_app, app_assoc.
  - rewrite Hd, length_app, length_fmap. lia.
Qed.

Lemma simulates_new_task wa t0 t0' :
  t0' = move_task dx t0 →
  simulates (R wa) (R wa) (λ r r', r' = (dt + r)%nat) (new_task t0) (new_task t0').
Proof.
  intros -> s s' r t Hs. unfold new_task. intros [= <- <-].
  eexists _, _. split; [done|]. pose proof Hs as [].
  destruct moved_task_objs0 as (older & Hlen & Hd). split.
  - apply moved_set_task_objs; [done|]. exists older. split; [done|].
    by rewrite Hd, fmap_app, app_assoc.
  - rewrite Hd, length_app, length_fmap. lia.
Qed.

Lemma simulates_upd_object wa r (f f' : SchedulerDataObject.t → SchedulerDataObject.t) :
  (∀ x, f' (move_object dt x) = move_object dt (f x)) →
  simulates (R wa) (R wa) (λ _ _, True) (upd_object r f) (upd_object (dx + r)%nat f').
Proof.
  intros Hf. unfold upd_object.
  eapply simulates_bind.
  - apply (simulates_read _ (λ x x', x' = move_object dt x)).
    intros s s' x Hs Hx. eexists. split; [by eapply moved_get_object|done].
  - intros x x' ->. apply simulates_modify. intros s s' Hs.
    apply moved_set_data_objs; [done|]. pose proof Hs as [].
    destruct moved_data_objs0 as (older & Hlen & Hd). exists older. split; [done|].
    rewrite Hd, insert_app_r_alt by lia. rewrite list_fmap_insert, Hf.
    do 2 f_equal. lia.
Qed.

Lemma simulates_upd_task wa r (f f' : SchedulerTask.t → SchedulerTask.t) :
  (∀ x, f' (move_task dx x) = move_task dx (f x)) →
  simulates (R wa) (R wa) (λ _ _, True) (upd_task r f) (upd_task (dt + r)%nat f').
Proof.
  intros Hf. unfold upd_task.
  eapply simulates_bind.
  - apply (simulates_read _ (λ x x', x' = move_task dx x)).
    intros s s' x Hs Hx. eexists. split; [by eapply moved_get_task|done].
  - intros x x' ->. apply simulates_modify. intros s s' Hs.
    apply moved_set_task_objs; [done|]. pose proof Hs as [].
    destruct moved_task_objs0 as (older & Hlen & Hd). exists older. split; [done|].
    rewrite Hd, insert_app_r_alt by lia. rewrite list_fmap_insert, Hf.
    do 2 f_equal. lia.
Qed.

Lemma Forall2_moved_fmap (d : nat) (l l' : list nat) :
  Forall2 (λ r r', r' = (d + r)%nat) l l' ↔ l' = Nat.add d <$> l.
Proof.
  split.
  - induction 1 as [|r r' l l' -> _ IH]; csimpl; [done|]. by rewrite IH.
  - intros ->. induction l; csimpl; by constructor.
Qed.

Lemma simulates_item_objects wa k :
  simulates (R wa) (R wa) (λ r r', r' = (dx + r)%nat)
    (read (λ s, item (objects s) k)) (read (λ s, item (objects s) k)).
Proof.
  apply simulates_read. intros s s' r Hs Hr. eexists. split; [|done].
  by eapply moved_item_objects.
Qed.

Lemma simulates_item_tasks wa k :
  simulates (R wa) (R wa) (λ r r', r' = (dt + r)%nat)
    (read (λ s, item (tasks s) k)) (read (λ s, item (tasks s) k)).
Proof.
  apply simulates_read. intros s s' r Hs Hr. eexists. split; [|done].
  by eapply moved_item_tasks.
Qed.

Lemma simulates_item_workers wa k :
  simulates (R wa) (R wa) eq
    (read (λ s, item (workers s) k)) (read (λ s, item (workers s) k)).
Proof.
  apply simulates_read. intros s s' r [] Hr. exists r. split; [|done].
  by rewrite moved_workers0.
Qed.

Lemma simulates_register_object wa o :
  simulates (R wa) (R wa) (λ r r', r' = (dx + r)%nat)
    (register_object o) (register_object o).
Proof.
  unfold register_object. eapply simulates_bind.
  - apply simulates_new_object. unfold move_object, SchedulerDataObject.init. simpl.
    by rewrite set_map_empty.
  - intros r r' ->. eapply simulates_bind.
    + apply simulates_modify. intros s s' Hs. by apply moved_set_objects.
    + intros _ _ _. by apply simulates_ret.
Qed.

Lemma simulates_register_task wa t :
  simulates (R wa) (R wa) (λ p p', p' = ((dt + p.1)%nat, p.2))
    (register_task t) (register_task t).
Proof.
  unfold register_task. eapply simulates_bind.
  { eapply (simulates_map_m _ eq); [apply Forall_Forall2_diag, Forall_true; done|].
    intros o _ <-. apply simulates_item_objects. }
  intros ins ins' ->%Forall2_moved_fmap. eapply simulates_bind.
  { eapply (simulates_map_m _ eq); [apply Forall_Forall2_diag, Forall_true; done|].
    intros o _ <-. apply simulates_item_objects. }
  intros outs outs' ->%Forall2_moved_fmap. eapply simulates_bind.
  { apply simulates_new_task. unfold move_task, SchedulerTask.init. simpl.
    by rewrite length_fmap. }
  intros task task' ->. eapply simulates_bind.
  { eapply (simulates_for_each _ (λ r r', r' = (dx + r)%nat)).
    - by apply Forall2_moved_fmap.
    - intros o o' ->. by apply simulates_upd_object. }
  intros _ _ _. eapply simulates_bind.
  { eapply (simulates_for_each _ (λ r r', r' = (dx + r)%nat)).
    - by apply Forall2_moved_fmap.
    - intros o o' ->. apply simulates_upd_object. intros x.
      unfold move_object, SchedulerDataObject.set_consumers. simpl.
      by rewrite set_map_union_L, set_map_singleton_L. }
  intros _ _ _. eapply simulates_bind.
  { apply (simulates_read _ (λ x x', x' = move_task dx x)).
    intros s s' x Hs Hx. eexists. split; [by eapply moved_get_task|done]. }
  intros x x' ->. eapply simulates_bind.
  { apply simulates_modify. intros s s' Hs. by apply moved_set_tasks. }
  intros _ _ _. by apply simulates_ret.
Qed.

Lemma simulates_update_object wa ou :
  simulates (R wa) (R wa) (λ _ _, True) (update_object ou) (update_object ou).
Proof.
  unfold update_object. eapply simulates_bind; [apply simulates_item_objects|].
  intros o o' ->. eapply simulates_bind.
  { eapply (simulates_map_m _ eq eq); [apply Forall_Forall2_diag, Forall_true; done|].
    intros w _ <-. apply simulates_item_workers. }
  intros placing placing' Hp. apply list_eq_Forall2 in Hp as <-. eapply simulates_bind.
  { by apply simulates_upd_object. }
  intros _ _ _. eapply simulates_bind.
  { eapply (simulates_map_m _ eq eq); [apply Forall_Forall2_diag, Forall_true; done|].
    intros w _ <-. apply simulates_item_workers. }
  intros av av' Ha. apply list_eq_Forall2 in Ha as <-. eapply simulates_bind.
  { by apply simulates_upd_object. }
  intros _ _ _. destruct (ou_size ou).
  - by apply simulates_upd_object.
  - by apply simulates_ret.
Qed.

Lemma dict_set_moved (k : tref) v (d : list (tref * Assignment)) :
  dict_set (dt + k)%nat v ((λ p, ((dt + p.1)%nat, p.2)) <$> d) =
  (λ p, ((dt + p.1)%nat, p.2)) <$> dict_set k v d.
Proof.
  induction d as [|[k' v'] d IH]; csimpl; [done|].
  destruct (decide (k' = k)) as [->|Hne].
  - by rewrite decide_True.
  - rewrite decide_False by lia. csimpl. by rewrite IH.
Qed.

Lemma simulates_assign worker task priority blocking :
  simulates (R true) (R true) (λ _ _, True)
    (assign worker task priority blocking)
    (assign worker (dt + task)%nat priority blocking).
Proof.
  unfold assign. eapply simulates_bind; [by apply simulates_upd_task|].
  intros _ _ _. eapply simulates_bind; [by apply simulates_upd_task|].
  intros _ _ _. eapply simulates_bind.
  { apply (simulates_read _ (λ x x', x' = move_task dx x)).
    intros s s' x Hs Hx. eexists. split; [by eapply moved_get_task|done]. }
  intros t t' ->. eapply simulates_bind.
  { eapply (simulates_for_each _ (λ r r', r' = (dx + r)%nat)).
    - by apply Forall2_moved_fmap.
    - intros o o' ->. by apply simulates_upd_object. }
  intros _ _ _. eapply simulates_bind.
  { eapply (simulates_for_each _ (λ r r', r' = (dx + r)%nat)).
    - by apply Forall2_moved_fmap.
    - intros o o' ->. by apply simulates_upd_object. }
  intros _ _ _. eapply simulates_bind.
  { apply (simulates_read _ (λ d d', d' = (λ p, ((dt + p.1)%nat, p.2)) <$> d)).
    intros s s' d [] Hd. rewrite moved_assignments0 by done.
    destruct (assignments s) as [d0|]; [|done]. injection Hd as ->. by eexists. }
  intros d d' ->. apply simulates_modify. intros s s' []. constructor; try done.
  intros _. simpl. by rewrite dict_set_moved.
Qed.

End Moved.

(** *** What a moved mirror looks like *)

Section MovedView.

Variables (dt dx : nat).

Lemma moved_forget_old old_tasks old_objects wa s s' :
  moved dt dx old_tasks old_objects wa s s' →
  dom old_tasks ⊆ dom (tasks s) →
  dom old_objects ⊆ dom (objects s) →
  moved dt dx ∅ ∅ wa s s'.
Proof.
  intros [] Ht Ho. constructor; try done.
  - rewrite moved_tasks0, (right_id ∅ (∪)). apply map_eq. intros k.
    rewrite lookup_union. destruct ((Nat.add dt <$> tasks s) !! k) eqn:Hk; simpl.
    + by destruct (old_tasks !! k).
    + rewrite lookup_fmap in Hk. destruct (tasks s !! k) eqn:Hk'; [done|].
      apply not_elem_of_dom in Hk'. assert (k ∉ dom old_tasks) as Hn by set_solver.
      apply not_elem_of_dom in Hn. by rewrite Hn.
  - rewrite moved_objects0, (right_id ∅ (∪)). apply map_eq. intros k.
    rewrite lookup_union. destruct ((Nat.add dx <$> objects s) !! k) eqn:Hk; simpl.
    + by destruct (old_objects !! k).
    + rewrite lookup_fmap in Hk. destruct (objects s !! k) eqn:Hk'; [done|].
      apply not_elem_of_dom in Hk'. assert (k ∉ dom old_objects) as Hn by set_solver.
      apply not_elem_of_dom in Hn. by rewrite Hn.
Qed.

Context (wa : bool) (s s' : Scheduler) (Hmoved : moved dt dx ∅ ∅ wa s s').

Lemma moved_object_id_of o : object_id_of s' (dx + o)%nat = object_id_of s o.
Proof.
  unfold object_id_of. rewrite (moved_lookup_object _ _ _ _ _ _ _ o Hmoved).
  by destruct (data_objs s !! o).
Qed.

Lemma moved_task_id_of t : task_id_of s' (dt + t)%nat = task_id_of s t.
Proof.
  unfold task_id_of. rewrite (moved_lookup_task _ _ _ _ _ _ _ t Hmoved).
  by destruct (task_objs s !! t).
Qed.

Lemma moved_object_ids (l : list nat) :
  object_id_of s' <$> (Nat.add dx <$> l) = object_id_of s <$> l.
Proof.
  rewrite <- list_fmap_compose. apply list_fmap_ext. intros _ o _. simpl.
  apply moved_object_id_of.
Qed.

Lemma moved_task_ids (l : list nat) :
  task_id_of s' <$> (Nat.add dt <$> l) = task_id_of s <$> l.
Proof.
  rewrite <- list_fmap_compose. apply list_fmap_ext. intros _ o _. simpl.
  apply moved_task_id_of.
Qed.

Lemma moved_view_task t : view_task s' (move_task dx t) = view_task s t.
Proof. unfold view_task, move_task. simpl. by rewrite !moved_object_ids. Qed.

Lemma moved_view_object o : view_object s' (move_object dt o) = view_object s o.
Proof.
  unfold view_object, move_object. simpl. f_equal.
  - destruct (SchedulerDataObject.parent o); simpl; [|done]. by rewrite moved_task_id_of.
  - apply set_eq. intros i. rewrite !elem_of_map. split.
    + intros (r' & -> & (r & -> & Hr)%elem_of_map). exists r.
      by rewrite moved_task_id_of.
    + intros (r & -> & Hr). exists (dt + r)%nat. rewrite moved_task_id_of.
      split; [done|]. apply elem_of_map. by exists r.
Qed.

Lemma moved_view : view s' = view s.
Proof.
  pose proof Hmoved as []. unfold view.
  rewrite moved_workers0, moved_bandwidth0, moved_tasks0, moved_objects0.
  rewrite !(right_id ∅ (∪)). f_equal.
  - rewrite <- map_fmap_compose. apply map_fmap_ext. intros k r _. simpl.
    rewrite (moved_lookup_task _ _ _ _ _ _ _ r Hmoved).
    destruct (task_objs s !! r); simpl; [|done]. by rewrite moved_view_task.
  - rewrite <- map_fmap_compose. apply map_fmap_ext. intros k r _. simpl.
    rewrite (moved_lookup_object _ _ _ _ _ _ _ r Hmoved).
    destruct (data_objs s !! r); simpl; [|done]. by rewrite moved_view_object.
Qed.

Lemma moved_view_update u u' :
  moved_update dt dx u u' → view_update s' u' = view_update s u.
Proof.
  intros (Hw & Hn & Ho & Ht & Hr & Hf). unfold view_update.
  rewrite Hw, Hn, Ho, Ht, Hr, Hf.
  by rewrite moved_object_ids, !moved_task_ids.
Qed.

End MovedView.

Lemma simulates_make_call dt dx c :
  simulates (moved dt dx ∅ ∅ true) (moved dt dx ∅ ∅ true) (λ _ _, True)
    (make_call c) (make_call c).
Proof.
  unfold make_call. eapply simulates_bind.
  { instantiate (1 := eq). destruct (call_worker c) as [w|].
    - eapply simulates_bind; [apply simulates_item_workers|].
      intros w1 _ <-. by apply simulates_ret.
    - by apply simulates_ret. }
  intros worker _ <-. eapply simulates_bind; [apply simulates_item_tasks|].
  intros task task' ->. apply simulates_assign.
Qed.

(** A scheduler that sees the moved mirror and decides as it did on the
    mirror does to the moved mirror what it did to the mirror. *)
Lemma schedule_follows dt dx policy policy' u u' s s' t :
  moved_update dt dx u u' → moved dt dx ∅ ∅ true s s' →
  policy' (view s) (view_update s u) = policy (view s) (view_update s u) →
  schedule policy u s = (Ok tt, t) →
  ∃ t', schedule policy' u' s' = (Ok tt, t') ∧ moved dt dx ∅ ∅ true t t'.
Proof.
  intros Hu Hs Hsame Hrun. unfold schedule in *.
  apply bind_inv_ok in Hrun as (d & s0 & Hd & Hrun). injection Hd as <- <-.
  apply bind_inv_ok in Hrun as ([] & t0 & Hcalls & Hend).
  destruct (policy (view s) (view_update s u)) as [calls [e|]] eqn:Hp; [done|].
  injection Hend as <-. cbn [fst] in Hcalls.
  assert (simulates (moved dt dx ∅ ∅ true) (moved dt dx ∅ ∅ true) (λ _ _, True)
            (for_each calls make_call) (for_each calls make_call)) as Hsim.
  { eapply (simulates_for_each _ eq); [apply Forall_Forall2_diag, Forall_true; done|].
    intros c _ <-. apply simulates_make_call. }
  destruct (Hsim s s' tt t0 Hs Hcalls) as ([] & t' & Hcalls' & Ht & _).
  exists t'. split; [|done].
  erewrite bind_ok; cycle 1.
  { unfold read.
    by rewrite (moved_view dt dx true s s' Hs),
      (moved_view_update dt dx true s s' Hs u u' Hu), Hsame. }
  cbn [fst snd]. by rewrite (bind_ok _ _ _ _ _ Hcalls').
Qed.

Lemma simulates_apply_update dt dx old_tasks old_objects message :
  nonempty (msg_new_workers message) = [] →
  msg_network_bandwidth message = None →
  nonempty (msg_tasks_update message) = [] →
  simulates (moved dt dx old_tasks old_objects false)
    (moved dt dx old_tasks old_objects true) (moved_update dt dx)
    (apply_update message) (apply_update message).
Proof.
  intros Hw Hb Hu. unfold apply_update, update_bandwidth. rewrite Hw, Hb, Hu.
  cbn [map_m]. eapply simulates_bind; [by apply (simulates_ret _ eq)|].
  intros nw _ <-. eapply simulates_bind; [by apply (simulates_ret _ eq)|].
  intros nu _ <-. eapply simulates_bind.
  { eapply (simulates_map_m _ eq); [apply Forall_Forall2_diag, Forall_true; done|].
    intros o _ <-. apply simulates_register_object. }
  intros objs objs' ->%Forall2_moved_fmap. eapply simulates_bind.
  { eapply (simulates_map_m _ eq); [apply Forall_Forall2_diag, Forall_true; done|].
    intros t _ <-. apply simulates_register_task. }
  intros ts ts' Hts.
  assert (ts' = (λ p, ((dt + p.1)%nat, p.2)) <$> ts) as ->.
  { clear -Hts. induction Hts as [|p p' l l' -> _ IH]; csimpl; [done|]. by rewrite IH. }
  eapply simulates_bind; [by apply (simulates_ret _ (λ a a', a = [] ∧ a' = []))|].
  intros fin fin' [-> ->]. eapply simulates_bind.
  { eapply (simulates_for_each _ eq); [apply Forall_Forall2_diag, Forall_true; done|].
    intros ou _ <-. apply simulates_update_object. }
  intros _ _ _.
  eapply (simulates_bind _ (moved dt dx old_tasks old_objects true) _ (λ _ _, True)).
  { apply simulates_modify. intros s s' []. constructor; try done. }
  intros _ _ _. apply simulates_ret. unfold moved_update. simpl.
  split_and!; try done.
  - by rewrite <- !list_fmap_compose.
  - simpl. rewrite !app_nil_r. clear. induction ts as [|[r []] ts IH]; csimpl; [done| |done].
    by rewrite IH.
Qed.

(** *** What an update leaves alone *)

#[local] Instance same_preorder {X} (f : Scheduler → X) : PreOrder (same f).
Proof. split; [by intros s|]. intros s1 s2 s3 H12 H23. unfold same in *. congruence. Qed.

#[local] Instance workers_stay_preorder : PreOrder workers_stay.
Proof. split; [by intros s k|]. intros s1 s2 s3 H12 H23 k Hk. by apply H23, H12. Qed.

Lemma register_object_same {X} (f : Scheduler → X) o :
  (∀ s l, f (set_data_objs l s) = f s) → (∀ s l, f (set_objects l s) = f s) →
  preserves (same f) (register_object o).
Proof.
  intros H1 H2. unfold register_object.
  pres preserves_bind; [unfold preserves; intros s; apply H1|]. intros r.
  pres preserves_bind; [pres preserves_modify; intros s; apply H2|].
  intros _. pres preserves_ret.
Qed.

Lemma upd_object_same {X} (f : Scheduler → X) r g :
  (∀ s l, f (set_data_objs l s) = f s) → preserves (same f) (upd_object r g).
Proof.
  intros H1. unfold upd_object. pres preserves_bind; [pres preserves_read|].
  intros x. pres preserves_modify. intros s. apply H1.
Qed.

Lemma upd_task_same {X} (f : Scheduler → X) r g :
  (∀ s l, f (set_task_objs l s) = f s) → preserves (same f) (upd_task r g).
Proof.
  intros H1. unfold upd_task. pres preserves_bind; [pres preserves_read|].
  intros x. pres preserves_modify. intros s. apply H1.
Qed.

Lemma register_task_same {X} (f : Scheduler → X) t :
  (∀ s l, f (set_data_objs l s) = f s) → (∀ s l, f (set_task_objs l s) = f s) →
  (∀ s l, f (set_tasks l s) = f s) →
  preserves (same f) (register_task t).
Proof.
  intros H1 H2 H3. unfold register_task.
  pres preserves_bind; [pres preserves_map_m; intros ?; pres preserves_read|]. intros ins.
  pres preserves_bind; [pres preserves_map_m; intros ?; pres preserves_read|]. intros outs.
  pres preserves_bind; [unfold preserves; intros s; apply H2|]. intros task.
  pres preserves_bind; [pres preserves_for_each; intros ?; by apply upd_object_same|].
  intros _.
  pres preserves_bind; [pres preserves_for_each; intros ?; by apply upd_object_same|].
  intros _. pres preserves_bind; [pres preserves_read|]. intros x.
  pres preserves_bind; [pres preserves_modify; intros s; apply H3|].
  intros _. pres preserves_ret.
Qed.

Lemma assign_same {X} (f : Scheduler → X) worker task priority blocking :
  (∀ s l, f (set_data_objs l s) = f s) → (∀ s l, f (set_task_objs l s) = f s) →
  (∀ s l, f (set_assignments l s) = f s) →
  preserves (same f) (assign worker task priority blocking).
Proof.
  intros H1 H2 H3. unfold assign.
  pres preserves_bind; [by apply upd_task_same|]. intros _.
  pres preserves_bind; [by apply upd_task_same|]. intros _.
  pres preserves_bind; [pres preserves_read|]. intros t.
  pres preserves_bind; [pres preserves_for_each; intros ?; by apply upd_object_same|].
  intros _.
  pres preserves_bind; [pres preserves_for_each; intros ?; by apply upd_object_same|].
  intros _. pres preserves_bind; [pres preserves_read|]. intros d.
  pres preserves_modify. intros s. apply H3.
Qed.

Lemma schedule_same {X} (f : Scheduler → X) policy u :
  (∀ s l, f (set_data_objs l s) = f s) → (∀ s l, f (set_task_objs l s) = f s) →
  (∀ s l, f (set_assignments l s) = f s) →
  preserves (same f) (schedule policy u).
Proof.
  intros H1 H2 H3. unfold schedule.
  pres preserves_bind; [pres preserves_read|]. intros d.
  pres preserves_bind; [|intros _; destruct d.2; [pres preserves_raise|pres preserves_ret]].
  pres preserves_for_each. intros c. unfold make_call.
  pres preserves_bind.
  { destruct (call_worker c); [|pres preserves_ret].
    pres preserves_bind; [pres preserves_read|]. intros w. pres preserves_ret. }
  intros w. pres preserves_bind; [pres preserves_read|]. intros task.
  by apply assign_same.
Qed.

Lemma update_object_same {X} (f : Scheduler → X) ou :
  (∀ s l, f (set_data_objs l s) = f s) → preserves (same f) (update_object ou).
Proof.
  intros H1. unfold update_object.
  pres preserves_bind; [pres preserves_read|]. intros o.
  pres preserves_bind; [pres preserves_map_m; intros ?; pres preserves_read|]. intros p.
  pres preserves_bind; [by apply upd_object_same|]. intros _.
  pres preserves_bind; [pres preserves_map_m; intros ?; pres preserves_read|]. intros a.
  pres preserves_bind; [by apply upd_object_same|]. intros _.
  destruct (ou_size ou); [by apply upd_object_same | pres preserves_ret].
Qed.

Lemma update_task_same {X} (f : Scheduler → X) tu :
  (∀ s l, f (set_task_objs l s) = f s) → preserves (same f) (update_task tu).
Proof.
  intros H1. unfold update_task, input_finished.
  pres preserves_bind; [pres preserves_assert|]. intros _.
  pres preserves_bind; [pres preserves_read|]. intros task.
  pres preserves_bind; [by apply upd_task_same|]. intros _.
  pres preserves_bind; [pres preserves_read|]. intros w.
  pres preserves_bind; [by apply upd_task_same|]. intros _.
  pres preserves_bind; [pres preserves_read|]. intros x.
  pres preserves_bind; [|intros ?; pres preserves_ret].
  pres preserves_map_m. intros o.
  pres preserves_bind; [pres preserves_read|]. intros y.
  pres preserves_map_m. intros t.
  pres preserves_bind; [|intros ?; pres preserves_ret].
  pres preserves_bind; [by apply upd_task_same|]. intros _.
  pres preserves_bind; [pres preserves_read|]. intros z.
  case_bool_decide; [|pres preserves_ret].
  pres preserves_bind; [pres preserves_assert|]. intros _. pres preserves_ret.
Qed.

(** An update that announces no worker and no bandwidth leaves the
    workers and the bandwidth alone. *)
Lemma apply_update_same {X} (f : Scheduler → X) message :
  (∀ s l, f (set_data_objs l s) = f s) → (∀ s l, f (set_task_objs l s) = f s) →
  (∀ s l, f (set_tasks l s) = f s) → (∀ s l, f (set_objects l s) = f s) →
  (∀ s l, f (set_assignments l s) = f s) →
  nonempty (msg_new_workers message) = [] →
  msg_network_bandwidth message = None →
  preserves (same f) (apply_update message).
Proof.
  intros H1 H2 H3 H4 H5 Hw Hb. unfold apply_update, update_bandwidth. rewrite Hw, Hb.
  cbn [map_m].
  pres preserves_bind; [pres preserves_ret|]. intros nw.
  pres preserves_bind; [pres preserves_ret|]. intros nu.
  pres preserves_bind; [pres preserves_map_m; intros ?; by apply register_object_same|].
  intros objs.
  pres preserves_bind; [pres preserves_map_m; intros ?; by apply register_task_same|].
  intros ts.
  pres preserves_bind; [pres preserves_map_m; intros ?; by apply update_task_same|].
  intros fin.
  pres preserves_bind; [pres preserves_for_each; intros ?; by apply update_object_same|].
  intros _. pres preserves_bind; [pres preserves_modify; intros s; apply H5|].
  intros _. pres preserves_ret.
Qed.

Lemma update_task_needs_worker tu s r t :
  update_task tu s = (Ok r, t) → is_Some (workers s !! tu_worker tu).
Proof.
  unfold update_task. intros Hrun.
  apply bind_inv_ok in Hrun as ([] & s1 & H1 & Hrun).
  apply bind_inv_ok in Hrun as (task & s2 & H2 & Hrun).
  apply bind_inv_ok in Hrun as ([] & s3 & H3 & Hrun).
  apply bind_inv_ok in Hrun as (w & s4 & H4 & _).
  assert (workers s3 = workers s) as <-.
  { transitivity (workers s2).
    - eapply (preserves_ok (same workers)); [|exact H3]. by apply upd_task_same.
    - transitivity (workers s1).
      + eapply (preserves_ok (same workers)); [|exact H2]. pres preserves_read.
      + eapply (preserves_ok (same workers)); [|exact H1]. pres preserves_assert. }
  unfold read, item in H4. destruct (workers s3 !! tu_worker tu); [done|].
  by injection H4.
Qed.

(** Without workers, an update that brings the state of a task cannot
    be applied. *)
Lemma apply_update_without_workers message s u t :
  workers s = ∅ →
  nonempty (msg_new_workers message) = [] →
  apply_update message s = (Ok u, t) →
  nonempty (msg_tasks_update message) = [].
Proof.
  intros Hs Hw. unfold apply_update. rewrite Hw. cbn [map_m]. intros Hrun.
  apply bind_inv_ok in Hrun as (nw & s1 & [= <- <-] & Hrun).
  apply bind_inv_ok in Hrun as (nu & s2 & H2 & Hrun).
  apply bind_inv_ok in Hrun as (objs & s3 & H3 & Hrun).
  apply bind_inv_ok in Hrun as (ts & s4 & H4 & Hrun).
  apply bind_inv_ok in Hrun as (fin & s5 & H5 & _).
  destruct (nonempty (msg_tasks_update message)) as [|tu tus]; [done|]. exfalso.
  cbn [map_m] in H5. apply bind_inv_ok in H5 as (r & s6 & H6 & _).
  apply update_task_needs_worker in H6 as [w Hw'].
  assert (workers s4 = workers s) as Heq; [|by rewrite Heq, Hs in Hw'].
  transitivity (workers s3).
  { eapply (preserves_ok (same workers)); [|exact H4].
    pres preserves_map_m. intros ?. by apply register_task_same. }
  transitivity (workers s2).
  { eapply (preserves_ok (same workers)); [|exact H3].
    pres preserves_map_m. intros ?. by apply register_object_same. }
  eapply (preserves_ok (same workers)); [|exact H2].
  unfold update_bandwidth. destruct (msg_network_bandwidth message); [|pres preserves_ret].
  pres preserves_bind; [pres preserves_read|]. intros [].
  - pres preserves_bind; [by pres preserves_modify|]. intros _. pres preserves_ret.
  - pres preserves_ret.
Qed.

Lemma same_workers_stay {A} (m : M Scheduler A) :
  preserves (same workers) m → preserves workers_stay m.
Proof. intros Hm s k Hk. specialize (Hm s). unfold same in Hm. by rewrite Hm. Qed.

Lemma register_worker_stay w : preserves workers_stay (register_worker w).
Proof.
  unfold register_worker. pres preserves_bind; [pres preserves_read|]. intros [].
  - pres preserves_raise.
  - pres preserves_bind; [|intros _; pres preserves_ret].
    pres preserves_modify. intros s k Hk. simpl.
    destruct (decide (wm_id w = k)) as [->|Hne].
    + by rewrite lookup_insert_eq.
    + by rewrite lookup_insert_ne.
Qed.

Lemma apply_update_stay message : preserves workers_stay (apply_update message).
Proof.
  unfold apply_update.
  pres preserves_bind; [pres preserves_map_m; intros ?; apply register_worker_stay|].
  intros nw. pres preserves_bind.
  { apply same_workers_stay. unfold update_bandwidth.
    destruct (msg_network_bandwidth message); [|pres preserves_ret].
    pres preserves_bind; [pres preserves_read|]. intros [].
    - pres preserves_bind; [by pres preserves_modify|]. intros _. pres preserves_ret.
    - pres preserves_ret. }
  intros nu. pres preserves_bind.
  { apply same_workers_stay. pres preserves_map_m. intros ?. by apply register_object_same. }
  intros objs. pres preserves_bind.
  { apply same_workers_stay. pres preserves_map_m. intros ?. by apply register_task_same. }
  intros ts. pres preserves_bind.
  { apply same_workers_stay. pres preserves_map_m. intros ?. by apply update_task_same. }
  intros fin. pres preserves_bind.
  { apply same_workers_stay. pres preserves_for_each. intros ?. by apply update_object_same. }
  intros _. pres preserves_bind; [|intros _; pres preserves_ret].
  apply same_workers_stay. by pres preserves_modify.
Qed.

(** The two parts of an accepted update message. *)
Lemma send_message_inv policy message s replies s1 :
  send_message policy message s = (Ok replies, s1) →
  msg_type message = "update" ∧
  ∃ u sA d, apply_update message s = (Ok u, sA) ∧
    schedule policy u sA = (Ok tt, s1) ∧
    assignments s1 = Some d ∧ replies = d.*2.
Proof.
  unfold send_message. destruct (decide (msg_type message = "update")); [|done].
  intros Hrun. split; [done|]. unfold process_update in Hrun.
  apply bind_inv_ok in Hrun as (u & sA & HA & Hrun).
  apply bind_inv_ok in Hrun as ([] & sB & HB & Hrun).
  unfold read in Hrun. destruct (assignments sB) as [d|] eqn:Hd; [|done].
  injection Hrun as <- <-. by exists u, sA, d.
Qed.

(** C8, amended: an update message that was applied to a new mirror is
    sent again; [policy] is what the scheduler does at the first call of
    [schedule] and [policy'] what it does at the second.  When the
    message announces a worker, the second application raises
    "Registering already registered worker" before it changes anything.
    When it announces no worker and no bandwidth, the second application
    brings the mirror to a state that looks the same as the state that
    the first application brought it to -- the same workers, bandwidth,
    tasks and objects with the same fields, states and placements -- and
    the scheduler is given the same update.  If the scheduler then
    decides as it did the first time (as a scheduler does whose
    [schedule] depends on the mirror and on the update only), the
    second application returns the same reply and leaves a mirror that
    looks the same as after the first. *)
Theorem update_twice policy policy' message reassigning replies s1 :
  send_message policy message (SchedulerBase_init reassigning) = (Ok replies, s1) →
  (nonempty (msg_new_workers message) ≠ [] →
     send_message policy' message s1 =
       (Raise (Exception "Registering already registered worker '{}'"), s1)) ∧
  (nonempty (msg_new_workers message) = [] →
   msg_network_bandwidth message = None →
     ∃ u sA u' sA',
       apply_update message (SchedulerBase_init reassigning) = (Ok u, sA) ∧
       apply_update message s1 = (Ok u', sA') ∧
       view sA' = view sA ∧ view_update sA' u' = view_update sA u ∧
       (policy' (view sA) (view_update sA u) = policy (view sA) (view_update sA u) →
        ∃ s2, send_message policy' message s1 = (Ok replies, s2) ∧ view s2 = view s1)).
Proof.
  intros Hfirst.
  destruct (send_message_inv _ _ _ _ _ Hfirst) as (Htype & u & sA & d & HA & HB & Hd & ->).
  set (s0 := SchedulerBase_init reassigning) in *.
  assert (same workers sA s1) as HBw
    by (eapply (preserves_ok (same workers)); [|exact HB]; by apply schedule_same).
  assert (same tasks sA s1) as HBt
    by (eapply (preserves_ok (same tasks)); [|exact HB]; by apply schedule_same).
  assert (same objects sA s1) as HBo
    by (eapply (preserves_ok (same objects)); [|exact HB]; by apply schedule_same).
  split.
  - (* a worker is announced *)
    intros Hne. destruct (nonempty (msg_new_workers message)) as [|w ws] eqn:Hws; [done|].
    assert (is_Some (workers s1 !! wm_id w)) as Hknown.
    { rewrite HBw. pose proof HA as HA'. unfold apply_update in HA'. rewrite Hws in HA'.
      apply bind_inv_ok in HA' as (nw & sW & HW & Hrest). cbn [map_m] in HW.
      apply bind_inv_ok in HW as (w1 & sW1 & HW1 & HWrest).
      assert (is_Some (workers sW1 !! wm_id w)) as Hreg.
      { unfold register_worker in HW1.
        apply bind_inv_ok in HW1 as (known & sx & Hk & HW1).
        unfold read in Hk. injection Hk as <- <-.
        destruct (bool_decide _); [done|].
        apply bind_inv_ok in HW1 as ([] & sy & Hm & Hr).
        injection Hm as <-. injection Hr as _ <-. simpl.
        by rewrite lookup_insert_eq. }
      assert (workers_stay sW1 sW) as H1.
      { apply bind_inv_ok in HWrest as (nws & ? & HWrest & [= _ <-]).
        eapply (preserves_ok workers_stay); [|exact HWrest].
        pres preserves_map_m. intros ?. apply register_worker_stay. }
      assert (workers_stay sW sA) as H2.
      { eapply (preserves_ok workers_stay); [|exact Hrest].
        (* the rest of the update *)
        pres preserves_bind.
        { apply same_workers_stay. unfold update_bandwidth.
          destruct (msg_network_bandwidth message); [|pres preserves_ret].
          pres preserves_bind; [pres preserves_read|]. intros [].
          - pres preserves_bind; [by pres preserves_modify|]. intros _. pres preserves_ret.
          - pres preserves_ret. }
        intros nu. pres preserves_bind.
        { apply same_workers_stay. pres preserves_map_m. intros ?.
          by apply register_object_same. }
        intros objs. pres preserves_bind.
        { apply same_workers_stay. pres preserves_map_m. intros ?.
          by apply register_task_same. }
        intros ts. pres preserves_bind.
        { apply same_workers_stay. pres preserves_map_m. intros ?.
          by apply update_task_same. }
        intros fin. pres preserves_bind.
        { apply same_workers_stay. pres preserves_for_each. intros ?.
          by apply update_object_same. }
        intros _. pres preserves_bind; [|intros _; pres preserves_ret].
        apply same_workers_stay. by pres preserves_modify. }
      by apply H2, H1. }
    unfold send_message. rewrite decide_True by done. unfold process_update.
    apply bind_raise. unfold apply_update. rewrite Hws. apply bind_raise.
    cbn [map_m]. apply bind_raise. unfold register_worker.
    erewrite bind_ok; [|unfold read; by rewrite bool_decide_eq_true_2]. done.
  - (* no worker, no bandwidth *)
    intros Hw Hb.
    pose proof (apply_update_without_workers message s0 u sA eq_refl Hw HA) as Hu.
    assert (same workers s0 sA) as HAw
      by (eapply (preserves_ok (same workers)); [|exact HA]; by apply apply_update_same).
    assert (same network_bandwidth s0 sA) as HAb
      by (eapply (preserves_ok (same network_bandwidth)); [|exact HA];
          by apply apply_update_same).
    assert (same network_bandwidth sA s1) as HBb
      by (eapply (preserves_ok (same network_bandwidth)); [|exact HB];
          by apply schedule_same).
    set (dt := length (task_objs s1)). set (dx := length (data_objs s1)).
    assert (moved dt dx (tasks s1) (objects s1) false s0 s1) as Hstart.
    { constructor; try done.
      - unfold same in *. by etrans.
      - unfold same in *. by etrans.
      - exists (task_objs s1). by rewrite app_nil_r.
      - exists (data_objs s1). by rewrite app_nil_r.
      - simpl. by rewrite fmap_empty, (left_id ∅ (∪)).
      - simpl. by rewrite fmap_empty, (left_id ∅ (∪)). }
    destruct (simulates_apply_update dt dx (tasks s1) (objects s1) message Hw Hb Hu
                s0 s1 u sA Hstart HA) as (u' & sA' & HA' & HmA & Hmu).
    apply moved_forget_old in HmA; [| by rewrite HBt | by rewrite HBo].
    exists u, sA, u', sA'. split_and!; [done|done|by eapply moved_view| |].
    { by eapply (moved_view_update dt dx true sA sA'). }
    intros Hsame.
    destruct (schedule_follows dt dx policy policy' u u' sA sA' s1 Hmu HmA Hsame HB)
      as (s2 & HB' & HmB).
    exists s2. split; [|by eapply moved_view].
    unfold send_message. rewrite decide_True by done. unfold process_update.
    rewrite (bind_ok _ _ _ _ _ HA'), (bind_ok _ _ _ _ _ HB'). unfold read.
    rewrite (moved_assignments _ _ _ _ _ _ _ HmB eq_refl), Hd. simpl.
    do 2 f_equal. rewrite <- list_fmap_compose. by apply list_fmap_ext.
Qed.

Lemma update_twice_witness :
  let s1 := state_after (send_message withdraw_ready graph_only_message)
              (SchedulerBase_init false) in
  ∃ s2, send_message withdraw_ready graph_only_message s1 =
          (Ok [mkAssignment None 0 None None], s2) ∧
        view s2 = view s1.
Proof.
  intros s1.
  destruct (update_twice withdraw_ready withdraw_ready graph_only_message false
              [mkAssignment None 0 None None] s1) as [_ Hsecond].
  { vm_compute. reflexivity. }
  destruct (Hsecond eq_refl eq_refl) as (u & sA & u' & sA' & _ & _ & _ & _ & Hsame).
  apply Hsame. reflexivity.
Defined.

(** C8, as stated, fails: the first update of a run announces the
    workers; sent again, it raises. *)
Lemma update_twice_raises :
  let first := send_message do_nothing local_reassign_message (SchedulerBase_init false) in
  let second := send_message do_nothing local_reassign_message first.2 in
  first.1 = Ok [] ∧
  second.1 = Raise (Exception "Registering already registered worker '{}'") ∧
  ¬ (∃ replies, second.1 = Ok replies).
Proof. vm_compute. split; [done|]. split; [done|]. by intros [? ?]. Qed.

(** A scheduler that keeps state need not decide as it did the first
    time: one that assigns nothing at its first call and withdraws the
    ready tasks at its second gives another reply to the message that is
    sent again, and leaves another mirror. *)
Lemma update_twice_scheduler_with_state :
  let first := send_message do_nothing graph_only_message (SchedulerBase_init false) in
  let second := send_message withdraw_ready graph_only_message first.2 in
  first.1 = Ok [] ∧
  second.1 = Ok [mkAssignment None 0 None None] ∧
  SchedulerTask.state <$> task_of first.2 0 = Some Waiting ∧
  SchedulerTask.state <$> task_of second.2 0 = Some Assigned.
Proof. vm_compute. by repeat split. Qed.

(** ** The mirror: what an update keeps and when it fails *)

#[local] Instance scheduled_grow_preorder : PreOrder scheduled_grow.
Proof.
  split.
  - intros s o y Hy. by exists y.
  - intros s1 s2 s3 H12 H23 o y Hy. destruct (H12 o y Hy) as (y2 & Hy2 & Hs2).
    destruct (H23 o y2 Hy2) as (y3 & Hy3 & Hs3). exists y3. split; [done|]. set_solver.
Qed.

Section ScheduledGrow.

Lemma grow_frame s (f : Scheduler → Scheduler) :
  data_objs (f s) = data_objs s → scheduled_grow s (f s).
Proof. intros Hf o y Hy. exists y. by rewrite Hf. Qed.

Lemma upd_task_grow r f : preserves scheduled_grow (upd_task r f).
Proof.
  unfold upd_task. pres preserves_bind; [pres preserves_read|]. intros x.
  pres preserves_modify. intros s. by apply (grow_frame _ (set_task_objs _)).
Qed.

Lemma upd_object_grow r f :
  (∀ y, SchedulerDataObject.scheduled y ⊆ SchedulerDataObject.scheduled (f y)) →
  preserves scheduled_grow (upd_object r f).
Proof.
  intros Hf s. unfold state_after, upd_object, Py.bind, read, get_object, modify.
  destruct (data_objs s !! r) as [x|] eqn:Hx; cbn; [|reflexivity].
  intros o y Hy. destruct (decide (o = r)) as [->|Hne].
  - exists (f x). cbn. rewrite list_lookup_insert_eq by by eapply lookup_lt_Some.
    split; [done|]. replace y with x by congruence. apply Hf.
  - exists y. cbn. by rewrite list_lookup_insert_ne.
Qed.

Lemma register_worker_grow w : preserves scheduled_grow (register_worker w).
Proof.
  unfold register_worker. pres preserves_bind; [pres preserves_read|]. intros [].
  - pres preserves_raise.
  - pres preserves_bind; [|intros _; pres preserves_ret].
    pres preserves_modify. intros s. by apply (grow_frame _ (set_workers _)).
Qed.

Lemma update_bandwidth_grow m : preserves scheduled_grow (update_bandwidth m).
Proof.
  unfold update_bandwidth. destruct (msg_network_bandwidth m); [|pres preserves_ret].
  pres preserves_bind; [pres preserves_read|]. intros [].
  - pres preserves_bind; [|intros _; pres preserves_ret].
    pres preserves_modify. intros s. by apply (grow_frame _ (set_network_bandwidth _)).
  - pres preserves_ret.
Qed.

Lemma register_object_grow o : preserves scheduled_grow (register_object o).
Proof.
  unfold register_object. pres preserves_bind.
  { intros s. unfold state_after, new_object. cbn. intros r y Hy. exists y.
    split; [by apply lookup_app_l_Some|done]. }
  intros r. pres preserves_bind; [|intros _; pres preserves_ret].
  pres preserves_modify. intros s. by apply (grow_frame _ (set_objects _)).
Qed.

Lemma register_task_grow t : preserves scheduled_grow (register_task t).
Proof.
  unfold register_task.
  pres preserves_bind; [pres preserves_map_m; intros ?; pres preserves_read|]. intros ins.
  pres preserves_bind; [pres preserves_map_m; intros ?; pres preserves_read|]. intros outs.
  pres preserves_bind.
  { intros s. by apply (grow_frame _ (set_task_objs _)). }
  intros task.
  pres preserves_bind; [pres preserves_for_each; intros ?; by apply upd_object_grow|].
  intros _.
  pres preserves_bind; [pres preserves_for_each; intros ?; by apply upd_object_grow|].
  intros _. pres preserves_bind; [pres preserves_read|]. intros x.
  pres preserves_bind; [|intros _; pres preserves_ret].
  pres preserves_modify. intros s. by apply (grow_frame _ (set_tasks _)).
Qed.

Lemma update_task_grow tu : preserves scheduled_grow (update_task tu).
Proof.
  unfold update_task, input_finished.
  pres preserves_bind; [pres preserves_assert|]. intros _.
  pres preserves_bind; [pres preserves_read|]. intros task.
  pres preserves_bind; [apply upd_task_grow|]. intros _.
  pres preserves_bind; [pres preserves_read|]. intros w.
  pres preserves_bind; [apply upd_task_grow|]. intros _.
  pres preserves_bind; [pres preserves_read|]. intros x.
  pres preserves_bind; [|intros ?; pres preserves_ret].
  pres preserves_map_m. intros o.
  pres preserves_bind; [pres preserves_read|]. intros y.
  pres preserves_map_m. intros t.
  pres preserves_bind; [|intros ?; pres preserves_ret].
  pres preserves_bind; [apply upd_task_grow|]. intros _.
  pres preserves_bind; [pres preserves_read|]. intros z.
  case_bool_decide; [|pres preserves_ret].
  pres preserves_bind; [pres preserves_assert|]. intros _. pres preserves_ret.
Qed.

Lemma update_object_grow ou : preserves scheduled_grow (update_object ou).
Proof.
  unfold update_object.
  pres preserves_bind; [pres preserves_read|]. intros o.
  pres preserves_bind; [pres preserves_map_m; intros ?; pres preserves_read|]. intros p.
  pres preserves_bind; [by apply upd_object_grow|]. intros _.
  pres preserves_bind; [pres preserves_map_m; intros ?; pres preserves_read|]. intros a.
  pres preserves_bind; [by apply upd_object_grow|]. intros _.
  destruct (ou_size ou); [by apply upd_object_grow | pres preserves_ret].
Qed.

Lemma apply_update_grow message : preserves scheduled_grow (apply_update message).
Proof.
  unfold apply_update.
  pres preserves_bind; [pres preserves_map_m; apply register_worker_grow|]. intros nw.
  pres preserves_bind; [apply update_bandwidth_grow|]. intros nu.
  pres preserves_bind; [pres preserves_map_m; apply register_object_grow|]. intros objs.
  pres preserves_bind; [pres preserves_map_m; apply register_task_grow|]. intros ts.
  pres preserves_bind; [pres preserves_map_m; apply update_task_grow|]. intros fin.
  pres preserves_bind; [pres preserves_for_each; apply update_object_grow|]. intros _.
  pres preserves_bind; [|intros _; pres preserves_ret].
  pres preserves_modify. intros s. by apply (grow_frame _ (set_assignments _)).
Qed.

Lemma assign_grow worker task priority blocking :
  preserves scheduled_grow (assign worker task priority blocking).
Proof.
  unfold assign.
  pres preserves_bind; [apply upd_task_grow|]. intros _.
  pres preserves_bind; [apply upd_task_grow|]. intros _.
  pres preserves_bind; [pres preserves_read|]. intros t.
  pres preserves_bind.
  { pres preserves_for_each. intros ?. apply upd_object_grow. intros y. cbn. set_solver. }
  intros _. pres preserves_bind.
  { pres preserves_for_each. intros ?. apply upd_object_grow. intros y. cbn. set_solver. }
  intros _. pres preserves_bind; [pres preserves_read|]. intros d.
  pres preserves_modify. intros s. by apply (grow_frame _ (set_assignments _)).
Qed.

Lemma schedule_grow policy u : preserves scheduled_grow (schedule policy u).
Proof.
  unfold schedule.
  pres preserves_bind; [pres preserves_read|]. intros d.
  pres preserves_bind; [|intros _; destruct d.2; [pres preserves_raise|pres preserves_ret]].
  pres preserves_for_each. intros c. unfold make_call.
  pres preserves_bind.
  { destruct (call_worker c); [|pres preserves_ret].
    pres preserves_bind; [pres preserves_read|]. intros w. pres preserves_ret. }
  intros w. pres preserves_bind; [pres preserves_read|]. intros task.
  apply assign_grow.
Qed.

End ScheduledGrow.

(** *** Which instance an object id names *)

#[local] Instance objects_kept_preorder K : PreOrder (objects_kept K).
Proof.
  split; [by intros s k r|]. intros s1 s2 s3 H12 H23 k r Hk Hr. by apply H23, H12.
Qed.

Lemma same_objects_kept {A} K (m : M Scheduler A) :
  preserves (same objects) m → preserves (objects_kept K) m.
Proof. intros Hm s k r Hk Hr. specialize (Hm s). unfold same in Hm. by rewrite Hm. Qed.

Lemma register_worker_same {X} (f : Scheduler → X) w :
  (∀ s l, f (set_workers l s) = f s) → preserves (same f) (register_worker w).
Proof.
  intros H1. unfold register_worker. pres preserves_bind; [pres preserves_read|].
  intros []; [pres preserves_raise|].
  pres preserves_bind; [|intros _; pres preserves_ret].
  pres preserves_modify. intros s. apply H1.
Qed.

Lemma update_bandwidth_same {X} (f : Scheduler → X) m :
  (∀ s l, f (set_network_bandwidth l s) = f s) → preserves (same f) (update_bandwidth m).
Proof.
  intros H1. unfold update_bandwidth. destruct (msg_network_bandwidth m); [|pres preserves_ret].
  pres preserves_bind; [pres preserves_read|]. intros []; [|pres preserves_ret].
  pres preserves_bind; [|intros _; pres preserves_ret].
  pres preserves_modify. intros s. apply H1.
Qed.

Lemma register_object_run o s :
  register_object o s =
    (Ok (length (data_objs s)),
     set_objects (<[om_id o := length (data_objs s)]> (objects s))
       (set_data_objs
          (data_objs s ++
             [SchedulerDataObject.init (om_id o) (om_expected_size o) (om_size o)]) s)).
Proof. done. Qed.

Lemma register_objects_kept K os :
  (∀ o, o ∈ os → om_id o ∈ K) →
  preserves (objects_kept K) (map_m register_object os).
Proof.
  induction os as [|o os IH]; intros HK; cbn [map_m]; [pres preserves_ret|].
  pres preserves_bind.
  - intros s. unfold state_after. rewrite register_object_run. cbn.
    intros k r Hk Hr. cbn. rewrite lookup_insert_ne; [done|].
    intros <-. apply Hk, HK. by left.
  - intros r. pres preserves_bind; [|intros rs; pres preserves_ret].
    apply IH. intros o' Ho'. apply HK. by right.
Qed.

(** The ids that a message registers name, afterwards, instances that
    the message made. *)
Lemma register_objects_new os : ∀ s rs s',
  map_m register_object os s = (Ok rs, s') →
  (length (data_objs s) ≤ length (data_objs s'))%nat ∧
  ∀ k, k ∈ om_id <$> os →
    ∃ r, objects s' !! k = Some r ∧ (length (data_objs s) ≤ r)%nat.
Proof.
  induction os as [|o os IH]; intros s rs s' Hrun.
  { injection Hrun as <- <-. split; [done|]. intros k Hk. by apply elem_of_nil in Hk. }
  cbn [map_m] in Hrun. apply bind_inv_ok in Hrun as (r0 & s1 & Hstep & Hrun).
  apply bind_inv_ok in Hrun as (rs' & s2 & Hrest & Hret). injection Hret as <- <-.
  rewrite register_object_run in Hstep. injection Hstep as <- <-.
  destruct (IH _ _ _ Hrest) as [Hlen Hnew]. cbn in Hlen. rewrite length_app in Hlen. cbn in Hlen.
  split; [lia|]. intros k Hk.
  destruct (decide (k ∈ om_id <$> os)) as [Hin|Hnotin].
  - destruct (Hnew k Hin) as (r & Hr & Hge). exists r. split; [done|].
    cbn in Hge. rewrite length_app in Hge. cbn in Hge. lia.
  - rewrite fmap_cons in Hk. apply elem_of_cons in Hk as [->|Hk]; [|done].
    exists (length (data_objs s)). split; [|done].
    eapply (preserves_ok (objects_kept (om_id <$> os))); [|exact Hrest|exact Hnotin|].
    + apply register_objects_kept. intros o' Ho'. apply list_elem_of_fmap. by exists o'.
    + cbn. apply lookup_insert_eq.
Qed.

Lemma after_objects_same {X} (f : Scheduler → X) message :
  (∀ s l, f (set_data_objs l s) = f s) → (∀ s l, f (set_task_objs l s) = f s) →
  (∀ s l, f (set_tasks l s) = f s) → (∀ s l, f (set_assignments l s) = f s) →
  ∀ (k : list (tref * bool) → list (tref * list tref) → Update),
  preserves (same f)
    (new_tasks <- map_m register_task (nonempty (msg_new_tasks message)) ;;
     finished <- map_m update_task (nonempty (msg_tasks_update message)) ;;
     for_each (nonempty (msg_objects_update message)) update_object ;;;
     modify (set_assignments (Some [])) ;;;
     ret (k new_tasks finished)).
Proof.
  intros H1 H2 H3 H4 k.
  pres preserves_bind; [pres preserves_map_m; intros ?; by apply register_task_same|].
  intros ts. pres preserves_bind; [pres preserves_map_m; intros ?; by apply update_task_same|].
  intros fin.
  pres preserves_bind; [pres preserves_for_each; intros ?; by apply update_object_same|].
  intros _. pres preserves_bind; [|intros _; pres preserves_ret].
  pres preserves_modify. intros s. apply H4.
Qed.

Lemma apply_update_kept message :
  preserves (objects_kept (om_id <$> nonempty (msg_new_objects message)))
    (apply_update message).
Proof.
  unfold apply_update.
  pres preserves_bind.
  { apply same_objects_kept. pres preserves_map_m. intros ?. by apply register_worker_same. }
  intros nw. pres preserves_bind.
  { apply same_objects_kept. by apply update_bandwidth_same. }
  intros nu. pres preserves_bind.
  { apply register_objects_kept. intros o Ho. apply list_elem_of_fmap. by exists o. }
  intros objs. apply same_objects_kept.
  by apply (after_objects_same objects message).
Qed.

Lemma apply_update_new message s u sA :
  apply_update message s = (Ok u, sA) →
  ∀ k, k ∈ om_id <$> nonempty (msg_new_objects message) →
    ∃ r, objects sA !! k = Some r ∧ (length (data_objs s) ≤ r)%nat.
Proof.
  intros Hrun k Hk. unfold apply_update in Hrun.
  apply bind_inv_ok in Hrun as (nw & sW & HW & Hrun).
  apply bind_inv_ok in Hrun as (nu & sB & HB & Hrun).
  apply bind_inv_ok in Hrun as (objs & sO & HO & Hrun).
  assert (data_objs sW = data_objs s) as HdW.
  { eapply (preserves_ok (same data_objs)); [|exact HW].
    pres preserves_map_m. intros ?. by apply register_worker_same. }
  assert (data_objs sB = data_objs sW) as HdB.
  { eapply (preserves_ok (same data_objs)); [|exact HB]. by apply update_bandwidth_same. }
  assert (objects sA = objects sO) as HoA.
  { eapply (preserves_ok (same objects)); [|exact Hrun].
    by apply (after_objects_same objects message). }
  destruct (register_objects_new _ _ _ _ HO) as [_ Hnew].
  destruct (Hnew k Hk) as (r & Hr & Hge). exists r. rewrite HoA. split; [done|].
  rewrite HdB, HdW in Hge. done.
Qed.

(** X5: the mirror never withdraws a worker from [scheduled].  For
    every scheduler and every message, after [send_message], returned
    or raised, every object instance is still there and its set
    [scheduled] contains what it contained before: [assign] adds the
    worker of an assignment and nothing removes one.  An object id that
    is not among the [new_objects] of the message names the instance
    that it named, so that the set [scheduled] of this id contains what
    it contained before.  An object id that is among the [new_objects]
    names, when [send_message] returns, an instance that the message
    made, whatever the id named before. *)
Theorem scheduled_only_grows policy message s :
  let s' := state_after (send_message policy message) s in
  let again := om_id <$> nonempty (msg_new_objects message) in
  scheduled_grow s s' ∧
  (∀ k S, k ∉ again → scheduled_of s k = Some S →
     ∃ S', scheduled_of s' k = Some S' ∧ S ⊆ S') ∧
  (∀ k, k ∈ again → is_ok (result_of (send_message policy message) s) = true →
     ∃ r, objects s' !! k = Some r ∧ data_objs s !! r = None).
Proof.
  intros s' again.
  assert (preserves scheduled_grow (send_message policy message)) as Hgrow.
  { unfold send_message. case_decide; [|pres preserves_raise].
    unfold process_update.
    pres preserves_bind; [apply apply_update_grow|]. intros u.
    pres preserves_bind; [apply schedule_grow|]. intros _. pres preserves_read. }
  assert (preserves (objects_kept again) (send_message policy message)) as Hkept.
  { unfold send_message. case_decide; [|pres preserves_raise].
    unfold process_update.
    pres preserves_bind; [apply apply_update_kept|]. intros u.
    pres preserves_bind; [apply same_objects_kept; by apply schedule_same|].
    intros _. pres preserves_read. }
  split_and!.
  - apply Hgrow.
  - intros k S Hk HS. unfold scheduled_of in *.
    destruct (objects s !! k) as [r|] eqn:Hr; [|done]. cbn in HS.
    destruct (data_objs s !! r) as [y|] eqn:Hy; [|done]. injection HS as <-.
    pose proof (Hkept s k r Hk Hr) as Hr'. fold s' in Hr'. rewrite Hr'. cbn.
    destruct (Hgrow s r y Hy) as (y' & Hy' & Hsub). fold s' in Hy'. rewrite Hy'.
    by eexists.
  - intros k Hk Hok. unfold s', state_after, result_of in *.
    destruct (send_message policy message s) as [[replies|e] s1] eqn:Hrun; [|done].
    destruct (send_message_inv _ _ _ _ _ Hrun) as (_ & u & sA & d & HA & HB & _ & _).
    destruct (apply_update_new message s u sA HA k Hk) as (r & Hr & Hge).
    exists r. cbn. split; [|by apply lookup_ge_None].
    assert (objects s1 = objects sA) as ->; [|done].
    eapply (preserves_ok (same objects)); [|exact HB]. by apply schedule_same.
Qed.

(** After the first update of [test_simulator_local_reassign], which left
    workers 1 and 2 in [scheduled] of the three objects, a message about
    a fourth object and a task that reads object 0 is answered by
    assigning this task to worker 0: the objects 0, 1 and 2 keep their
    workers and object 0 gains worker 0. *)
Lemma scheduled_only_grows_witness :
  let s := state_after (send_message local_reassign_policy local_reassign_message)
             (SchedulerBase_init true) in
  let message :=
    {| msg_type := "update"; msg_new_workers := None; msg_network_bandwidth := None;
       msg_new_objects := Some [mkObjectMsg 3 (Some 1) None];
       msg_new_tasks := Some [mkTaskMsg 3 [0%nat] [3%nat] None 1];
       msg_tasks_update := None; msg_objects_update := None |} in
  let policy : Policy := λ _ _, ([mkAssignCall (Some 0%nat) 3 None None], None) in
  let s' := state_after (send_message policy message) s in
  scheduled_of s 0 = Some {[Some (mkWorker 1 1); Some (mkWorker 2 1)]} ∧
  ∃ S', scheduled_of s' 0 = Some S' ∧
        ({[Some (mkWorker 1 1); Some (mkWorker 2 1)]} : gset (option SchedulerWorker)) ⊆ S'.
Proof.
  intros s message policy s'.
  assert (scheduled_of s 0 = Some {[Some (mkWorker 1 1); Some (mkWorker 2 1)]}) as Hbefore
    by (vm_compute; reflexivity).
  split; [exact Hbefore|].
  destruct (scheduled_only_grows policy message s) as (_ & Hid & _).
  apply (Hid 0%nat); [|exact Hbefore].
  cbn. intros Hin%list_elem_of_singleton. discriminate.
Defined.

(** *** Registering workers *)

Lemma register_worker_new w s :
  workers s !! wm_id w = None →
  register_worker w s = (Ok (worker_of w), set_workers (<[wm_id w := worker_of w]> (workers s)) s).
Proof.
  intros Hw. unfold register_worker, Py.bind, read, modify.
  rewrite bool_decide_false; [done|]. rewrite Hw. by intros [].
Qed.

Lemma register_worker_known w s :
  is_Some (workers s !! wm_id w) →
  register_worker w s =
    (Raise (Exception "Registering already registered worker '{}'"), s).
Proof.
  intros Hw. unfold register_worker, Py.bind, read. by rewrite bool_decide_true.
Qed.

Lemma register_workers_run ws : ∀ s,
  (registrable ws s ∧
   map_m register_worker ws s =
     (Ok (worker_of <$> ws),
      set_workers (list_to_map ((λ w, (wm_id w, worker_of w)) <$> ws) ∪ workers s) s)) ∨
  (¬ registrable ws s ∧
   ∃ s', map_m register_worker ws s =
           (Raise (Exception "Registering already registered worker '{}'"), s') ∧
         workers_stay s s').
Proof.
  induction ws as [|w ws IH]; intros s.
  { left. split; [split; [constructor|by intros w ?%elem_of_nil]|].
    cbn. rewrite (left_id ∅ (∪)). by destruct s. }
  destruct (workers s !! wm_id w) as [old|] eqn:Hw.
  - right. split.
    + intros [_ Hfresh]. specialize (Hfresh w (list_elem_of_here _ _)). congruence.
    + exists s. split; [|done]. cbn [map_m]. apply bind_raise.
      apply register_worker_known. by exists old.
  - set (s1 := set_workers (<[wm_id w := worker_of w]> (workers s)) s).
    pose proof (register_worker_new w s Hw) as Hstep. fold s1 in Hstep.
    destruct (IH s1) as [[[Hnd Hfresh] Hrun]|[Hno (s' & Hrun & Hstay)]].
    + assert (wm_id w ∉ wm_id <$> ws) as Hnotin.
      { intros (w' & Hid & Hin)%list_elem_of_fmap. specialize (Hfresh w' Hin).
        cbn in Hfresh. rewrite <- Hid, lookup_insert_eq in Hfresh. done. }
      left. split.
      * split; [by constructor|]. intros w' [->|Hin]%elem_of_cons; [done|].
        specialize (Hfresh w' Hin). cbn in Hfresh.
        destruct (decide (wm_id w' = wm_id w)) as [Heq|Hne].
        -- rewrite Heq, lookup_insert_eq in Hfresh. done.
        -- by rewrite lookup_insert_ne in Hfresh.
      * cbn [map_m]. rewrite (bind_ok _ _ _ _ _ Hstep), (bind_ok _ _ _ _ _ Hrun).
        unfold s1, set_workers. cbn [workers tasks objects task_objs data_objs
          network_bandwidth assignments reassigning ret Py.bind fmap list_fmap].
        unfold ret. do 2 f_equal. rewrite list_to_map_cons, <- insert_union_l.
        rewrite insert_union_r; [done|]. apply not_elem_of_list_to_map_1.
        by rewrite <- list_fmap_compose.
    + right. split.
      * intros [Hnd Hfresh]. apply Hno. apply NoDup_cons in Hnd as [Hnotin Hnd].
        split; [done|]. intros w' Hin. cbn.
        rewrite lookup_insert_ne; [apply Hfresh; by right|].
        intros Heq. apply Hnotin. apply list_elem_of_fmap. by exists w'.
      * exists s'. split.
        -- cbn [map_m]. rewrite (bind_ok _ _ _ _ _ Hstep). by apply bind_raise.
        -- intros k Hk. apply Hstay. cbn.
           destruct (decide (k = wm_id w)) as [->|Hne];
             [by rewrite lookup_insert_eq | by rewrite lookup_insert_ne].
Qed.

(** The loop stops at the first worker whose id is known or was seen
    earlier in the message; the workers before it are registered. *)
Lemma register_workers_stop pre : ∀ s w post,
  registrable pre s →
  is_Some (workers s !! wm_id w) ∨ wm_id w ∈ wm_id <$> pre →
  map_m register_worker (pre ++ w :: post) s =
    (Raise (Exception "Registering already registered worker '{}'"),
     set_workers (list_to_map ((λ w, (wm_id w, worker_of w)) <$> pre) ∪ workers s) s).
Proof.
  induction pre as [|p pre IH]; intros s w post [Hnd Hfresh] Hknown.
  { destruct Hknown as [Hknown|Hin]; [|by apply elem_of_nil in Hin].
    cbn [app map_m]. rewrite (bind_raise _ _ _ _ _ (register_worker_known w s Hknown)).
    cbn. rewrite (left_id ∅ (∪)). by destruct s. }
  rewrite fmap_cons in Hnd. apply NoDup_cons in Hnd as [Hnotin Hnd].
  assert (workers s !! wm_id p = None) as Hp by (apply Hfresh; by left).
  set (s1 := set_workers (<[wm_id p := worker_of p]> (workers s)) s).
  pose proof (register_worker_new p s Hp) as Hstep. fold s1 in Hstep.
  assert (registrable pre s1) as Hpre.
  { split; [done|]. intros w' Hin. cbn.
    rewrite lookup_insert_ne; [apply Hfresh; by right|].
    intros Heq. apply Hnotin. apply list_elem_of_fmap. by exists w'. }
  assert (is_Some (workers s1 !! wm_id w) ∨ wm_id w ∈ wm_id <$> pre) as Hknown1.
  { cbn. destruct (decide (wm_id w = wm_id p)) as [->|Hne].
    - left. by rewrite lookup_insert_eq.
    - rewrite lookup_insert_ne by done. rewrite fmap_cons in Hknown.
      destruct Hknown as [Hknown|[Heq|Hin]%elem_of_cons]; [by left|done|by right]. }
  cbn [app map_m]. rewrite (bind_ok _ _ _ _ _ Hstep).
  rewrite (bind_raise _ _ _ _ _ (IH s1 w post Hpre Hknown1)).
  unfold s1, set_workers. cbn [workers tasks objects task_objs data_objs
    network_bandwidth assignments reassigning fmap list_fmap].
  do 2 f_equal. rewrite list_to_map_cons, <- insert_union_l.
  rewrite insert_union_r; [done|]. apply not_elem_of_list_to_map_1.
  by rewrite <- list_fmap_compose.
Qed.

(** A list of workers that cannot be registered has a first worker at
    which the loop stops. *)
Lemma not_registrable_split ws s :
  ¬ registrable ws s →
  ∃ pre w post, ws = pre ++ w :: post ∧ registrable pre s ∧
    (is_Some (workers s !! wm_id w) ∨ wm_id w ∈ wm_id <$> pre).
Proof.
  induction ws as [|x ws IH] using rev_ind; intros Hno.
  { exfalso. apply Hno. split; [constructor|]. by intros w ?%elem_of_nil. }
  destruct (register_workers_run ws s) as [[Hyes _]|[Hno' _]].
  - exists ws, x, []. split; [done|]. split; [done|].
    destruct (workers s !! wm_id x) as [old|] eqn:Hx; [left; by exists old|].
    destruct (decide (wm_id x ∈ wm_id <$> ws)) as [Hin|Hnotin]; [by right|].
    exfalso. apply Hno. destruct Hyes as [Hnd Hfresh]. split.
    + rewrite fmap_app. apply NoDup_app. split; [done|]. split; [|apply NoDup_singleton].
      intros k Hk ->%list_elem_of_singleton. done.
    + intros w [Hw| ->%list_elem_of_singleton]%elem_of_app; [by apply Hfresh|done].
  - destruct (IH Hno') as (pre & w & post & -> & Hpre & Hknown).
    exists pre, w, (post ++ [x]). split; [|done]. by rewrite <- app_assoc.
Qed.

(** X6: workers register once.  The workers of a message are
    registered, in order, exactly when no id is repeated in the message
    and none is known to the mirror; then the mirror knows the old
    workers and the new ones and nothing else is changed.  Otherwise the
    loop stops at the first worker whose id is known to the mirror or
    was announced earlier in the message: "Registering already
    registered worker" is raised, the workers that the message announced
    before this one are registered with the old ones, and nothing else
    is changed. *)
Theorem workers_register_once ws s :
  (registrable ws s ↔ is_ok (result_of (map_m register_worker ws) s) = true) ∧
  (registrable ws s →
   map_m register_worker ws s =
     (Ok (worker_of <$> ws),
      set_workers (list_to_map ((λ w, (wm_id w, worker_of w)) <$> ws) ∪ workers s) s)) ∧
  (∀ pre w post, ws = pre ++ w :: post → registrable pre s →
   is_Some (workers s !! wm_id w) ∨ wm_id w ∈ wm_id <$> pre →
   map_m register_worker ws s =
     (Raise (Exception "Registering already registered worker '{}'"),
      set_workers (list_to_map ((λ w, (wm_id w, worker_of w)) <$> pre) ∪ workers s) s)) ∧
  (¬ registrable ws s →
   ∃ pre w post, ws = pre ++ w :: post ∧ registrable pre s ∧
     (is_Some (workers s !! wm_id w) ∨ wm_id w ∈ wm_id <$> pre)).
Proof.
  split_and!.
  - unfold result_of.
    destruct (register_workers_run ws s) as [[Hyes Hrun]|[Hno (s' & Hrun & Hstay)]];
      rewrite Hrun; cbn; split; done.
  - intros Hyes.
    by destruct (register_workers_run ws s) as [[_ Hrun]|[Hno _]].
  - intros pre w post -> Hpre Hknown. by apply register_workers_stop.
  - apply not_registrable_split.
Qed.

Lemma workers_register_once_witness :
  let ws := [mkWorkerMsg 0 1; mkWorkerMsg 1 2; mkWorkerMsg 0 4; mkWorkerMsg 3 1] in
  let s := SchedulerBase_init false in
  map_m register_worker ws s =
    (Raise (Exception "Registering already registered worker '{}'"),
     set_workers {[ 0%nat := mkWorker 0 1; 1%nat := mkWorker 1 2 ]} s).
Proof.
  intros ws s.
  destruct (workers_register_once ws s) as (_ & _ & Hstop & _).
  rewrite (Hstop [mkWorkerMsg 0 1; mkWorkerMsg 1 2] (mkWorkerMsg 0 4) [mkWorkerMsg 3 1]).
  - vm_compute. reflexivity.
  - reflexivity.
  - split.
    + cbn. apply NoDup_cons. split; [|apply NoDup_singleton].
      intros Hin%list_elem_of_singleton. discriminate.
    + intros w _. reflexivity.
  - right. cbn. apply elem_of_cons. left. reflexivity.
Defined.

(** *** Unknown ids *)

(** A list comprehension that only reads either gives all its values or
    raises what the first failing element raises; the state stays. *)
Lemma map_m_read_cases {S A B} (f : A → S → outcome B) (l : list A) (s : S) :
  (∃ bs, map_m (λ a, read (f a)) l s = (Ok bs, s) ∧ Forall2 (λ a b, f a s = Ok b) l bs) ∨
  (∃ a e, a ∈ l ∧ f a s = Raise e ∧ map_m (λ a, read (f a)) l s = (Raise e, s)).
Proof.
  induction l as [|a l IH].
  { left. exists []. by split; [|constructor]. }
  destruct (f a s) as [b|e] eqn:Ha.
  - destruct IH as [(bs & Hrun & Hall)|(a' & e & Hin & He & Hrun)].
    + left. exists (b :: bs). split; [|by constructor].
      cbn [map_m]. unfold Py.bind at 1. unfold read at 1. rewrite Ha.
      unfold Py.bind. by rewrite Hrun.
    + right. exists a', e. split_and!; [by right|done|].
      cbn [map_m]. unfold Py.bind at 1. unfold read at 1. rewrite Ha.
      unfold Py.bind. by rewrite Hrun.
  - right. exists a, e. split_and!; [by left|done|].
    cbn [map_m]. unfold Py.bind at 1. unfold read at 1. by rewrite Ha.
Qed.

Lemma items_cases {V} (d : Scheduler → gmap nat V) (l : list nat) (s : Scheduler) :
  (∃ vs, map_m (λ k, read (λ s, item (d s) k)) l s = (Ok vs, s) ∧
         Forall2 (λ k v, d s !! k = Some v) l vs) ∨
  ((∃ k, k ∈ l ∧ d s !! k = None) ∧
   map_m (λ k, read (λ s, item (d s) k)) l s = (Raise KeyError, s)).
Proof.
  destruct (map_m_read_cases (λ k s, item (d s) k) l s)
    as [(vs & Hrun & Hall)|(k & e & Hin & He & Hrun)].
  - left. exists vs. split; [done|]. eapply Forall2_impl; [done|].
    intros k v. unfold item. by destruct (d s !! k) as [v'|]; [intros [= ->]|].
  - right. unfold item in He. destruct (d s !! k) eqn:Hk; [done|].
    injection He as <-. split; [by exists k|done].
Qed.

(** X7: a task cannot be registered before its objects.  When a task
    of [new_tasks] names, as an input or as an output, an object id that
    is not in [task_graph.objects], [KeyError] is raised and nothing of
    this task is registered: the mirror is as it was before the task. *)
Theorem register_task_unknown_object t s o :
  o ∈ tm_inputs t ++ tm_outputs t → objects s !! o = None →
  register_task t s = (Raise KeyError, s).
Proof.
  intros Ho Hnone. unfold register_task.
  destruct (items_cases objects (tm_inputs t) s) as [(ins & Hrun & Hins)|[_ Hrun]];
    [|by apply bind_raise].
  rewrite (bind_ok _ _ _ _ _ Hrun).
  destruct (items_cases objects (tm_outputs t) s) as [(outs & Hrun' & Houts)|[_ Hrun']];
    [|by apply bind_raise].
  exfalso. apply elem_of_app in Ho as [Ho|Ho].
  - apply list_elem_of_lookup_1 in Ho as [i Hi].
    destruct (Forall2_lookup_l _ _ _ _ _ Hins Hi) as (v & _ & Hv). congruence.
  - apply list_elem_of_lookup_1 in Ho as [i Hi].
    destruct (Forall2_lookup_l _ _ _ _ _ Houts Hi) as (v & _ & Hv). congruence.
Qed.

Lemma register_task_unknown_object_witness :
  register_task (mkTaskMsg 0 [3%nat] [] None 1) (SchedulerBase_init false) =
    (Raise KeyError, SchedulerBase_init false).
Proof.
  apply (register_task_unknown_object _ _ 3%nat).
  - apply list_elem_of_singleton. reflexivity.
  - reflexivity.
Defined.

(** X8: what a refused [tasks_update] leaves behind.  An entry whose
    state is not [Finished] raises [AssertionError], and an entry for an
    unknown task id raises [KeyError]; both leave the mirror as it was.
    An entry for a known task and an unknown worker raises [KeyError]
    after the task has been marked [Finished]: the mark stays. *)
Theorem update_task_refused tu s :
  (tu_state tu ≠ Finished → update_task tu s = (Raise AssertionError, s)) ∧
  (tu_state tu = Finished → tasks s !! tu_id tu = None →
   update_task tu s = (Raise KeyError, s)) ∧
  (∀ r x, tu_state tu = Finished → tasks s !! tu_id tu = Some r →
   task_objs s !! r = Some x → workers s !! tu_worker tu = None →
   update_task tu s =
     (Raise KeyError,
      set_task_objs (<[r := SchedulerTask.set_state Finished x]> (task_objs s)) s)).
Proof.
  split_and!.
  - intros Hs. unfold update_task. by rewrite bool_decide_false.
  - intros Hs Ht. unfold update_task. rewrite bool_decide_true by done.
    unfold assert, Py.bind at 1, ret. apply bind_raise. unfold read, item. by rewrite Ht.
  - intros r x Hs Ht Hx Hw. unfold update_task. rewrite bool_decide_true by done.
    unfold assert, Py.bind at 1, ret. unfold Py.bind at 1. unfold read at 1, item at 1.
    rewrite Ht. unfold Py.bind at 1.
    unfold upd_task, Py.bind at 1, read at 1, get_task at 1. rewrite Hx. cbn [modify].
    apply bind_raise. unfold read, item. cbn. by rewrite Hw.
Qed.

Lemma update_task_refused_witness :
  let s := state_after (register_task (mkTaskMsg 0 [] [] None 1)) (SchedulerBase_init false) in
  let tu := mkTaskUpdateMsg 0 Finished 7 in
  update_task tu s =
    (Raise KeyError,
     set_task_objs (<[0%nat := SchedulerTask.set_state Finished
                                 (SchedulerTask.init 0 [] [] None 1)]> (task_objs s)) s).
Proof.
  intros s tu. apply (update_task_refused tu s); reflexivity.
Defined.

(** *** [stop] *)

Section MovedWorkers.

Variables (dt dx : nat) (old_tasks old_objects : gmap nat nat).

#[local] Abbreviation R := (moved dt dx old_tasks old_objects).

Lemma simulates_register_worker wa w :
  simulates (R wa) (R wa) eq (register_worker w) (register_worker w).
Proof.
  intros s s' a t Hs Hrun. pose proof Hs as [].
  destruct (workers s !! wm_id w) as [old|] eqn:Hw.
  - rewrite register_worker_known in Hrun by by exists old. discriminate.
  - rewrite register_worker_new in Hrun by done. injection Hrun as <- <-.
    eexists _, _. split; [apply register_worker_new; by rewrite moved_workers0|].
    split; [|done]. constructor; try done. cbn. by rewrite moved_workers0.
Qed.

Lemma simulates_update_bandwidth wa message :
  simulates (R wa) (R wa) eq (update_bandwidth message) (update_bandwidth message).
Proof.
  intros s s' a t Hs Hrun. pose proof Hs as [].
  unfold update_bandwidth in *. destruct (msg_network_bandwidth message) as [b|].
  - unfold Py.bind, read in *. rewrite moved_bandwidth0.
    destruct (bool_decide (Some b ≠ network_bandwidth s)); cbn in *.
    + injection Hrun as <- <-. eexists _, _. split; [done|]. split; [|done].
      by constructor.
    + injection Hrun as <- <-. by eexists _, _.
  - injection Hrun as <- <-. by eexists _, _.
Qed.

Lemma simulates_apply_update_workers message :
  nonempty (msg_tasks_update message) = [] →
  simulates (R false) (R true) (moved_update dt dx)
    (apply_update message) (apply_update message).
Proof.
  intros Hu. unfold apply_update. rewrite Hu. cbn [map_m].
  eapply simulates_bind.
  { eapply (simulates_map_m _ eq eq); [apply Forall_Forall2_diag, Forall_true; done|].
    intros w _ <-. apply simulates_register_worker. }
  intros nw nw' ->%list_eq_Forall2.
  eapply simulates_bind; [apply simulates_update_bandwidth|].
  intros nu _ <-. eapply simulates_bind.
  { eapply (simulates_map_m _ eq); [apply Forall_Forall2_diag, Forall_true; done|].
    intros o _ <-. apply simulates_register_object. }
  intros objs objs' ->%Forall2_moved_fmap. eapply simulates_bind.
  { eapply (simulates_map_m _ eq); [apply Forall_Forall2_diag, Forall_true; done|].
    intros t _ <-. apply simulates_register_task. }
  intros ts ts' Hts.
  assert (ts' = (λ p, ((dt + p.1)%nat, p.2)) <$> ts) as ->.
  { clear -Hts. induction Hts as [|p p' l l' -> _ IH]; csimpl; [done|]. by rewrite IH. }
  eapply simulates_bind; [by apply (simulates_ret _ (λ a a', a = [] ∧ a' = []))|].
  intros fin fin' [-> ->]. eapply simulates_bind.
  { eapply (simulates_for_each _ eq); [apply Forall_Forall2_diag, Forall_true; done|].
    intros ou _ <-. apply simulates_update_object. }
  intros _ _ _.
  eapply (simulates_bind _ (R true) _ (λ _ _, True)).
  { apply simulates_modify. intros s s' []. constructor; try done. }
  intros _ _ _. apply simulates_ret. unfold moved_update. simpl.
  split_and!; try done.
  - by rewrite <- !list_fmap_compose.
  - simpl. rewrite !app_nil_r. clear. induction ts as [|[r []] ts IH]; csimpl; [done| |done].
    by rewrite IH.
Qed.

End MovedWorkers.

(** X9: [stop] makes the mirror as good as new.  Whatever the mirror
    has seen, after [stop()] (with cleanup enabled) a message that a new
    mirror accepts -- workers, bandwidth, objects and tasks, without
    [tasks_update] -- is taken in as by a new mirror: the mirror then
    looks the same as the new mirror at that point and the scheduler is
    given the same update.  [stop] does not touch what a scheduler keeps
    of its own: [policy] is what the scheduler does on the new mirror
    and [policy'] what it does after [stop]; if it decides the same (as
    a scheduler does whose [schedule] depends on the mirror and on the
    update only), the message gets the same reply and leaves a mirror
    that looks the same as the new one after the message. *)
Theorem stop_resets_the_mirror policy policy' message reassigning replies s1 s :
  send_message policy message (SchedulerBase_init reassigning) = (Ok replies, s1) →
  nonempty (msg_tasks_update message) = [] →
  ∃ u sA u' sA',
    apply_update message (SchedulerBase_init reassigning) = (Ok u, sA) ∧
    apply_update message (state_after (stop false) s) = (Ok u', sA') ∧
    view sA' = view sA ∧ view_update sA' u' = view_update sA u ∧
    (policy' (view sA) (view_update sA u) = policy (view sA) (view_update sA u) →
     ∃ s2, send_message policy' message (state_after (stop false) s) = (Ok replies, s2) ∧
           view s2 = view s1).
Proof.
  intros Hfirst Hu.
  destruct (send_message_inv _ _ _ _ _ Hfirst) as (Htype & u & sA & d & HA & HB & Hd & ->).
  set (dt := length (task_objs s)). set (dx := length (data_objs s)).
  assert (moved dt dx ∅ ∅ false (SchedulerBase_init reassigning)
            (state_after (stop false) s)) as Hstart.
  { constructor; try done.
    - exists (task_objs s). by rewrite app_nil_r.
    - exists (data_objs s). by rewrite app_nil_r. }
  destruct (simulates_apply_update_workers dt dx ∅ ∅ message Hu _ _ u sA Hstart HA)
    as (u' & sA' & HA' & HmA & Hmu).
  exists u, sA, u', sA'. split_and!; [done|done|by eapply moved_view| |].
  { by eapply (moved_view_update dt dx true sA sA'). }
  intros Hsame.
  destruct (schedule_follows dt dx policy policy' u u' sA sA' s1 Hmu HmA Hsame HB)
    as (s2 & HB' & HmB).
  exists s2. split; [|by eapply moved_view].
  unfold send_message. rewrite decide_True by done. unfold process_update.
  rewrite (bind_ok _ _ _ _ _ HA'), (bind_ok _ _ _ _ _ HB'). unfold read.
  rewrite (moved_assignments _ _ _ _ _ _ _ HmB eq_refl), Hd. simpl.
  do 2 f_equal. rewrite <- list_fmap_compose. by apply list_fmap_ext.
Qed.

Lemma stop_resets_the_mirror_witness :
  let s := state_after (send_message local_reassign_policy local_reassign_message)
             (SchedulerBase_init true) in
  ∃ s2, send_message local_reassign_policy local_reassign_message
          (state_after (stop false) s) =
          (Ok [mkAssignment (Some 2%nat) 2 None None], s2) ∧
        view s2 = view s.
Proof.
  intros s.
  destruct (stop_resets_the_mirror local_reassign_policy local_reassign_policy
              local_reassign_message true [mkAssignment (Some 2%nat) 2 None None] s s)
    as (u & sA & u' & sA' & _ & _ & _ & _ & Hsame).
  - vm_compute. reflexivity.
  - reflexivity.
  - apply Hsame. reflexivity.
Defined.

(** [stop] leaves the scheduler's own state alone: a scheduler that
    counts its calls, assigning nothing at the first and withdrawing the
    ready tasks at the second, gives after [stop] another reply than on
    a new mirror. *)
Lemma stop_keeps_the_state_of_the_scheduler :
  let first := send_message do_nothing graph_only_message (SchedulerBase_init false) in
  let again := send_message withdraw_ready graph_only_message
                 (state_after (stop false) first.2) in
  first.1 = Ok [] ∧ again.1 = Ok [mkAssignment None 0 None None].
Proof. vm_compute. by split. Qed.

(** *** [assign] and the reply *)

Lemma dict_set_keys (k : tref) v (d : list (tref * Assignment)) :
  (dict_set k v d).*1 = if decide (k ∈ d.*1) then d.*1 else d.*1 ++ [k].
Proof.
  induction d as [|[k' v'] d IH]; [done|]. cbn [dict_set].
  destruct (decide (k' = k)) as [->|Hne].
  - rewrite decide_True by (cbn; left). done.
  - cbn. rewrite IH. destruct (decide (k ∈ d.*1)) as [Hin|Hnin].
    + by rewrite decide_True by by right.
    + rewrite decide_False; [done|]. intros [?|?]%elem_of_cons; [congruence|done].
Qed.

Lemma dict_set_elem (k : tref) v (d : list (tref * Assignment)) k' v' :
  NoDup d.*1 →
  (k', v') ∈ dict_set k v d ↔ (k' = k ∧ v' = v) ∨ (k' ≠ k ∧ (k', v') ∈ d).
Proof.
  induction d as [|[k0 v0] d IH]; intros Hnd.
  { cbn. rewrite list_elem_of_singleton. split.
    - intros [= -> ->]. by left.
    - intros [[-> ->]|[_ ?%elem_of_nil]]; done. }
  apply NoDup_cons in Hnd as [Hk0 Hnd]. cbn [dict_set].
  destruct (decide (k0 = k)) as [->|Hne].
  - rewrite !elem_of_cons. split.
    + intros [[= -> ->]|Hin]; [by left|]. right. split; [|by right].
      intros ->. apply Hk0. apply list_elem_of_fmap. by exists (k, v').
    + intros [[-> ->]|[Hne [[= ? ?]|Hin]]]; [by left|done|by right].
  - rewrite !elem_of_cons, (IH Hnd). split.
    + intros [[= -> ->]|[[-> ->]|[Hne' Hin]]]; [right|by left|right].
      * split; [done|by left].
      * split; [done|by right].
    + intros [[-> ->]|[Hne' [[= -> ->]|Hin]]]; [right; by left|by left|].
      right. right. done.
Qed.

Lemma scheduled_added (w : option SchedulerWorker) (l : list oref) : ∀ st,
  (∀ o, o ∈ l → is_Some (data_objs st !! o)) →
  ∃ st', for_each l (λ o, upd_object o (λ x,
           SchedulerDataObject.set_scheduled (SchedulerDataObject.scheduled x ∪ {[w]}) x)) st
         = (Ok tt, st') ∧
    task_objs st' = task_objs st ∧ assignments st' = assignments st ∧
    length (data_objs st') = length (data_objs st) ∧
    scheduled_grow st st' ∧
    ∀ o, o ∈ l → ∃ y, data_objs st' !! o = Some y ∧ w ∈ SchedulerDataObject.scheduled y.
Proof.
  induction l as [|o l IH]; intros st Hl.
  { exists st. split_and!; try done. by intros o ?%elem_of_nil. }
  destruct (Hl o) as [y Hy]; [left|].
  set (f := λ x, SchedulerDataObject.set_scheduled
                   (SchedulerDataObject.scheduled x ∪ {[w]}) x).
  set (st1 := set_data_objs (<[o := f y]> (data_objs st)) st).
  assert (upd_object o f st = (Ok tt, st1)) as Hstep.
  { unfold upd_object, Py.bind, read, get_object, modify. by rewrite Hy. }
  assert (scheduled_grow st st1) as Hgrow1.
  { pose proof (upd_object_grow o f) as Hg. unfold preserves, state_after in Hg.
    specialize (Hg ltac:(intros ?; cbn; set_solver) st). by rewrite Hstep in Hg. }
  destruct (IH st1) as (st' & Hrun & HT & HA & Hlen & Hgrow & Hin).
  { intros o' Ho'. apply lookup_lt_is_Some. cbn. rewrite length_insert.
    apply lookup_lt_is_Some, Hl. by right. }
  exists st'. split_and!.
  - cbn [for_each]. by rewrite (bind_ok _ _ _ _ _ Hstep).
  - by rewrite HT.
  - by rewrite HA.
  - rewrite Hlen. cbn. by rewrite length_insert.
  - by etrans.
  - intros o' [->|Ho']%elem_of_cons; [|by apply Hin].
    destruct (Hgrow o (f y)) as (y' & Hy' & Hsub).
    { cbn. apply list_lookup_insert_eq. by eapply lookup_lt_Some. }
    exists y'. split; [done|]. apply Hsub. cbn. set_solver.
Qed.

(** X10: what [assign] does.  For a task whose objects are there,
    inside an update: the task becomes [Assigned] and its
    [scheduled_worker] is the worker; the worker is added to
    [scheduled] of every input and output, and no set [scheduled] loses
    a worker; the reply dictionary has one record for the task, made of
    the worker id (or [None]) and the task id with this priority and
    blocking, at the place where the task stood if it was assigned
    before in this update and at the end otherwise; the records of the
    other tasks are kept. *)
Theorem assign_records_the_last_assignment worker task priority blocking s x d :
  task_objs s !! task = Some x →
  (∀ o, o ∈ SchedulerTask.inputs x ++ SchedulerTask.outputs x →
        is_Some (data_objs s !! o)) →
  assignments s = Some d → NoDup d.*1 →
  let record := mkAssignment (worker_id <$> worker) (SchedulerTask.id x) priority blocking in
  ∃ s' d', assign worker task priority blocking s = (Ok tt, s') ∧
    task_objs s' !! task =
      Some (SchedulerTask.set_scheduled_worker worker (SchedulerTask.set_state Assigned x)) ∧
    scheduled_grow s s' ∧
    (∀ o, o ∈ SchedulerTask.inputs x ++ SchedulerTask.outputs x →
       ∃ y, data_objs s' !! o = Some y ∧ worker ∈ SchedulerDataObject.scheduled y) ∧
    assignments s' = Some d' ∧ NoDup d'.*1 ∧
    (∀ a, (task, a) ∈ d' ↔ a = record) ∧
    (∀ t a, t ≠ task → (t, a) ∈ d' ↔ (t, a) ∈ d) ∧
    d'.*1 = if decide (task ∈ d.*1) then d.*1 else d.*1 ++ [task].
Proof.
  intros Hx Hobjs Hd Hnd record.
  set (x2 := SchedulerTask.set_scheduled_worker worker (SchedulerTask.set_state Assigned x)).
  set (s2 := set_task_objs (<[task := x2]> (task_objs s)) s).
  assert (∀ k : unit → M Scheduler unit,
    (upd_task task (SchedulerTask.set_state Assigned) ;;;
     upd_task task (SchedulerTask.set_scheduled_worker worker) ;;; k tt) s = k tt s2) as Hpre.
  { intros k. unfold upd_task, Py.bind, read, get_task, modify. rewrite Hx. cbn.
    rewrite list_lookup_insert_eq by by eapply lookup_lt_Some. cbn.
    by rewrite list_insert_insert_eq. }
  assert (task_objs s2 !! task = Some x2) as Hx2.
  { cbn. apply list_lookup_insert_eq. by eapply lookup_lt_Some. }
  destruct (scheduled_added worker (SchedulerTask.inputs x) s2)
    as (s3 & Hrun3 & HT3 & HA3 & Hlen3 & Hgrow3 & Hin3).
  { intros o Ho. apply Hobjs, elem_of_app. by left. }
  destruct (scheduled_added worker (SchedulerTask.outputs x) s3)
    as (s4 & Hrun4 & HT4 & HA4 & Hlen4 & Hgrow4 & Hin4).
  { intros o Ho. apply lookup_lt_is_Some. rewrite Hlen3.
    apply lookup_lt_is_Some, Hobjs, elem_of_app. by right. }
  exists (set_assignments (Some (dict_set task record d)) s4), (dict_set task record d).
  split_and!.
  - unfold assign.
    rewrite (Hpre (λ _, t <- read (λ s, get_task s task) ;; _)).
    unfold Py.bind at 1. unfold read at 1, get_task. rewrite Hx2.
    cbn [x2 SchedulerTask.inputs SchedulerTask.outputs SchedulerTask.id
         SchedulerTask.set_scheduled_worker SchedulerTask.set_state].
    rewrite (bind_ok _ _ _ _ _ Hrun3), (bind_ok _ _ _ _ _ Hrun4).
    unfold Py.bind, read, modify. rewrite HA4, HA3. unfold s2. cbn [assignments set_task_objs].
    by rewrite Hd.
  - cbn. by rewrite HT4, HT3.
  - etrans; [|etrans; [exact Hgrow3|]].
    + by apply (grow_frame _ (set_task_objs _)).
    + etrans; [exact Hgrow4|]. by apply (grow_frame _ (set_assignments _)).
  - intros o [Ho|Ho]%elem_of_app; cbn.
    + destruct (Hin3 o Ho) as (y & Hy & Hw). destruct (Hgrow4 o y Hy) as (y' & Hy' & Hsub).
      exists y'. split; [done|]. by apply Hsub.
    + by apply Hin4.
  - done.
  - rewrite dict_set_keys. case_decide; [done|]. apply NoDup_app. split_and!; [done| |].
    + intros k Hk ->%list_elem_of_singleton. done.
    + apply NoDup_singleton.
  - intros a. rewrite (dict_set_elem _ _ _ _ _ Hnd). split.
    + by intros [[_ ->]|[? _]].
    + intros ->. by left.
  - intros t a Hne. rewrite (dict_set_elem _ _ _ _ _ Hnd). split.
    + by intros [[? _]|[_ ?]].
    + intros Hin. by right.
  - apply dict_set_keys.
Qed.

Lemma assign_records_the_last_assignment_witness :
  let s := state_after (send_message local_reassign_policy local_reassign_message)
             (SchedulerBase_init true) in
  let w0 := Some (mkWorker 0 1) in
  let x := SchedulerTask.mk 2 [1%nat; 0%nat] [2%nat] None 1 Assigned
             (Some (mkWorker 2 1)) None 2 in
  let d := [(2%nat, mkAssignment (Some 2%nat) 2 None None)] in
  let record := mkAssignment (Some 0%nat) 2 (Some 5) None in
  ∃ s' d', assign w0 2%nat (Some 5) None s = (Ok tt, s') ∧
    task_objs s' !! 2%nat =
      Some (SchedulerTask.set_scheduled_worker w0 (SchedulerTask.set_state Assigned x)) ∧
    scheduled_grow s s' ∧
    (∀ o, o ∈ SchedulerTask.inputs x ++ SchedulerTask.outputs x →
       ∃ y, data_objs s' !! o = Some y ∧ w0 ∈ SchedulerDataObject.scheduled y) ∧
    assignments s' = Some d' ∧ NoDup d'.*1 ∧
    (∀ a, (2%nat, a) ∈ d' ↔ a = record) ∧
    (∀ t a, t ≠ 2%nat → (t, a) ∈ d' ↔ (t, a) ∈ d) ∧
    d'.*1 = if decide (2%nat ∈ d.*1) then d.*1 else d.*1 ++ [2%nat].
Proof.
  intros s w0 x d record.
  apply (assign_records_the_last_assignment w0 2%nat (Some 5) None s x d).
  - vm_compute. reflexivity.
  - intros o Ho. apply lookup_lt_is_Some.
    assert (o < 3)%nat as Hlt; [|vm_compute; lia].
    cbn in Ho. rewrite !elem_of_cons in Ho.
    destruct Ho as [->|[->|[->|Ho%elem_of_nil]]]; [lia..|done].
  - vm_compute. reflexivity.
  - apply NoDup_singleton.
Defined.
